(** * myspice: the MNA assembler, the linear solver and the circuit solver

    A shallow embedding of [matrix.hpp], [mna.hpp]/[mna.cpp] and
    [circuit.hpp]/[circuit.cpp], and the properties of the specification
    proved over it.

    Conventions of the embedding.
    - A C++ [int] is a [Z]; node numbers, matrix sizes and loop counters are
      far from the limits of [int] in every run that can allocate its
      matrices, so no wrap-around is modelled.
    - [double] and [std::complex<double>] are the carrier types of the class
      [Scalars]; every arithmetic operator and comparison the sources apply
      to them is one operation of that class.  Theorems that need no law of
      arithmetic hold for any implementation of the operations; the laws a
      theorem needs are its hypotheses, and [exact_scalars] (complex
      numbers with rational parts) satisfies all of them.  Where rounding
      decides, a run is evaluated on [binary64_scalars].
    - An exception is a value of [exception]; code that can throw returns a
      [result]. *)

From Stdlib Require Import ZArith List String Ascii Lia QArith Qcanon Lqa.
From Stdlib Require OrderedTypeEx.
From Stdlib Require Floats.PrimFloat.
From stdpp Require Import gmap strings list.

Local Open Scope Z_scope.

(** ** Exceptions *)

Inductive exception : Type :=
| out_of_range (what : string)
| runtime_error (what : string).

Inductive result (A : Type) : Type :=
| Ok (a : A)
| Throw (e : exception).
Arguments Ok {A} a.
Arguments Throw {A} e.

Definition bind {A B : Type} (r : result A) (k : A -> result B) : result B :=
  match r with
  | Ok a => k a
  | Throw e => Throw e
  end.

Notation "'let*' x ':=' r 'in' k" := (bind r (fun x => k))
  (at level 10, x name, r at level 100, k at level 200,
   format "'[v' 'let*'  x  ':='  r  'in' '/' k ']'").

Definition what (e : exception) : string :=
  match e with
  | out_of_range w => w
  | runtime_error w => w
  end.

(** ** Loops *)

(** [for (int i = lo; i < hi; i++) body] over a state [S]. *)
Fixpoint for_loop {S : Type} (n : nat) (i : Z) (body : Z -> S -> result S)
  (s : S) : result S :=
  match n with
  | O => Ok s
  | Datatypes.S n' => let* s' := body i s in for_loop n' (i + 1) body s'
  end.

Definition for_range {S : Type} (lo hi : Z) (body : Z -> S -> result S)
  (s : S) : result S :=
  for_loop (Z.to_nat (hi - lo)) lo body s.

(** [for (int i = hi - 1; i >= lo; i--) body]. *)
Fixpoint for_loop_down {S : Type} (n : nat) (i : Z) (body : Z -> S -> result S)
  (s : S) : result S :=
  match n with
  | O => Ok s
  | Datatypes.S n' => let* s' := body i s in for_loop_down n' (i - 1) body s'
  end.

Definition for_range_down {S : Type} (lo hi : Z) (body : Z -> S -> result S)
  (s : S) : result S :=
  for_loop_down (Z.to_nat (hi - lo)) (hi - 1) body s.

(** A range-based [for] over a vector, with the running index [i] that the
    source keeps next to it ([i++] at the end of the body). *)
Fixpoint for_each {A S : Type} (body : Z -> A -> S -> result S) (i : Z)
  (l : list A) (s : S) : result S :=
  match l with
  | [] => Ok s
  | x :: l' => let* s' := body i x s in for_each body (i + 1) l' s'
  end.

(** ** Scalars: [double] and [std::complex<double>] *)

Class Scalars : Type := {
  real : Type;                        (* double *)
  cplx : Type;                        (* std::complex<double> *)
  magn : Type;                        (* the value of std::abs(z) *)
  r_of_int : Z -> real;               (* an int converted to double *)
  r_1e_9 : real;                      (* the literal 1e-9 *)
  r_opp : real -> real;               (* -x *)
  r_div : real -> real -> real;       (* x / y *)
  r_eqb : real -> real -> bool;       (* x == y *)
  c_zero : cplx;                      (* std::complex<double>() *)
  c_of_real : real -> cplx;           (* converting constructor *)
  c_i : cplx;                         (* the literal 1i *)
  c_opp : cplx -> cplx;               (* -z *)
  c_add : cplx -> cplx -> cplx;       (* z + w,  z += w *)
  c_sub : cplx -> cplx -> cplx;       (* z - w,  z -= w *)
  c_mul : cplx -> cplx -> cplx;       (* z * w,  z *= w *)
  c_div : cplx -> cplx -> cplx;       (* z / w *)
  c_add_r : cplx -> real -> cplx;     (* z += x *)
  c_sub_r : cplx -> real -> cplx;     (* z -= x *)
  c_mul_r : cplx -> real -> cplx;     (* z * x *)
  r_div_c : real -> cplx -> cplx;     (* x / z *)
  c_neb_r : cplx -> real -> bool;     (* z != x *)
  c_abs : cplx -> magn;               (* std::abs(z) *)
  m_gtb : magn -> magn -> bool;       (* x > y on values of std::abs *)
  m_eqb_r : magn -> real -> bool;     (* x == y, x a value of std::abs *)
}.

(** ** matrix.hpp *)

Record matrix (T : Type) : Type := Matrix {
  m_matrix : list T;
  m_w : Z;
  m_h : Z;
}.
Arguments Matrix {T} m_matrix m_w m_h.
Arguments m_matrix {T} m.
Arguments m_w {T} m.
Arguments m_h {T} m.

Section MatrixOps.
Context {T : Type} (dflt : T).

Definition get_width (m : matrix T) : Z := m_w m.
Definition get_height (m : matrix T) : Z := m_h m.

(** [matrix(int h, int w)]: [w * h] value-initialised elements. *)
Definition matrix_new (h w : Z) : matrix T :=
  Matrix (replicate (Z.to_nat (w * h)) dflt) w h.

(** The bounds check of [operator()] and the position it yields in the
    row-major vector. *)
Definition mat_index (m : matrix T) (row col : Z) : result nat :=
  if (row <? 0) || (row >=? get_height m) || (col <? 0) || (col >=? get_width m)
  then Throw (out_of_range "access outside of matrix")
  else Ok (Z.to_nat (row * m_w m + col)).

(** The element stored at a position of the vector. *)
Definition cell (m : matrix T) (idx : nat) : T :=
  default dflt (m_matrix m !! idx).

Definition with_cell (m : matrix T) (idx : nat) (v : T) : matrix T :=
  Matrix (<[idx := v]> (m_matrix m)) (m_w m) (m_h m).

(** Reading [m(row, col)] or [m.at(row, col)]. *)
Definition mat_get (m : matrix T) (row col : Z) : result T :=
  let* idx := mat_index m row col in Ok (cell m idx).

(** [m(row, col) = v]. *)
Definition mat_set (m : matrix T) (row col : Z) (v : T) : result (matrix T) :=
  let* idx := mat_index m row col in Ok (with_cell m idx v).

(** [m(row, col) op= ...]: the reference is taken once and updated. *)
Definition mat_upd (m : matrix T) (row col : Z) (f : T -> T)
  : result (matrix T) :=
  let* idx := mat_index m row col in Ok (with_cell m idx (f (cell m idx))).

(** [replace(row, col, mat)]. *)
Definition replace (m : matrix T) (row col : Z) (mat : matrix T)
  : result (matrix T) :=
  if (row <? 0) || (col <? 0)
     || (row + get_height mat - 1 >=? get_height m)
     || (col + get_width mat - 1 >=? get_width m)
  then Throw (out_of_range "matrix<T>::replace() - out of range")
  else
    for_range 0 (get_height mat) (fun y m1 =>
      for_range 0 (get_width mat) (fun x m2 =>
        let* v := mat_get mat y x in
        mat_set m2 (y + row) (x + col) v) m1) m.

(** [transpose()]. *)
Definition transpose (m : matrix T) : result (matrix T) :=
  for_range 0 (get_height m) (fun y m1 =>
    for_range 0 (get_width m) (fun x m2 =>
      let* v := mat_get m y x in
      mat_set m2 x y v) m1) (matrix_new (get_width m) (get_height m)).

(** The nested loop that [replace] and [transpose] share: the element
    [(y, x)] of [mat] is stored at the position [(fr y x, fc y x)] of [m]. *)
Definition copy_loop (fr fc : Z -> Z -> Z) (mat m : matrix T)
  : result (matrix T) :=
  for_range 0 (get_height mat) (fun y m1 =>
    for_range 0 (get_width mat) (fun x m2 =>
      let* v := mat_get mat y x in
      mat_set m2 (fr y x) (fc y x) v) m1) m.

Definition join_matrices_horizontal (l r : matrix T) : result (matrix T) :=
  if negb (get_height l =? get_height r)
  then Throw (runtime_error
                "cannot horizontally join matrices of different heights")
  else
    let mat := matrix_new (get_height l) (get_width l + get_width r) in
    let* mat := replace mat 0 0 l in
    replace mat 0 (get_width l) r.

Definition join_matrices_vertical (u d : matrix T) : result (matrix T) :=
  if negb (get_width u =? get_width d)
  then Throw (runtime_error
                "cannot vertically join matrices of different widths")
  else
    let mat := matrix_new (get_height u + get_height d) (get_width u) in
    let* mat := replace mat 0 0 u in
    replace mat (get_height u) 0 d.

(** The element in row [r], column [c], for stating properties. *)
Definition entry (m : matrix T) (r c : Z) : T :=
  cell m (Z.to_nat (r * m_w m + c)).

Definition in_range (m : matrix T) (r c : Z) : Prop :=
  0 <= r < m_h m /\ 0 <= c < m_w m.

(** The vector holds exactly [m_w * m_h] elements. *)
Definition well_formed (m : matrix T) : Prop :=
  0 <= m_w m /\ 0 <= m_h m /\
  length (m_matrix m) = Z.to_nat (m_w m * m_h m).

(** A well-formed matrix of [h] rows and [w] columns. *)
Definition shape (m : matrix T) (h w : Z) : Prop :=
  well_formed m /\ m_h m = h /\ m_w m = w.

(** [m] with the element in row [r], column [c] replaced by [v]. *)
Definition mat_write (m : matrix T) (r c : Z) (v : T) : matrix T :=
  with_cell m (Z.to_nat (r * m_w m + c)) v.

End MatrixOps.

(** *** The arithmetic operators of [matrix<T>]

    [mul] and [add] are the [*] and [+] of the element type (also behind
    [*=] and [+=]); [of_int] is the conversion of an [int] to it, which
    [res(i, j) = 0] applies. *)

(** A [const T &] passed to an operator of a matrix: a reference to an
    object outside the matrix, or to the element of the matrix at a
    position of its vector (as [m(r, c)] and [m.at(r, c)] return it). *)
Inductive scalar_ref (T : Type) : Type :=
| outside (v : T)
| element (idx : nat).
Arguments outside {T} v.
Arguments element {T} idx.

Section MatrixArithmetic.
Context {T : Type} (dflt : T).
Variables (add mul : T -> T -> T) (of_int : Z -> T).

(** The value that the reference [scalar] reads while the matrix is [m]. *)
Definition deref (m : matrix T) (scalar : scalar_ref T) : T :=
  match scalar with
  | outside v => v
  | element idx => cell dflt m idx
  end.

(** [operator*(const T &scalar)]: [at(y, x) *= scalar] for every element,
    in place; [scalar] is read anew at every element.  The result is the
    matrix itself after the loop. *)
Definition operator_mul_scalar (m : matrix T) (scalar : scalar_ref T)
  : result (matrix T) :=
  for_range 0 (get_height m) (fun y m1 =>
    for_range 0 (get_width m) (fun x m2 =>
      mat_upd dflt m2 y x (fun v => mul v (deref m2 scalar))) m1) m.

(** [operator+(const T &scalar)]: [at(y, x) += scalar], in the same way. *)
Definition operator_add_scalar (m : matrix T) (scalar : scalar_ref T)
  : result (matrix T) :=
  for_range 0 (get_height m) (fun y m1 =>
    for_range 0 (get_width m) (fun x m2 =>
      mat_upd dflt m2 y x (fun v => add v (deref m2 scalar))) m1) m.

(** [operator*(const matrix<T> &lhs, const matrix<U> &rhs)], for operands
    and a result of one element type. *)
Definition operator_mul (lhs rhs : matrix T) : result (matrix T) :=
  if negb (get_width lhs =? get_height rhs)
  then Throw (runtime_error "invalid matrix dimensions in multiplication")
  else
    for_range 0 (get_height lhs) (fun i res =>
      for_range 0 (get_width rhs) (fun j res =>
        let* res := mat_set res i j (of_int 0) in
        for_range 0 (get_width lhs) (fun k res =>
          let* a := mat_get dflt lhs i k in
          let* b := mat_get dflt rhs k j in
          mat_upd dflt res i j (fun v => add v (mul a b))) res) res)
      (matrix_new dflt (get_height lhs) (get_width rhs)).

(** The sum that the innermost loop of the product accumulates for the
    element [(i, j)]: the terms [lhs(i, k) * rhs(k, j)] added in the order
    of [k], starting from the converted [0]. *)
Definition dot_product (lhs rhs : matrix T) (i j : Z) : T :=
  fold_left (fun acc k => add acc (mul (entry dflt lhs i k)
                                     (entry dflt rhs k j)))
    (seqZ 0 (m_w lhs)) (of_int 0).

End MatrixArithmetic.

(** ** mna.hpp, mna.cpp *)

Module mna.
Section WithScalars.
Context {SC : Scalars}.

(** Nodes are numbered from 0; a negative node is the reference (ground). *)
Record admittance : Type := Admittance {
  adm_nodes : Z * Z;
  Y : cplx;
}.

Record voltage_source : Type := VoltageSource {
  vs_nodes : Z * Z;
  V : real;
}.

Record current_source : Type := CurrentSource {
  cs_nodes : Z * Z;
  I : real;
}.

Record opamp : Type := Opamp {
  pos_input_node : Z;
  neg_input_node : Z;
  output_node : Z;
}.

Record mna_solution : Type := MnaSolution {
  m_solution : matrix cplx;
  m_node_count : Z;
  m_voltage_source_count : Z;
}.

Record mna_problem : Type := MnaProblem {
  admittances : list admittance;
  voltage_sources : list voltage_source;
  current_sources : list current_source;
  opamps : list opamp;
}.

(** The literal [0.0], and the ints [1] and [-1] stored in a complex
    matrix. *)
Definition r_zero : real := r_of_int 0.
Definition c_one : cplx := c_of_real (r_of_int 1).
Definition c_minus_one : cplx := c_of_real (r_of_int (-1)).

Definition singular_what : string :=
  "Could not solve equation system (Gaussian elimination failed)".
Definition dimensions_what : string :=
  "Invalid equation system dimensions".

(** *** gaussian_elimination and its three row helpers *)

Definition swap_rows (a b : Z) (mat : matrix cplx) : result (matrix cplx) :=
  for_range 0 (get_width mat) (fun i mat =>
    let* ia := mat_index mat a i in
    let* ib := mat_index mat b i in
    let va := cell c_zero mat ia in
    let vb := cell c_zero mat ib in
    Ok (with_cell (with_cell mat ia vb) ib va)) mat.

Definition add_rows (dest src : Z) (mat : matrix cplx) : result (matrix cplx) :=
  for_range 0 (get_width mat) (fun i mat =>
    let* v := mat_get c_zero mat src i in
    mat_upd c_zero mat dest i (fun x => c_add x v)) mat.

Definition multiply_row (r : Z) (k : cplx) (mat : matrix cplx)
  : result (matrix cplx) :=
  for_range 0 (get_width mat) (fun i mat =>
    mat_upd c_zero mat r i (fun x => c_mul x k)) mat.

(** The search for the row with the largest [std::abs] in column [k],
    among the rows [k .. N-1]: the pair [(max, row_max)]. *)
Definition find_pivot (N k : Z) (mat : matrix cplx) : result (magn * Z) :=
  let* d := mat_get c_zero mat k k in
  for_range (k + 1) N (fun i st =>
    let* e := mat_get c_zero mat i k in
    let x := c_abs e in
    if m_gtb x (fst st) then Ok (x, i) else Ok st) (c_abs d, k).

(** The loop that clears column [k] below the pivot row [k]. *)
Definition reduce_below (N k : Z) (v : cplx) (mat : matrix cplx)
  : result (matrix cplx) :=
  for_range (k + 1) N (fun i mat =>
    let* e := mat_get c_zero mat i k in
    if c_neb_r e r_zero then
      let* e := mat_get c_zero mat i k in
      let* mat := multiply_row i (c_div (c_opp v) e) mat in
      add_rows i k mat
    else Ok mat) mat.

(** One iteration of the reduction to row echelon form. *)
Definition eliminate_column (N k : Z) (mat : matrix cplx)
  : result (matrix cplx) :=
  let* p := find_pivot N k mat in
  if m_eqb_r (fst p) r_zero then Throw (runtime_error singular_what)
  else
    let* mat := swap_rows (snd p) k mat in
    let* v := mat_get c_zero mat k k in
    reduce_below N k v mat.

(** The reduction of the columns [0 .. K-1]. *)
Definition eliminate (N K : Z) (mat : matrix cplx) : result (matrix cplx) :=
  for_range 0 K (eliminate_column N) mat.

Definition back_substitution (N : Z) (mat : matrix cplx)
  : result (matrix cplx) :=
  for_range_down 0 N (fun i solution =>
    let* sum := mat_get c_zero mat i N in
    let* sum := for_range i N (fun j sum =>
                  let* a := mat_get c_zero mat i j in
                  let* x := mat_get c_zero solution j 0 in
                  Ok (c_sub sum (c_mul a x))) sum in
    let* d := mat_get c_zero mat i i in
    mat_set solution i 0 (c_div sum d)) (matrix_new c_zero N 1).

Definition gaussian_elimination (mat : matrix cplx) : result (matrix cplx) :=
  let N := get_height mat in
  if negb (get_width mat =? N + 1)
  then Throw (runtime_error dimensions_what)
  else
    let* mat := eliminate N N mat in
    back_substitution N mat.

(** *** mna_problem *)

Definition get_max_node (p : mna_problem) : Z :=
  let max_node := -1 in
  let max_node :=
    fold_left (fun mx v =>
      Z.max (Z.max mx (fst (adm_nodes v))) (snd (adm_nodes v)))
      (admittances p) max_node in
  let max_node :=
    fold_left (fun mx v =>
      Z.max (Z.max mx (fst (vs_nodes v))) (snd (vs_nodes v)))
      (voltage_sources p) max_node in
  let max_node :=
    fold_left (fun mx v =>
      Z.max (Z.max mx (fst (cs_nodes v))) (snd (cs_nodes v)))
      (current_sources p) max_node in
  fold_left (fun mx v =>
    Z.max (Z.max (Z.max mx (pos_input_node v)) (neg_input_node v))
      (output_node v))
    (opamps p) max_node.

(** The loop over the admittances that fills [G]. *)
Definition fill_G (p : mna_problem) (G : matrix cplx) : result (matrix cplx) :=
  for_each (fun _ elem G =>
    let a := fst (adm_nodes elem) in
    let b := snd (adm_nodes elem) in
    let* G := if a >=? 0
              then mat_upd c_zero G a a (fun g => c_add g (Y elem))
              else Ok G in
    let* G := if b >=? 0
              then mat_upd c_zero G b b (fun g => c_add g (Y elem))
              else Ok G in
    if (a >=? 0) && (b >=? 0) then
      let* G := mat_upd c_zero G a b (fun g => c_sub g (Y elem)) in
      mat_upd c_zero G b a (fun g => c_sub g (Y elem))
    else Ok G) 0 (admittances p) G.

(** The loop over the voltage sources that fills [B]. *)
Definition fill_B_sources (p : mna_problem) (B : matrix cplx)
  : result (matrix cplx) :=
  for_each (fun i vs B =>
    let* B := if fst (vs_nodes vs) >=? 0
              then mat_set B (fst (vs_nodes vs)) i c_one
              else Ok B in
    if snd (vs_nodes vs) >=? 0
    then mat_set B (snd (vs_nodes vs)) i c_minus_one
    else Ok B) 0 (voltage_sources p) B.

(** The op-amp outputs, in the columns of [B] after the voltage sources. *)
Definition fill_B_opamps (p : mna_problem) (B : matrix cplx)
  : result (matrix cplx) :=
  for_each (fun i opa B =>
    if output_node opa >=? 0
    then mat_set B (output_node opa) i c_one
    else Ok B) (Z.of_nat (length (voltage_sources p))) (opamps p) B.

(** The op-amp inputs, in the rows of [C] after the voltage sources. *)
Definition fill_C_opamps (p : mna_problem) (C : matrix cplx)
  : result (matrix cplx) :=
  for_each (fun i opa C =>
    let* C := if pos_input_node opa >=? 0
              then mat_set C i (pos_input_node opa) c_one
              else Ok C in
    if neg_input_node opa >=? 0
    then mat_set C i (neg_input_node opa) c_minus_one
    else Ok C) (Z.of_nat (length (voltage_sources p))) (opamps p) C.

Definition compute_matrix_A (p : mna_problem) (node_count : Z)
  : result (matrix cplx) :=
  let n := node_count in
  let m := Z.of_nat (length (opamps p)) + Z.of_nat (length (voltage_sources p)) in
  let G := matrix_new c_zero n n in
  let B := matrix_new c_zero n m in
  let D := matrix_new c_zero m m in
  let* G := fill_G p G in
  let* B := fill_B_sources p B in
  let* C := transpose c_zero B in
  let* B := fill_B_opamps p B in
  let* C := fill_C_opamps p C in
  let* GB := join_matrices_horizontal c_zero G B in
  let* CD := join_matrices_horizontal c_zero C D in
  join_matrices_vertical c_zero GB CD.

Definition compute_matrix_z (p : mna_problem) (node_count : Z)
  : result (matrix cplx) :=
  let n := node_count in
  let m := Z.of_nat (length (opamps p)) + Z.of_nat (length (voltage_sources p)) in
  let I_ := matrix_new c_zero n 1 in
  let E := matrix_new c_zero m 1 in
  let* I_ :=
    for_each (fun _ cs I_ =>
      let* I_ := if fst (cs_nodes cs) >=? 0
                 then mat_upd c_zero I_ (fst (cs_nodes cs)) 0
                        (fun x => c_add_r x (I cs))
                 else Ok I_ in
      if snd (cs_nodes cs) >=? 0
      then mat_upd c_zero I_ (snd (cs_nodes cs)) 0
             (fun x => c_add_r x (r_opp (I cs)))
      else Ok I_) 0 (current_sources p) I_ in
  let* E :=
    for_each (fun i vs E => mat_set E i 0 (c_of_real (V vs)))
      0 (voltage_sources p) E in
  join_matrices_vertical c_zero I_ E.

Definition solve (p : mna_problem) : result mna_solution :=
  let node_count := get_max_node p + 1 in
  let* A := compute_matrix_A p node_count in
  let* z := compute_matrix_z p node_count in
  let* system := join_matrices_horizontal c_zero A z in
  let* x := gaussian_elimination system in
  Ok (MnaSolution x node_count (Z.of_nat (length (voltage_sources p)))).

(** *** mna_solution *)

Definition voltage (s : mna_solution) (pos neg : Z) : result cplx :=
  if (pos >=? m_node_count s) || (neg >=? m_node_count s)
  then Throw (out_of_range "mna_solution::voltage() invalid node ID")
  else
    let* vpos := if pos <? 0 then Ok (c_of_real r_zero)
                 else mat_get c_zero (m_solution s) pos 0 in
    let* vneg := if neg <? 0 then Ok (c_of_real r_zero)
                 else mat_get c_zero (m_solution s) neg 0 in
    Ok (c_sub vpos vneg).

Definition voltage_source_current (s : mna_solution) (id : Z) : result cplx :=
  if (id <? 0) || (id >=? m_voltage_source_count s)
  then Throw (out_of_range
                "mna_solution::voltage_source_current() invalid source ID")
  else mat_get c_zero (m_solution s) (m_node_count s + id) 0.

Definition opamp_current (s : mna_solution) (id : Z) : result cplx :=
  if (id <? 0)
     || (id >=? get_height (m_solution s) - m_node_count s
                - m_voltage_source_count s)
  then Throw (out_of_range "mna_solution::opamp_current() invalid source ID")
  else mat_get c_zero (m_solution s)
         (m_node_count s + m_voltage_source_count s + id) 0.

End WithScalars.
End mna.

(** ** std::map<std::string, V>

    The map is its sequence of (key, value) pairs in iteration order, which
    [std::map] keeps ascending for [std::less<std::string>]: the
    lexicographic order of the characters, [String.compare]. *)

Module std_map.
Section WithValue.
Context {V : Type}.

(** [m[k] = v]: inserts the key or overwrites its value. *)
Fixpoint assign (k : string) (v : V) (m : list (string * V))
  : list (string * V) :=
  match m with
  | [] => [(k, v)]
  | (k', v') :: m' =>
      match String.compare k k' with
      | Lt => (k, v) :: (k', v') :: m'
      | Eq => (k, v) :: m'
      | Gt => (k', v') :: assign k v m'
      end
  end.

(** [m.at(k)]. *)
Fixpoint at_ (k : string) (m : list (string * V)) : result V :=
  match m with
  | [] => Throw (out_of_range "map::at")
  | (k', v') :: m' => if String.eqb k k' then Ok v' else at_ k m'
  end.

(** The map built by a sequence of assignments, first to last. *)
Definition build (l : list (string * V)) : list (string * V) :=
  fold_left (fun m kv => assign (fst kv) (snd kv) m) l [].

(** Keys strictly ascending: what every [std::map] satisfies. *)
Fixpoint ascending (m : list (string * V)) : Prop :=
  match m with
  | [] => True
  | (k, _) :: m' =>
      match m' with
      | [] => True
      | (k', _) :: _ => String.compare k k' = Lt /\ ascending m'
      end
  end.

End WithValue.
End std_map.

(** ** circuit.hpp, circuit.cpp *)

Section Circuit.
Context {SC : Scalars}.

(** The classes derived from [circuit_component]; the last two stand for
    an object of a base class itself. *)
Inductive circuit_component : Type :=
| resistor (nodes : Z * Z) (R : real)
| inductor (nodes : Z * Z) (L : real)
| capacitor (nodes : Z * Z) (C : real)
| voltage_source (nodes : Z * Z) (dcV acV : real)
| current_source (nodes : Z * Z) (dcI acI : real)
| opamp (pos_input_node neg_input_node output_node : Z)
| bipole_component (nodes : Z * Z)
| base_component.

(** [dynamic_cast<const bipole_component*>]: the [nodes] of the object. *)
Definition as_bipole (c : circuit_component) : option (Z * Z) :=
  match c with
  | resistor n _ | inductor n _ | capacitor n _
  | voltage_source n _ _ | current_source n _ _
  | bipole_component n => Some n
  | opamp _ _ _ | base_component => None
  end.

(** [passive_component::admittance], as overridden by the three passive
    classes; [None] when the object is no [passive_component]. *)
Definition admittance (c : circuit_component) (omega : real) : option cplx :=
  match c with
  | resistor _ R => Some (c_of_real (r_div (r_of_int 1) R))
  | inductor _ L =>
      Some (r_div_c (r_of_int 1)
              (if r_eqb omega (r_of_int 0)
               then c_of_real r_1e_9
               else c_mul_r (c_mul_r c_i omega) L))
  | capacitor _ C => Some (c_mul_r (c_mul_r c_i omega) C)
  | _ => None
  end.

(** A [std::shared_ptr<circuit_component>]: the address it holds and the
    object at that address. *)
Record component_ptr : Type := ComponentPtr {
  address : Z;
  pointee : circuit_component;
}.

Definition circuit : Type := list (string * component_ptr).

Record circuit_solver : Type := CircuitSolver {
  m_node_map : gmap Z Z;
  m_problem : mna.mna_problem;
  m_solution : option mna.mna_solution;
  m_solution_omega : option real;
}.

(** [m_node_map.at(n)]. *)
Definition node_at (node_map : gmap Z Z) (n : Z) : result Z :=
  match node_map !! n with
  | Some i => Ok i
  | None => Throw (out_of_range "map::at")
  end.

(** *** update_node_map *)

(** The lambda [add_node], on the pair of [m_node_map] and [cnt]. *)
Definition add_node (n : Z) (st : gmap Z Z * Z) : gmap Z Z * Z :=
  match fst st !! n with
  | Some _ => st
  | None => (<[n := snd st]> (fst st), snd st + 1)
  end.

Definition add_component_nodes (c : circuit_component) (st : gmap Z Z * Z)
  : gmap Z Z * Z :=
  let st := match as_bipole c with
            | Some n => add_node (snd n) (add_node (fst n) st)
            | None => st
            end in
  match c with
  | opamp p n o => add_node o (add_node n (add_node p st))
  | _ => st
  end.

Definition node_map_of (circ : circuit) : gmap Z Z * Z :=
  fold_left (fun st kv => add_component_nodes (pointee (snd kv)) st)
    circ (<[0 := -1]> ∅, 0).

Definition update_node_map (circ : circuit) (s : circuit_solver)
  : circuit_solver :=
  CircuitSolver (fst (node_map_of circ)) (m_problem s) (m_solution s)
    (m_solution_omega s).

(** *** solve *)

Definition map_node_pair (node_map : gmap Z Z) (p : Z * Z) : result (Z * Z) :=
  let* a := node_at node_map (fst p) in
  let* b := node_at node_map (snd p) in
  Ok (a, b).

(** The body of the loop of [solve] for one component. *)
Definition lower_component (node_map : gmap Z Z) (omega : real)
  (c : circuit_component) (p : mna.mna_problem) : result mna.mna_problem :=
  let* p :=
    match admittance c omega, as_bipole c with
    | Some y, Some nodes =>
        let* ab := map_node_pair node_map nodes in
        Ok (mna.MnaProblem (mna.admittances p ++ [mna.Admittance ab y])
              (mna.voltage_sources p) (mna.current_sources p) (mna.opamps p))
    | _, _ => Ok p
    end in
  let* p :=
    match c with
    | opamp pn nn on =>
        let* a := node_at node_map pn in
        let* b := node_at node_map nn in
        let* o := node_at node_map on in
        Ok (mna.MnaProblem (mna.admittances p) (mna.voltage_sources p)
              (mna.current_sources p) (mna.opamps p ++ [mna.Opamp a b o]))
    | _ => Ok p
    end in
  let* p :=
    match c with
    | voltage_source nodes dcV acV =>
        let x := if r_eqb omega (r_of_int 0) then dcV else acV in
        let* ab := map_node_pair node_map nodes in
        Ok (mna.MnaProblem (mna.admittances p)
              (mna.voltage_sources p ++ [mna.VoltageSource ab x])
              (mna.current_sources p) (mna.opamps p))
    | _ => Ok p
    end in
  match c with
  | current_source nodes dcI acI =>
      let x := if r_eqb omega (r_of_int 0) then dcI else acI in
      let* ab := map_node_pair node_map nodes in
      Ok (mna.MnaProblem (mna.admittances p) (mna.voltage_sources p)
            (mna.current_sources p ++ [mna.CurrentSource ab x]) (mna.opamps p))
  | _ => Ok p
  end.

(** The loop of [solve] over the circuit; an exception leaves the problem
    as the components before it made it. *)
Fixpoint lower (node_map : gmap Z Z) (omega : real) (circ : circuit)
  (p : mna.mna_problem) : mna.mna_problem * result unit :=
  match circ with
  | [] => (p, Ok tt)
  | (_, comp_ptr) :: rest =>
      match lower_component node_map omega (pointee comp_ptr) p with
      | Ok p' => lower node_map omega rest p'
      | Throw e => (p, Throw e)
      end
  end.

Definition operating_point_what : string :=
  "Could not compute operating point - reason: ".

(** [solve(omega)]: the solver after the call, and how the call ended. *)
Definition solve (circ : circuit) (omega : real) (s : circuit_solver)
  : circuit_solver * result unit :=
  let node_map := m_node_map s in
  let solution := m_solution s in
  let '(problem, r) := lower node_map omega circ (mna.MnaProblem [] [] [] []) in
  match r with
  | Throw e => (CircuitSolver node_map problem solution (Some omega), Throw e)
  | Ok _ =>
      match mna.solve problem with
      | Ok x => (CircuitSolver node_map problem (Some x) (Some omega), Ok tt)
      | Throw (runtime_error ex_what) =>
          (CircuitSolver node_map problem solution (Some omega),
           Throw (runtime_error (operating_point_what ++ ex_what)%string))
      | Throw e =>
          (CircuitSolver node_map problem solution (Some omega), Throw e)
      end
  end.

(** The constructor: an empty solver, then [update_node_map]. *)
Definition new_solver (circ : circuit) : circuit_solver :=
  update_node_map circ (CircuitSolver ∅ (mna.MnaProblem [] [] [] []) None None).

(** [get_solution] and [get_solution_omega] dereference the optional
    members; the value is defined when the member holds one. *)
Definition get_solution (s : circuit_solver) : option mna.mna_solution :=
  m_solution s.
Definition get_solution_omega (s : circuit_solver) : option real :=
  m_solution_omega s.

Definition update (circ : circuit) (s : circuit_solver)
  : circuit_solver * result unit :=
  let s := update_node_map circ s in
  match m_solution s, m_solution_omega s with
  | Some _, Some omega => solve circ omega s
  | _, _ => (s, Ok tt)
  end.

(** *** The queries, for a solver that holds [solution] and [omega] *)

Section Queries.
Variable circ : circuit.
Variable node_map : gmap Z Z.
Variable solution : mna.mna_solution.
Variable omega : real.

Definition voltage_between (pos neg : Z) : result cplx :=
  let* a := node_at node_map pos in
  let* b := node_at node_map neg in
  mna.voltage solution a b.

Definition voltage (comp : component_ptr) : result cplx :=
  match as_bipole (pointee comp) with
  | Some nodes => voltage_between (fst nodes) (snd nodes)
  | None =>
      match pointee comp with
      | opamp _ _ o => voltage_between o 0
      | _ => Throw (runtime_error "Cannot measure voltage on component")
      end
  end.

(** The counting loops of [current]: the number of components of the
    wanted class met before the one at the address of [comp]. *)
Fixpoint count_until (wanted : circuit_component -> bool) (addr : Z)
  (l : circuit) (cnt : Z) : Z :=
  match l with
  | [] => cnt
  | (_, v) :: rest =>
      if wanted (pointee v) then
        if address v =? addr then cnt
        else count_until wanted addr rest (cnt + 1)
      else count_until wanted addr rest cnt
  end.

Definition is_voltage_source (c : circuit_component) : bool :=
  match c with voltage_source _ _ _ => true | _ => false end.

Definition is_opamp (c : circuit_component) : bool :=
  match c with opamp _ _ _ => true | _ => false end.

Definition current (comp : component_ptr) : result cplx :=
  match admittance (pointee comp) omega with
  | Some y => let* v := voltage comp in Ok (c_mul v y)
  | None =>
      match pointee comp with
      | voltage_source _ _ _ =>
          mna.voltage_source_current solution
            (count_until is_voltage_source (address comp) circ 0)
      | current_source _ dcI acI =>
          Ok (c_of_real (if r_eqb omega (r_of_int 0)
                         then r_opp dcI else r_opp acI))
      | opamp _ _ _ =>
          mna.opamp_current solution
            (count_until is_opamp (address comp) circ 0)
      | _ => Throw (runtime_error "Cannot measure current through component")
      end
  end.

(** [voltage(comp) * current(comp)].  The language leaves open which of
    the two calls runs first; [current_first] is the choice of the
    compiler.  It shows only in the exception that comes out when both
    calls throw. *)
Definition power (current_first : bool) (comp : component_ptr)
  : result cplx :=
  if current_first then
    let* i := current comp in
    let* v := voltage comp in
    Ok (c_mul v i)
  else
    let* v := voltage comp in
    let* i := current comp in
    Ok (c_mul v i).

(** The queries by reference. *)
Definition voltage_ref (ref : string) : result cplx :=
  let* comp := std_map.at_ ref circ in voltage comp.

Definition current_ref (ref : string) : result cplx :=
  let* comp := std_map.at_ ref circ in current comp.

Definition power_ref (current_first : bool) (ref : string) : result cplx :=
  let* comp := std_map.at_ ref circ in power current_first comp.

End Queries.

End Circuit.

(** ** extended.cpp

    A [std::string] is the list of its characters; an iterator into it is
    a position, [s.end()] being [length s]. *)

Module extended.

Inductive complex_probing_method : Type :=
| DEFAULT | MAGNITUDE | PHASE | REAL | IMAGINARY.

(** [probing_method_suffix]. *)
Definition probing_method_suffix (method : complex_probing_method) : string :=
  match method with
  | DEFAULT => ""
  | MAGNITUDE => "mag"
  | PHASE => "p"
  | REAL => "re"
  | IMAGINARY => "im"
  end.

(** [complex_probing_names.find(name)] of [read_spice_file]: the method of
    a name of the table, [None] for [end()]. *)
Definition complex_probing_names (name : string) : option complex_probing_method :=
  if String.eqb name "" then Some DEFAULT
  else if String.eqb name "re" then Some REAL
  else if String.eqb name "im" then Some IMAGINARY
  else if String.eqb name "mag" then Some MAGNITUDE
  else if String.eqb name "ph" then Some PHASE
  else None.

(** The name that the constructor of [current_probe] builds. *)
Definition current_probe_name (pm : complex_probing_method) (ref : string)
  : string :=
  ("I" ++ probing_method_suffix pm ++ "(" ++ ref ++ ")")%string.

(** [std::find_if(first, s.end(), predicate)], [l] being the characters
    from [first] on. *)
Fixpoint find_if_from (predicate : ascii -> bool) (l : list ascii)
  (first : nat) : nat :=
  match l with
  | [] => first
  | c :: l' => if predicate c then first
               else find_if_from predicate l' (S first)
  end.

Definition find_if (predicate : ascii -> bool) (s : list ascii) (first : nat)
  : nat :=
  find_if_from predicate (drop first s) first.

(** [std::string(bit, eit)]. *)
Definition substring (s : list ascii) (bit eit : nat) : list ascii :=
  take (eit - bit) (drop bit s).

(** The [while] loop of [tokenize_string], run for at most [fuel]
    iterations; [None] when they do not suffice. *)
Fixpoint tokenize_loop (fuel : nat) (s : list ascii)
  (predicate : ascii -> bool) (bit eit : nat) (tokens : list (list ascii))
  : option (list (list ascii)) :=
  match fuel with
  | O => None
  | S fuel' =>
      if negb (bit =? length s)%nat && negb (eit =? length s)%nat then
        let eit := find_if predicate s bit in
        let tokens := if negb (bit =? eit)%nat
                      then tokens ++ [substring s bit eit]
                      else tokens in
        tokenize_loop fuel' s predicate (S eit) eit tokens
      else Some tokens
  end.

Definition tokenize_string (fuel : nat) (s : list ascii)
  (predicate : ascii -> bool) : option (list (list ascii)) :=
  tokenize_loop fuel s predicate 0 0 [].

(** [isspace] in the "C" locale, which the program never changes. *)
Definition isspace (c : ascii) : bool :=
  let n := nat_of_ascii c in
  (n =? 32)%nat || ((9 <=? n)%nat && (n <=? 13)%nat).

End extended.

(** The maximal runs of characters of [l] that do not satisfy [predicate],
    in their order; [cur] is the run that is open at the start of [l]. *)
Fixpoint runs (predicate : ascii -> bool) (l cur : list ascii)
  : list (list ascii) :=
  match l with
  | [] => match cur with [] => [] | _ => [cur] end
  | c :: l' =>
      if predicate c
      then match cur with [] => [] | _ => [cur] end ++ runs predicate l' []
      else runs predicate l' (cur ++ [c])
  end.

(** * The words of the specification

    Definitions that follow the wording of the specification; the
    properties compare the embedded code with them. *)

(** ** The assembly, as the specification words it *)

Section AssemblySpec.
Context {SC : Scalars}.

(** The bound that [solve] gives [compute_matrix_A] and
    [compute_matrix_z]: every node of the problem is below [n]. *)
Definition nodes_below (n : Z) (p : mna.mna_problem) : Prop :=
  (forall v, In v (mna.admittances p) ->
     fst (mna.adm_nodes v) < n /\ snd (mna.adm_nodes v) < n) /\
  (forall v, In v (mna.voltage_sources p) ->
     fst (mna.vs_nodes v) < n /\ snd (mna.vs_nodes v) < n) /\
  (forall v, In v (mna.current_sources p) ->
     fst (mna.cs_nodes v) < n /\ snd (mna.cs_nodes v) < n) /\
  (forall v, In v (mna.opamps p) ->
     mna.pos_input_node v < n /\ mna.neg_input_node v < n /\
     mna.output_node v < n).

(** What one admittance [(a, b, Y)] does to the entry [(i, j)] of [G]:
    [G[a,a] += Y] when [a >= 0], [G[b,b] += Y] when [b >= 0], and
    [G[a,b] -= Y], [G[b,a] -= Y] when both are. *)
Definition G_contribution (i j : Z) (g : cplx) (elem : mna.admittance) : cplx :=
  let a := fst (mna.adm_nodes elem) in
  let b := snd (mna.adm_nodes elem) in
  let g := if (a >=? 0) && ((i =? a) && (j =? a))
           then c_add g (mna.Y elem) else g in
  let g := if (b >=? 0) && ((i =? b) && (j =? b))
           then c_add g (mna.Y elem) else g in
  let g := if ((a >=? 0) && (b >=? 0)) && ((i =? a) && (j =? b))
           then c_sub g (mna.Y elem) else g in
  if ((a >=? 0) && (b >=? 0)) && ((i =? b) && (j =? a))
  then c_sub g (mna.Y elem) else g.

(** The entry [(i, j)] of [G]: the contributions of all admittances, in
    their order, starting from zero. *)
Definition G_entry (p : mna.mna_problem) (i j : Z) : cplx :=
  fold_left (G_contribution i j) (mna.admittances p) c_zero.

(** What one current source [(a, b, I)] does to the entry [k] of [i]:
    [i[a] += I] when [a >= 0], [i[b] -= I] when [b >= 0]. *)
Definition i_contribution (k : Z) (x : cplx) (cs : mna.current_source) : cplx :=
  let a := fst (mna.cs_nodes cs) in
  let b := snd (mna.cs_nodes cs) in
  let x := if (a >=? 0) && (k =? a) then c_add_r x (mna.I cs) else x in
  if (b >=? 0) && (k =? b) then c_sub_r x (mna.I cs) else x.

Definition i_entry (p : mna.mna_problem) (k : Z) : cplx :=
  fold_left (i_contribution k) (mna.current_sources p) c_zero.

End AssemblySpec.

(** Two op-amps with the same input nodes; their output nodes may differ. *)
Definition same_inputs {SC : Scalars} (o o' : mna.opamp) : Prop :=
  mna.pos_input_node o = mna.pos_input_node o' /\
  mna.neg_input_node o = mna.neg_input_node o'.

(** ** The linear solver, as the specification words it *)

Section SolverSpec.
Context {SC : Scalars}.



(** The entries of [mat] after its rows [a] and [b] are exchanged. *)
Definition swapped (a b : Z) (mat : matrix cplx) (r c : Z) : cplx :=
  if r =? a then entry c_zero mat b c
  else if r =? b then entry c_zero mat a c
  else entry c_zero mat r c.

(** The entries of [mat] after the rows below the pivot row [k] are
    reduced: a row [r > k] with [mat[r,k] != 0] is multiplied by
    [-v / mat[r,k]] and then gets row [k] added. *)
Definition reduced (k : Z) (v : cplx) (mat : matrix cplx) (r c : Z) : cplx :=
  if (k <? r) && c_neb_r (entry c_zero mat r k) mna.r_zero
  then c_add (c_mul (entry c_zero mat r c)
                (c_div (c_opp v) (entry c_zero mat r k)))
         (entry c_zero mat k c)
  else entry c_zero mat r c.

(** The sum over [j > i] of [A[i,j] * x[j]]. *)
Definition sum_after (N : Z) (A x : matrix cplx) (i : Z) : cplx :=
  fold_left (fun acc j => c_add acc (c_mul (entry c_zero A i j)
                                       (entry c_zero x j 0)))
    (seqZ (i + 1) (N - (i + 1))) c_zero.

(** What the inner loop of the back substitution leaves in [sum]: the
    term of [j = i], where [solution(i, 0)] is still zero, and then the
    terms of [j > i], each subtracted in turn. *)
Definition back_sum (N : Z) (A x : matrix cplx) (i : Z) : cplx :=
  fold_left (fun sum j => c_sub sum (c_mul (entry c_zero A i j)
                                       (entry c_zero x j 0)))
    (seqZ (i + 1) (N - (i + 1)))
    (c_sub (entry c_zero A i N) (c_mul (entry c_zero A i i) c_zero)).

End SolverSpec.

(** ** The node map, as the specification words it *)

Section NodeMapSpec.
Context {SC : Scalars}.

(** The node labels that a component references, class by class: the two
    [nodes] of a component with two terminals, first then second; the
    positive input, the negative input and the output of an op-amp; none
    for an object of the base class. *)
Definition component_labels (c : circuit_component) : list Z :=
  match c with
  | resistor (a, b) _ => [a; b]
  | inductor (a, b) _ => [a; b]
  | capacitor (a, b) _ => [a; b]
  | voltage_source (a, b) _ _ => [a; b]
  | current_source (a, b) _ _ => [a; b]
  | bipole_component (a, b) => [a; b]
  | opamp p n o => [p; n; o]
  | base_component => []
  end.

(** The node labels of the circuit in iteration order. *)
Definition circuit_labels (circ : circuit) : list Z :=
  concat (map (fun kv => component_labels (pointee (snd kv))) circ).

(** The labels of [l] that are not in [seen], each once, in the order of
    their first occurrence. *)
Fixpoint first_encounters (seen : gset Z) (l : list Z) : list Z :=
  match l with
  | [] => []
  | x :: l' =>
      if decide (x ∈ seen) then first_encounters seen l'
      else x :: first_encounters ({[x]} ∪ seen) l'
  end.

(** The non-ground labels of the circuit in the order of first encounter. *)
Definition dense_order (circ : circuit) : list Z :=
  first_encounters {[0]} (circuit_labels circ).

End NodeMapSpec.

(** The state of [update_node_map] after the labels [assigned] got their
    indices. *)
Definition numbered (assigned : list Z) (st : gmap Z Z * Z) : Prop :=
  fst st !! 0 = Some (-1) /\
  snd st = Z.of_nat (length assigned) /\
  (forall k x, assigned !! k = Some x -> fst st !! x = Some (Z.of_nat k)) /\
  (forall x, is_Some (fst st !! x) <-> x = 0 \/ x ∈ assigned) /\
  (0 ∉ assigned) /\ NoDup assigned.

(** ** Ranks of the components of a circuit, as the specification words
    them *)

(** [a] is before [b] in the order of the references. *)
Definition key_lt (a b : string) : Prop := String.compare a b = Lt.

(** Every key of [m] is after [k]. *)
Definition above {V : Type} (k : string) (m : list (string * V)) : Prop :=
  Forall (fun kv => key_lt k (fst kv)) m.

Section RankSpec.
Context {SC : Scalars}.

(** The number of components of the wanted class whose reference is before
    [ref]: the rank of [ref] among the references of that class. *)
Definition rank (wanted : circuit_component -> bool) (ref : string)
  (circ : circuit) : Z :=
  Z.of_nat (length (List.filter
    (fun kv => wanted (pointee (snd kv)) && String.ltb (fst kv) ref) circ)).

(** No two references of the circuit hold the same object. *)
Definition distinct_objects (circ : circuit) : Prop :=
  NoDup (map (fun kv => address (snd kv)) circ).

End RankSpec.

(** The number of components of the wanted class in [l]. *)
Definition count_wanted {SC : Scalars} (wanted : circuit_component -> bool)
  (l : circuit) : nat :=
  length (List.filter (fun kv => wanted (pointee (snd kv))) l).

(** The voltage sources and the op-amps of [p] are those of [p0] followed
    by [nv] and [no] more. *)
Definition extended {SC : Scalars} (p0 p : mna.mna_problem) (nv no : nat)
  : Prop :=
  (exists lv, mna.voltage_sources p = mna.voltage_sources p0 ++ lv /\
              length lv = nv) /\
  (exists lo, mna.opamps p = mna.opamps p0 ++ lo /\ length lo = no).

(** [needle] occurs in [s]. *)
Fixpoint contains (needle s : string) : bool :=
  String.prefix needle s ||
  match s with
  | EmptyString => false
  | String _ s' => contains needle s'
  end.

(** ** The equations of a linear system *)

Section LinearSystemSpec.
Context {SC : Scalars}.

(** The left-hand side of equation [i] of the [N x (N+1)] system [A] at
    the column [x]: the terms [A[i,j] * x[j]] added in the order of [j]. *)
Definition lhs_at (N : Z) (A x : matrix cplx) (i : Z) : cplx :=
  fold_left (fun acc j => c_add acc (c_mul (entry c_zero A i j)
                                       (entry c_zero x j 0)))
    (seqZ 0 N) c_zero.

(** [x] satisfies every equation of the system: the left-hand side of
    equation [i] is its right-hand side [A[i,N]]. *)
Definition solves (N : Z) (A x : matrix cplx) : Prop :=
  forall i, 0 <= i < N -> lhs_at N A x i = entry c_zero A i N.

(** Exact arithmetic: the complex numbers form a field on which [z != 0.0]
    and [std::abs(z) == 0.0] tell whether [z] is zero, and the conversions
    of [0.0], [1] and [-1] are the zero, the one and its opposite. *)
Record exact_arithmetic : Prop := {
  ea_ring : ring_theory c_zero mna.c_one c_add c_mul c_sub c_opp eq;
  ea_div : forall a b : cplx, b <> c_zero -> c_mul (c_div a b) b = a;
  ea_neb : forall a : cplx, c_neb_r a mna.r_zero = false <-> a = c_zero;
  ea_abs : forall a : cplx,
    m_eqb_r (c_abs a) mna.r_zero = true <-> a = c_zero;
  ea_zero : c_of_real mna.r_zero = c_zero;
  ea_minus_one : mna.c_minus_one = c_opp mna.c_one;
}.

(** The coefficient of node [j] in the equation of a branch that goes from
    the node [plus] to the node [minus]: [1] was stored at [plus], then
    [-1] at [minus], each only for a node that is not the reference. *)
Definition incidence (plus minus j : Z) : cplx :=
  if (minus >=? 0) && (j =? minus) then mna.c_minus_one
  else if (plus >=? 0) && (j =? plus) then mna.c_one
  else c_zero.

(** The potential of a node in the solved column [x]; a negative node is
    the reference. *)
Definition potential (x : matrix cplx) (node : Z) : cplx :=
  if node <? 0 then c_zero else entry c_zero x node 0.

End LinearSystemSpec.

(** ** The nodes of a problem and the classes that [solve] lowers *)

Section LoweringSpec.
Context {SC : Scalars}.

(** Every node number that occurs in the problem. *)
Definition problem_nodes (p : mna.mna_problem) : list Z :=
  flat_map (fun v => [fst (mna.adm_nodes v); snd (mna.adm_nodes v)])
    (mna.admittances p)
  ++ flat_map (fun v => [fst (mna.vs_nodes v); snd (mna.vs_nodes v)])
       (mna.voltage_sources p)
  ++ flat_map (fun v => [fst (mna.cs_nodes v); snd (mna.cs_nodes v)])
       (mna.current_sources p)
  ++ flat_map (fun v => [mna.pos_input_node v; mna.neg_input_node v;
                         mna.output_node v])
       (mna.opamps p).

(** An object of one of the six classes that can be instantiated with a
    value; the loop of [solve] has a branch for each of them. *)
Definition is_lowered (c : circuit_component) : bool :=
  match c with
  | bipole_component _ | base_component => false
  | _ => true
  end.

End LoweringSpec.

(** ** The currents at a node *)

Section KirchhoffSpec.
Context {SC : Scalars}.

Definition sum_list (l : list cplx) : cplx := fold_left c_add l c_zero.

(** The current that leaves node [i] through the admittance [elem] at the
    potentials of the column [x]: [Y] times the potential of [i] minus
    that of the other end, for each end of [elem] that is [i]. *)
Definition admittance_flow (x : matrix cplx) (i : Z) (elem : mna.admittance)
  : cplx :=
  let a := fst (mna.adm_nodes elem) in
  let b := snd (mna.adm_nodes elem) in
  c_add
    (if (a >=? 0) && (i =? a)
     then c_mul (mna.Y elem) (c_sub (potential x a) (potential x b))
     else c_zero)
    (if (b >=? 0) && (i =? b)
     then c_mul (mna.Y elem) (c_sub (potential x b) (potential x a))
     else c_zero).

(** The current of the voltage source [k], stored in row [n + k] of the
    column, as it enters the equation of node [i]. *)
Definition source_flow (n : Z) (x : matrix cplx) (i : Z) (k : nat)
  (vs : mna.voltage_source) : cplx :=
  c_mul (incidence (fst (mna.vs_nodes vs)) (snd (mna.vs_nodes vs)) i)
    (entry c_zero x (n + Z.of_nat k) 0).

(** The output current of the op-amp [q], stored in row [base + q], as it
    enters the equation of node [i]. *)
Definition opamp_flow (base : Z) (x : matrix cplx) (i : Z) (q : nat)
  (opa : mna.opamp) : cplx :=
  if (mna.output_node opa >=? 0) && (i =? mna.output_node opa)
  then entry c_zero x (base + Z.of_nat q) 0
  else c_zero.

End KirchhoffSpec.

(** * Exact scalars and concrete inputs *)

(** ** Exact scalars

    [double] as the rationals [Qc], [std::complex<double>] as pairs of
    rationals with the arithmetic of the complex field.  A modulus is
    represented by its square, which is rational: [x > y] and [x == y] on
    non-negative numbers are those of their squares. *)

Module Exact.

Definition Qc_eqb (x y : Qc) : bool := Qeq_bool x y.
Definition Qc_ltb (x y : Qc) : bool :=
  match (x ?= y)%Qc with Lt => true | _ => false end.

Definition add (z w : Qc * Qc) : Qc * Qc :=
  ((fst z + fst w)%Qc, (snd z + snd w)%Qc).
Definition sub (z w : Qc * Qc) : Qc * Qc :=
  ((fst z - fst w)%Qc, (snd z - snd w)%Qc).
Definition opp (z : Qc * Qc) : Qc * Qc := ((- fst z)%Qc, (- snd z)%Qc).
Definition mul (z w : Qc * Qc) : Qc * Qc :=
  ((fst z * fst w - snd z * snd w)%Qc, (fst z * snd w + snd z * fst w)%Qc).
Definition norm2 (z : Qc * Qc) : Qc := (fst z * fst z + snd z * snd z)%Qc.
Definition div (z w : Qc * Qc) : Qc * Qc :=
  (((fst z * fst w + snd z * snd w) / norm2 w)%Qc,
   ((snd z * fst w - fst z * snd w) / norm2 w)%Qc).
Definition of_real (x : Qc) : Qc * Qc := (x, Q2Qc 0).

Definition of_int (z : Z) : Qc := Q2Qc (inject_Z z).

End Exact.

#[export] Instance exact_scalars : Scalars := {|
  real := Qc;
  cplx := Qc * Qc;
  magn := Qc;
  r_of_int := Exact.of_int;
  r_1e_9 := Q2Qc (1 # 1000000000);
  r_opp := Qcopp;
  r_div := Qcdiv;
  r_eqb := Exact.Qc_eqb;
  c_zero := (Q2Qc 0, Q2Qc 0);
  c_of_real := Exact.of_real;
  c_i := (Q2Qc 0, Q2Qc 1);
  c_opp := Exact.opp;
  c_add := Exact.add;
  c_sub := Exact.sub;
  c_mul := Exact.mul;
  c_div := Exact.div;
  c_add_r := fun z x => ((fst z + x)%Qc, snd z);
  c_sub_r := fun z x => ((fst z - x)%Qc, snd z);
  c_mul_r := fun z x => ((fst z * x)%Qc, (snd z * x)%Qc);
  r_div_c := fun x z => Exact.div (Exact.of_real x) z;
  c_neb_r := fun z x =>
    negb (Exact.Qc_eqb (fst z) x) || negb (Exact.Qc_eqb (snd z) (Q2Qc 0));
  c_abs := Exact.norm2;
  m_gtb := fun x y => Exact.Qc_ltb y x;
  m_eqb_r := fun m x =>
    negb (Exact.Qc_ltb x (Q2Qc 0)) && Exact.Qc_eqb m (x * x)%Qc;
|}.

(** ** Concrete problems and circuits over the exact scalars *)

(** One op-amp whose two inputs are the same node 0, output at node 1. *)
Definition shorted_inputs_problem : mna.mna_problem (SC := exact_scalars) :=
  mna.MnaProblem [] [] [] [mna.Opamp 0 0 1].

(** A 2 A current source from node 0 to node 1, a 5 V source at node 1. *)
Definition two_sources_problem : mna.mna_problem (SC := exact_scalars) :=
  mna.MnaProblem []
    [mna.VoltageSource (1, -1) (Exact.of_int 5)]
    [mna.CurrentSource (0, 1) (Exact.of_int 2)]
    [mna.Opamp 0 (-1) 0].

(** The system [2 y = 6], [4 x + 2 y = 10] as an augmented matrix; the
    first step has to exchange the two rows. *)
Definition pivoting_system : matrix (cplx (Scalars := exact_scalars)) :=
  Matrix (map (fun z => Exact.of_real (Exact.of_int z)) [0; 2; 6; 4; 2; 10])
    3 2.

(** [pivoting_system] after the elimination phase. *)
Definition pivoting_system_eliminated
  : matrix (cplx (Scalars := exact_scalars)) :=
  match mna.eliminate 2 2 pivoting_system with
  | Ok A => A
  | Throw _ => pivoting_system
  end.

(** A 1 A current source from ground into node 1 and nothing else: [G] is
    the zero matrix at every [omega]. *)
Definition floating_source_circuit : circuit (SC := exact_scalars) :=
  std_map.build
    [("I1"%string,
      ComponentPtr 1 (current_source (0, 1) (Exact.of_int 1) (Exact.of_int 1)))].

(** The same source loaded by a 1 F capacitor to ground: solvable at
    [omega = 1], singular at [omega = 0]. *)
Definition source_capacitor_circuit : circuit (SC := exact_scalars) :=
  std_map.build
    [("I1"%string,
      ComponentPtr 1 (current_source (0, 1) (Exact.of_int 1) (Exact.of_int 1)));
     ("C1"%string,
      ComponentPtr 2 (capacitor (1, 0) (Exact.of_int 1)))].

(** Two references that hold one and the same 5 V source object. *)
Definition aliased_sources_circuit : circuit (SC := exact_scalars) :=
  let shared :=
    ComponentPtr 7 (voltage_source (1, 0) (Exact.of_int 5) (Exact.of_int 0)) in
  std_map.build [("V1"%string, shared); ("V2"%string, shared)].

(** The 3 V source at node 2, the object at address 2. *)
Definition source_V2 : component_ptr (SC := exact_scalars) :=
  ComponentPtr 2 (voltage_source (2, 0) (Exact.of_int 3) (Exact.of_int 0)).

(** Two sources and a resistor, inserted out of order. *)
Definition unordered_insertions
  : list (string * component_ptr (SC := exact_scalars)) :=
  [("V2"%string, source_V2);
   ("R1"%string,
    ComponentPtr 3 (resistor (1, 2) (Exact.of_int 1000)));
   ("V1"%string,
    ComponentPtr 1 (voltage_source (1, 0) (Exact.of_int 5) (Exact.of_int 0)))].

Definition two_source_circuit : circuit (SC := exact_scalars) :=
  std_map.build unordered_insertions.

(** The divider of the specification: [V1] 10 V at node 1, [R1] 1 kOhm from
    1 to 2, [R2] 1 kOhm from 2 to ground. *)
Definition divider_circuit : circuit (SC := exact_scalars) :=
  std_map.build
    [("V1"%string,
      ComponentPtr 1 (voltage_source (1, 0) (Exact.of_int 10) (Exact.of_int 0)));
     ("R1"%string, ComponentPtr 2 (resistor (1, 2) (Exact.of_int 1000)));
     ("R2"%string, ComponentPtr 3 (resistor (2, 0) (Exact.of_int 1000)))].

(** Two sources of 5 V and 3 V in parallel between node 1 and ground. *)
Definition parallel_sources_circuit : circuit (SC := exact_scalars) :=
  std_map.build
    [("V1"%string,
      ComponentPtr 1 (voltage_source (1, 0) (Exact.of_int 5) (Exact.of_int 0)));
     ("V2"%string,
      ComponentPtr 2 (voltage_source (1, 0) (Exact.of_int 3) (Exact.of_int 0)))].

(** The divider as an MNA problem: 10 V at node 0, an admittance of 1 S
    from node 0 to node 1 and one of 1 S from node 1 to the reference. *)
Definition divider_problem : mna.mna_problem (SC := exact_scalars) :=
  mna.MnaProblem
    [mna.Admittance (0, 1) (Exact.of_real (Exact.of_int 1));
     mna.Admittance (1, -1) (Exact.of_real (Exact.of_int 1))]
    [mna.VoltageSource (0, -1) (Exact.of_int 10)] [] [].

(** What [solve] returns for [divider_problem]. *)
Definition divider_solution : mna.mna_solution (SC := exact_scalars) :=
  match mna.solve divider_problem with
  | Ok s => s
  | Throw _ => mna.MnaSolution (matrix_new c_zero 0 1) 0 0
  end.

(** A voltage follower: 5 V at node 0, an op-amp with its positive input
    at node 0 and its output fed back to its negative input at node 1. *)
Definition follower_problem : mna.mna_problem (SC := exact_scalars) :=
  mna.MnaProblem [] [mna.VoltageSource (0, -1) (Exact.of_int 5)] []
    [mna.Opamp 0 1 1].

Definition follower_solution : mna.mna_solution (SC := exact_scalars) :=
  match mna.solve follower_problem with
  | Ok s => s
  | Throw _ => mna.MnaSolution (matrix_new c_zero 0 1) 0 0
  end.

(** What the solver returns for [pivoting_system], and the column
    [x = 1], [y = 3]. *)
Definition pivoting_solution : matrix (cplx (Scalars := exact_scalars)) :=
  match mna.gaussian_elimination pivoting_system with
  | Ok x => x
  | Throw _ => matrix_new c_zero 0 1
  end.

Definition one_and_three : matrix (cplx (Scalars := exact_scalars)) :=
  Matrix (map (fun z => Exact.of_real (Exact.of_int z)) [1; 3]) 1 2.

(** A third resistor, from node 2 to a new node 3, and the divider after
    it is added under the reference [R3]. *)
Definition resistor_R3 : component_ptr (SC := exact_scalars) :=
  ComponentPtr 4 (resistor (2, 3) (Exact.of_int 1000)).

Definition grown_divider_circuit : circuit (SC := exact_scalars) :=
  std_map.assign "R3" resistor_R3 divider_circuit.

(** The solver of the divider after [solve(0)]. *)
Definition divider_solver : circuit_solver (SC := exact_scalars) :=
  fst (solve divider_circuit (Exact.of_int 0) (new_solver divider_circuit)).

(** A voltage follower: 5 V at node 1, an op-amp with its positive input
    at node 1 and its output fed back to its negative input at node 2,
    loaded by 1 kOhm. *)
Definition follower_circuit : circuit (SC := exact_scalars) :=
  std_map.build
    [("V1"%string,
      ComponentPtr 1 (voltage_source (1, 0) (Exact.of_int 5) (Exact.of_int 0)));
     ("OPA1"%string, ComponentPtr 2 (opamp 1 2 2));
     ("R1"%string, ComponentPtr 3 (resistor (2, 0) (Exact.of_int 1000)))].

Definition follower_solver : circuit_solver (SC := exact_scalars) :=
  fst (solve follower_circuit (Exact.of_int 0) (new_solver follower_circuit)).

(** A problem that uses node 1 and skips node 0: 1 S and a 1 A source
    between node 1 and the reference. *)
Definition gap_problem : mna.mna_problem (SC := exact_scalars) :=
  mna.MnaProblem
    [mna.Admittance (1, -1) (Exact.of_real (Exact.of_int 1))] []
    [mna.CurrentSource (1, -1) (Exact.of_int 1)] [].

(** A 5 V source object that is in no circuit. *)
Definition stray_source : component_ptr (SC := exact_scalars) :=
  ComponentPtr 99
    (voltage_source (1, 0) (Exact.of_int 5) (Exact.of_int 0)).

(** The real and the imaginary part of the outcome of a query. *)
Definition parts (r : result (cplx (Scalars := exact_scalars)))
  : option (Q * Q) :=
  match r with
  | Ok z => Some (this (fst z), this (snd z))
  | Throw _ => None
  end.

(** A query on the solver that [solve] leaves. *)
Definition after_solve (circ : circuit (SC := exact_scalars)) (omega : Z)
  (query : circuit -> gmap Z Z -> mna.mna_solution -> real ->
           result (cplx (Scalars := exact_scalars)))
  : option (Q * Q) :=
  let s := fst (solve circ (Exact.of_int omega) (new_solver circ)) in
  match m_solution s, m_solution_omega s with
  | Some x, Some w => parts (query circ (m_node_map s) x w)
  | _, _ => None
  end.

(** * Binary64 scalars

    [double] as the binary64 numbers of IEEE 754 with rounding to nearest,
    through the primitive floats; [std::complex<double>] as the pair of
    its parts.  Sums, differences, the opposite, the comparisons and the
    operations with a real operand act on the parts, each operation
    rounded once.  The product of two complex numbers is
    [(ac - bd) + (ad + bc)i] and the quotient is computed by Smith's
    method, which for a real divisor [c] divides both parts by [c];
    [std::abs] is the absolute value of the other part when a part is
    zero.  What the C++ runtime adds at the ends of the range (the
    recovery of infinities from NaN results, the rescaling of very large
    and very small operands, [hypot] without intermediate overflow) is
    left out, so the instance stands for the program on operands and
    results in the middle of the range. *)

Module Binary64.

Definition float : Set := PrimFloat.float.

Fixpoint of_pos (p : positive) : float :=
  match p with
  | xH => PrimFloat.one
  | xO p => PrimFloat.mul PrimFloat.two (of_pos p)
  | xI p => PrimFloat.add (PrimFloat.mul PrimFloat.two (of_pos p)) PrimFloat.one
  end.

(** An [int] converted to [double]; exact below [2^53]. *)
Definition of_int (z : Z) : float :=
  match z with
  | Z0 => PrimFloat.zero
  | Zpos p => of_pos p
  | Zneg p => PrimFloat.opp (of_pos p)
  end.

(** [2^(-e)]. *)
Definition two_to_minus (e : positive) : float :=
  PrimFloat.div PrimFloat.one (of_pos (2 ^ e)).

Definition of_real (x : float) : float * float := (x, PrimFloat.zero).

Definition add (z w : float * float) : float * float :=
  (PrimFloat.add (fst z) (fst w), PrimFloat.add (snd z) (snd w)).
Definition sub (z w : float * float) : float * float :=
  (PrimFloat.sub (fst z) (fst w), PrimFloat.sub (snd z) (snd w)).
Definition opp (z : float * float) : float * float :=
  (PrimFloat.opp (fst z), PrimFloat.opp (snd z)).

(** [(a + bi)(c + di) = (ac - bd) + (ad + bc)i], every operation rounded. *)
Definition mul (z w : float * float) : float * float :=
  let '(a, b) := z in
  let '(c, d) := w in
  (PrimFloat.sub (PrimFloat.mul a c) (PrimFloat.mul b d),
   PrimFloat.add (PrimFloat.mul a d) (PrimFloat.mul b c)).

(** The quotient by Smith's method: the division goes through the ratio
    of the smaller part of the divisor to the larger one. *)
Definition div (z w : float * float) : float * float :=
  let '(a, b) := z in
  let '(c, d) := w in
  if PrimFloat.ltb (PrimFloat.abs c) (PrimFloat.abs d) then
    let ratio := PrimFloat.div c d in
    let denom := PrimFloat.add (PrimFloat.mul c ratio) d in
    (PrimFloat.div (PrimFloat.add (PrimFloat.mul a ratio) b) denom,
     PrimFloat.div (PrimFloat.sub (PrimFloat.mul b ratio) a) denom)
  else
    let ratio := PrimFloat.div d c in
    let denom := PrimFloat.add (PrimFloat.mul d ratio) c in
    (PrimFloat.div (PrimFloat.add (PrimFloat.mul b ratio) a) denom,
     PrimFloat.div (PrimFloat.sub b (PrimFloat.mul a ratio)) denom).

(** [hypot(re, im)]: the absolute value of the other part when a part is
    zero, else the square root of the sum of the squares. *)
Definition abs (z : float * float) : float :=
  let '(a, b) := z in
  if PrimFloat.eqb b PrimFloat.zero then PrimFloat.abs a
  else if PrimFloat.eqb a PrimFloat.zero then PrimFloat.abs b
  else PrimFloat.sqrt (PrimFloat.add (PrimFloat.mul a a) (PrimFloat.mul b b)).

End Binary64.

Definition binary64_scalars : Scalars := {|
  real := Binary64.float;
  cplx := Binary64.float * Binary64.float;
  magn := Binary64.float;
  r_of_int := Binary64.of_int;
  r_1e_9 := PrimFloat.div PrimFloat.one (Binary64.of_int 1000000000);
  r_opp := PrimFloat.opp;
  r_div := PrimFloat.div;
  r_eqb := PrimFloat.eqb;
  c_zero := (PrimFloat.zero, PrimFloat.zero);
  c_of_real := Binary64.of_real;
  c_i := (PrimFloat.zero, PrimFloat.one);
  c_opp := Binary64.opp;
  c_add := Binary64.add;
  c_sub := Binary64.sub;
  c_mul := Binary64.mul;
  c_div := Binary64.div;
  c_add_r := fun z x => (PrimFloat.add (fst z) x, snd z);
  c_sub_r := fun z x => (PrimFloat.sub (fst z) x, snd z);
  c_mul_r := fun z x => (PrimFloat.mul (fst z) x, PrimFloat.mul (snd z) x);
  r_div_c := fun x z => Binary64.div (Binary64.of_real x) z;
  c_neb_r := fun z x =>
    negb (PrimFloat.eqb (fst z) x)
    || negb (PrimFloat.eqb (snd z) PrimFloat.zero);
  c_abs := Binary64.abs;
  m_gtb := fun x y => PrimFloat.ltb y x;
  m_eqb_r := PrimFloat.eqb;
|}.

(** The system [x + y + z = 1], [y = -2^-53], [z = -2^-53], already in row
    echelon form: [1 + 2^-53] is half way between [1] and the next number,
    [1 + 2^-52]. *)
Definition rounding_system : matrix (cplx (Scalars := binary64_scalars)) :=
  let tiny := PrimFloat.opp (Binary64.two_to_minus 53) in
  Matrix
    (map Binary64.of_real
       [Binary64.of_int 1; Binary64.of_int 1; Binary64.of_int 1;
        Binary64.of_int 1;
        Binary64.of_int 0; Binary64.of_int 1; Binary64.of_int 0; tiny;
        Binary64.of_int 0; Binary64.of_int 0; Binary64.of_int 1; tiny])
    4 3.

(** * Properties *)

(** ** Loops *)

Lemma bind_ok {A B : Type} (r : result A) (k : A -> result B) (b : B) :
  bind r k = Ok b -> exists a, r = Ok a /\ k a = Ok b.
Proof. destruct r as [a|e]; simpl; [eauto | discriminate]. Qed.

Lemma bind_throw {A B : Type} (r : result A) (k : A -> result B) (e : exception) :
  bind r k = Throw e ->
  r = Throw e \/ exists a, r = Ok a /\ k a = Throw e.
Proof. destruct r as [a|e']; simpl; [eauto | left; congruence]. Qed.

(** A loop whose body keeps an invariant and cannot throw under it ends
    normally with the invariant. *)
Lemma for_loop_inv {St : Type} (P : Z -> St -> Prop) (body : Z -> St -> result St) :
  forall (n : nat) (i : Z) (s : St),
    P i s ->
    (forall j s0, i <= j < i + Z.of_nat n -> P j s0 ->
                  exists s1, body j s0 = Ok s1 /\ P (j + 1) s1) ->
    exists s', for_loop n i body s = Ok s' /\ P (i + Z.of_nat n) s'.
Proof.
  induction n as [|n IH]; intros i s HP Hstep.
  - exists s. split; [reflexivity|]. now replace (i + Z.of_nat 0) with i by lia.
  - destruct (Hstep i s) as (s1 & Hb & HP1); [lia | assumption |].
    destruct (IH (i + 1) s1 HP1) as (s' & Hl & HP').
    + intros j s0 Hj. apply Hstep. lia.
    + exists s'. simpl. rewrite Hb. simpl. split; [assumption|].
      now replace (i + Z.of_nat (S n)) with (i + 1 + Z.of_nat n) by lia.
Qed.

Lemma for_range_inv {St : Type} (P : Z -> St -> Prop) (body : Z -> St -> result St)
  (lo hi : Z) (s : St) :
  lo <= hi ->
  P lo s ->
  (forall j s0, lo <= j < hi -> P j s0 ->
                exists s1, body j s0 = Ok s1 /\ P (j + 1) s1) ->
  exists s', for_range lo hi body s = Ok s' /\ P hi s'.
Proof.
  intros Hle HP Hstep. unfold for_range.
  destruct (for_loop_inv P body (Z.to_nat (hi - lo)) lo s HP) as (s' & H1 & H2).
  - intros j s0 Hj. apply Hstep. lia.
  - exists s'. split; [assumption|].
    now replace (lo + Z.of_nat (Z.to_nat (hi - lo))) with hi in H2 by lia.
Qed.

Lemma for_range_empty {St : Type} (body : Z -> St -> result St) (lo hi : Z) (s : St) :
  hi <= lo -> for_range lo hi body s = Ok s.
Proof.
  intros H. unfold for_range. now replace (Z.to_nat (hi - lo)) with O by lia.
Qed.

Lemma for_loop_snoc {St : Type} (body : Z -> St -> result St) :
  forall (n : nat) (i : Z) (s : St),
    for_loop (S n) i body s =
    bind (for_loop n i body s) (body (i + Z.of_nat n)).
Proof.
  induction n as [|n IH]; intros i s.
  - simpl. rewrite Z.add_0_r. now destruct (body i s).
  - change (for_loop (S (S n)) i body s)
      with (bind (body i s) (for_loop (S n) (i + 1) body)).
    change (for_loop (S n) i body s)
      with (bind (body i s) (for_loop n (i + 1) body)).
    destruct (body i s) as [s1|e]; cbn [bind]; [|reflexivity].
    rewrite IH. now replace (i + 1 + Z.of_nat n) with (i + Z.of_nat (S n)) by lia.
Qed.

Lemma for_range_snoc {St : Type} (body : Z -> St -> result St) (lo hi : Z) (s : St) :
  lo <= hi ->
  for_range lo (hi + 1) body s =
  bind (for_range lo hi body s) (body hi).
Proof.
  intros Hle. unfold for_range.
  replace (Z.to_nat (hi + 1 - lo)) with (S (Z.to_nat (hi - lo))) by lia.
  rewrite for_loop_snoc.
  now replace (lo + Z.of_nat (Z.to_nat (hi - lo))) with hi by lia.
Qed.

Lemma for_loop_down_inv {St : Type} (P : Z -> St -> Prop)
  (body : Z -> St -> result St) :
  forall (n : nat) (i : Z) (s : St),
    P (i + 1) s ->
    (forall j s0, i - Z.of_nat n < j <= i -> P (j + 1) s0 ->
                  exists s1, body j s0 = Ok s1 /\ P j s1) ->
    exists s', for_loop_down n i body s = Ok s' /\ P (i + 1 - Z.of_nat n) s'.
Proof.
  induction n as [|n IH]; intros i s HP Hstep.
  - exists s. split; [reflexivity|].
    now replace (i + 1 - Z.of_nat 0) with (i + 1) by lia.
  - destruct (Hstep i s) as (s1 & Hb & HP1); [lia | assumption |].
    destruct (IH (i - 1) s1) as (s' & Hl & HP').
    + now replace (i - 1 + 1) with i by lia.
    + intros j s0 Hj. apply Hstep. lia.
    + exists s'. simpl. rewrite Hb. simpl. split; [assumption|].
      now replace (i + 1 - Z.of_nat (S n)) with (i - 1 + 1 - Z.of_nat n) by lia.
Qed.

Lemma for_range_down_inv {St : Type} (P : Z -> St -> Prop)
  (body : Z -> St -> result St) (lo hi : Z) (s : St) :
  lo <= hi ->
  P hi s ->
  (forall j s0, lo <= j < hi -> P (j + 1) s0 ->
                exists s1, body j s0 = Ok s1 /\ P j s1) ->
  exists s', for_range_down lo hi body s = Ok s' /\ P lo s'.
Proof.
  intros Hle HP Hstep. unfold for_range_down.
  destruct (for_loop_down_inv P body (Z.to_nat (hi - lo)) (hi - 1) s)
    as (s' & H1 & H2).
  - now replace (hi - 1 + 1) with hi by lia.
  - intros j s0 Hj. apply Hstep. lia.
  - exists s'. split; [assumption|].
    now replace (hi - 1 + 1 - Z.of_nat (Z.to_nat (hi - lo))) with lo in H2 by lia.
Qed.

(** The same for a loop over a vector; [P k] holds after [k] elements. *)
Lemma for_each_inv {A St : Type} (P : nat -> St -> Prop)
  (body : Z -> A -> St -> result St) :
  forall (l : list A) (done_ : nat) (i : Z) (s : St),
    P done_ s ->
    (forall k x s0, l !! k = Some x -> P (done_ + k)%nat s0 ->
       exists s1, body (i + Z.of_nat k) x s0 = Ok s1 /\ P (S (done_ + k)) s1) ->
    exists s', for_each body i l s = Ok s' /\ P (done_ + length l)%nat s'.
Proof.
  induction l as [|x l IH]; intros done_ i s HP Hstep.
  - exists s. split; [reflexivity|]. simpl. now rewrite Nat.add_0_r.
  - destruct (Hstep O x s) as (s1 & Hb & HP1);
      [reflexivity | now rewrite Nat.add_0_r |].
    rewrite Z.add_0_r in Hb. rewrite Nat.add_0_r in HP1.
    destruct (IH (S done_) (i + 1) s1 HP1) as (s' & Hl & HP').
    + intros k y s0 Hk HPk.
      destruct (Hstep (S k) y s0) as (s2 & Hb2 & HP2).
      * exact Hk.
      * now replace (done_ + S k)%nat with (S done_ + k)%nat by lia.
      * exists s2. split.
        -- now replace (i + 1 + Z.of_nat k) with (i + Z.of_nat (S k)) by lia.
        -- now replace (S (S done_ + k)) with (S (done_ + S k)) by lia.
    + exists s'. simpl. rewrite Hb. simpl. split; [assumption|].
      now replace (done_ + S (length l))%nat with (S done_ + length l)%nat by lia.
Qed.

(** ** Matrices *)

Section MatrixFacts.
Context {T : Type} (dflt : T).
Implicit Types m : matrix T.

Lemma mat_index_ok m r c :
  in_range m r c -> mat_index m r c = Ok (Z.to_nat (r * m_w m + c)).
Proof.
  intros [Hr Hc]. unfold mat_index, get_height, get_width.
  destruct (Z.ltb_spec r 0); [lia|].
  destruct (Z.geb_spec r (m_h m)); [lia|].
  destruct (Z.ltb_spec c 0); [lia|].
  destruct (Z.geb_spec c (m_w m)); [lia|]. reflexivity.
Qed.

Lemma mat_index_throw m r c :
  ~ in_range m r c ->
  mat_index m r c = Throw (out_of_range "access outside of matrix").
Proof.
  intros Hn. unfold mat_index, get_height, get_width.
  destruct (Z.ltb_spec r 0); [reflexivity|].
  destruct (Z.geb_spec r (m_h m)); [reflexivity|].
  destruct (Z.ltb_spec c 0); [reflexivity|].
  destruct (Z.geb_spec c (m_w m)); [reflexivity|].
  exfalso. apply Hn. unfold in_range. lia.
Qed.

Lemma mat_get_ok m r c :
  in_range m r c -> mat_get dflt m r c = Ok (entry dflt m r c).
Proof. intros H. unfold mat_get. now rewrite mat_index_ok. Qed.

Lemma mat_set_ok m r c v :
  in_range m r c -> mat_set m r c v = Ok (mat_write m r c v).
Proof. intros H. unfold mat_set. now rewrite mat_index_ok. Qed.

Lemma mat_upd_ok m r c f :
  in_range m r c ->
  mat_upd dflt m r c f = Ok (mat_write m r c (f (entry dflt m r c))).
Proof. intros H. unfold mat_upd. now rewrite mat_index_ok. Qed.

Lemma position_lt m r c :
  well_formed m -> in_range m r c ->
  (Z.to_nat (r * m_w m + c) < length (m_matrix m))%nat.
Proof.
  intros (Hw & Hh & Hl) [Hr Hc]. rewrite Hl. apply Z2Nat.inj_lt; nia.
Qed.

Lemma position_inj m r c r' c' :
  in_range m r c -> in_range m r' c' ->
  Z.to_nat (r * m_w m + c) = Z.to_nat (r' * m_w m + c') ->
  r = r' /\ c = c'.
Proof.
  intros [Hr Hc] [Hr' Hc'] He.
  apply Z2Nat.inj in He; [|nia|nia].
  assert (r = r') by nia. subst r'. split; [reflexivity | lia].
Qed.

Lemma m_w_write m r c v : m_w (mat_write m r c v) = m_w m.
Proof. reflexivity. Qed.

Lemma m_h_write m r c v : m_h (mat_write m r c v) = m_h m.
Proof. reflexivity. Qed.

Lemma well_formed_write m r c v :
  well_formed m -> well_formed (mat_write m r c v).
Proof.
  intros (Hw & Hh & Hl). unfold well_formed, mat_write, with_cell. simpl.
  rewrite length_insert. auto.
Qed.

Lemma shape_write m h w r c v :
  shape m h w -> shape (mat_write m r c v) h w.
Proof.
  intros (Hwf & Hh & Hw). repeat split; auto using well_formed_write.
  all: apply well_formed_write with (r := r) (c := c) (v := v) in Hwf;
    destruct Hwf as (? & ? & ?); assumption.
Qed.

Lemma in_range_write m r c v r' c' :
  in_range (mat_write m r c v) r' c' <-> in_range m r' c'.
Proof. reflexivity. Qed.

Lemma entry_write_same m r c v :
  well_formed m -> in_range m r c ->
  entry dflt (mat_write m r c v) r c = v.
Proof.
  intros Hwf Hin. unfold entry, mat_write, with_cell, cell. simpl.
  rewrite list_lookup_insert_eq; [reflexivity|].
  now apply position_lt.
Qed.

Lemma entry_write_other m r c v r' c' :
  in_range m r c -> in_range m r' c' -> (r, c) <> (r', c') ->
  entry dflt (mat_write m r c v) r' c' = entry dflt m r' c'.
Proof.
  intros Hin Hin' Hne. unfold entry, mat_write, with_cell, cell. simpl.
  rewrite list_lookup_insert_ne; [reflexivity|].
  intros He. apply position_inj in He; [|assumption..].
  destruct He; subst. now apply Hne.
Qed.

Lemma entry_write m r c v r' c' :
  well_formed m -> in_range m r c -> in_range m r' c' ->
  entry dflt (mat_write m r c v) r' c' =
  if (r' =? r) && (c' =? c) then v else entry dflt m r' c'.
Proof.
  intros Hwf Hin Hin'.
  destruct (Z.eqb_spec r' r) as [->|Hr]; simpl.
  - destruct (Z.eqb_spec c' c) as [->|Hc].
    + now apply entry_write_same.
    + apply entry_write_other; auto. congruence.
  - apply entry_write_other; auto. congruence.
Qed.

Lemma shape_new h w : 0 <= h -> 0 <= w -> shape (matrix_new dflt h w) h w.
Proof.
  intros Hh Hw. unfold shape, well_formed, matrix_new. simpl.
  rewrite length_replicate. auto.
Qed.

Lemma entry_new h w r c : entry dflt (matrix_new dflt h w) r c = dflt.
Proof.
  unfold entry, cell, matrix_new. simpl.
  destruct (replicate _ _ !! _) as [x|] eqn:E; [|reflexivity].
  apply lookup_replicate in E. now destruct E.
Qed.

Lemma shape_in_range m h w r c :
  shape m h w -> 0 <= r < h -> 0 <= c < w -> in_range m r c.
Proof. intros (_ & <- & <-). unfold in_range. auto. Qed.

(** Writing back the element an entry already holds changes nothing. *)
Lemma mat_write_same m r c :
  well_formed m -> in_range m r c ->
  mat_write m r c (entry dflt m r c) = m.
Proof.
  intros Hwf Hin. destruct m as [d w h].
  unfold mat_write, with_cell, entry, cell. simpl. f_equal.
  pose proof (position_lt _ _ _ Hwf Hin) as Hlt. simpl in Hlt.
  destruct (lookup_lt_is_Some_2 d _ Hlt) as [x Hx].
  rewrite Hx. simpl. now apply list_insert_id.
Qed.

End MatrixFacts.

(** ** Copying one matrix into another *)

Section CopyLoop.
Context {T : Type} (dflt : T).
Implicit Types m mat : matrix T.

Variables (fr fc : Z -> Z -> Z) (mat m : matrix T) (h w H W : Z).
Hypothesis Hmat : shape mat h w.
Hypothesis Hm : shape m H W.
Hypothesis Hrange : forall y x, 0 <= y < h -> 0 <= x < w ->
  0 <= fr y x < H /\ 0 <= fc y x < W.
Hypothesis Hinj : forall y x y' x',
  0 <= y < h -> 0 <= x < w -> 0 <= y' < h -> 0 <= x' < w ->
  fr y x = fr y' x' -> fc y x = fc y' x' -> y = y' /\ x = x'.

(** The elements copied before the iteration [(y, x)]. *)
Let before (y x y' x' : Z) : Prop :=
  0 <= y' < h /\ 0 <= x' < w /\ (y' < y \/ (y' = y /\ x' < x)).

Let copied (y x : Z) (m2 : matrix T) : Prop :=
  shape m2 H W /\
  (forall y' x', before y x y' x' ->
     entry dflt m2 (fr y' x') (fc y' x') = entry dflt mat y' x') /\
  (forall r c, 0 <= r < H -> 0 <= c < W ->
     (forall y' x', before y x y' x' -> (fr y' x', fc y' x') <> (r, c)) ->
     entry dflt m2 r c = entry dflt m r c).

Lemma copy_loop_ok :
  exists m', copy_loop dflt fr fc mat m = Ok m' /\ shape m' H W /\
    (forall y x, 0 <= y < h -> 0 <= x < w ->
       entry dflt m' (fr y x) (fc y x) = entry dflt mat y x) /\
    (forall r c, 0 <= r < H -> 0 <= c < W ->
       (forall y x, 0 <= y < h -> 0 <= x < w -> (fr y x, fc y x) <> (r, c)) ->
       entry dflt m' r c = entry dflt m r c).
Proof.
  destruct Hmat as (Hwf & Hh & Hw).
  assert (H0h : 0 <= h) by (destruct Hwf as (? & ? & ?); lia).
  assert (H0w : 0 <= w) by (destruct Hwf as (? & ? & ?); lia).
  unfold copy_loop, get_height, get_width. rewrite Hh, Hw.
  destruct (for_range_inv (fun y m1 => copied y 0 m1)
              (fun y m1 => for_range 0 w (fun x m2 =>
                 let* v := mat_get dflt mat y x in
                 mat_set m2 (fr y x) (fc y x) v) m1) 0 h m H0h)
    as (m' & Hrun & Hsh & Hcp & Hun).
  - (* nothing copied yet *)
    split; [exact Hm | split].
    + intros y' x' (? & ? & [?|[? ?]]); lia.
    + intros; reflexivity.
  - (* one row *)
    intros y m1 Hy Hinv.
    destruct (for_range_inv (fun x m2 => copied y x m2)
                (fun x m2 => let* v := mat_get dflt mat y x in
                             mat_set m2 (fr y x) (fc y x) v) 0 w m1 H0w Hinv)
      as (m2 & Hrun2 & Hsh2 & Hcp2 & Hun2).
    + intros x m2 Hx (Hsh2 & Hcp2 & Hun2).
      assert (Hin : in_range mat y x) by (unfold in_range; lia).
      destruct (Hrange y x Hy Hx) as [Hfr Hfc].
      assert (Hin2 : in_range m2 (fr y x) (fc y x))
        by (eapply shape_in_range; eauto).
      rewrite (mat_get_ok dflt _ _ _ Hin). cbn [bind].
      rewrite (mat_set_ok _ _ _ _ Hin2).
      eexists; split; [reflexivity|]. split; [|split].
      * now apply shape_write.
      * intros y' x' (Hy' & Hx' & Hb).
        destruct (Z.eq_dec y' y) as [->|Hny];
          [destruct (Z.eq_dec x' x) as [->|Hnx]|].
        -- apply entry_write_same; [apply Hsh2 | assumption].
        -- rewrite entry_write_other; auto.
           ++ apply Hcp2. unfold before. lia.
           ++ destruct (Hrange y x' Hy' Hx'). eapply shape_in_range; eauto.
           ++ intros E. injection E as E1 E2.
              destruct (Hinj y x y x') as [_ ?]; auto.
        -- rewrite entry_write_other; auto.
           ++ apply Hcp2. unfold before. lia.
           ++ destruct (Hrange y' x' Hy' Hx'). eapply shape_in_range; eauto.
           ++ intros E. injection E as E1 E2.
              destruct (Hinj y x y' x') as [? _]; auto.
      * intros r c Hr Hc Hfree.
        rewrite entry_write_other; auto.
        -- apply Hun2; auto. intros y' x' (Hy' & Hx' & Hb).
           apply Hfree. unfold before. lia.
        -- eapply shape_in_range; eauto.
        -- apply Hfree. unfold before. lia.
    + exists m2. split; [assumption|]. split; [assumption|]. split.
      * intros y' x' (Hy' & Hx' & Hb). apply Hcp2. unfold before. lia.
      * intros r c Hr Hc Hfree. apply Hun2; auto.
        intros y' x' (Hy' & Hx' & Hb). apply Hfree. unfold before. lia.
  - exists m'. split; [assumption|]. split; [assumption|]. split.
    + intros y x Hy Hx. apply Hcp. unfold before. lia.
    + intros r c Hr Hc Hfree. apply Hun; auto.
      intros y' x' (Hy' & Hx' & Hb). now apply Hfree.
Qed.

End CopyLoop.


Section MatrixBlocks.
Context {T : Type} (dflt : T).
Implicit Types m mat : matrix T.

Lemma transpose_ok m h w :
  shape m h w ->
  exists m', transpose dflt m = Ok m' /\ shape m' w h /\
    forall r c, 0 <= r < w -> 0 <= c < h ->
      entry dflt m' r c = entry dflt m c r.
Proof.
  intros Hm.
  assert (H0 : 0 <= h /\ 0 <= w)
    by (destruct Hm as ((? & ? & ?) & ? & ?); lia).
  destruct (copy_loop_ok dflt (fun y x => x) (fun y x => y) m
              (matrix_new dflt (get_width m) (get_height m)) h w w h Hm)
    as (m' & Hrun & Hsh & Hcp & _).
  - unfold get_width, get_height. destruct Hm as (_ & -> & ->).
    apply shape_new; lia.
  - intros; lia.
  - intros; lia.
  - exists m'. split; [exact Hrun|]. split; [assumption|].
    intros r c Hr Hc. now apply (Hcp c r).
Qed.

Lemma replace_ok m mat row col H W h w :
  shape m H W -> shape mat h w ->
  0 <= row -> 0 <= col -> row + h <= H -> col + w <= W ->
  exists m', replace dflt m row col mat = Ok m' /\ shape m' H W /\
    (forall y x, 0 <= y < h -> 0 <= x < w ->
       entry dflt m' (row + y) (col + x) = entry dflt mat y x) /\
    (forall r c, 0 <= r < H -> 0 <= c < W ->
       ~ (row <= r < row + h /\ col <= c < col + w) ->
       entry dflt m' r c = entry dflt m r c).
Proof.
  intros Hm Hmat Hrow Hcol Hh Hw.
  destruct (copy_loop_ok dflt (fun y x => y + row) (fun y x => x + col) mat
              m h w H W Hmat Hm) as (m' & Hrun & Hsh & Hcp & Hun).
  - intros; lia.
  - intros; lia.
  - exists m'. split; [|split; [assumption|split]].
    + unfold replace. fold (copy_loop dflt (fun y _ : Z => y + row)
                                (fun _ x : Z => x + col) mat m).
      rewrite Hrun. unfold get_height, get_width.
      destruct Hm as (_ & -> & ->). destruct Hmat as (_ & -> & ->).
      destruct (Z.ltb_spec row 0); [lia|].
      destruct (Z.ltb_spec col 0); [lia|].
      destruct (Z.geb_spec (row + h - 1) H); [lia|].
      destruct (Z.geb_spec (col + w - 1) W); [lia|].
      reflexivity.
    + intros y x Hy Hx. rewrite (Z.add_comm row), (Z.add_comm col).
      now apply Hcp.
    + intros r c Hr Hc Hout. apply Hun; auto.
      intros y x Hy Hx E. injection E as E1 E2. apply Hout. lia.
Qed.

Lemma join_matrices_horizontal_ok (l r : matrix T) h wl wr :
  shape l h wl -> shape r h wr ->
  exists m', join_matrices_horizontal dflt l r = Ok m' /\
    shape m' h (wl + wr) /\
    (forall i j, 0 <= i < h -> 0 <= j < wl ->
       entry dflt m' i j = entry dflt l i j) /\
    (forall i j, 0 <= i < h -> 0 <= j < wr ->
       entry dflt m' i (wl + j) = entry dflt r i j).
Proof.
  intros Hl Hr.
  assert (H0 : 0 <= h /\ 0 <= wl /\ 0 <= wr).
  { destruct Hl as ((? & ? & ?) & ? & ?), Hr as ((? & ? & ?) & ? & ?). lia. }
  unfold join_matrices_horizontal, get_height, get_width.
  pose proof Hl as (_ & Hhl & Hwl). pose proof Hr as (_ & Hhr & Hwr).
  rewrite Hhl, Hhr, Hwl, Hwr, Z.eqb_refl. cbn [negb].
  destruct (replace_ok (matrix_new dflt h (wl + wr)) l 0 0 h (wl + wr) h wl)
    as (m1 & Hrun1 & Hsh1 & Hcp1 & Hun1); try lia; auto.
  { apply shape_new; lia. }
  rewrite Hrun1. cbn [bind].
  destruct (replace_ok m1 r 0 wl h (wl + wr) h wr)
    as (m2 & Hrun2 & Hsh2 & Hcp2 & Hun2); try lia; auto.
  exists m2. split; [assumption|]. split; [assumption|]. split.
  - intros i j Hi Hj. rewrite Hun2; try lia.
    apply (Hcp1 i j); lia.
  - intros i j Hi Hj. apply (Hcp2 i j); lia.
Qed.

Lemma join_matrices_vertical_ok (u d : matrix T) hu hd w :
  shape u hu w -> shape d hd w ->
  exists m', join_matrices_vertical dflt u d = Ok m' /\
    shape m' (hu + hd) w /\
    (forall i j, 0 <= i < hu -> 0 <= j < w ->
       entry dflt m' i j = entry dflt u i j) /\
    (forall i j, 0 <= i < hd -> 0 <= j < w ->
       entry dflt m' (hu + i) j = entry dflt d i j).
Proof.
  intros Hu Hd.
  assert (H0 : 0 <= w /\ 0 <= hu /\ 0 <= hd).
  { destruct Hu as ((? & ? & ?) & ? & ?), Hd as ((? & ? & ?) & ? & ?). lia. }
  unfold join_matrices_vertical, get_height, get_width.
  pose proof Hu as (_ & Hhu & Hwu). pose proof Hd as (_ & Hhd & Hwd).
  rewrite Hhu, Hhd, Hwu, Hwd, Z.eqb_refl. cbn [negb].
  destruct (replace_ok (matrix_new dflt (hu + hd) w) u 0 0 (hu + hd) w hu w)
    as (m1 & Hrun1 & Hsh1 & Hcp1 & Hun1); try lia; auto.
  { apply shape_new; lia. }
  rewrite Hrun1. cbn [bind].
  destruct (replace_ok m1 d hu 0 (hu + hd) w hd w)
    as (m2 & Hrun2 & Hsh2 & Hcp2 & Hun2); try lia; auto.
  exists m2. split; [assumption|]. split; [assumption|]. split.
  - intros i j Hi Hj. rewrite Hun2; try lia.
    apply (Hcp1 i j); lia.
  - intros i j Hi Hj. apply (Hcp2 i j); lia.
Qed.

End MatrixBlocks.


(** ** get_max_node *)

Lemma fold_max_init {A : Type} (step : Z -> A -> Z) :
  (forall mx v, mx <= step mx v) ->
  forall l init, init <= fold_left step l init.
Proof.
  intros Hstep. induction l as [|x l IH]; intros init; simpl; [lia|].
  specialize (IH (step init x)). specialize (Hstep init x). lia.
Qed.

Lemma fold_max_elem {A : Type} (step : Z -> A -> Z) (val : A -> Z) :
  (forall mx v, mx <= step mx v) ->
  (forall mx v, val v <= step mx v) ->
  forall l init v, In v l -> val v <= fold_left step l init.
Proof.
  intros Hstep Hval. induction l as [|x l IH]; intros init v Hin; simpl.
  - destruct Hin.
  - destruct Hin as [->|Hin].
    + pose proof (fold_max_init step Hstep l (step init v)).
      specialize (Hval init v). lia.
    + now apply IH.
Qed.

Section MaxNode.
Context {SC : Scalars}.

Lemma get_max_node_ge (p : mna.mna_problem) : -1 <= mna.get_max_node p.
Proof.
  unfold mna.get_max_node.
  repeat (etransitivity; [|apply fold_max_init; intros; lia]). lia.
Qed.

Lemma get_max_node_below (p : mna.mna_problem) :
  nodes_below (mna.get_max_node p + 1) p.
Proof.
  unfold nodes_below, mna.get_max_node.
  set (f1 := fun mx v => Z.max (Z.max mx (fst (mna.adm_nodes v)))
                           (snd (mna.adm_nodes v))).
  set (f2 := fun mx v => Z.max (Z.max mx (fst (mna.vs_nodes v)))
                           (snd (mna.vs_nodes v))).
  set (f3 := fun mx v => Z.max (Z.max mx (fst (mna.cs_nodes v)))
                           (snd (mna.cs_nodes v))).
  set (f4 := fun mx v => Z.max (Z.max (Z.max mx (mna.pos_input_node v))
                                  (mna.neg_input_node v))
                           (mna.output_node v)).
  set (m1 := fold_left f1 (mna.admittances p) (-1)).
  set (m2 := fold_left f2 (mna.voltage_sources p) m1).
  set (m3 := fold_left f3 (mna.current_sources p) m2).
  assert (H12 : m1 <= m2) by (apply fold_max_init; intros; unfold f2; lia).
  assert (H23 : m2 <= m3) by (apply fold_max_init; intros; unfold f3; lia).
  assert (H34 : m3 <= fold_left f4 (mna.opamps p) m3)
    by (apply fold_max_init; intros; unfold f4; lia).
  repeat split.
  - pose proof (fold_max_elem f1 (fun v => fst (mna.adm_nodes v))
      ltac:(intros; unfold f1; lia) ltac:(intros; unfold f1; lia)
      (mna.admittances p) (-1) v H). cbv beta in H0. fold m1 in H0. lia.
  - pose proof (fold_max_elem f1 (fun v => snd (mna.adm_nodes v))
      ltac:(intros; unfold f1; lia) ltac:(intros; unfold f1; lia)
      (mna.admittances p) (-1) v H). cbv beta in H0. fold m1 in H0. lia.
  - pose proof (fold_max_elem f2 (fun v => fst (mna.vs_nodes v))
      ltac:(intros; unfold f2; lia) ltac:(intros; unfold f2; lia)
      (mna.voltage_sources p) m1 v H). cbv beta in H0. fold m2 in H0. lia.
  - pose proof (fold_max_elem f2 (fun v => snd (mna.vs_nodes v))
      ltac:(intros; unfold f2; lia) ltac:(intros; unfold f2; lia)
      (mna.voltage_sources p) m1 v H). cbv beta in H0. fold m2 in H0. lia.
  - pose proof (fold_max_elem f3 (fun v => fst (mna.cs_nodes v))
      ltac:(intros; unfold f3; lia) ltac:(intros; unfold f3; lia)
      (mna.current_sources p) m2 v H). cbv beta in H0. fold m3 in H0. lia.
  - pose proof (fold_max_elem f3 (fun v => snd (mna.cs_nodes v))
      ltac:(intros; unfold f3; lia) ltac:(intros; unfold f3; lia)
      (mna.current_sources p) m2 v H). cbv beta in H0. fold m3 in H0. lia.
  - pose proof (fold_max_elem f4 (fun v => mna.pos_input_node v)
      ltac:(intros; unfold f4; lia) ltac:(intros; unfold f4; lia)
      (mna.opamps p) m3 v H). cbv beta in H0. lia.
  - pose proof (fold_max_elem f4 (fun v => mna.neg_input_node v)
      ltac:(intros; unfold f4; lia) ltac:(intros; unfold f4; lia)
      (mna.opamps p) m3 v H). cbv beta in H0. lia.
  - pose proof (fold_max_elem f4 (fun v => mna.output_node v)
      ltac:(intros; unfold f4; lia) ltac:(intros; unfold f4; lia)
      (mna.opamps p) m3 v H). cbv beta in H0. lia.
Qed.

End MaxNode.


(** ** The blocks of [A] and of [z] *)

Section Assembly.
Context {SC : Scalars}.
Implicit Types p : mna.mna_problem.

Lemma in_range_shape (m : matrix cplx) h w r c :
  shape m h w -> 0 <= r < h -> 0 <= c < w -> in_range m r c.
Proof. apply shape_in_range. Qed.

Lemma fill_G_ok p n :
  0 <= n -> nodes_below n p ->
  exists G, mna.fill_G p (matrix_new c_zero n n) = Ok G /\ shape G n n /\
    forall i j, 0 <= i < n -> 0 <= j < n ->
      entry c_zero G i j = G_entry p i j.
Proof.
  intros Hn (Hadm & _).
  destruct (for_each_inv
    (fun k G => shape G n n /\
       forall i j, 0 <= i < n -> 0 <= j < n ->
         entry c_zero G i j =
         fold_left (G_contribution i j) (take k (mna.admittances p)) c_zero)
    (fun _ elem G =>
       let a := fst (mna.adm_nodes elem) in
       let b := snd (mna.adm_nodes elem) in
       let* G := if a >=? 0
                 then mat_upd c_zero G a a (fun g => c_add g (mna.Y elem))
                 else Ok G in
       let* G := if b >=? 0
                 then mat_upd c_zero G b b (fun g => c_add g (mna.Y elem))
                 else Ok G in
       if (a >=? 0) && (b >=? 0) then
         let* G := mat_upd c_zero G a b (fun g => c_sub g (mna.Y elem)) in
         mat_upd c_zero G b a (fun g => c_sub g (mna.Y elem))
       else Ok G)
    (mna.admittances p) O 0 (matrix_new c_zero n n))
    as (G & Hrun & Hsh & Hent).
  - split; [now apply shape_new|]. intros i j _ _. simpl.
    apply entry_new.
  - intros k elem G Hk (Hsh & Hent). simpl in Hsh, Hent.
    assert (Hin : In elem (mna.admittances p)).
    { apply list_elem_of_In. eapply list_elem_of_lookup_2. exact Hk. }
    destruct (Hadm elem Hin) as [Ha Hb].
    destruct elem as [[a b] y]. cbn [mna.adm_nodes mna.Y fst snd] in *.
    assert (Hstep : forall G1 : matrix cplx, shape G1 n n ->
      forall r c f, 0 <= r < n -> 0 <= c < n ->
      mat_upd c_zero G1 r c f = Ok (mat_write G1 r c (f (entry c_zero G1 r c)))).
    { intros G1 Hs r c f Hr Hc. apply mat_upd_ok.
      eapply shape_in_range; eauto. }
    assert (Hread : forall G1 : matrix cplx, shape G1 n n ->
      forall r c v i j, 0 <= r < n -> 0 <= c < n -> 0 <= i < n -> 0 <= j < n ->
      entry c_zero (mat_write G1 r c v) i j =
      if (i =? r) && (j =? c) then v else entry c_zero G1 i j).
    { intros G1 Hs r c v i j Hr Hc Hi Hj. apply entry_write.
      - apply Hs.
      - eapply shape_in_range; eauto.
      - eapply shape_in_range; eauto. }
    cbv zeta.
    destruct (Z.geb_spec a 0) as [Ha0|Ha0];
      destruct (Z.geb_spec b 0) as [Hb0|Hb0]; cbn [andb];
      repeat first [progress cbn [bind]
                   | rewrite Hstep by first [lia | solve [auto using shape_write]]];
      (eexists; split; [reflexivity|]);
      (split; [auto using shape_write|]);
      intros i j Hi Hj; cbn [Nat.add];
      rewrite (take_S_r _ _ _ Hk), fold_left_app; cbn [fold_left];
      rewrite <- (Hent i j Hi Hj);
      unfold G_contribution; cbn [mna.adm_nodes mna.Y fst snd]; cbv zeta;
      repeat (rewrite Hread by first [lia | solve [auto using shape_write]]);
      destruct (Z.geb_spec a 0); try lia;
      destruct (Z.geb_spec b 0); try lia; cbn [andb];
      repeat (match goal with
              | |- context [?x =? ?y] => destruct (Z.eqb_spec x y); try lia
              end; cbn [andb]); subst; try reflexivity; try lia.
  - rewrite Nat.add_0_l in Hent.
    exists G. split; [exact Hrun|]. split; [assumption|].
    intros i j Hi Hj. rewrite (Hent i j Hi Hj).
    now rewrite firstn_all.
Qed.

Lemma fill_B_sources_ok p n m (B0 : matrix cplx) :
  nodes_below n p -> shape B0 n m ->
  Z.of_nat (length (mna.voltage_sources p)) <= m ->
  exists B1, mna.fill_B_sources p B0 = Ok B1 /\ shape B1 n m /\
    forall i j, 0 <= i < n ->
      Z.of_nat (length (mna.voltage_sources p)) <= j < m ->
      entry c_zero B1 i j = entry c_zero B0 i j.
Proof.
  intros (_ & Hvs & _) Hsh0 HV.
  destruct (for_each_inv
    (fun k B => shape B n m /\
       forall i j, 0 <= i < n ->
         Z.of_nat (length (mna.voltage_sources p)) <= j < m ->
         entry c_zero B i j = entry c_zero B0 i j)
    (fun i vs B =>
       let* B := if fst (mna.vs_nodes vs) >=? 0
                 then mat_set B (fst (mna.vs_nodes vs)) i mna.c_one
                 else Ok B in
       if snd (mna.vs_nodes vs) >=? 0
       then mat_set B (snd (mna.vs_nodes vs)) i mna.c_minus_one
       else Ok B)
    (mna.voltage_sources p) O 0 B0) as (B1 & Hrun & Hsh & Hent).
  - split; [assumption|]. reflexivity.
  - intros k vs B Hk (Hsh & Hent). cbn [Nat.add] in *.
    assert (Hin : In vs (mna.voltage_sources p)).
    { apply list_elem_of_In. eapply list_elem_of_lookup_2. exact Hk. }
    destruct (Hvs vs Hin) as [Ha Hb].
    apply lookup_lt_Some in Hk.
    destruct vs as [[a b] v]. cbn [mna.vs_nodes fst snd] in *.
    assert (Hset : forall B' : matrix cplx, shape B' n m -> forall r x, 0 <= r < n ->
              mat_set B' r (0 + Z.of_nat k) x = Ok (mat_write B' r (Z.of_nat k) x)).
    { intros B' Hs r x Hr. rewrite Z.add_0_l. apply mat_set_ok.
      eapply shape_in_range; eauto. lia. }
    assert (Hread : forall B' : matrix cplx, shape B' n m -> forall r x i j, 0 <= r < n ->
              0 <= i < n ->
              Z.of_nat (length (mna.voltage_sources p)) <= j < m ->
              entry c_zero (mat_write B' r (Z.of_nat k) x) i j
              = entry c_zero B' i j).
    { intros B' Hs r x i j Hr Hi Hj. apply entry_write_other.
      - eapply shape_in_range; eauto. lia.
      - eapply shape_in_range; eauto. lia.
      - intros E. injection E as E1 E2. lia. }
    destruct (Z.geb_spec a 0); destruct (Z.geb_spec b 0);
      repeat first [progress cbn [bind]
                   | rewrite Hset by first [lia | solve [auto using shape_write]]];
      (eexists; split; [reflexivity|]);
      (split; [auto using shape_write|]);
      intros i j Hi Hj;
      repeat (rewrite Hread by first [lia | solve [auto using shape_write]]);
      auto.
  - exists B1. auto.
Qed.

Lemma fill_B_opamps_ok p n m (B1 : matrix cplx) :
  nodes_below n p -> shape B1 n m ->
  m = Z.of_nat (length (mna.opamps p))
      + Z.of_nat (length (mna.voltage_sources p)) ->
  exists B2, mna.fill_B_opamps p B1 = Ok B2 /\ shape B2 n m /\
    (forall i j, 0 <= i < n ->
       0 <= j < Z.of_nat (length (mna.voltage_sources p)) ->
       entry c_zero B2 i j = entry c_zero B1 i j) /\
    (forall q opa, mna.opamps p !! q = Some opa ->
       0 <= mna.output_node opa ->
       entry c_zero B2 (mna.output_node opa)
         (Z.of_nat (length (mna.voltage_sources p)) + Z.of_nat q)
       = mna.c_one).
Proof.
  intros (_ & _ & _ & Hop) Hsh1 Hm.
  set (V := Z.of_nat (length (mna.voltage_sources p))) in *.
  destruct (for_each_inv
    (fun k B => shape B n m /\
       (forall i j, 0 <= i < n -> 0 <= j < V ->
          entry c_zero B i j = entry c_zero B1 i j) /\
       (forall q opa, (q < k)%nat -> mna.opamps p !! q = Some opa ->
          0 <= mna.output_node opa ->
          entry c_zero B (mna.output_node opa) (V + Z.of_nat q) = mna.c_one))
    (fun i opa B =>
       if mna.output_node opa >=? 0
       then mat_set B (mna.output_node opa) i mna.c_one
       else Ok B)
    (mna.opamps p) O V B1) as (B2 & Hrun & Hsh & Hcols & Hout).
  - split; [assumption|]. split; [reflexivity|]. intros; lia.
  - intros k opa B Hk (Hsh & Hcols & Hout). cbn [Nat.add] in *.
    assert (Hin : In opa (mna.opamps p)).
    { apply list_elem_of_In. eapply list_elem_of_lookup_2. exact Hk. }
    destruct (Hop opa Hin) as (_ & _ & Ho).
    pose proof (lookup_lt_Some _ _ _ Hk) as Hlt.
    destruct (Z.geb_spec (mna.output_node opa) 0) as [Ho0|Ho0].
    + assert (Hr : in_range B (mna.output_node opa) (V + Z.of_nat k))
        by (eapply shape_in_range; eauto; lia).
      rewrite (mat_set_ok _ _ _ _ Hr).
      eexists; split; [reflexivity|]. split; [now apply shape_write|]. split.
      * intros i j Hi Hj. rewrite entry_write_other; auto.
        -- eapply shape_in_range; eauto. lia.
        -- intros E. injection E as E1 E2. lia.
      * intros q opa' Hq Hk' Ho'.
        destruct (Nat.eq_dec q k) as [->|Hne].
        -- rewrite Hk in Hk'. injection Hk' as <-.
           apply entry_write_same; [apply Hsh | assumption].
        -- rewrite entry_write_other; auto.
           ++ apply Hout; auto. lia.
           ++ assert (In opa' (mna.opamps p)).
              { apply list_elem_of_In. eapply list_elem_of_lookup_2. exact Hk'. }
              destruct (Hop opa' H) as (_ & _ & Ho2).
              eapply shape_in_range; eauto. lia.
           ++ intros E. injection E as E1 E2. lia.
    + eexists; split; [reflexivity|]. split; [assumption|]. split; [assumption|].
      intros q opa' Hq Hk' Ho'.
      destruct (Nat.eq_dec q k) as [->|Hne].
      * rewrite Hk in Hk'. injection Hk' as <-. lia.
      * apply Hout; auto. lia.
  - exists B2. split; [exact Hrun|]. split; [assumption|]. split; [assumption|].
    intros q opa Hq Ho. apply Hout; auto.
    apply lookup_lt_Some in Hq. lia.
Qed.

(** The row of [C] of one op-amp after [fill_C_opamps]. *)
Lemma fill_C_opamps_ok p n m (C0 : matrix cplx) :
  nodes_below n p -> shape C0 m n ->
  m = Z.of_nat (length (mna.opamps p))
      + Z.of_nat (length (mna.voltage_sources p)) ->
  exists C1, mna.fill_C_opamps p C0 = Ok C1 /\ shape C1 m n /\
    (forall i j, 0 <= i < Z.of_nat (length (mna.voltage_sources p)) ->
       0 <= j < n ->
       entry c_zero C1 i j = entry c_zero C0 i j) /\
    (forall q opa, mna.opamps p !! q = Some opa ->
       forall j, 0 <= j < n ->
       entry c_zero C1
         (Z.of_nat (length (mna.voltage_sources p)) + Z.of_nat q) j
       = if (mna.neg_input_node opa >=? 0) && (j =? mna.neg_input_node opa)
         then mna.c_minus_one
         else if (mna.pos_input_node opa >=? 0)
                 && (j =? mna.pos_input_node opa)
              then mna.c_one
              else entry c_zero C0
                     (Z.of_nat (length (mna.voltage_sources p)) + Z.of_nat q) j).
Proof.
  intros (_ & _ & _ & Hop) Hsh0 Hm.
  set (V := Z.of_nat (length (mna.voltage_sources p))) in *.
  set (row_of := fun (opa : mna.opamp) (old : cplx) (j : Z) =>
         if (mna.neg_input_node opa >=? 0) && (j =? mna.neg_input_node opa)
         then mna.c_minus_one
         else if (mna.pos_input_node opa >=? 0)
                 && (j =? mna.pos_input_node opa)
              then mna.c_one else old).
  destruct (for_each_inv
    (fun k C => shape C m n /\
       (forall i j, 0 <= i < V -> 0 <= j < n ->
          entry c_zero C i j = entry c_zero C0 i j) /\
       (forall q j, (k <= q)%nat -> V + Z.of_nat q < m -> 0 <= j < n ->
          entry c_zero C (V + Z.of_nat q) j
          = entry c_zero C0 (V + Z.of_nat q) j) /\
       (forall q opa, (q < k)%nat -> mna.opamps p !! q = Some opa ->
          forall j, 0 <= j < n ->
          entry c_zero C (V + Z.of_nat q) j
          = row_of opa (entry c_zero C0 (V + Z.of_nat q) j) j))
    (fun i opa C =>
       let* C := if mna.pos_input_node opa >=? 0
                 then mat_set C i (mna.pos_input_node opa) mna.c_one
                 else Ok C in
       if mna.neg_input_node opa >=? 0
       then mat_set C i (mna.neg_input_node opa) mna.c_minus_one
       else Ok C)
    (mna.opamps p) O V C0) as (C1 & Hrun & Hsh & Hrows & _ & Hop1).
  - split; [assumption|]. split; [reflexivity|]. split; [reflexivity|].
    intros; lia.
  - intros k opa C Hk (Hsh & Hrows & Hlater & Hdone). cbn [Nat.add] in *.
    assert (Hin : In opa (mna.opamps p)).
    { apply list_elem_of_In. eapply list_elem_of_lookup_2. exact Hk. }
    destruct (Hop opa Hin) as (Hp & Hn & _).
    pose proof (lookup_lt_Some _ _ _ Hk) as Hlt.
    assert (Hset : forall C' : matrix cplx, shape C' m n -> forall c x, 0 <= c < n ->
              mat_set C' (V + Z.of_nat k) c x
              = Ok (mat_write C' (V + Z.of_nat k) c x)).
    { intros C' Hs c x Hc. apply mat_set_ok.
      eapply shape_in_range; eauto. lia. }
    assert (Hread : forall C' : matrix cplx, shape C' m n -> forall c x i j, 0 <= c < n ->
              0 <= i < m -> 0 <= j < n ->
              entry c_zero (mat_write C' (V + Z.of_nat k) c x) i j
              = if (i =? V + Z.of_nat k) && (j =? c) then x
                else entry c_zero C' i j).
    { intros C' Hs c x i j Hc Hi Hj. apply entry_write.
      - apply Hs.
      - eapply shape_in_range; eauto. lia.
      - eapply shape_in_range; eauto. }
    assert (Hgoal : forall C' : matrix cplx, shape C' m n ->
      (forall i j, 0 <= i < m -> 0 <= j < n ->
         entry c_zero C' i j =
         if i =? V + Z.of_nat k
         then row_of opa (entry c_zero C i j) j
         else entry c_zero C i j) ->
      shape C' m n /\
      (forall i j, 0 <= i < V -> 0 <= j < n ->
         entry c_zero C' i j = entry c_zero C0 i j) /\
      (forall q j, (S k <= q)%nat -> V + Z.of_nat q < m -> 0 <= j < n ->
         entry c_zero C' (V + Z.of_nat q) j
         = entry c_zero C0 (V + Z.of_nat q) j) /\
      (forall q opa0, (q < S k)%nat -> mna.opamps p !! q = Some opa0 ->
         forall j, 0 <= j < n ->
         entry c_zero C' (V + Z.of_nat q) j
         = row_of opa0 (entry c_zero C0 (V + Z.of_nat q) j) j)).
    { intros C' Hs HC'. split; [assumption|]. split; [|split].
      - intros i j Hi Hj. rewrite HC' by lia.
        destruct (Z.eqb_spec i (V + Z.of_nat k)); [lia|]. now apply Hrows.
      - intros q j Hq Hqm Hj. rewrite HC' by lia.
        destruct (Z.eqb_spec (V + Z.of_nat q) (V + Z.of_nat k)); [lia|].
        apply Hlater; auto. lia.
      - intros q opa0 Hq Hk0 j Hj.
        pose proof (lookup_lt_Some _ _ _ Hk0) as Hlt0.
        rewrite HC' by lia.
        destruct (Z.eqb_spec (V + Z.of_nat q) (V + Z.of_nat k)) as [E|E].
        + assert (q = k) by lia. subst q. rewrite Hk in Hk0.
          injection Hk0 as <-. f_equal. apply Hlater; auto. lia.
        + apply Hdone; auto. lia. }
    destruct opa as [pn nn on]. cbn [mna.pos_input_node mna.neg_input_node] in *.
    destruct (Z.geb_spec pn 0); destruct (Z.geb_spec nn 0);
      repeat first [progress cbn [bind]
                   | rewrite Hset by first [lia | solve [auto using shape_write]]];
      (eexists; split; [reflexivity|]);
      (apply Hgoal; [auto using shape_write|]);
      intros i j Hi Hj; unfold row_of;
      cbn [mna.pos_input_node mna.neg_input_node];
      repeat (rewrite Hread by first [lia | solve [auto using shape_write]]);
      destruct (Z.geb_spec pn 0); try lia;
      destruct (Z.geb_spec nn 0); try lia; cbn [andb];
      repeat (match goal with
              | |- context [?x =? ?y] => destruct (Z.eqb_spec x y); try lia
              end; cbn [andb]); try reflexivity; try lia.
  - exists C1. split; [exact Hrun|]. split; [assumption|]. split; [assumption|].
    intros q opa Hq j Hj. apply Hop1; auto.
    apply lookup_lt_Some in Hq. lia.
Qed.

(** [compute_matrix_A] ends normally under the bound of [solve]; the
    matrices [G], [B], [C] it has built are the blocks of its result. *)
Lemma compute_matrix_A_ok p n :
  0 <= n -> nodes_below n p ->
  let V := Z.of_nat (length (mna.voltage_sources p)) in
  let m := Z.of_nat (length (mna.opamps p)) + V in
  exists G B1 C0 B2 C1 A,
    mna.fill_G p (matrix_new c_zero n n) = Ok G /\
    mna.fill_B_sources p (matrix_new c_zero n m) = Ok B1 /\
    transpose c_zero B1 = Ok C0 /\
    mna.fill_B_opamps p B1 = Ok B2 /\
    mna.fill_C_opamps p C0 = Ok C1 /\
    mna.compute_matrix_A p n = Ok A /\
    shape A (n + m) (n + m) /\
    (forall i j, 0 <= i < n -> 0 <= j < n ->
       entry c_zero A i j = entry c_zero G i j) /\
    (forall i j, 0 <= i < n -> 0 <= j < m ->
       entry c_zero A i (n + j) = entry c_zero B2 i j) /\
    (forall i j, 0 <= i < m -> 0 <= j < n ->
       entry c_zero A (n + i) j = entry c_zero C1 i j) /\
    (forall i j, 0 <= i < m -> 0 <= j < m ->
       entry c_zero A (n + i) (n + j) = c_zero).
Proof.
  intros Hn Hbelow V m.
  assert (Hm : 0 <= m) by (unfold m, V; lia).
  destruct (fill_G_ok p n Hn Hbelow) as (G & HG & HshG & _).
  destruct (fill_B_sources_ok p n m (matrix_new c_zero n m) Hbelow)
    as (B1 & HB1 & HshB1 & _); [now apply shape_new | unfold m, V; lia |].
  destruct (transpose_ok c_zero B1 n m HshB1) as (C0 & HC0 & HshC0 & _).
  destruct (fill_B_opamps_ok p n m B1 Hbelow HshB1 eq_refl)
    as (B2 & HB2 & HshB2 & _).
  destruct (fill_C_opamps_ok p n m C0 Hbelow HshC0 eq_refl)
    as (C1 & HC1 & HshC1 & _).
  destruct (join_matrices_horizontal_ok c_zero G B2 n n m HshG HshB2)
    as (GB & HGB & HshGB & HGBl & HGBr).
  destruct (join_matrices_horizontal_ok c_zero C1 (matrix_new c_zero m m)
              m n m HshC1) as (CD & HCD & HshCD & HCDl & HCDr);
    [now apply shape_new|].
  destruct (join_matrices_vertical_ok c_zero GB CD n m (n + m) HshGB HshCD)
    as (A & HA & HshA & HAu & HAd).
  exists G, B1, C0, B2, C1, A.
  repeat (split; [assumption|]).
  split.
  { unfold mna.compute_matrix_A. cbv zeta. fold V. fold m.
    rewrite HG. cbn [bind]. rewrite HB1. cbn [bind]. rewrite HC0. cbn [bind].
    rewrite HB2. cbn [bind]. rewrite HC1. cbn [bind]. rewrite HGB. cbn [bind].
    rewrite HCD. cbn [bind]. exact HA. }
  split; [assumption|]. split; [|split; [|split]].
  - intros i j Hi Hj. rewrite HAu by lia. now apply HGBl.
  - intros i j Hi Hj. rewrite HAu by lia. now apply HGBr.
  - intros i j Hi Hj. rewrite HAd by lia. now apply HCDl.
  - intros i j Hi Hj. rewrite HAd by lia. rewrite HCDr by lia.
    apply entry_new.
Qed.

Lemma fill_I_ok p n :
  0 <= n -> nodes_below n p ->
  (forall (x : cplx) (y : real), c_add_r x (r_opp y) = c_sub_r x y) ->
  exists I1,
    for_each (fun _ cs I_ =>
      let* I_ := if fst (mna.cs_nodes cs) >=? 0
                 then mat_upd c_zero I_ (fst (mna.cs_nodes cs)) 0
                        (fun x => c_add_r x (mna.I cs))
                 else Ok I_ in
      if snd (mna.cs_nodes cs) >=? 0
      then mat_upd c_zero I_ (snd (mna.cs_nodes cs)) 0
             (fun x => c_add_r x (r_opp (mna.I cs)))
      else Ok I_) 0 (mna.current_sources p) (matrix_new c_zero n 1) = Ok I1 /\
    shape I1 n 1 /\
    forall k, 0 <= k < n -> entry c_zero I1 k 0 = i_entry p k.
Proof.
  intros Hn (_ & _ & Hcs & _) Hsub.
  destruct (for_each_inv
    (fun k I_ => shape I_ n 1 /\
       forall i, 0 <= i < n ->
         entry c_zero I_ i 0 =
         fold_left (i_contribution i) (take k (mna.current_sources p)) c_zero)
    (fun (_ : Z) cs I_ =>
      let* I_ := if fst (mna.cs_nodes cs) >=? 0
                 then mat_upd c_zero I_ (fst (mna.cs_nodes cs)) 0
                        (fun x => c_add_r x (mna.I cs))
                 else Ok I_ in
      if snd (mna.cs_nodes cs) >=? 0
      then mat_upd c_zero I_ (snd (mna.cs_nodes cs)) 0
             (fun x => c_add_r x (r_opp (mna.I cs)))
      else Ok I_)
    (mna.current_sources p) O 0 (matrix_new c_zero n 1))
    as (I1 & Hrun & Hsh & Hent).
  - split; [apply shape_new; lia|]. intros i _. simpl. apply entry_new.
  - intros k cs I_ Hk (Hsh & Hent). cbn [Nat.add] in *.
    assert (Hin : In cs (mna.current_sources p)).
    { apply list_elem_of_In. eapply list_elem_of_lookup_2. exact Hk. }
    destruct (Hcs cs Hin) as [Ha Hb].
    destruct cs as [[a b] x0]. cbn [mna.cs_nodes mna.I fst snd] in *.
    assert (Hstep : forall I' : matrix cplx, shape I' n 1 ->
      forall r f, 0 <= r < n ->
      mat_upd c_zero I' r 0 f = Ok (mat_write I' r 0 (f (entry c_zero I' r 0)))).
    { intros I' Hs r f Hr. apply mat_upd_ok.
      eapply shape_in_range; eauto. lia. }
    assert (Hread : forall I' : matrix cplx, shape I' n 1 ->
      forall r v i, 0 <= r < n -> 0 <= i < n ->
      entry c_zero (mat_write I' r 0 v) i 0 =
      if i =? r then v else entry c_zero I' i 0).
    { intros I' Hs r v i Hr Hi.
      rewrite entry_write.
      - now rewrite Z.eqb_refl, andb_true_r.
      - apply Hs.
      - eapply shape_in_range; eauto. lia.
      - eapply shape_in_range; eauto. lia. }
    destruct (Z.geb_spec a 0); destruct (Z.geb_spec b 0);
      repeat first [progress cbn [bind]
                   | rewrite Hstep by first [lia | solve [auto using shape_write]]];
      (eexists; split; [reflexivity|]);
      (split; [auto using shape_write|]);
      intros i Hi;
      rewrite (take_S_r _ _ _ Hk), fold_left_app; cbn [fold_left];
      rewrite <- (Hent i Hi);
      unfold i_contribution; cbn [mna.cs_nodes mna.I fst snd]; cbv zeta;
      repeat (rewrite Hread by first [lia | solve [auto using shape_write]]);
      destruct (Z.geb_spec a 0); try lia;
      destruct (Z.geb_spec b 0); try lia; cbn [andb];
      repeat (match goal with
              | |- context [?x =? ?y] => destruct (Z.eqb_spec x y); try lia
              end; cbn [andb]); subst; rewrite ?Hsub; try reflexivity; try lia.
  - rewrite Nat.add_0_l in Hent.
    exists I1. split; [exact Hrun|]. split; [assumption|].
    intros k Hk. rewrite (Hent k Hk). now rewrite firstn_all.
Qed.

Lemma fill_E_ok p m :
  Z.of_nat (length (mna.voltage_sources p)) <= m ->
  exists E1,
    for_each (fun i vs E => mat_set E i 0 (c_of_real (mna.V vs)))
      0 (mna.voltage_sources p) (matrix_new c_zero m 1) = Ok E1 /\
    shape E1 m 1 /\
    (forall k vs, mna.voltage_sources p !! k = Some vs ->
       entry c_zero E1 (Z.of_nat k) 0 = c_of_real (mna.V vs)) /\
    (forall k, Z.of_nat (length (mna.voltage_sources p)) <= k < m ->
       entry c_zero E1 k 0 = c_zero).
Proof.
  intros HV.
  destruct (for_each_inv
    (fun k E => shape E m 1 /\
       (forall q vs, (q < k)%nat -> mna.voltage_sources p !! q = Some vs ->
          entry c_zero E (Z.of_nat q) 0 = c_of_real (mna.V vs)) /\
       (forall i, Z.of_nat k <= i < m -> entry c_zero E i 0 = c_zero))
    (fun i vs (E : matrix cplx) => mat_set E i 0 (c_of_real (mna.V vs)))
    (mna.voltage_sources p) O 0 (matrix_new c_zero m 1))
    as (E1 & Hrun & Hsh & Hdone & Hrest).
  - split; [apply shape_new; lia|]. split; [intros; lia|].
    intros i _. apply entry_new.
  - intros k vs E Hk (Hsh & Hdone & Hrest). cbn [Nat.add] in *.
    pose proof (lookup_lt_Some _ _ _ Hk) as Hlt.
    assert (Hr : in_range E (0 + Z.of_nat k) 0)
      by (eapply shape_in_range; eauto; lia).
    rewrite (mat_set_ok _ _ _ _ Hr). rewrite Z.add_0_l in *.
    eexists; split; [reflexivity|]. split; [now apply shape_write|]. split.
    + intros q vs' Hq Hk'.
      destruct (Nat.eq_dec q k) as [->|Hne].
      * rewrite Hk in Hk'. injection Hk' as <-.
        apply entry_write_same; [apply Hsh | assumption].
      * pose proof (lookup_lt_Some _ _ _ Hk') as Hlt'.
        rewrite entry_write_other; auto.
        -- apply Hdone; auto. lia.
        -- eapply shape_in_range; eauto; lia.
        -- intros E0. injection E0 as E1. lia.
    + intros i Hi. rewrite entry_write_other; auto.
      * apply Hrest. lia.
      * eapply shape_in_range; eauto; lia.
      * intros E0. injection E0 as E1. lia.
  - rewrite Nat.add_0_l in *.
    exists E1. split; [exact Hrun|]. split; [assumption|]. split.
    + intros k vs Hk. apply Hdone; auto. now apply lookup_lt_Some in Hk.
    + intros k Hk. apply Hrest. lia.
Qed.

End Assembly.


(** ** The assembled system *)

(** C1. For every MNA problem, [compute_matrix_A], called as [solve] calls
    it, returns a square matrix of size [N + V + P] whose upper left
    [N x N] block is [G]: each entry is what the admittances contribute to
    it, taken in order from zero, where an admittance [(a, b, Y)] adds [Y]
    to [G[a,a]] when [a >= 0], adds [Y] to [G[b,b]] when [b >= 0], and
    subtracts [Y] from [G[a,b]] and from [G[b,a]] when both are
    non-negative.  An admittance with a negative terminal changes no entry
    off the diagonal. *)
Theorem conductance_block_of_A {SC : Scalars} (p : mna.mna_problem) :
  let n := mna.get_max_node p + 1 in
  let m := Z.of_nat (length (mna.opamps p))
           + Z.of_nat (length (mna.voltage_sources p)) in
  exists A,
    mna.compute_matrix_A p n = Ok A /\
    shape A (n + m) (n + m) /\
    (forall i j, 0 <= i < n -> 0 <= j < n ->
       entry c_zero A i j
       = fold_left (G_contribution i j) (mna.admittances p) c_zero) /\
    (forall elem i j g,
       fst (mna.adm_nodes elem) < 0 \/ snd (mna.adm_nodes elem) < 0 ->
       i <> j -> G_contribution i j g elem = g) /\
    (forall a b y i j g, 0 <= a -> 0 <= b -> a <> b ->
       G_contribution i j g (mna.Admittance (a, b) y) =
       if (i =? a) && (j =? a) then c_add g y
       else if (i =? b) && (j =? b) then c_add g y
       else if (i =? a) && (j =? b) then c_sub g y
       else if (i =? b) && (j =? a) then c_sub g y
       else g).
Proof.
  intros n m.
  assert (Hn : 0 <= n) by (pose proof (get_max_node_ge p); unfold n; lia).
  destruct (compute_matrix_A_ok p n Hn (get_max_node_below p))
    as (G & B1 & C0 & B2 & C1 & A & HG & _ & _ & _ & _ & HA & Hsh & HAG & _).
  destruct (fill_G_ok p n Hn (get_max_node_below p)) as (G' & HG' & _ & Hent).
  rewrite HG in HG'. injection HG' as <-.
  exists A. split; [exact HA|]. split; [exact Hsh|]. split; [|split].
  - intros i j Hi Hj. rewrite HAG by assumption. now apply Hent.
  - intros [[a b] y] i j g Hneg Hij. unfold G_contribution.
    cbn [mna.adm_nodes mna.Y fst snd] in *.
    destruct (Z.geb_spec a 0); destruct (Z.geb_spec b 0); cbn [andb];
      repeat (match goal with
              | |- context [?x =? ?y] => destruct (Z.eqb_spec x y); try lia
              end; cbn [andb]); try reflexivity; lia.
  - intros a b y i j g Ha Hb Hab. unfold G_contribution.
    cbn [mna.adm_nodes mna.Y fst snd].
    destruct (Z.geb_spec a 0); [|lia]. destruct (Z.geb_spec b 0); [|lia].
    cbn [andb].
    repeat (match goal with
            | |- context [?x =? ?y] => destruct (Z.eqb_spec x y); try lia
            end; cbn [andb]); try reflexivity; lia.
Qed.


Section OpampBlocks.
Context {SC : Scalars}.

Lemma fill_C_opamps_same_inputs (p p' : mna.mna_problem) (C : matrix cplx) :
  length (mna.voltage_sources p') = length (mna.voltage_sources p) ->
  Forall2 same_inputs (mna.opamps p') (mna.opamps p) ->
  mna.fill_C_opamps p' C = mna.fill_C_opamps p C.
Proof.
  intros HV Hops. unfold mna.fill_C_opamps. rewrite HV.
  generalize (Z.of_nat (length (mna.voltage_sources p))) as i.
  revert C. induction Hops as [|o' o l' l [Hp Hn] Hl IH]; intros C i.
  - reflexivity.
  - cbn [for_each]. rewrite Hp, Hn.
    match goal with
    | |- bind ?x _ = bind ?x _ => destruct x as [C'|e]
    end; cbn [bind]; [apply IH | reflexivity].
Qed.

Lemma fill_B_sources_same (p p' : mna.mna_problem) (B : matrix cplx) :
  mna.voltage_sources p' = mna.voltage_sources p ->
  mna.fill_B_sources p' B = mna.fill_B_sources p B.
Proof. intros H. unfold mna.fill_B_sources. now rewrite H. Qed.

End OpampBlocks.

(** C2. For every MNA problem with [V] voltage sources and [P] op-amps, in
    the assembled matrix [A] the first [V] rows of block [C] are the
    transpose of the first [V] columns of block [B]; for the op-amp [q] with
    nodes [(p_node, n_node, o_node)], [B[o_node, V+q] = 1] when
    [o_node >= 0], [C[V+q, n_node] = -1] when [n_node >= 0], and
    [C[V+q, p_node] = 1] when [p_node >= 0] and [p_node] is not [n_node];
    the row [V+q] of [C] is zero elsewhere.  Block [C] does not depend on
    the output nodes of the op-amps: a problem with the same voltage
    sources and the same op-amp inputs has the same block [C]. *)
Theorem source_and_opamp_blocks_of_A {SC : Scalars} (p : mna.mna_problem) :
  let n := mna.get_max_node p + 1 in
  let V := Z.of_nat (length (mna.voltage_sources p)) in
  let m := Z.of_nat (length (mna.opamps p)) + V in
  exists A,
    mna.compute_matrix_A p n = Ok A /\
    (forall k j, 0 <= k < V -> 0 <= j < n ->
       entry c_zero A (n + k) j = entry c_zero A j (n + k)) /\
    (forall q opa, mna.opamps p !! q = Some opa ->
       (0 <= mna.output_node opa ->
        entry c_zero A (mna.output_node opa) (n + (V + Z.of_nat q))
        = mna.c_one) /\
       (0 <= mna.neg_input_node opa ->
        entry c_zero A (n + (V + Z.of_nat q)) (mna.neg_input_node opa)
        = mna.c_minus_one) /\
       (0 <= mna.pos_input_node opa ->
        mna.pos_input_node opa <> mna.neg_input_node opa ->
        entry c_zero A (n + (V + Z.of_nat q)) (mna.pos_input_node opa)
        = mna.c_one) /\
       (forall j, 0 <= j < n ->
        j <> mna.neg_input_node opa -> j <> mna.pos_input_node opa ->
        entry c_zero A (n + (V + Z.of_nat q)) j = c_zero)) /\
    (forall p' : mna.mna_problem,
       mna.voltage_sources p' = mna.voltage_sources p ->
       Forall2 same_inputs (mna.opamps p') (mna.opamps p) ->
       nodes_below n p' ->
       exists A',
         mna.compute_matrix_A p' n = Ok A' /\
         forall i j, 0 <= i < m -> 0 <= j < n ->
           entry c_zero A' (n + i) j = entry c_zero A (n + i) j).
Proof.
  intros n V m.
  assert (Hn : 0 <= n) by (pose proof (get_max_node_ge p); unfold n; lia).
  pose proof (get_max_node_below p) as Hbelow. fold n in Hbelow.
  destruct (compute_matrix_A_ok p n Hn Hbelow)
    as (G & B1 & C0 & B2 & C1 & A & _ & HB1 & HC0 & HB2 & HC1 & HA & Hsh
        & _ & HAB & HAC & _).
  fold V in HB1, HAB, HAC. fold m in HB1, HAB, HAC.
  assert (Hm : 0 <= m) by (unfold m, V; lia).
  destruct (fill_B_sources_ok p n m (matrix_new c_zero n m) Hbelow)
    as (B1' & HB1' & HshB1 & HB1z); [now apply shape_new | unfold m, V; lia |].
  rewrite HB1 in HB1'. injection HB1' as <-. fold V in HB1z.
  destruct (transpose_ok c_zero B1 n m HshB1) as (C0' & HC0' & HshC0 & HC0t).
  rewrite HC0 in HC0'. injection HC0' as <-.
  destruct (fill_B_opamps_ok p n m B1 Hbelow HshB1 eq_refl)
    as (B2' & HB2' & HshB2 & HB2c & HB2o).
  rewrite HB2 in HB2'. injection HB2' as <-. fold V in HB2c, HB2o.
  destruct (fill_C_opamps_ok p n m C0 Hbelow HshC0 eq_refl)
    as (C1' & HC1' & HshC1 & HC1r & HC1o).
  rewrite HC1 in HC1'. injection HC1' as <-. fold V in HC1r, HC1o.
  exists A. split; [exact HA|]. split; [|split].
  - intros k j Hk Hj.
    rewrite HAC by (unfold m; lia). rewrite HAB by (unfold m; lia).
    rewrite HC1r by lia. rewrite HB2c by lia. apply HC0t; unfold m; lia.
  - intros q opa Hq.
    pose proof (lookup_lt_Some _ _ _ Hq) as Hlt.
    assert (Hin : In opa (mna.opamps p)).
    { apply list_elem_of_In. eapply list_elem_of_lookup_2. exact Hq. }
    destruct Hbelow as (_ & _ & _ & Hop).
    destruct (Hop opa Hin) as (Hp & Hng & Ho).
    assert (Hrow : forall j, 0 <= j < n ->
              entry c_zero C0 (V + Z.of_nat q) j = c_zero).
    { intros j Hj. rewrite HC0t by (unfold m; lia).
      rewrite HB1z by (unfold m; lia). apply entry_new. }
    split; [|split; [|split]].
    + intros Ho0. rewrite HAB by (unfold m; lia). now apply HB2o.
    + intros Hn0. rewrite HAC by (unfold m; lia).
      rewrite (HC1o q opa Hq) by lia.
      destruct (Z.geb_spec (mna.neg_input_node opa) 0); [|lia].
      now rewrite Z.eqb_refl.
    + intros Hp0 Hne. rewrite HAC by (unfold m; lia).
      rewrite (HC1o q opa Hq) by lia.
      destruct (Z.eqb_spec (mna.pos_input_node opa) (mna.neg_input_node opa));
        [contradiction|]. rewrite andb_false_r.
      destruct (Z.geb_spec (mna.pos_input_node opa) 0); [|lia].
      now rewrite Z.eqb_refl.
    + intros j Hj Hjn Hjp. rewrite HAC by (unfold m; lia).
      rewrite (HC1o q opa Hq) by lia.
      destruct (Z.eqb_spec j (mna.neg_input_node opa)); [contradiction|].
      destruct (Z.eqb_spec j (mna.pos_input_node opa)); [contradiction|].
      rewrite !andb_false_r. now apply Hrow.
  - intros p' Hvs Hops Hbelow'.
    assert (HV' : Z.of_nat (length (mna.voltage_sources p')) = V)
      by (unfold V; now rewrite Hvs).
    assert (HP' : Z.of_nat (length (mna.opamps p'))
                  = Z.of_nat (length (mna.opamps p)))
      by (now rewrite (Forall2_length _ _ _ Hops)).
    destruct (compute_matrix_A_ok p' n Hn Hbelow')
      as (G' & B1' & C0' & B2' & C1' & A' & _ & HB1' & HC0' & _ & HC1' & HA'
          & _ & _ & _ & HAC' & _).
    rewrite HV', HP' in HB1', HAC'. fold m in HB1', HAC'.
    rewrite (fill_B_sources_same p p') in HB1' by assumption.
    rewrite HB1 in HB1'. injection HB1' as <-.
    rewrite HC0 in HC0'. injection HC0' as <-.
    rewrite (fill_C_opamps_same_inputs p p') in HC1'
      by (auto; now rewrite Hvs).
    rewrite HC1 in HC1'. injection HC1' as <-.
    exists A'. split; [exact HA'|].
    intros i j Hi Hj. rewrite HAC' by assumption. now rewrite HAC.
Qed.


(** C2, as stated, fails for an op-amp whose inputs are one node: the
    entry [C[V+q, p_node]] is written [+1] and then overwritten with [-1]. *)
Lemma opamp_positive_input_counterexample :
  exists A,
    mna.compute_matrix_A shorted_inputs_problem
      (mna.get_max_node shorted_inputs_problem + 1) = Ok A /\
    mna.opamps shorted_inputs_problem !! O = Some (mna.Opamp 0 0 1) /\
    0 <= mna.pos_input_node (mna.Opamp 0 0 1) /\
    entry c_zero A
      (mna.get_max_node shorted_inputs_problem + 1
       + (Z.of_nat (length (mna.voltage_sources shorted_inputs_problem))
          + Z.of_nat O))
      (mna.pos_input_node (mna.Opamp 0 0 1)) <> mna.c_one.
Proof.
  eexists. split; [vm_compute; reflexivity|].
  split; [reflexivity|]. split; [simpl; lia|].
  vm_compute. discriminate.
Qed.

(** C3. For every MNA problem, [compute_matrix_z], called as [solve] calls
    it, returns a column of [N + V + P] rows.  Its first [N] entries are
    [i]: the entry [k] is what the current sources contribute to it, taken
    in order from zero, where a source [(a, b, I)] adds [I] to [i[a]] when
    [a >= 0] and subtracts [I] from [i[b]] when [b >= 0].  The entry
    [N + k] holds the value of the voltage source [k], and the [P] entries
    after those are zero. *)
Theorem right_hand_side_z {SC : Scalars} (p : mna.mna_problem) :
  (forall (x : cplx) (y : real), c_add_r x (r_opp y) = c_sub_r x y) ->
  let n := mna.get_max_node p + 1 in
  let V := Z.of_nat (length (mna.voltage_sources p)) in
  let P := Z.of_nat (length (mna.opamps p)) in
  exists z,
    mna.compute_matrix_z p n = Ok z /\
    shape z (n + (P + V)) 1 /\
    (forall k, 0 <= k < n ->
       entry c_zero z k 0
       = fold_left (i_contribution k) (mna.current_sources p) c_zero) /\
    (forall a b x k y,
       i_contribution k y (mna.CurrentSource (a, b) x) =
       let y := if (a >=? 0) && (k =? a) then c_add_r y x else y in
       if (b >=? 0) && (k =? b) then c_sub_r y x else y) /\
    (forall k vs, mna.voltage_sources p !! k = Some vs ->
       entry c_zero z (n + Z.of_nat k) 0 = c_of_real (mna.V vs)) /\
    (forall k, V <= k < V + P -> entry c_zero z (n + k) 0 = c_zero).
Proof.
  intros Hsub n V P.
  assert (Hn : 0 <= n) by (pose proof (get_max_node_ge p); unfold n; lia).
  destruct (fill_I_ok p n Hn (get_max_node_below p) Hsub)
    as (I1 & HI & HshI & HentI).
  destruct (fill_E_ok p (P + V)) as (E1 & HE & HshE & HEv & HEz);
    [unfold P, V; lia|].
  destruct (join_matrices_vertical_ok c_zero I1 E1 n (P + V) 1 HshI HshE)
    as (z & Hz & Hshz & Hzu & Hzd).
  exists z. split; [|split; [exact Hshz|split; [|split; [|split]]]].
  - unfold mna.compute_matrix_z. cbv zeta. fold n. fold V. fold P.
    rewrite HI. cbn [bind]. rewrite HE. cbn [bind]. exact Hz.
  - intros k Hk. rewrite Hzu by lia. now apply HentI.
  - reflexivity.
  - intros k vs Hk. pose proof (lookup_lt_Some _ _ _ Hk).
    rewrite Hzd by (unfold P, V; lia). now apply HEv.
  - intros k Hk. rewrite Hzd by lia. apply HEz. fold V. lia.
Qed.

Lemma exact_add_opp (x : cplx (Scalars := exact_scalars)) (y : real) :
  c_add_r x (r_opp y) = c_sub_r x y.
Proof. reflexivity. Qed.

Lemma right_hand_side_z_witness :
  exists z,
    mna.compute_matrix_z two_sources_problem
      (mna.get_max_node two_sources_problem + 1) = Ok z /\
    entry c_zero z 0 0 = c_add_r c_zero (Exact.of_int 2) /\
    entry c_zero z 1 0 = c_sub_r c_zero (Exact.of_int 2) /\
    entry c_zero z 2 0 = c_of_real (Exact.of_int 5) /\
    entry c_zero z 3 0 = c_zero.
Proof.
  destruct (right_hand_side_z two_sources_problem exact_add_opp)
    as (z & Hz & _ & Hi & _ & Hv & Hzero).
  exists z. split; [exact Hz|]. split; [|split; [|split]].
  - apply (Hi 0). vm_compute. split; [discriminate | reflexivity].
  - apply (Hi 1). vm_compute. split; [discriminate | reflexivity].
  - exact (Hv O (mna.VoltageSource (1, -1) (Exact.of_int 5)) eq_refl).
  - apply (Hzero 1). vm_compute. split; [discriminate | reflexivity].
Defined.


(** Case analysis on every comparison of integers in the goal. *)
Ltac zcases :=
  repeat (match goal with
          | |- context [Z.eqb ?x ?y] => destruct (Z.eqb_spec x y)
          | |- context [Z.ltb ?x ?y] => destruct (Z.ltb_spec x y)
          | |- context [Z.leb ?x ?y] => destruct (Z.leb_spec x y)
          | |- context [Z.geb ?x ?y] => destruct (Z.geb_spec x y)
          end; try lia; cbn [andb orb negb]; subst);
  try reflexivity.

(** ** More on loops *)

Lemma for_loop_app {St : Type} (body : Z -> St -> result St) :
  forall (n1 n2 : nat) (i : Z) (s : St),
    for_loop (n1 + n2) i body s =
    bind (for_loop n1 i body s) (for_loop n2 (i + Z.of_nat n1) body).
Proof.
  induction n1 as [|n1 IH]; intros n2 i s.
  - simpl. now rewrite Z.add_0_r.
  - cbn [Nat.add for_loop].
    destruct (body i s) as [s1|e]; cbn [bind]; [|reflexivity].
    rewrite IH. now replace (i + 1 + Z.of_nat n1) with (i + Z.of_nat (S n1)) by lia.
Qed.

Lemma for_range_split {St : Type} (body : Z -> St -> result St)
  (lo mid hi : Z) (s : St) :
  lo <= mid <= hi ->
  for_range lo hi body s =
  bind (for_range lo mid body s) (for_range mid hi body).
Proof.
  intros H. unfold for_range.
  replace (Z.to_nat (hi - lo))
    with (Z.to_nat (mid - lo) + Z.to_nat (hi - mid))%nat by lia.
  rewrite for_loop_app.
  now replace (lo + Z.of_nat (Z.to_nat (mid - lo))) with mid by lia.
Qed.

(** A loop whose body never throws is a left fold over its range. *)
Lemma for_loop_pure {St : Type} (body : Z -> St -> result St)
  (f : St -> Z -> St) :
  forall (n : nat) (i : Z) (s : St),
    (forall j s0, i <= j < i + Z.of_nat n -> body j s0 = Ok (f s0 j)) ->
    for_loop n i body s = Ok (fold_left f (seqZ i (Z.of_nat n)) s).
Proof.
  induction n as [|n IH]; intros i s Hb.
  - reflexivity.
  - cbn [for_loop]. rewrite Hb by lia. cbn [bind].
    rewrite IH by (intros; apply Hb; lia).
    rewrite (seqZ_cons i (Z.of_nat (S n))) by lia. cbn [fold_left].
    unfold Z.succ. now replace (Z.pred (Z.of_nat (S n))) with (Z.of_nat n) by lia.
Qed.

Lemma for_range_pure {St : Type} (body : Z -> St -> result St)
  (f : St -> Z -> St) (lo hi : Z) (s : St) :
  lo <= hi ->
  (forall j s0, lo <= j < hi -> body j s0 = Ok (f s0 j)) ->
  for_range lo hi body s = Ok (fold_left f (seqZ lo (hi - lo)) s).
Proof.
  intros Hle Hb. unfold for_range.
  rewrite (for_loop_pure body f) by (intros; apply Hb; lia).
  now replace (Z.of_nat (Z.to_nat (hi - lo))) with (hi - lo) by lia.
Qed.

(** ** Row operations *)

Section RowOperations.
Context {T : Type} (dflt : T).

(** A loop over the columns whose iteration [i] rewrites column [i]
    only: the result holds [target r c] everywhere. *)
Lemma column_loop_ok (mat : matrix T) (h w : Z) (target : Z -> Z -> T)
  (body : Z -> matrix T -> result (matrix T)) :
  shape mat h w ->
  (forall i m2, 0 <= i < w -> shape m2 h w ->
     (forall r c, 0 <= r < h -> 0 <= c < w ->
        entry dflt m2 r c = if c <? i then target r c else entry dflt mat r c) ->
     exists m3, body i m2 = Ok m3 /\ shape m3 h w /\
       forall r c, 0 <= r < h -> 0 <= c < w ->
         entry dflt m3 r c = if c =? i then target r c else entry dflt m2 r c) ->
  exists m', for_range 0 w body mat = Ok m' /\ shape m' h w /\
    forall r c, 0 <= r < h -> 0 <= c < w -> entry dflt m' r c = target r c.
Proof.
  intros Hsh Hbody.
  assert (Hw : 0 <= w) by (destruct Hsh as ((? & ? & ?) & ? & ?); lia).
  destruct (for_range_inv
    (fun i m2 => shape m2 h w /\
       forall r c, 0 <= r < h -> 0 <= c < w ->
         entry dflt m2 r c = if c <? i then target r c else entry dflt mat r c)
    body 0 w mat Hw) as (m' & Hrun & Hsh' & Hent).
  - split; [assumption|]. intros r c Hr Hc.
    destruct (Z.ltb_spec c 0); [lia | reflexivity].
  - intros i m2 Hi (Hsh2 & Hent2).
    destruct (Hbody i m2 Hi Hsh2 Hent2) as (m3 & Hb & Hsh3 & Hent3).
    exists m3. split; [assumption|]. split; [assumption|].
    intros r c Hr Hc. rewrite Hent3 by assumption.
    destruct (Z.eqb_spec c i) as [->|Hne].
    + destruct (Z.ltb_spec i (i + 1)); [reflexivity | lia].
    + rewrite Hent2 by assumption.
      destruct (Z.ltb_spec c i); destruct (Z.ltb_spec c (i + 1));
        try reflexivity; lia.
  - exists m'. split; [assumption|]. split; [assumption|].
    intros r c Hr Hc. rewrite Hent by assumption.
    destruct (Z.ltb_spec c w); [reflexivity | lia].
Qed.

End RowOperations.

Section GaussRows.
Context {SC : Scalars}.
Implicit Types mat : matrix cplx.

Lemma swap_rows_ok mat h w a b :
  shape mat h w -> 0 <= a < h -> 0 <= b < h ->
  exists m', mna.swap_rows a b mat = Ok m' /\ shape m' h w /\
    forall r c, 0 <= r < h -> 0 <= c < w ->
      entry c_zero m' r c =
      if r =? a then entry c_zero mat b c
      else if r =? b then entry c_zero mat a c
      else entry c_zero mat r c.
Proof.
  intros Hsh Ha Hb. unfold mna.swap_rows, get_width.
  replace (m_w mat) with w by (symmetry; apply Hsh).
  apply (column_loop_ok c_zero mat h w); [assumption|].
  intros i m2 Hi Hsh2 Hent2.
  assert (Hia : in_range m2 a i) by (eapply shape_in_range; eauto).
  assert (Hib : in_range m2 b i) by (eapply shape_in_range; eauto).
  rewrite (mat_index_ok _ _ _ Hia). cbn [bind].
  rewrite (mat_index_ok _ _ _ Hib). cbn [bind].
  change (with_cell (with_cell m2 (Z.to_nat (a * m_w m2 + i))
                       (cell c_zero m2 (Z.to_nat (b * m_w m2 + i))))
            (Z.to_nat (b * m_w m2 + i))
            (cell c_zero m2 (Z.to_nat (a * m_w m2 + i))))
    with (mat_write (mat_write m2 a i (entry c_zero m2 b i)) b i
            (entry c_zero m2 a i)).
  eexists; split; [reflexivity|]. split; [auto using shape_write|].
  intros r c Hr Hc.
  assert (Hirc : in_range m2 r c) by (eapply shape_in_range; eauto).
  rewrite entry_write; auto; try (apply well_formed_write, Hsh2).
  rewrite entry_write; auto; try apply Hsh2.
  rewrite !Hent2 by lia. zcases.
Qed.

Lemma multiply_row_ok mat h w r0 k :
  shape mat h w -> 0 <= r0 < h ->
  exists m', mna.multiply_row r0 k mat = Ok m' /\ shape m' h w /\
    forall r c, 0 <= r < h -> 0 <= c < w ->
      entry c_zero m' r c =
      if r =? r0 then c_mul (entry c_zero mat r c) k
      else entry c_zero mat r c.
Proof.
  intros Hsh Hr0. unfold mna.multiply_row, get_width.
  replace (m_w mat) with w by (symmetry; apply Hsh).
  apply (column_loop_ok c_zero mat h w); [assumption|].
  intros i m2 Hi Hsh2 Hent2.
  assert (Hin : in_range m2 r0 i) by (eapply shape_in_range; eauto).
  rewrite (mat_upd_ok _ _ _ _ _ Hin).
  eexists; split; [reflexivity|]. split; [auto using shape_write|].
  intros r c Hr Hc.
  assert (Hirc : in_range m2 r c) by (eapply shape_in_range; eauto).
  rewrite entry_write; auto; try apply Hsh2.
  rewrite !Hent2 by lia. zcases.
Qed.

Lemma add_rows_ok mat h w dest src :
  shape mat h w -> 0 <= dest < h -> 0 <= src < h ->
  exists m', mna.add_rows dest src mat = Ok m' /\ shape m' h w /\
    forall r c, 0 <= r < h -> 0 <= c < w ->
      entry c_zero m' r c =
      if r =? dest
      then c_add (entry c_zero mat dest c) (entry c_zero mat src c)
      else entry c_zero mat r c.
Proof.
  intros Hsh Hd Hs. unfold mna.add_rows, get_width.
  replace (m_w mat) with w by (symmetry; apply Hsh).
  apply (column_loop_ok c_zero mat h w); [assumption|].
  intros i m2 Hi Hsh2 Hent2.
  assert (Hid : in_range m2 dest i) by (eapply shape_in_range; eauto).
  assert (His : in_range m2 src i) by (eapply shape_in_range; eauto).
  rewrite (mat_get_ok _ _ _ _ His). cbn [bind].
  rewrite (mat_upd_ok _ _ _ _ _ Hid).
  eexists; split; [reflexivity|]. split; [auto using shape_write|].
  intros r c Hr Hc.
  assert (Hirc : in_range m2 r c) by (eapply shape_in_range; eauto).
  rewrite entry_write; auto; try apply Hsh2.
  rewrite !Hent2 by lia. zcases.
Qed.

End GaussRows.


(** ** One step of the elimination *)

Section Elimination.
Context {SC : Scalars}.
Implicit Types mat : matrix cplx.

(** [x <= y] on values of [std::abs]: [x > y] is false. *)
Hypothesis gt_irrefl : forall a : magn, m_gtb a a = false.
Hypothesis gt_trans : forall a b c : magn,
  m_gtb b a = true -> m_gtb c a = false -> m_gtb c b = false.


Lemma reduce_below_ok mat N k v :
  shape mat N (N + 1) -> 0 <= k < N ->
  exists m', mna.reduce_below N k v mat = Ok m' /\ shape m' N (N + 1) /\
    forall r c, 0 <= r < N -> 0 <= c < N + 1 ->
      entry c_zero m' r c = reduced k v mat r c.
Proof.
  intros Hsh Hk. unfold mna.reduce_below.
  destruct (for_range_inv
    (fun i m2 => shape m2 N (N + 1) /\
       forall r c, 0 <= r < N -> 0 <= c < N + 1 ->
         entry c_zero m2 r c =
         if r <? i then reduced k v mat r c else entry c_zero mat r c)
    (fun i mat0 =>
       let* e := mat_get c_zero mat0 i k in
       if c_neb_r e mna.r_zero then
         let* e := mat_get c_zero mat0 i k in
         let* mat0 := mna.multiply_row i (c_div (c_opp v) e) mat0 in
         mna.add_rows i k mat0
       else Ok mat0)
    (k + 1) N mat) as (m' & Hrun & Hsh' & Hent).
  - lia.
  - split; [assumption|]. intros r c Hr Hc. unfold reduced.
    destruct (Z.ltb_spec r (k + 1)); [|reflexivity].
    destruct (Z.ltb_spec k r); [lia | reflexivity].
  - intros i m2 Hi (Hsh2 & Hent2).
    assert (Hik : in_range m2 i k) by (eapply shape_in_range; eauto; lia).
    rewrite (mat_get_ok _ _ _ _ Hik). cbn [bind].
    assert (Erow : forall c, 0 <= c < N + 1 ->
              entry c_zero m2 i c = entry c_zero mat i c).
    { intros c Hc. rewrite Hent2 by lia.
      destruct (Z.ltb_spec i i); [lia | reflexivity]. }
    assert (Epiv : forall c, 0 <= c < N + 1 ->
              entry c_zero m2 k c = entry c_zero mat k c).
    { intros c Hc. rewrite Hent2 by lia. unfold reduced.
      destruct (Z.ltb_spec k k); [lia|]. cbn [andb].
      destruct (k <? i); reflexivity. }
    rewrite (Erow k) by lia.
    destruct (c_neb_r (entry c_zero mat i k) mna.r_zero) eqn:Hne.
    + destruct (multiply_row_ok m2 N (N + 1) i
                  (c_div (c_opp v) (entry c_zero mat i k)) Hsh2)
        as (m3 & Hm3 & Hsh3 & Hent3); [lia|].
      rewrite Hm3. cbn [bind].
      destruct (add_rows_ok m3 N (N + 1) i k Hsh3)
        as (m4 & Hm4 & Hsh4 & Hent4); [lia | lia |].
      rewrite Hm4. eexists; split; [reflexivity|]. split; [assumption|].
      intros r c Hr Hc. rewrite Hent4 by assumption.
      destruct (Z.eqb_spec r i) as [->|Hri].
      * rewrite !Hent3 by lia. rewrite Z.eqb_refl.
        destruct (Z.eqb_spec k i); [lia|].
        rewrite Erow, Epiv by assumption.
        destruct (Z.ltb_spec i (i + 1)); [|lia].
        unfold reduced. rewrite Hne.
        destruct (Z.ltb_spec k i); [reflexivity | lia].
      * rewrite Hent3 by assumption.
        destruct (Z.eqb_spec r i); [contradiction|].
        rewrite Hent2 by assumption.
        destruct (Z.ltb_spec r i); destruct (Z.ltb_spec r (i + 1));
          try reflexivity; lia.
    + eexists; split; [reflexivity|]. split; [assumption|].
      intros r c Hr Hc. rewrite Hent2 by assumption.
      destruct (Z.eqb_spec r i) as [->|Hri].
      * destruct (Z.ltb_spec i i); [lia|].
        destruct (Z.ltb_spec i (i + 1)); [|lia].
        unfold reduced. rewrite Hne. now rewrite andb_false_r.
      * destruct (Z.ltb_spec r i); destruct (Z.ltb_spec r (i + 1));
          try reflexivity; lia.
  - exists m'. split; [exact Hrun|]. split; [assumption|].
    intros r c Hr Hc. rewrite Hent by assumption.
    destruct (Z.ltb_spec r N); [reflexivity | lia].
Qed.

End Elimination.


(** ** Back substitution *)

Lemma fold_left_seqZ_ext {A : Type} (f g : A -> Z -> A) (lo len : Z) (s : A) :
  (forall j s0, lo <= j < lo + len -> f s0 j = g s0 j) ->
  fold_left f (seqZ lo len) s = fold_left g (seqZ lo len) s.
Proof.
  intros H.
  assert (Hall : forall j, j ∈ seqZ lo len -> forall s0, f s0 j = g s0 j).
  { intros j Hj s0. apply H. now apply elem_of_seqZ in Hj. }
  clear H. revert s. induction (seqZ lo len) as [|j l IH]; intros s.
  - reflexivity.
  - cbn [fold_left]. rewrite (Hall j) by (left). apply IH.
    intros j' Hj'. apply Hall. now right.
Qed.

Section BackSubstitution.
Context {SC : Scalars}.
Implicit Types mat x : matrix cplx.

Lemma back_sum_ext N mat x x' i :
  (forall j, i < j < N -> entry c_zero x' j 0 = entry c_zero x j 0) ->
  back_sum N mat x' i = back_sum N mat x i.
Proof.
  intros H. unfold back_sum. apply fold_left_seqZ_ext.
  intros j s0 Hj. rewrite H by lia. reflexivity.
Qed.

Lemma back_substitution_ok mat N :
  shape mat N (N + 1) ->
  exists x, mna.back_substitution N mat = Ok x /\ shape x N 1 /\
    forall i, 0 <= i < N ->
      entry c_zero x i 0
      = c_div (back_sum N mat x i) (entry c_zero mat i i).
Proof.
  intros Hsh.
  assert (HN : 0 <= N) by (destruct Hsh as ((? & ? & ?) & ? & ?); lia).
  unfold mna.back_substitution.
  destruct (for_range_down_inv
    (fun i x => shape x N 1 /\
       (forall i', i <= i' < N ->
          entry c_zero x i' 0
          = c_div (back_sum N mat x i') (entry c_zero mat i' i')) /\
       (forall i', 0 <= i' < i -> entry c_zero x i' 0 = c_zero))
    (fun i solution =>
       let* sum := mat_get c_zero mat i N in
       let* sum := for_range i N (fun j sum =>
                     let* a := mat_get c_zero mat i j in
                     let* x := mat_get c_zero solution j 0 in
                     Ok (c_sub sum (c_mul a x))) sum in
       let* d := mat_get c_zero mat i i in
       mat_set solution i 0 (c_div sum d))
    0 N (matrix_new c_zero N 1) HN) as (x & Hrun & Hshx & Hdone & _).
  - split; [apply shape_new; lia|]. split; [intros; lia|].
    intros i' _. apply entry_new.
  - intros i x Hi (Hshx & Hdone & Hzero).
    assert (HiN : in_range mat i N) by (eapply shape_in_range; eauto; lia).
    assert (Hii : in_range mat i i) by (eapply shape_in_range; eauto; lia).
    assert (Hxi : in_range x i 0) by (eapply shape_in_range; eauto; lia).
    rewrite (mat_get_ok _ _ _ _ HiN). cbn [bind].
    rewrite (for_range_pure _
               (fun sum j => c_sub sum (c_mul (entry c_zero mat i j)
                                          (entry c_zero x j 0)))) by
      (try lia; intros j s0 Hj;
       rewrite (mat_get_ok c_zero mat i j)
         by (eapply shape_in_range; eauto; lia);
       cbn [bind];
       rewrite (mat_get_ok c_zero x j 0)
         by (eapply shape_in_range; eauto; lia);
       reflexivity).
    cbn [bind]. rewrite (mat_get_ok _ _ _ _ Hii). cbn [bind].
    rewrite (mat_set_ok _ _ _ _ Hxi).
    eexists; split; [reflexivity|].
    set (v := c_div _ _).
    assert (Hother : forall j, 0 <= j < N -> j <> i ->
              entry c_zero (mat_write x i 0 v) j 0 = entry c_zero x j 0).
    { intros j Hj Hne. apply entry_write_other; auto.
      - eapply shape_in_range; eauto; lia.
      - intros E. injection E as E1. lia. }
    split; [now apply shape_write|]. split.
    + intros i' Hi'. destruct (Z.eq_dec i' i) as [->|Hne].
      * rewrite entry_write_same by (auto; apply Hshx).
        unfold v at 1. f_equal. unfold back_sum.
        rewrite (seqZ_cons i (N - i)) by lia. cbn [fold_left].
        rewrite (Hzero i) by lia.
        replace (Z.succ i) with (i + 1) by lia.
        replace (Z.pred (N - i)) with (N - (i + 1)) by lia.
        apply fold_left_seqZ_ext. intros j s0 Hj.
        rewrite Hother by lia. reflexivity.
      * rewrite Hother by lia. rewrite Hdone by lia. f_equal.
        symmetry. apply back_sum_ext. intros j Hj. apply Hother; lia.
    + intros i' Hi'. rewrite Hother by lia. apply Hzero. lia.
  - exists x. split; [exact Hrun|]. split; [assumption|].
    intros i Hi. now apply Hdone.
Qed.

Lemma fold_sub_add (t : Z -> cplx) (l : list Z) (a acc : cplx) :
  (forall a b c : cplx, c_sub (c_sub a b) c = c_sub a (c_add b c)) ->
  fold_left (fun s j => c_sub s (t j)) l (c_sub a acc)
  = c_sub a (fold_left (fun s j => c_add s (t j)) l acc).
Proof.
  intros Hsubsub. revert acc. induction l as [|j l IH]; intros acc.
  - reflexivity.
  - cbn [fold_left]. rewrite Hsubsub. apply IH.
Qed.

(** With two laws of arithmetic the sum left by the loop is the
    right-hand side minus the sum of the terms after the diagonal. *)
Lemma back_sum_sum_after N mat x i :
  (forall a : cplx, c_mul a c_zero = c_zero) ->
  (forall a b c : cplx, c_sub (c_sub a b) c = c_sub a (c_add b c)) ->
  back_sum N mat x i = c_sub (entry c_zero mat i N) (sum_after N mat x i).
Proof.
  intros Hmul0 Hsubsub. unfold back_sum, sum_after.
  rewrite Hmul0.
  apply (fold_sub_add (fun j => c_mul (entry c_zero mat i j)
                                   (entry c_zero x j 0))).
  exact Hsubsub.
Qed.

End BackSubstitution.


(** ** The elimination phase *)

Section EliminationShape.
Context {SC : Scalars}.
Implicit Types mat : matrix cplx.

Lemma find_pivot_range mat N k :
  shape mat N (N + 1) -> 0 <= k < N ->
  exists mx r, mna.find_pivot N k mat = Ok (mx, r) /\ k <= r < N.
Proof.
  intros Hsh Hk. unfold mna.find_pivot.
  assert (Hkk : in_range mat k k) by (eapply shape_in_range; eauto; lia).
  rewrite (mat_get_ok _ _ _ _ Hkk). cbn [bind].
  destruct (for_range_inv
    (fun i (st : magn * Z) => k <= snd st < i)
    (fun i st =>
       let* e := mat_get c_zero mat i k in
       let x := c_abs e in
       if m_gtb x (fst st) then Ok (x, i) else Ok st)
    (k + 1) N (c_abs (entry c_zero mat k k), k)) as ([mx r] & Hrun & Hr).
  - lia.
  - cbn [snd]. lia.
  - intros i [mx r] Hi Hr. cbn [fst snd] in *.
    assert (Hik : in_range mat i k) by (eapply shape_in_range; eauto; lia).
    rewrite (mat_get_ok _ _ _ _ Hik). cbn [bind]. cbv zeta.
    destruct (m_gtb _ _); eexists; (split; [reflexivity|]); cbn [snd]; lia.
  - exists mx, r. split; [exact Hrun | exact Hr].
Qed.

Lemma eliminate_column_shape mat N k A2 :
  shape mat N (N + 1) -> 0 <= k < N ->
  mna.eliminate_column N k mat = Ok A2 -> shape A2 N (N + 1).
Proof.
  intros Hsh Hk. unfold mna.eliminate_column.
  destruct (find_pivot_range mat N k Hsh Hk) as (mx & r & Hfind & Hr).
  rewrite Hfind. cbn [bind fst snd].
  destruct (m_eqb_r mx mna.r_zero); [discriminate|].
  destruct (swap_rows_ok mat N (N + 1) r k Hsh) as (A1 & HA1 & Hsh1 & _);
    [lia | lia |].
  rewrite HA1. cbn [bind].
  assert (Hkk : in_range A1 k k) by (eapply shape_in_range; eauto; lia).
  rewrite (mat_get_ok _ _ _ _ Hkk). cbn [bind].
  destruct (reduce_below_ok A1 N k (entry c_zero A1 k k) Hsh1 Hk)
    as (A2' & HA2 & Hsh2 & _).
  rewrite HA2. intros E. now injection E as <-.
Qed.

Lemma eliminate_shape_nat mat N (K : nat) A :
  shape mat N (N + 1) -> Z.of_nat K <= N ->
  mna.eliminate N (Z.of_nat K) mat = Ok A -> shape A N (N + 1).
Proof.
  intros Hsh. revert A. induction K as [|K IH]; intros A HK.
  - intros E. now injection E as <-.
  - replace (Z.of_nat (S K)) with (Z.of_nat K + 1) by lia.
    unfold mna.eliminate in *. rewrite for_range_snoc by lia.
    intros HA. apply bind_ok in HA. destruct HA as (A0 & HA0 & Hcol).
    apply (eliminate_column_shape A0 N (Z.of_nat K)); [|lia|assumption].
    apply IH; [lia | assumption].
Qed.

Lemma eliminate_shape mat N k Ak :
  shape mat N (N + 1) -> 0 <= k <= N ->
  mna.eliminate N k mat = Ok Ak -> shape Ak N (N + 1).
Proof.
  intros Hsh Hk HAk.
  apply (eliminate_shape_nat mat N (Z.to_nat k)); auto; [lia|].
  now rewrite Z2Nat.id by lia.
Qed.



Lemma gaussian_elimination_after mat N A :
  shape mat N (N + 1) ->
  mna.eliminate N N mat = Ok A ->
  mna.gaussian_elimination mat = mna.back_substitution N A.
Proof.
  intros Hsh HA. unfold mna.gaussian_elimination, get_height, get_width.
  destruct Hsh as (_ & -> & ->). rewrite Z.eqb_refl. cbn [negb].
  now rewrite HA.
Qed.

Lemma gaussian_elimination_throw mat N e :
  shape mat N (N + 1) ->
  mna.eliminate N N mat = Throw e ->
  mna.gaussian_elimination mat = Throw e.
Proof.
  intros Hsh HA. unfold mna.gaussian_elimination, get_height, get_width.
  destruct Hsh as (_ & -> & ->). rewrite Z.eqb_refl. cbn [negb].
  now rewrite HA.
Qed.

End EliminationShape.

Section EliminationPhase.
Context {SC : Scalars}.
Implicit Types mat : matrix cplx.

Hypothesis gt_irrefl : forall a : magn, m_gtb a a = false.
Hypothesis gt_trans : forall a b c : magn,
  m_gtb b a = true -> m_gtb c a = false -> m_gtb c b = false.



End EliminationPhase.


(** ** The linear solver *)


(** C5, as stated, fails in binary64.  [rounding_system] is in row echelon
    form already, so the elimination phase leaves it as it is, and the
    solver returns [x[1] = x[2] = -2^-53].  For [x[0]] the loop subtracts
    the terms from [A[0,3] = 1] one after another, [1 - (-2^-53)] rounds
    back to [1] both times, and [x[0] = 1]; the formula of the claim
    subtracts the sum of the two terms, which is [-2^-52] in whatever
    order it is added up, and gives [1 + 2^-52]. *)
Lemma back_substitution_rounding_counterexample :
  let A := rounding_system in
  let formula (x : matrix (cplx (Scalars := binary64_scalars))) :=
    c_div (c_sub (entry c_zero A 0 3) (sum_after 3 A x 0))
      (entry c_zero A 0 0) in
  shape A 3 (3 + 1) /\
  mna.eliminate 3 3 A = Ok A /\
  exists x,
    mna.gaussian_elimination A = Ok x /\
    entry c_zero x 1 0
    = Binary64.of_real (PrimFloat.opp (Binary64.two_to_minus 53)) /\
    entry c_zero x 2 0
    = Binary64.of_real (PrimFloat.opp (Binary64.two_to_minus 53)) /\
    entry c_zero x 0 0 = Binary64.of_real (Binary64.of_int 1) /\
    formula x
    = Binary64.of_real
        (PrimFloat.add (Binary64.of_int 1) (Binary64.two_to_minus 52)) /\
    entry c_zero x 0 0 <> formula x.
Proof.
  intros A formula. split; [|split].
  - repeat split; simpl; lia.
  - vm_compute. reflexivity.
  - eexists. split; [vm_compute; reflexivity|].
    split; [vm_compute; reflexivity|]. split; [vm_compute; reflexivity|].
    split; [vm_compute; reflexivity|]. split; [vm_compute; reflexivity|].
    intros H.
    apply (f_equal (fun z => PrimFloat.eqb (fst z) PrimFloat.one)) in H.
    vm_compute in H. discriminate.
Qed.

(** C5, amended. For every [N x (N+1)] system on which the elimination
    phase succeeds, leaving the matrix [A], [gaussian_elimination] returns
    a vector [x] of [N] rows with, for each [i] from [N-1] down to [0],
    [x[i] = s / A[i,i]], where [s] is [A[i,N]] from which the terms
    [A[i,j] * x[j]] are subtracted one after another, for [j = i] (where
    [x[i]] is still zero) up to [N-1].  Where [a * 0 = 0] and
    [(a - b) - c = a - (b + c)], as in exact arithmetic, that is
    [x[i] = (A[i,N] - sum over j > i of A[i,j] * x[j]) / A[i,i]]. *)
Theorem back_substitution_recurrence {SC : Scalars}
  (mat A : matrix cplx) (N : Z) :
  shape mat N (N + 1) ->
  mna.eliminate N N mat = Ok A ->
  exists x,
    mna.gaussian_elimination mat = Ok x /\ shape x N 1 /\
    (forall i, 0 <= i < N ->
       entry c_zero x i 0
       = c_div (back_sum N A x i) (entry c_zero A i i)) /\
    ((forall a : cplx, c_mul a c_zero = c_zero) ->
     (forall a b c : cplx, c_sub (c_sub a b) c = c_sub a (c_add b c)) ->
     forall i, 0 <= i < N ->
       entry c_zero x i 0
       = c_div (c_sub (entry c_zero A i N) (sum_after N A x i))
           (entry c_zero A i i)).
Proof.
  intros Hsh HA.
  assert (HN : 0 <= N) by (destruct Hsh as ((? & ? & ?) & ? & ?); lia).
  pose proof (eliminate_shape mat N N A Hsh ltac:(lia) HA) as HshA.
  destruct (back_substitution_ok A N HshA) as (x & Hx & Hshx & Hrec).
  exists x. split; [|split; [assumption|split; [assumption|]]].
  - now rewrite (gaussian_elimination_after mat N A Hsh HA).
  - intros Hmul0 Hsubsub i Hi. rewrite (Hrec i Hi).
    now rewrite (back_sum_sum_after N A x i Hmul0 Hsubsub).
Qed.


(** ** The exact scalars satisfy the laws *)

Module ExactLaws.



Lemma eqb_eq (x y : Qc) : Exact.Qc_eqb x y = true <-> x = y.
Proof.
  unfold Exact.Qc_eqb. rewrite Qeq_bool_iff. split.
  - apply Qc_is_canon.
  - now intros ->.
Qed.

Lemma squares_zero (x y : Qc) :
  (x * x + y * y)%Qc = Q2Qc 0 -> x = Q2Qc 0 /\ y = Q2Qc 0.
Proof.
  intros H.
  assert (H' : (this x * this x + this y * this y == 0)%Q).
  { apply (f_equal this) in H. unfold Qcplus, Qcmult in H.
    cbn [this Q2Qc] in H.
    assert (E : (Qred (Qred (x * x) + Qred (y * y)) == x * x + y * y)%Q)
      by (rewrite Qred_correct, !Qred_correct; reflexivity).
    rewrite <- E, H. reflexivity. }
  split; apply Qc_is_canon; simpl; change (Qred 0) with 0%Q; nra.
Qed.




Lemma neb_nonzero (a : cplx) :
  c_neb_r a mna.r_zero = true -> Exact.norm2 a <> Q2Qc 0.
Proof.
  destruct a as [x y]. intros H Hz.
  unfold Exact.norm2 in Hz. cbn [fst snd] in Hz.
  apply squares_zero in Hz. destruct Hz as [Hx Hy]. subst x y.
  vm_compute in H. discriminate.
Qed.

Lemma mul_zero (a : cplx) : c_mul a c_zero = c_zero.
Proof.
  destruct a as [a1 a2]. simpl. unfold Exact.mul. simpl. f_equal; ring.
Qed.

Lemma sub_sub (a b c : cplx) : c_sub (c_sub a b) c = c_sub a (c_add b c).
Proof.
  destruct a, b, c. simpl. unfold Exact.sub, Exact.add. simpl.
  f_equal; ring.
Qed.

End ExactLaws.


Lemma pivoting_system_shape : shape pivoting_system 2 (2 + 1).
Proof. repeat split; simpl; lia. Qed.


Lemma back_substitution_recurrence_witness :
  exists x,
    mna.gaussian_elimination pivoting_system = Ok x /\ shape x 2 1 /\
    (forall i, 0 <= i < 2 ->
       entry c_zero x i 0
       = c_div (back_sum 2 pivoting_system_eliminated x i)
           (entry c_zero pivoting_system_eliminated i i)) /\
    (forall i, 0 <= i < 2 ->
       entry c_zero x i 0
       = c_div (c_sub (entry c_zero pivoting_system_eliminated i 2)
                  (sum_after 2 pivoting_system_eliminated x i))
           (entry c_zero pivoting_system_eliminated i i)).
Proof.
  destruct (back_substitution_recurrence pivoting_system
              pivoting_system_eliminated 2 pivoting_system_shape)
    as (x & Hx & Hshx & Hrec & Hexact).
  - vm_compute. reflexivity.
  - exists x. split; [exact Hx|]. split; [exact Hshx|].
    split; [exact Hrec|].
    exact (Hexact ExactLaws.mul_zero ExactLaws.sub_sub).
Defined.


(** ** Lowering of the passive components *)







(** ** The node map *)

Section NodeMap.
Context {SC : Scalars}.

(** [update_node_map] is a fold of [add_node] over the labels. *)
Lemma add_component_nodes_labels (c : circuit_component) (st : gmap Z Z * Z) :
  add_component_nodes c st
  = fold_left (fun st n => add_node n st) (component_labels c) st.
Proof. destruct c as [[]| []| []| [] | [] | | [] | ]; reflexivity. Qed.

Lemma node_map_of_labels (circ : circuit) :
  node_map_of circ
  = fold_left (fun st n => add_node n st) (circuit_labels circ)
      (<[0 := -1]> ∅, 0).
Proof.
  unfold node_map_of, circuit_labels.
  generalize ((<[0 := -1]> ∅ : gmap Z Z), 0).
  induction circ as [|[k v] circ IH]; intros st; [reflexivity|].
  cbn [fold_left map concat snd]. rewrite fold_left_app.
  rewrite <- add_component_nodes_labels. apply IH.
Qed.

Lemma fold_add_node_numbered (l : list Z) :
  forall (assigned : list Z) (st : gmap Z Z * Z),
    numbered assigned st ->
    numbered (assigned ++ first_encounters (dom (fst st)) l)
      (fold_left (fun st n => add_node n st) l st).
Proof.
  induction l as [|x l IH]; intros assigned [m cnt] Hnum.
  - cbn [first_encounters fold_left]. now rewrite app_nil_r.
  - cbn [first_encounters fold_left]. cbn [fst] in *.
    destruct Hnum as (H0 & Hcnt & Hidx & Hdom & Hno0 & Hnd). cbn [fst snd] in *.
    unfold add_node at 2. cbn [fst snd].
    destruct (m !! x) as [i|] eqn:Hx.
    + (* seen *)
      destruct (decide (x ∈ dom m)) as [_|Hn].
      * apply (IH assigned (m, cnt)). repeat split; auto; apply Hdom.
      * exfalso. apply Hn. apply elem_of_dom. eauto.
    + (* new *)
      destruct (decide (x ∈ dom m)) as [Hin|_].
      { apply elem_of_dom in Hin. rewrite Hx in Hin. now destruct Hin. }
      assert (Hx0 : x <> 0) by (intros ->; congruence).
      assert (Hxa : x ∉ assigned).
      { intros Hin. assert (is_Some (m !! x)) by (apply Hdom; auto).
        rewrite Hx in H. now destruct H. }
      pose proof (IH (assigned ++ [x]) (<[x := cnt]> m, cnt + 1)) as IH'.
      cbn [fst] in IH'. rewrite dom_insert_L, <- app_assoc in IH'.
      apply IH'. clear IH IH'.
      unfold numbered. cbn [fst snd].
      split; [now rewrite lookup_insert_ne|].
      split; [rewrite length_app; simpl; lia|].
      split; [|split; [|split]].
      * intros k y Hk. apply lookup_app_Some in Hk.
        destruct Hk as [Hk | [Hlen Hk]].
        -- rewrite lookup_insert_ne; [now apply Hidx|].
           intros ->. apply Hxa. eapply list_elem_of_lookup_2. exact Hk.
        -- destruct (k - length assigned)%nat eqn:E; [|now destruct n].
           cbn in Hk. injection Hk as <-.
           rewrite lookup_insert_eq. f_equal. lia.
      * intros y. rewrite elem_of_app, list_elem_of_singleton.
        destruct (decide (y = x)) as [->|Hne].
        -- rewrite lookup_insert_eq. split; [auto | eauto].
        -- rewrite lookup_insert_ne by congruence. rewrite Hdom. tauto.
      * rewrite elem_of_app, list_elem_of_singleton. intros [H|H]; auto.
      * apply NoDup_app. split; [assumption|]. split.
        -- intros y Hy Hy'. apply list_elem_of_singleton in Hy'. now subst.
        -- apply NoDup_singleton.
Qed.

Lemma first_encounters_spec (l : list Z) :
  forall seen : gset Z,
    NoDup (first_encounters seen l) /\
    forall x, x ∈ first_encounters seen l <-> x ∈ l /\ x ∉ seen.
Proof.
  induction l as [|y l IH]; intros seen; cbn [first_encounters].
  - split; [constructor|]. intros x. rewrite elem_of_nil. tauto.
  - destruct (decide (y ∈ seen)) as [Hy|Hy].
    + destruct (IH seen) as [Hnd Hin]. split; [assumption|].
      intros x. rewrite Hin, elem_of_cons. split.
      * tauto.
      * intros [[->|Hx] Hs]; [contradiction | tauto].
    + destruct (IH ({[y]} ∪ seen)) as [Hnd Hin]. split.
      * constructor; [|assumption]. rewrite Hin.
        rewrite elem_of_union, elem_of_singleton. tauto.
      * intros x. rewrite !elem_of_cons, Hin.
        rewrite elem_of_union, elem_of_singleton.
        destruct (decide (x = y)) as [->|Hne]; tauto.
Qed.

Lemma node_map_of_numbered (circ : circuit) :
  numbered (dense_order circ) (node_map_of circ).
Proof.
  rewrite node_map_of_labels.
  pose proof (fold_add_node_numbered (circuit_labels circ) []
                (<[0 := -1]> ∅, 0)) as H.
  cbn [fst app] in H.
  rewrite dom_insert_L, dom_empty_L, (right_id_L ∅ (∪)) in H.
  apply H. unfold numbered. cbn [fst snd length].
  split; [apply lookup_insert_eq|]. split; [reflexivity|].
  split; [intros k x Hk; now rewrite lookup_nil in Hk|].
  split; [|split; [apply not_elem_of_nil | constructor]].
  intros x. rewrite elem_of_nil. destruct (decide (x = 0)) as [->|Hne].
  - rewrite lookup_insert_eq. split; [auto | eauto].
  - rewrite lookup_insert_ne by congruence. rewrite lookup_empty.
    split; [intros [? ?]; discriminate | tauto].
Qed.

End NodeMap.

(** C7. For every circuit, after [update_node_map] the node map sends the
    label 0 to [-1] and every other label of a component to the position
    of its first encounter among the distinct non-ground labels, counted
    from 0 in circuit iteration order: an index in [[0, N)], different for
    different labels, where [N] is the number of distinct non-ground
    labels. *)
Theorem update_node_map_dense {SC : Scalars} (circ : circuit)
  (s : circuit_solver) :
  let node_map := m_node_map (update_node_map circ s) in
  let labels := circuit_labels circ in
  let N := length (dense_order circ) in
  node_map !! 0 = Some (-1) /\
  (forall k x, dense_order circ !! k = Some x ->
     node_map !! x = Some (Z.of_nat k)) /\
  (forall x, x ∈ labels -> x <> 0 ->
     exists k, (k < N)%nat /\ dense_order circ !! k = Some x /\
               node_map !! x = Some (Z.of_nat k)) /\
  (forall x y i, x ∈ labels -> y ∈ labels -> x <> 0 -> y <> 0 ->
     node_map !! x = Some i -> node_map !! y = Some i -> x = y) /\
  (forall x, x ∈ dense_order circ <-> x ∈ labels /\ x <> 0) /\
  NoDup (dense_order circ) /\
  size (list_to_set labels ∖ {[0]} : gset Z) = N /\
  snd (node_map_of circ) = Z.of_nat N.
Proof.
  intros node_map labels N.
  destruct (node_map_of_numbered circ) as (H0 & Hcnt & Hidx & Hdom & Hno0 & Hnd).
  change (fst (node_map_of circ)) with node_map in *.
  destruct (first_encounters_spec (circuit_labels circ) {[0]}) as [_ Hmem].
  change (first_encounters {[0]} (circuit_labels circ))
    with (dense_order circ) in Hmem.
  change (circuit_labels circ) with labels in Hmem.
  assert (Hmem' : forall x, x ∈ dense_order circ <-> x ∈ labels /\ x <> 0).
  { intros x. rewrite Hmem, elem_of_singleton. tauto. }
  assert (Hpos : forall x, x ∈ labels -> x <> 0 ->
            exists k, (k < N)%nat /\ dense_order circ !! k = Some x /\
                      node_map !! x = Some (Z.of_nat k)).
  { intros x Hx Hx0.
    assert (Hin : x ∈ dense_order circ) by (apply Hmem'; auto).
    apply list_elem_of_lookup in Hin. destruct Hin as [k Hk].
    exists k. split; [now apply lookup_lt_Some in Hk|]. split; auto. }
  split; [assumption|]. split; [assumption|]. split; [assumption|].
  split; [|split; [assumption|split; [assumption|split; [|assumption]]]].
  - intros x y i Hx Hy Hx0 Hy0 Hxi Hyi.
    destruct (Hpos x Hx Hx0) as (kx & _ & Hkx & Hmx).
    destruct (Hpos y Hy Hy0) as (ky & _ & Hky & Hmy).
    rewrite Hmx in Hxi. rewrite Hmy in Hyi.
    assert (kx = ky) by (injection Hxi; injection Hyi; lia). subst ky.
    rewrite Hkx in Hky. now injection Hky.
  - unfold N. rewrite <- (size_list_to_set (C := gset Z) (dense_order circ))
      by assumption.
    f_equal. apply set_eq. intros x.
    rewrite elem_of_difference, !elem_of_list_to_set, elem_of_singleton.
    symmetry. apply Hmem'.
Qed.


(** ** The circuit solver *)

(** Two ways to read off an outcome, for evaluating concrete runs. *)
Lemma pair_with_snd {A B : Type} (x : A * B) (b : B) :
  snd x = b -> x = (fst x, b).
Proof. intros <-. now destruct x. Qed.

Lemma throw_of_thrown {A : Type} (r : result A) (e : exception) :
  match r with Ok _ => None | Throw e' => Some e' end = Some e ->
  r = Throw e.
Proof. destruct r; [discriminate | now intros [= ->]]. Qed.

(** C8, as stated, fails: at [omega = 5] the MNA solve of
    [floating_source_circuit] fails on a singular system, and the message
    of the error that [solve] throws is the fixed text below, the same as at
    [omega = 7]; it does not contain [5]. *)
Lemma solve_message_counterexample :
  let s := new_solver floating_source_circuit in
  let msg := "Could not compute operating point - reason: Could not solve equation system (Gaussian elimination failed)"%string in
  mna.solve (m_problem (fst (solve floating_source_circuit (Exact.of_int 5) s)))
  = Throw (runtime_error mna.singular_what) /\
  snd (solve floating_source_circuit (Exact.of_int 5) s)
  = Throw (runtime_error msg) /\
  snd (solve floating_source_circuit (Exact.of_int 7) s)
  = Throw (runtime_error msg) /\
  contains "5" msg = false.
Proof.
  intros s msg. split; [|split; [|split]].
  - apply throw_of_thrown. vm_compute. reflexivity.
  - vm_compute. reflexivity.
  - vm_compute. reflexivity.
  - vm_compute. reflexivity.
Qed.

(** C8, amended. For every circuit and [omega] on which the lowering ends
    normally and the MNA solve throws a runtime error with the message [w]
    (for a singular system: "Could not solve equation system (Gaussian
    elimination failed)"), [solve] throws a runtime error whose message is
    "Could not compute operating point - reason: " followed by [w]. *)
Theorem solve_wraps_runtime_error {SC : Scalars} (circ : circuit)
  (omega : real) (s : circuit_solver) (problem : mna.mna_problem) (w : string) :
  lower (m_node_map s) omega circ (mna.MnaProblem [] [] [] [])
  = (problem, Ok tt) ->
  mna.solve problem = Throw (runtime_error w) ->
  snd (solve circ omega s)
  = Throw (runtime_error
             ("Could not compute operating point - reason: " ++ w)%string).
Proof.
  intros Hlower Hsolve. unfold solve. rewrite Hlower, Hsolve. reflexivity.
Qed.

Lemma solve_wraps_runtime_error_witness :
  snd (solve floating_source_circuit (Exact.of_int 5)
         (new_solver floating_source_circuit))
  = Throw (runtime_error
             ("Could not compute operating point - reason: "
              ++ mna.singular_what)%string).
Proof.
  apply (solve_wraps_runtime_error (SC := exact_scalars)
           floating_source_circuit (Exact.of_int 5)
           (new_solver floating_source_circuit)
           (fst (lower (SC := exact_scalars)
                   (m_node_map (new_solver floating_source_circuit))
                   (Exact.of_int 5) floating_source_circuit
                   (mna.MnaProblem [] [] [] [])))).
  - apply pair_with_snd. vm_compute. reflexivity.
  - apply throw_of_thrown. vm_compute. reflexivity.
Defined.

(** C10. [solve] stores [omega] whatever happens next; hence, when a solve
    at [omega2] fails after a solve at [omega1] has succeeded, the solver
    still holds the solution of the first solve while [get_solution_omega]
    returns [omega2]. *)
Theorem failed_solve_keeps_solution {SC : Scalars} (circ1 circ2 : circuit)
  (omega1 omega2 : real) (s0 s1 s2 : circuit_solver) (e : exception) :
  solve circ1 omega1 s0 = (s1, Ok tt) ->
  solve circ2 omega2 s1 = (s2, Throw e) ->
  (exists x, get_solution s1 = Some x /\ get_solution s2 = Some x) /\
  get_solution_omega s1 = Some omega1 /\
  get_solution_omega s2 = Some omega2 /\
  (forall circ omega s, get_solution_omega (fst (solve circ omega s))
                        = Some omega).
Proof.
  intros H1 H2.
  assert (Homega : forall circ omega s,
            get_solution_omega (fst (solve circ omega s)) = Some omega).
  { intros circ omega s. unfold solve.
    destruct (lower _ _ _ _) as [p [[]|e']]; [|reflexivity].
    destruct (mna.solve p) as [x|[w|w]]; reflexivity. }
  assert (Hkeep : get_solution s2 = get_solution s1).
  { unfold solve in H2.
    destruct (lower _ _ _ _) as [p [[]|e']].
    - destruct (mna.solve p) as [x|[w|w]]; [discriminate| |];
        injection H2 as <- _; reflexivity.
    - injection H2 as <- _. reflexivity. }
  assert (Hsol : exists x, get_solution s1 = Some x).
  { unfold solve in H1.
    destruct (lower _ _ _ _) as [p [[]|e']]; [|discriminate].
    destruct (mna.solve p) as [x|[w|w]]; [|discriminate|discriminate].
    injection H1 as <-. eexists. reflexivity. }
  destruct Hsol as [x Hx].
  split; [exists x; split; [assumption | now rewrite Hkeep]|].
  split; [|split; [|assumption]].
  - replace s1 with (fst (solve circ1 omega1 s0)) by (now rewrite H1).
    apply Homega.
  - replace s2 with (fst (solve circ2 omega2 s1)) by (now rewrite H2).
    apply Homega.
Qed.

Lemma failed_solve_keeps_solution_witness :
  let s0 := new_solver source_capacitor_circuit in
  let s1 := fst (solve source_capacitor_circuit (Exact.of_int 1) s0) in
  let s2 := fst (solve source_capacitor_circuit (Exact.of_int 0) s1) in
  (exists x, get_solution s1 = Some x /\ get_solution s2 = Some x) /\
  get_solution_omega s1 = Some (Exact.of_int 1) /\
  get_solution_omega s2 = Some (Exact.of_int 0).
Proof.
  intros s0 s1 s2.
  destruct (failed_solve_keeps_solution (SC := exact_scalars)
              source_capacitor_circuit source_capacitor_circuit
              (Exact.of_int 1) (Exact.of_int 0) s0 s1 s2
              (runtime_error
                 ("Could not compute operating point - reason: "
                  ++ mna.singular_what)%string))
    as (H1 & H2 & H3 & _).
  - apply pair_with_snd. vm_compute. reflexivity.
  - apply pair_with_snd. vm_compute. reflexivity.
  - split; [exact H1|]. split; [exact H2 | exact H3].
Defined.


(** ** std::map keeps its keys ascending *)

Section StdMapFacts.
Context {V : Type}.
Implicit Types m : list (string * V).

Lemma key_lt_trans (a b c : string) : key_lt a b -> key_lt b c -> key_lt a c.
Proof.
  unfold key_lt. intros H1 H2.
  apply OrderedTypeEx.String_as_OT.cmp_lt.
  apply OrderedTypeEx.String_as_OT.cmp_lt in H1, H2.
  eapply OrderedTypeEx.String_as_OT.lt_trans; eauto.
Qed.

Lemma key_lt_irrefl (a : string) : ~ key_lt a a.
Proof.
  unfold key_lt. intros H.
  pose proof (String.compare_antisym a a) as E. rewrite H in E. discriminate.
Qed.

Lemma key_compare_refl (a : string) : String.compare a a = Eq.
Proof. now apply (OrderedTypeEx.String_as_OT.cmp_eq a a). Qed.

Lemma key_gt_lt (a b : string) : String.compare a b = Gt -> key_lt b a.
Proof.
  unfold key_lt. intros H. rewrite String.compare_antisym, H. reflexivity.
Qed.

Lemma ascending_cons k v m :
  std_map.ascending ((k, v) :: m) <-> above k m /\ std_map.ascending m.
Proof.
  revert k v. induction m as [|[k' v'] m IH]; intros k v.
  - cbn. split; [intros _; split; [constructor | exact I] | auto].
  - change (std_map.ascending ((k, v) :: (k', v') :: m))
      with (String.compare k k' = Lt /\ std_map.ascending ((k', v') :: m)).
    split.
    + intros [Hlt Hasc]. split; [|assumption].
      constructor; [exact Hlt|].
      apply IH in Hasc. destruct Hasc as [Hab _].
      eapply Forall_impl; [exact Hab|].
      intros kv Hkv. eapply key_lt_trans; [exact Hlt | exact Hkv].
    + intros [Hab Hasc]. split; [|assumption].
      now inversion Hab.
Qed.

Lemma above_assign k0 k v m :
  key_lt k0 k -> above k0 m -> above k0 (std_map.assign k v m).
Proof.
  intros Hk. induction m as [|[k' v'] m IH]; intros Hab; cbn [std_map.assign].
  - repeat constructor. exact Hk.
  - inversion Hab as [|? ? Hk' Hab']; subst.
    destruct (String.compare k k').
    + constructor; [exact Hk | assumption].
    + constructor; [exact Hk | assumption].
    + constructor; [assumption | now apply IH].
Qed.

Lemma assign_ascending k v m :
  std_map.ascending m -> std_map.ascending (std_map.assign k v m).
Proof.
  induction m as [|[k' v'] m IH]; intros Hasc; cbn [std_map.assign].
  - exact I.
  - apply ascending_cons in Hasc. destruct Hasc as [Hab Hasc].
    destruct (String.compare k k') eqn:E.
    + apply String.compare_eq_iff in E. subst k'.
      apply ascending_cons. split; assumption.
    + apply ascending_cons. split.
      * constructor; [exact E|].
        eapply Forall_impl; [exact Hab|].
        intros kv Hkv. eapply key_lt_trans; [exact E | exact Hkv].
      * apply ascending_cons. split; assumption.
    + apply ascending_cons. split.
      * apply above_assign; [now apply key_gt_lt | assumption].
      * now apply IH.
Qed.

Lemma build_ascending (l : list (string * V)) :
  std_map.ascending (std_map.build l).
Proof.
  unfold std_map.build.
  assert (H : std_map.ascending (@nil (string * V))) by exact I.
  revert H. generalize (@nil (string * V)) as m.
  induction l as [|[k v] l IH]; intros m Hm; cbn [fold_left fst snd].
  - exact Hm.
  - apply IH. now apply assign_ascending.
Qed.

(** The pairs of the map after an assignment. *)
Lemma elem_of_assign k v m (kv : string * V) :
  std_map.ascending m ->
  kv ∈ std_map.assign k v m <-> kv = (k, v) \/ (kv ∈ m /\ fst kv <> k).
Proof.
  induction m as [|[k' v'] m IH]; intros Hasc; cbn [std_map.assign].
  - rewrite list_elem_of_singleton, elem_of_nil. tauto.
  - apply ascending_cons in Hasc. destruct Hasc as [Hab Hasc].
    assert (Hm : forall x, x ∈ m -> key_lt k' (fst x)).
    { intros x Hx. unfold above in Hab. rewrite Forall_forall in Hab.
      now apply Hab. }
    destruct (String.compare k k') eqn:E.
    + apply String.compare_eq_iff in E. subst k'.
      rewrite !elem_of_cons. split.
      * intros [->|Hin]; [auto|]. right. split; [auto|].
        intros Heq. apply (key_lt_irrefl k). rewrite <- Heq at 2. now apply Hm.
      * intros [->|[[->|Hin] Hne]]; [auto | now cbn in Hne | auto].
    + rewrite !elem_of_cons. split.
      * intros [->|[->|Hin]]; [auto | |].
        -- right. split; [auto|]. cbn. intros ->.
           now apply (key_lt_irrefl k).
        -- right. split; [auto|]. intros Heq.
           apply (key_lt_irrefl k). apply (key_lt_trans _ k'); [exact E|].
           rewrite <- Heq. now apply Hm.
      * intros [->|[[->|Hin] Hne]]; auto.
    + rewrite !elem_of_cons, (IH Hasc). split.
      * intros [->|[->|[Hin Hne]]]; [|auto|auto].
        right. split; [auto|]. cbn. intros Heq. subst.
        rewrite key_compare_refl in E. discriminate.
      * intros [->|[[->|Hin] Hne]]; auto.
Qed.

(** Two ascending sequences with the same pairs are equal. *)
Lemma ascending_unique m1 m2 :
  std_map.ascending m1 -> std_map.ascending m2 ->
  (forall kv, kv ∈ m1 <-> kv ∈ m2) -> m1 = m2.
Proof.
  revert m2. induction m1 as [|[k1 v1] m1 IH]; intros m2 H1 H2 Hsame.
  - destruct m2 as [|kv m2]; [reflexivity|].
    exfalso. apply (not_elem_of_nil kv). apply Hsame. left.
  - destruct m2 as [|[k2 v2] m2].
    { exfalso. apply (not_elem_of_nil (k1, v1)). apply Hsame. left. }
    apply ascending_cons in H1, H2.
    destruct H1 as [Hab1 H1], H2 as [Hab2 H2].
    unfold above in Hab1, Hab2. rewrite Forall_forall in Hab1, Hab2.
    assert (Hhead : (k1, v1) = (k2, v2)).
    { assert (Ha : (k1, v1) ∈ (k2, v2) :: m2) by (apply Hsame; left).
      assert (Hb : (k2, v2) ∈ (k1, v1) :: m1) by (apply Hsame; left).
      apply elem_of_cons in Ha, Hb.
      destruct Ha as [Ha|Ha]; [assumption|].
      destruct Hb as [Hb|Hb]; [now symmetry|].
      apply Hab2 in Ha. apply Hab1 in Hb. cbn in Ha, Hb.
      exfalso. apply (key_lt_irrefl k1). eapply key_lt_trans; eauto. }
    injection Hhead as <- <-. f_equal.
    apply IH; auto. intros kv. split; intros Hin.
    + assert (Hc : kv ∈ (k1, v1) :: m2) by (apply Hsame; now right).
      apply elem_of_cons in Hc. destruct Hc as [->|Hc]; [|assumption].
      exfalso. apply Hab1 in Hin.
      now apply (key_lt_irrefl k1).
    + assert (Hc : kv ∈ (k1, v1) :: m1) by (apply Hsame; now right).
      apply elem_of_cons in Hc. destruct Hc as [->|Hc]; [|assumption].
      exfalso. apply Hab2 in Hin.
      now apply (key_lt_irrefl k1).
Qed.

End StdMapFacts.


Section StdMapOrder.
Context {V : Type}.
Implicit Types m : list (string * V).

(** The pairs of a map built from assignments to distinct keys. *)
Lemma elem_of_assignments (l : list (string * V)) :
  forall m (kv : string * V),
    std_map.ascending m ->
    NoDup (map fst l) ->
    (forall x y, x ∈ l -> y ∈ m -> fst x <> fst y) ->
    kv ∈ fold_left (fun m kv => std_map.assign (fst kv) (snd kv) m) l m
    <-> kv ∈ m \/ kv ∈ l.
Proof.
  induction l as [|[k v] l IH]; intros m kv Hasc Hnd Hdisj; cbn [fold_left].
  - rewrite elem_of_nil. tauto.
  - cbn [map fst snd] in *. apply NoDup_cons in Hnd. destruct Hnd as [Hk Hnd].
    rewrite IH; [| now apply assign_ascending | assumption |].
    + rewrite (elem_of_assign k v m kv Hasc), elem_of_cons. split.
      * intros [[->|[Hin _]]|Hin]; auto.
      * intros [Hin|[->|Hin]]; auto.
        left. right. split; [assumption|].
        intros Heq. apply (Hdisj (k, v) kv); [left | assumption | now cbn].
    + intros x y Hx Hy. apply (elem_of_assign k v m y Hasc) in Hy.
      destruct Hy as [->|[Hy _]].
      * cbn. intros Heq. apply Hk. rewrite <- Heq.
        apply list_elem_of_fmap. exists x. auto.
      * apply Hdisj; [now right | assumption].
Qed.

Lemma elem_of_build (l : list (string * V)) (kv : string * V) :
  NoDup (map fst l) -> kv ∈ std_map.build l <-> kv ∈ l.
Proof.
  intros Hnd. unfold std_map.build.
  rewrite elem_of_assignments; [| exact I | assumption |].
  - rewrite elem_of_nil. tauto.
  - intros x y _ Hy. now apply elem_of_nil in Hy.
Qed.

(** The map does not depend on the order of the assignments. *)
Lemma build_permutation (l l' : list (string * V)) :
  NoDup (map fst l) -> Permutation l l' ->
  std_map.build l = std_map.build l'.
Proof.
  intros Hnd Hperm.
  assert (Hnd' : NoDup (map fst l')).
  { change (NoDup (fst <$> l')). rewrite <- Hperm. exact Hnd. }
  apply ascending_unique; try apply build_ascending.
  intros kv. rewrite !elem_of_build by assumption.
  now rewrite Hperm.
Qed.

Lemma at_split (ref : string) m (v : V) :
  std_map.at_ ref m = Ok v ->
  exists l1 l2, m = l1 ++ (ref, v) :: l2.
Proof.
  induction m as [|[k v'] m IH]; cbn [std_map.at_]; [discriminate|].
  destruct (String.eqb_spec ref k) as [->|Hne].
  - intros [= ->]. exists [], m. reflexivity.
  - intros H. destruct (IH H) as (l1 & l2 & ->).
    exists ((k, v') :: l1), l2. reflexivity.
Qed.

Lemma ascending_split (l1 l2 : list (string * V)) (ref : string) (v : V) :
  std_map.ascending (l1 ++ (ref, v) :: l2) ->
  (forall kv, kv ∈ l1 -> key_lt (fst kv) ref) /\
  (forall kv, kv ∈ l2 -> key_lt ref (fst kv)).
Proof.
  induction l1 as [|[k v'] l1 IH]; cbn [app]; intros Hasc.
  - apply ascending_cons in Hasc. destruct Hasc as [Hab _].
    unfold above in Hab. rewrite Forall_forall in Hab.
    split; [intros kv Hkv; now apply elem_of_nil in Hkv | exact Hab].
  - apply ascending_cons in Hasc. destruct Hasc as [Hab Hasc].
    destruct (IH Hasc) as [Hl1 Hl2]. split; [|assumption].
    intros kv Hkv. apply elem_of_cons in Hkv. destruct Hkv as [->|Hkv].
    + unfold above in Hab. rewrite Forall_forall in Hab.
      apply (Hab (ref, v)). rewrite elem_of_app. right. left.
    + now apply Hl1.
Qed.

End StdMapOrder.


(** ** Branch indices *)

Section BranchIndex.
Context {SC : Scalars}.
Implicit Types circ l : circuit.

Lemma string_ltb_lt (a b : string) : String.ltb a b = true <-> key_lt a b.
Proof.
  unfold String.ltb, key_lt. destruct (String.compare a b); split;
    congruence.
Qed.

Lemma rank_split wanted l1 l2 ref v :
  std_map.ascending (l1 ++ (ref, v) :: l2) ->
  rank wanted ref (l1 ++ (ref, v) :: l2) = Z.of_nat (count_wanted wanted l1).
Proof.
  intros Hasc. destruct (ascending_split l1 l2 ref v Hasc) as [H1 H2].
  unfold rank, count_wanted. f_equal.
  rewrite List.filter_app, length_app. cbn [List.filter fst snd].
  assert (E1 : List.filter
                 (fun kv => wanted (pointee (snd kv)) && String.ltb (fst kv) ref) l1
               = List.filter (fun kv => wanted (pointee (snd kv))) l1).
  { apply List.filter_ext_in. intros kv Hkv.
    apply list_elem_of_In in Hkv. apply H1 in Hkv. apply string_ltb_lt in Hkv.
    rewrite Hkv.
    apply andb_true_r. }
  assert (E2 : List.filter
                 (fun kv => wanted (pointee (snd kv)) && String.ltb (fst kv) ref) l2
               = []).
  { clear Hasc E1. induction l2 as [|kv l2 IH]; [reflexivity|]. cbn [List.filter].
    assert (Hkv : key_lt ref (fst kv)) by (apply H2; left).
    destruct (String.ltb (fst kv) ref) eqn:E.
    - apply string_ltb_lt in E. exfalso. apply (key_lt_irrefl ref).
      eapply key_lt_trans; eauto.
    - rewrite andb_false_r. apply IH.
      intros kv' Hkv'. apply H2. now right. }
  rewrite E1, E2.
  assert (E3 : String.ltb ref ref = false).
  { destruct (String.ltb ref ref) eqn:E; [|reflexivity].
    apply string_ltb_lt in E. now apply key_lt_irrefl in E. }
  rewrite E3, andb_false_r. cbn [length]. lia.
Qed.

Lemma count_until_split wanted l1 l2 ref v cnt :
  wanted (pointee v) = true ->
  (forall kv, kv ∈ l1 -> address (snd kv) <> address v) ->
  count_until wanted (address v) (l1 ++ (ref, v) :: l2) cnt
  = cnt + Z.of_nat (count_wanted wanted l1).
Proof.
  intros Hw. revert cnt. unfold count_wanted.
  induction l1 as [|[k v'] l1 IH]; intros cnt Haddr; cbn [app count_until].
  - rewrite Hw, Z.eqb_refl. cbn. lia.
  - cbn [List.filter snd].
    assert (Hne : address v' <> address v) by (apply (Haddr (k, v')); left).
    destruct (wanted (pointee v')).
    + destruct (Z.eqb_spec (address v') (address v)); [contradiction|].
      rewrite IH by (intros kv Hkv; apply Haddr; now right).
      cbn [length]. lia.
    + apply IH. intros kv Hkv. apply Haddr. now right.
Qed.

Lemma distinct_objects_split l1 l2 ref v :
  distinct_objects (l1 ++ (ref, v) :: l2) ->
  forall kv, kv ∈ l1 -> address (snd kv) <> address v.
Proof.
  unfold distinct_objects. intros Hnd kv Hkv Heq.
  change (NoDup ((fun kv => address (snd kv)) <$> (l1 ++ (ref, v) :: l2))) in Hnd.
  rewrite fmap_app in Hnd. apply NoDup_app in Hnd.
  destruct Hnd as (_ & Hdisj & _).
  apply (Hdisj (address v)).
  - rewrite <- Heq. apply list_elem_of_fmap. exists kv. auto.
  - cbn. left.
Qed.

(** *** The lists of the problem grow by appending *)

Lemma extended_trans p0 p1 p2 nv1 no1 nv2 no2 :
  extended p0 p1 nv1 no1 -> extended p1 p2 nv2 no2 ->
  extended p0 p2 (nv1 + nv2) (no1 + no2).
Proof.
  intros [(lv1 & Hv1 & Hl1) (lo1 & Ho1 & Hm1)]
         [(lv2 & Hv2 & Hl2) (lo2 & Ho2 & Hm2)].
  split.
  - exists (lv1 ++ lv2). rewrite Hv2, Hv1, <- app_assoc, length_app.
    split; [reflexivity | lia].
  - exists (lo1 ++ lo2). rewrite Ho2, Ho1, <- app_assoc, length_app.
    split; [reflexivity | lia].
Qed.

Lemma lower_component_extended node_map omega c p0 p :
  lower_component node_map omega c p0 = Ok p ->
  extended p0 p (if is_voltage_source c then 1 else 0)
    (if is_opamp c then 1 else 0).
Proof.
  unfold lower_component, map_node_pair, node_at.
  destruct c as [[a b] R|[a b] L|[a b] C|[a b] dcV acV|[a b] dcI acI|pn nn on
                 |[a b]|];
    cbn [admittance as_bipole is_voltage_source is_opamp fst snd bind];
    repeat match goal with
           | |- context [node_map !! ?x] => destruct (node_map !! x)
           end;
    cbn [bind]; try discriminate; intros [= <-];
    cbn [mna.voltage_sources mna.opamps];
    (split; [first [exists []; rewrite app_nil_r; split; reflexivity
                   | eexists; split; reflexivity]
            | first [exists []; rewrite app_nil_r; split; reflexivity
                    | eexists; split; reflexivity]]).
Qed.

Lemma lower_extended node_map omega l :
  forall p0 p,
    lower node_map omega l p0 = (p, Ok tt) ->
    extended p0 p (count_wanted is_voltage_source l) (count_wanted is_opamp l).
Proof.
  induction l as [|[k v] l IH]; intros p0 p; cbn [lower].
  - intros [= <-]. split; exists []; rewrite app_nil_r; split; reflexivity.
  - destruct (lower_component node_map omega (pointee v) p0) as [p1|e] eqn:E;
      [|discriminate].
    intros H. apply lower_component_extended in E. apply IH in H.
    pose proof (extended_trans _ _ _ _ _ _ _ E H) as Hx.
    unfold count_wanted. cbn [List.filter snd].
    destruct (is_voltage_source (pointee v)), (is_opamp (pointee v));
      cbn [length]; exact Hx.
Qed.

Lemma lower_app node_map omega l1 l2 p0 p :
  lower node_map omega (l1 ++ l2) p0 = (p, Ok tt) ->
  exists p1, lower node_map omega l1 p0 = (p1, Ok tt) /\
             lower node_map omega l2 p1 = (p, Ok tt).
Proof.
  revert p0. induction l1 as [|[k v] l1 IH]; intros p0; cbn [app lower].
  - intros H. exists p0. split; [reflexivity | assumption].
  - destruct (lower_component node_map omega (pointee v) p0) as [p1|e];
      [apply IH | discriminate].
Qed.

Lemma lower_component_voltage_source node_map omega nodes dcV acV p1 p2 :
  lower_component node_map omega (voltage_source nodes dcV acV) p1 = Ok p2 ->
  exists a b, node_map !! fst nodes = Some a /\ node_map !! snd nodes = Some b /\
    mna.voltage_sources p2
    = mna.voltage_sources p1
      ++ [mna.VoltageSource (a, b)
            (if r_eqb omega (r_of_int 0) then dcV else acV)].
Proof.
  unfold lower_component, map_node_pair, node_at.
  cbn [admittance as_bipole bind].
  destruct (node_map !! fst nodes) as [a|]; [|discriminate].
  destruct (node_map !! snd nodes) as [b|]; [|discriminate].
  cbn [bind]. intros [= <-]. exists a, b. auto.
Qed.

Lemma lower_component_opamp node_map omega pn nn on p1 p2 :
  lower_component node_map omega (opamp pn nn on) p1 = Ok p2 ->
  exists a b o, node_map !! pn = Some a /\ node_map !! nn = Some b /\
    node_map !! on = Some o /\
    mna.opamps p2 = mna.opamps p1 ++ [mna.Opamp a b o].
Proof.
  unfold lower_component, map_node_pair, node_at.
  cbn [admittance as_bipole bind].
  destruct (node_map !! pn) as [a|]; [|discriminate].
  destruct (node_map !! nn) as [b|]; [|discriminate].
  destruct (node_map !! on) as [o|]; [|discriminate].
  cbn [bind]. intros [= <-]. exists a, b, o. auto.
Qed.

(** What the lowering leaves at the position of one component. *)
Lemma lower_split node_map omega l1 l2 ref v p :
  lower node_map omega (l1 ++ (ref, v) :: l2) (mna.MnaProblem [] [] [] [])
  = (p, Ok tt) ->
  exists p1 p2 lv lo,
    lower_component node_map omega (pointee v) p1 = Ok p2 /\
    length (mna.voltage_sources p1) = count_wanted is_voltage_source l1 /\
    length (mna.opamps p1) = count_wanted is_opamp l1 /\
    mna.voltage_sources p = mna.voltage_sources p2 ++ lv /\
    mna.opamps p = mna.opamps p2 ++ lo.
Proof.
  intros H. apply lower_app in H. destruct H as (p1 & H1 & H2).
  cbn [lower] in H2.
  destruct (lower_component node_map omega (pointee v) p1) as [p2|e] eqn:E;
    [|discriminate].
  apply lower_extended in H1, H2.
  destruct H1 as [(lv1 & Hv1 & Hl1) (lo1 & Ho1 & Hm1)].
  destruct H2 as [(lv2 & Hv2 & _) (lo2 & Ho2 & _)].
  exists p1, p2, lv2, lo2. split; [exact E|].
  cbn [mna.voltage_sources mna.opamps app] in Hv1, Ho1.
  rewrite Hv1, Ho1. auto.
Qed.

End BranchIndex.

(** C9. The circuit is iterated in ascending order of the references,
    whatever the order in which the components were inserted.  The loop of
    [solve] stores the voltage source with the reference [ref] at the
    position that is the number of voltage sources with a smaller
    reference, and [current] asks the solution for the branch current at
    that same position; likewise for the op-amps. *)
Theorem branch_index_is_rank {SC : Scalars} :
  (forall l : list (string * component_ptr),
     std_map.ascending (std_map.build l)) /\
  (forall l l' : list (string * component_ptr),
     NoDup (map fst l) -> Permutation l l' ->
     std_map.build l = std_map.build l') /\
  (forall (circ : circuit) ref v nodes dcV acV,
     std_map.ascending circ -> distinct_objects circ ->
     std_map.at_ ref circ = Ok v ->
     pointee v = voltage_source nodes dcV acV ->
     count_until is_voltage_source (address v) circ 0
     = rank is_voltage_source ref circ /\
     (forall node_map solution omega,
        current circ node_map solution omega v
        = mna.voltage_source_current solution
            (rank is_voltage_source ref circ)) /\
     (forall node_map omega p,
        lower node_map omega circ (mna.MnaProblem [] [] [] []) = (p, Ok tt) ->
        exists a b,
          node_map !! fst nodes = Some a /\ node_map !! snd nodes = Some b /\
          mna.voltage_sources p
            !! Z.to_nat (rank is_voltage_source ref circ)
          = Some (mna.VoltageSource (a, b)
                    (if r_eqb omega (r_of_int 0) then dcV else acV)))) /\
  (forall (circ : circuit) ref v pn nn on,
     std_map.ascending circ -> distinct_objects circ ->
     std_map.at_ ref circ = Ok v ->
     pointee v = opamp pn nn on ->
     count_until is_opamp (address v) circ 0 = rank is_opamp ref circ /\
     (forall node_map solution omega,
        current circ node_map solution omega v
        = mna.opamp_current solution (rank is_opamp ref circ)) /\
     (forall node_map omega p,
        lower node_map omega circ (mna.MnaProblem [] [] [] []) = (p, Ok tt) ->
        exists a b o,
          node_map !! pn = Some a /\ node_map !! nn = Some b /\
          node_map !! on = Some o /\
          mna.opamps p !! Z.to_nat (rank is_opamp ref circ)
          = Some (mna.Opamp a b o))).
Proof.
  split; [apply build_ascending|]. split; [apply build_permutation|]. split.
  - intros circ ref v nodes dcV acV Hasc Hdist Hat Hv.
    destruct (at_split ref circ v Hat) as (l1 & l2 & ->).
    pose proof (distinct_objects_split l1 l2 ref v Hdist) as Haddr.
    assert (Hcnt : count_until is_voltage_source (address v)
                     (l1 ++ (ref, v) :: l2) 0
                   = rank is_voltage_source ref (l1 ++ (ref, v) :: l2)).
    { rewrite rank_split by assumption.
      rewrite count_until_split; [lia | now rewrite Hv | assumption]. }
    split; [exact Hcnt|]. split.
    + intros node_map solution omega. unfold current.
      rewrite Hv. cbn [admittance]. now rewrite Hcnt.
    + intros node_map omega p Hlow.
      destruct (lower_split node_map omega l1 l2 ref v p Hlow)
        as (p1 & p2 & lv & lo & Hc & Hlv & _ & Hp & _).
      rewrite Hv in Hc.
      destruct (lower_component_voltage_source _ _ _ _ _ _ _ Hc)
        as (a & b & Ha & Hb & Hp2).
      exists a, b. split; [assumption|]. split; [assumption|].
      rewrite rank_split by assumption. rewrite Nat2Z.id.
      rewrite Hp, Hp2, <- Hlv, <- app_assoc.
      now rewrite lookup_app_r, Nat.sub_diag by lia.
  - intros circ ref v pn nn on Hasc Hdist Hat Hv.
    destruct (at_split ref circ v Hat) as (l1 & l2 & ->).
    pose proof (distinct_objects_split l1 l2 ref v Hdist) as Haddr.
    assert (Hcnt : count_until is_opamp (address v) (l1 ++ (ref, v) :: l2) 0
                   = rank is_opamp ref (l1 ++ (ref, v) :: l2)).
    { rewrite rank_split by assumption.
      rewrite count_until_split; [lia | now rewrite Hv | assumption]. }
    split; [exact Hcnt|]. split.
    + intros node_map solution omega. unfold current.
      rewrite Hv. cbn [admittance]. now rewrite Hcnt.
    + intros node_map omega p Hlow.
      destruct (lower_split node_map omega l1 l2 ref v p Hlow)
        as (p1 & p2 & lv & lo & Hc & _ & Hlo & _ & Hp).
      rewrite Hv in Hc.
      destruct (lower_component_opamp _ _ _ _ _ _ _ Hc)
        as (a & b & o & Ha & Hb & Ho & Hp2).
      exists a, b, o. split; [assumption|]. split; [assumption|].
      split; [assumption|].
      rewrite rank_split by assumption. rewrite Nat2Z.id.
      rewrite Hp, Hp2, <- Hlo, <- app_assoc.
      now rewrite lookup_app_r, Nat.sub_diag by lia.
Qed.


(** C9, as stated, fails when two references hold the same object:
    [current] stops counting at the first of them, so for the reference
    ["V2"] it uses the index 0, while the rank of ["V2"], and the position
    where [solve] has stored its source, is 1. *)
Lemma aliased_source_index_counterexample :
  exists v,
    std_map.at_ "V2" aliased_sources_circuit = Ok v /\
    is_voltage_source (pointee v) = true /\
    map fst aliased_sources_circuit = ["V1"; "V2"]%string /\
    rank is_voltage_source "V2" aliased_sources_circuit = 1 /\
    count_until is_voltage_source (address v) aliased_sources_circuit 0 = 0.
Proof.
  eexists. split; [reflexivity|].
  split; [reflexivity|]. split; [reflexivity|].
  split; vm_compute; reflexivity.
Qed.

Example two_source_circuit_order :
  map fst two_source_circuit = ["R1"; "V1"; "V2"]%string.
Proof. reflexivity. Qed.

Lemma two_source_circuit_distinct : distinct_objects two_source_circuit.
Proof.
  unfold distinct_objects. apply (bool_decide_unpack _).
  vm_compute. exact I.
Qed.

Lemma branch_index_is_rank_witness :
  count_until is_voltage_source 2 two_source_circuit 0 = 1 /\
  rank is_voltage_source "V2" two_source_circuit = 1.
Proof.
  destruct (branch_index_is_rank (SC := exact_scalars)) as (Hasc & _ & Hvs & _).
  destruct (Hvs two_source_circuit "V2"%string source_V2
              _ _ _
              (Hasc unordered_insertions) two_source_circuit_distinct
              eq_refl eq_refl) as (Hcnt & _).
  change (address source_V2) with 2 in Hcnt. rewrite Hcnt.
  split; vm_compute; reflexivity.
Defined.


(** ** Scenarios of the specification, run on the embedding *)

(** The divider: [V(2) = 5], [I(R1) = 5 mA], [P(R1) = 25 mW]. *)
Example divider_scenario :
  after_solve divider_circuit 0
    (fun c nm x w => voltage_between nm x 2 0) = Some (5 # 1, 0 # 1)%Q /\
  after_solve divider_circuit 0
    (fun c nm x w => current_ref c nm x w "R1") = Some (1 # 200, 0 # 1)%Q /\
  (forall current_first,
     after_solve divider_circuit 0
       (fun c nm x w => power_ref c nm x w current_first "R1")
     = Some (1 # 40, 0 # 1)%Q).
Proof.
  split; [|split]; [vm_compute; reflexivity ..|].
  intros []; vm_compute; reflexivity.
Qed.

(** Two different sources in parallel: the system is singular. *)
Example parallel_sources_scenario :
  snd (solve parallel_sources_circuit (Exact.of_int 0)
         (new_solver parallel_sources_circuit))
  = Throw (runtime_error
             "Could not compute operating point - reason: Could not solve equation system (Gaussian elimination failed)").
Proof. vm_compute. reflexivity. Qed.

(** [pivoting_system] has the solution [x = 1], [y = 3]. *)
Example pivoting_system_solution :
  match mna.gaussian_elimination pivoting_system with
  | Ok x => Some (parts (mat_get c_zero x 0 0), parts (mat_get c_zero x 1 0))
  | Throw _ => None
  end = Some (Some (1 # 1, 0 # 1)%Q, Some (3 # 1, 0 # 1)%Q).
Proof. vm_compute. reflexivity. Qed.


(** * Further properties of the embedded code *)

(** ** matrix.hpp: element access *)

Section MatrixExtensionality.
Context {T : Type} (dflt : T).
Implicit Types m : matrix T.

(** Two matrices of one shape that agree on every element are equal. *)
Lemma matrix_ext m m' h w :
  shape m h w -> shape m' h w ->
  (forall r c, 0 <= r < h -> 0 <= c < w ->
     entry dflt m r c = entry dflt m' r c) ->
  m = m'.
Proof.
  intros ((Hw0 & Hh0 & Hl) & Hh & Hw) ((_ & _ & Hl') & Hh' & Hw') Hent.
  destruct m as [d mw mh], m' as [d' mw' mh']. simpl in *. subst.
  f_equal. apply list_eq. intros idx.
  destruct (decide (idx < length d)%nat) as [Hlt|Hge].
  - assert (Hpos : 0 < w) by (rewrite Hl in Hlt; nia).
    set (r := Z.of_nat idx / w). set (c := Z.of_nat idx mod w).
    assert (Hc : 0 <= c < w) by (apply Z.mod_pos_bound; lia).
    assert (Hidx : Z.of_nat idx = r * w + c).
    { unfold r, c. rewrite Z.mul_comm. apply Z.div_mod. lia. }
    assert (Hr : 0 <= r < h).
    { split; [apply Z.div_pos; lia|].
      apply Z.div_lt_upper_bound; [lia|]. rewrite Hl in Hlt. lia. }
    specialize (Hent r c Hr Hc). unfold entry, cell in Hent. simpl in Hent.
    rewrite <- Hidx, Nat2Z.id in Hent.
    destruct (lookup_lt_is_Some_2 d idx Hlt) as [x Hx].
    assert (Hlt' : (idx < length d')%nat) by lia.
    destruct (lookup_lt_is_Some_2 d' idx Hlt') as [x' Hx'].
    rewrite Hx, Hx' in *. simpl in Hent. now subst.
  - rewrite !lookup_ge_None_2 by lia. reflexivity.
Qed.

Lemma in_range_dec m r c : in_range m r c \/ ~ in_range m r c.
Proof. unfold in_range. lia. Qed.

End MatrixExtensionality.

(** X1. [operator()] and [at]: an element written in range is the element
    read back, every other element is as before, and the sizes are kept;
    out of range, reading and writing throw [std::out_of_range]. *)
Theorem element_access_round_trip {T : Type} (dflt : T) (m : matrix T)
  (r c : Z) (v : T) :
  well_formed m ->
  (in_range m r c ->
     exists m', mat_set m r c v = Ok m' /\
       well_formed m' /\ get_height m' = get_height m /\
       get_width m' = get_width m /\
       mat_get dflt m' r c = Ok v /\
       forall r' c', (r', c') <> (r, c) ->
         mat_get dflt m' r' c' = mat_get dflt m r' c') /\
  (~ in_range m r c ->
     mat_set m r c v = Throw (out_of_range "access outside of matrix") /\
     mat_get dflt m r c = Throw (out_of_range "access outside of matrix")).
Proof.
  intros Hwf. split.
  - intros Hin. exists (mat_write m r c v).
    split; [now apply mat_set_ok|].
    split; [now apply well_formed_write|].
    split; [reflexivity|]. split; [reflexivity|]. split.
    + rewrite mat_get_ok by assumption. f_equal.
      now apply entry_write_same.
    + intros r' c' Hne.
      destruct (in_range_dec m r' c') as [Hin'|Hout].
      * rewrite !mat_get_ok by assumption. f_equal.
        apply entry_write_other; auto.
      * unfold mat_get.
        rewrite (mat_index_throw (mat_write m r c v)) by assumption.
        now rewrite (mat_index_throw m) by assumption.
  - intros Hout. unfold mat_set, mat_get.
    now rewrite mat_index_throw by assumption.
Qed.

(** A 2 x 2 matrix of integers, all zero. *)
Lemma element_access_round_trip_witness :
  exists m',
    mat_set (matrix_new 0 2 2) 1 0 7 = Ok m' /\
    mat_get 0 m' 1 0 = Ok 7 /\
    mat_get 0 m' 0 1 = mat_get 0 (matrix_new 0 2 2) 0 1 /\
    mat_set (matrix_new 0 2 2) 2 0 7
    = Throw (out_of_range "access outside of matrix").
Proof.
  assert (Hwf : well_formed (matrix_new 0 2 2)) by (apply (shape_new 0); lia).
  destruct (element_access_round_trip 0 (matrix_new 0 2 2) 1 0 7 Hwf)
    as [Hin _].
  destruct (element_access_round_trip 0 (matrix_new 0 2 2) 2 0 7 Hwf)
    as [_ Hout].
  destruct Hin as (m' & Hset & _ & _ & _ & Hget & Hother).
  { unfold in_range. simpl. lia. }
  exists m'. split; [exact Hset|]. split; [exact Hget|]. split.
  - apply Hother. discriminate.
  - apply Hout. unfold in_range. simpl. lia.
Defined.

(** ** matrix.hpp: replace, transpose and the joins *)

Section MatrixBlockProperties.
Context {T : Type} (dflt : T).
Implicit Types m mat : matrix T.

Lemma replace_throw m mat row col :
  row < 0 \/ col < 0 \/ get_height m < row + get_height mat
  \/ get_width m < col + get_width mat ->
  replace dflt m row col mat
  = Throw (out_of_range "matrix<T>::replace() - out of range").
Proof.
  intros H. unfold replace.
  destruct (Z.ltb_spec row 0); [reflexivity|].
  destruct (Z.ltb_spec col 0); [reflexivity|].
  destruct (Z.geb_spec (row + get_height mat - 1) (get_height m));
    [reflexivity|].
  destruct (Z.geb_spec (col + get_width mat - 1) (get_width m));
    [reflexivity|].
  lia.
Qed.

End MatrixBlockProperties.

(** X2. [replace] throws [std::out_of_range], before it writes anything,
    exactly when the block does not fit: [row < 0], [col < 0],
    [row + h > H] or [col + w > W].  When the block fits, the result holds
    the elements of [mat] in the block and the elements of [m] elsewhere. *)
Theorem replace_outcome {T : Type} (dflt : T) (m mat : matrix T)
  (row col H W h w : Z) :
  shape m H W -> shape mat h w ->
  (row < 0 \/ col < 0 \/ H < row + h \/ W < col + w ->
   replace dflt m row col mat
   = Throw (out_of_range "matrix<T>::replace() - out of range")) /\
  (0 <= row -> 0 <= col -> row + h <= H -> col + w <= W ->
   exists m', replace dflt m row col mat = Ok m' /\ shape m' H W /\
     forall r c, 0 <= r < H -> 0 <= c < W ->
       entry dflt m' r c =
       if (row <=? r) && (r <? row + h) && (col <=? c) && (c <? col + w)
       then entry dflt mat (r - row) (c - col)
       else entry dflt m r c).
Proof.
  intros Hm Hmat. split.
  - intros Hout. apply replace_throw. unfold get_height, get_width.
    destruct Hm as (_ & -> & ->), Hmat as (_ & -> & ->). exact Hout.
  - intros Hrow Hcol Hh Hw.
    destruct (replace_ok dflt m mat row col H W h w Hm Hmat Hrow Hcol Hh Hw)
      as (m' & Hrun & Hsh & Hcp & Hun).
    exists m'. split; [exact Hrun|]. split; [exact Hsh|].
    intros r c Hr Hc.
    destruct (Z.leb_spec row r); cbn [andb]; [|apply Hun; auto; lia].
    destruct (Z.ltb_spec r (row + h)); cbn [andb]; [|apply Hun; auto; lia].
    destruct (Z.leb_spec col c); cbn [andb]; [|apply Hun; auto; lia].
    destruct (Z.ltb_spec c (col + w)); cbn [andb]; [|apply Hun; auto; lia].
    rewrite <- (Hcp (r - row) (c - col)) by lia.
    f_equal; lia.
Qed.

(** A 1 x 2 block put into the second row of a 2 x 2 matrix; the same
    block does not fit one row lower. *)
Lemma replace_outcome_witness :
  (exists m',
     replace 0 (matrix_new 0 2 2) 1 0 (Matrix [5; 6] 2 1) = Ok m' /\
     entry 0 m' 1 1 = 6 /\ entry 0 m' 0 1 = 0) /\
  replace 0 (matrix_new 0 2 2) 2 0 (Matrix [5; 6] 2 1)
  = Throw (out_of_range "matrix<T>::replace() - out of range").
Proof.
  assert (Hm : shape (matrix_new 0 2 2) 2 2) by (apply (shape_new 0); lia).
  assert (Hmat : shape (Matrix [5; 6] 2 1) 1 2)
    by (repeat split; simpl; lia).
  split.
  - destruct (replace_outcome 0 (matrix_new 0 2 2) (Matrix [5; 6] 2 1)
                1 0 2 2 1 2 Hm Hmat) as [_ Hfit].
    destruct Hfit as (m' & Hrun & _ & Hent); try lia.
    exists m'. split; [exact Hrun|]. split.
    + rewrite (Hent 1 1) by lia. reflexivity.
    + rewrite (Hent 0 1) by lia. reflexivity.
  - destruct (replace_outcome 0 (matrix_new 0 2 2) (Matrix [5; 6] 2 1)
                2 0 2 2 1 2 Hm Hmat) as [Hout _].
    apply Hout. lia.
Defined.

(** X3. [transpose] never throws: the result has the sizes exchanged and the
    element [(c, r)] of [m] at [(r, c)]; transposing the result gives [m]
    back. *)
Theorem transpose_involution {T : Type} (dflt : T) (m : matrix T) (h w : Z) :
  shape m h w ->
  exists m', transpose dflt m = Ok m' /\ shape m' w h /\
    (forall r c, 0 <= r < w -> 0 <= c < h ->
       entry dflt m' r c = entry dflt m c r) /\
    transpose dflt m' = Ok m.
Proof.
  intros Hm.
  destruct (transpose_ok dflt m h w Hm) as (m' & Hrun & Hsh & Hent).
  exists m'. split; [exact Hrun|]. split; [exact Hsh|]. split; [exact Hent|].
  destruct (transpose_ok dflt m' w h Hsh) as (m'' & Hrun2 & Hsh2 & Hent2).
  rewrite Hrun2. f_equal.
  apply (matrix_ext dflt m'' m h w Hsh2 Hm).
  intros r c Hr Hc. rewrite Hent2 by assumption. now apply Hent.
Qed.

Lemma transpose_involution_witness :
  exists m',
    transpose 0 (Matrix [1; 2; 3; 4; 5; 6] 3 2) = Ok m' /\
    entry 0 m' 2 1 = 6 /\
    transpose 0 m' = Ok (Matrix [1; 2; 3; 4; 5; 6] 3 2).
Proof.
  destruct (transpose_involution 0 (Matrix [1; 2; 3; 4; 5; 6] 3 2) 2 3)
    as (m' & Hrun & _ & Hent & Hback).
  - repeat split; simpl; lia.
  - exists m'. split; [exact Hrun|]. split; [|exact Hback].
    rewrite (Hent 2 1) by lia. reflexivity.
Defined.

(** X4. [join_matrices_horizontal] throws [std::runtime_error] exactly when
    the heights differ, and [join_matrices_vertical] exactly when the
    widths differ; otherwise the result holds the first operand followed
    by the second, to the right of it or below it. *)
Theorem join_matrices_outcome {T : Type} (dflt : T) (a b : matrix T) :
  well_formed a -> well_formed b ->
  (get_height a <> get_height b ->
   join_matrices_horizontal dflt a b
   = Throw (runtime_error
              "cannot horizontally join matrices of different heights")) /\
  (get_height a = get_height b ->
   exists m', join_matrices_horizontal dflt a b = Ok m' /\
     shape m' (get_height a) (get_width a + get_width b) /\
     forall i j, 0 <= i < get_height a ->
       0 <= j < get_width a + get_width b ->
       entry dflt m' i j =
       if j <? get_width a then entry dflt a i j
       else entry dflt b i (j - get_width a)) /\
  (get_width a <> get_width b ->
   join_matrices_vertical dflt a b
   = Throw (runtime_error
              "cannot vertically join matrices of different widths")) /\
  (get_width a = get_width b ->
   exists m', join_matrices_vertical dflt a b = Ok m' /\
     shape m' (get_height a + get_height b) (get_width a) /\
     forall i j, 0 <= i < get_height a + get_height b ->
       0 <= j < get_width a ->
       entry dflt m' i j =
       if i <? get_height a then entry dflt a i j
       else entry dflt b (i - get_height a) j).
Proof.
  intros Ha Hb. unfold get_height, get_width.
  split; [|split; [|split]].
  - intros Hne. unfold join_matrices_horizontal, get_height.
    destruct (Z.eqb_spec (m_h a) (m_h b)); [contradiction | reflexivity].
  - intros Heq.
    destruct (join_matrices_horizontal_ok dflt a b (m_h a) (m_w a) (m_w b))
      as (m' & Hrun & Hsh & Hl & Hr).
    { now split. } { now split. }
    exists m'. split; [exact Hrun|]. split; [exact Hsh|].
    intros i j Hi Hj. destruct (Z.ltb_spec j (m_w a)).
    + apply Hl; lia.
    + rewrite <- (Hr i (j - m_w a)) by lia. f_equal. lia.
  - intros Hne. unfold join_matrices_vertical, get_width.
    destruct (Z.eqb_spec (m_w a) (m_w b)); [contradiction | reflexivity].
  - intros Heq.
    destruct (join_matrices_vertical_ok dflt a b (m_h a) (m_h b) (m_w a))
      as (m' & Hrun & Hsh & Hu & Hd).
    { now split. } { now split. }
    exists m'. split; [exact Hrun|]. split; [exact Hsh|].
    intros i j Hi Hj. destruct (Z.ltb_spec i (m_h a)).
    + apply Hu; lia.
    + rewrite <- (Hd (i - m_h a) j) by lia. f_equal. lia.
Qed.

Lemma join_matrices_outcome_witness :
  (exists m',
     join_matrices_horizontal 0 (Matrix [1; 2] 1 2) (Matrix [3; 4] 1 2)
     = Ok m' /\ entry 0 m' 1 1 = 4) /\
  join_matrices_horizontal 0 (Matrix [1; 2] 1 2) (Matrix [3; 4] 2 1)
  = Throw (runtime_error
             "cannot horizontally join matrices of different heights") /\
  (exists m',
     join_matrices_vertical 0 (Matrix [1; 2] 1 2) (Matrix [3; 4] 1 2)
     = Ok m' /\ entry 0 m' 3 0 = 4).
Proof.
  assert (Ha : well_formed (Matrix [1; 2] 1 2)) by (repeat split; simpl; lia).
  assert (Hb : well_formed (Matrix [3; 4] 1 2)) by (repeat split; simpl; lia).
  assert (Hc : well_formed (Matrix [3; 4] 2 1)) by (repeat split; simpl; lia).
  split; [|split].
  - destruct (join_matrices_outcome 0 _ _ Ha Hb) as (_ & Hh & _ & _).
    destruct (Hh eq_refl) as (m' & Hrun & _ & Hent).
    exists m'. split; [exact Hrun|].
    rewrite (Hent 1 1) by (simpl; lia). reflexivity.
  - destruct (join_matrices_outcome 0 _ _ Ha Hc) as (Hne & _).
    apply Hne. simpl. lia.
  - destruct (join_matrices_outcome 0 _ _ Ha Hb) as (_ & _ & _ & Hv).
    destruct (Hv eq_refl) as (m' & Hrun & _ & Hent).
    exists m'. split; [exact Hrun|].
    rewrite (Hent 3 0) by (simpl; lia). reflexivity.
Defined.

(** X5. Transposing a horizontal join gives the vertical join of the
    transposed operands. *)
Theorem transpose_of_horizontal_join {T : Type} (dflt : T) (l r : matrix T)
  (h wl wr : Z) :
  shape l h wl -> shape r h wr ->
  exists lr l' r' v,
    join_matrices_horizontal dflt l r = Ok lr /\
    transpose dflt l = Ok l' /\ transpose dflt r = Ok r' /\
    join_matrices_vertical dflt l' r' = Ok v /\
    transpose dflt lr = Ok v.
Proof.
  intros Hl Hr.
  destruct (join_matrices_horizontal_ok dflt l r h wl wr Hl Hr)
    as (lr & Hlr & Hshlr & Hlrl & Hlrr).
  destruct (transpose_ok dflt l h wl Hl) as (l' & Hl' & Hshl' & Hentl').
  destruct (transpose_ok dflt r h wr Hr) as (r' & Hr' & Hshr' & Hentr').
  destruct (join_matrices_vertical_ok dflt l' r' wl wr h Hshl' Hshr')
    as (v & Hv & Hshv & Hvu & Hvd).
  destruct (transpose_ok dflt lr h (wl + wr) Hshlr) as (t & Ht & Hsht & Hentt).
  exists lr, l', r', v. repeat (split; [assumption|]).
  rewrite Ht. f_equal.
  apply (matrix_ext dflt t v (wl + wr) h Hsht Hshv).
  intros i j Hi Hj. rewrite Hentt by assumption.
  destruct (Z.lt_ge_cases i wl).
  - rewrite Hlrl, Hvu by lia. symmetry. apply Hentl'; lia.
  - replace i with (wl + (i - wl)) by lia.
    rewrite Hlrr, Hvd by lia. symmetry. apply Hentr'; lia.
Qed.

Lemma transpose_of_horizontal_join_witness :
  exists lr v,
    join_matrices_horizontal 0 (Matrix [1; 2] 1 2) (Matrix [3; 4] 1 2)
    = Ok lr /\
    join_matrices_vertical 0 (Matrix [1; 2] 2 1) (Matrix [3; 4] 2 1) = Ok v /\
    transpose 0 lr = Ok v.
Proof.
  destruct (transpose_of_horizontal_join 0
              (Matrix [1; 2] 1 2) (Matrix [3; 4] 1 2) 2 1 1)
    as (lr & l' & r' & v & Hlr & Hl' & Hr' & Hv & Ht).
  - repeat split; simpl; lia.
  - repeat split; simpl; lia.
  - exists lr, v. split; [exact Hlr|]. split; [|exact Ht].
    assert (El : Ok l' = Ok (Matrix [1; 2] 2 1))
      by (rewrite <- Hl'; reflexivity).
    assert (Er : Ok r' = Ok (Matrix [3; 4] 2 1))
      by (rewrite <- Hr'; reflexivity).
    injection El as <-. injection Er as <-. exact Hv.
Defined.
(** ** matrix.hpp: the arithmetic operators *)

Section CellLoop.
Context {T : Type} (dflt : T).
Implicit Types m : matrix T.

(** [(r, c)] is visited before [(y, x)] by two nested loops, rows outside. *)
Let visited (y x r c : Z) : bool := (r <? y) || ((r =? y) && (c <? x)).

(** Two nested loops over the elements whose iteration [(y, x)] rewrites
    the element [(y, x)] only: the result holds [target r c] everywhere. *)
Lemma cell_loop_ok m (h w : Z) (target : Z -> Z -> T)
  (body : Z -> Z -> matrix T -> result (matrix T)) :
  shape m h w ->
  (forall y x m2, 0 <= y < h -> 0 <= x < w -> shape m2 h w ->
     (forall r c, 0 <= r < h -> 0 <= c < w ->
        entry dflt m2 r c =
        if visited y x r c then target r c else entry dflt m r c) ->
     exists m3, body y x m2 = Ok m3 /\ shape m3 h w /\
       forall r c, 0 <= r < h -> 0 <= c < w ->
         entry dflt m3 r c =
         if (r =? y) && (c =? x) then target r c else entry dflt m2 r c) ->
  exists m', for_range 0 h (fun y m1 =>
               for_range 0 w (fun x m2 => body y x m2) m1) m = Ok m' /\
    shape m' h w /\
    forall r c, 0 <= r < h -> 0 <= c < w -> entry dflt m' r c = target r c.
Proof.
  intros Hsh Hbody.
  assert (H0 : 0 <= h /\ 0 <= w)
    by (destruct Hsh as ((? & ? & ?) & ? & ?); lia).
  destruct H0 as [H0h H0w].
  destruct (for_range_inv
    (fun y m1 => shape m1 h w /\
       forall r c, 0 <= r < h -> 0 <= c < w ->
         entry dflt m1 r c =
         if visited y 0 r c then target r c else entry dflt m r c)
    (fun y m1 => for_range 0 w (fun x m2 => body y x m2) m1) 0 h m H0h)
    as (m' & Hrun & Hsh' & Hent).
  - split; [assumption|]. intros r c Hr Hc. unfold visited. zcases.
  - intros y m1 Hy (Hsh1 & Hent1).
    destruct (for_range_inv
      (fun x m2 => shape m2 h w /\
         forall r c, 0 <= r < h -> 0 <= c < w ->
           entry dflt m2 r c =
           if visited y x r c then target r c else entry dflt m r c)
      (fun x m2 => body y x m2) 0 w m1 H0w) as (m2 & Hrun2 & Hsh2 & Hent2).
    + split; assumption.
    + intros x m2 Hx (Hsh2 & Hent2).
      destruct (Hbody y x m2 Hy Hx Hsh2 Hent2) as (m3 & Hb & Hsh3 & Hent3).
      exists m3. split; [assumption|]. split; [assumption|].
      intros r c Hr Hc. rewrite Hent3, Hent2 by assumption.
      unfold visited. zcases.
    + exists m2. split; [assumption|]. split; [assumption|].
      intros r c Hr Hc. rewrite Hent2 by assumption.
      unfold visited. zcases.
  - exists m'. split; [assumption|]. split; [assumption|].
    intros r c Hr Hc. rewrite Hent by assumption.
    unfold visited. zcases.
Qed.

(** [at(y, x) = op(at(y, x), scalar)] for every element, with a scalar
    that is no element of the matrix. *)
Lemma update_all_ok m (h w : Z) (op : T -> T -> T) (a : T) :
  shape m h w ->
  exists m', for_range 0 (get_height m) (fun y m1 =>
               for_range 0 (get_width m) (fun x m2 =>
                 mat_upd dflt m2 y x
                   (fun v => op v (deref dflt m2 (outside a)))) m1) m
             = Ok m' /\
    shape m' h w /\
    forall r c, 0 <= r < h -> 0 <= c < w ->
      entry dflt m' r c = op (entry dflt m r c) a.
Proof.
  intros Hsh. unfold get_height, get_width.
  pose proof Hsh as (_ & -> & ->).
  apply (cell_loop_ok m h w (fun r c => op (entry dflt m r c) a)
           (fun y x m2 =>
              mat_upd dflt m2 y x
                (fun v => op v (deref dflt m2 (outside a)))) Hsh).
  intros y x m2 Hy Hx Hsh2 Hent2.
  assert (Hin : in_range m2 y x) by (eapply shape_in_range; eauto).
  rewrite (mat_upd_ok _ _ _ _ _ Hin).
  eexists; split; [reflexivity|]. split; [now apply shape_write|].
  intros r c Hr Hc.
  rewrite entry_write
    by first [apply Hsh2 | eapply shape_in_range; eauto].
  destruct ((r =? y) && (c =? x)) eqn:E; [|reflexivity].
  apply andb_prop in E. destruct E as [E1 E2].
  apply Z.eqb_eq in E1, E2. subst r c. cbn [deref].
  rewrite Hent2 by assumption.
  replace (visited y x y x) with false; [reflexivity|].
  unfold visited. zcases.
Qed.

(** The same loop with a scalar that is the element [(r0, c0)] of the
    matrix: the elements up to [(r0, c0)] meet its old value, the
    elements after it its new value. *)
Lemma update_all_aliased m (h w : Z) (op : T -> T -> T) (r0 c0 : Z) :
  shape m h w -> 0 <= r0 < h -> 0 <= c0 < w ->
  exists m', for_range 0 (get_height m) (fun y m1 =>
               for_range 0 (get_width m) (fun x m2 =>
                 mat_upd dflt m2 y x
                   (fun v => op v (deref dflt m2
                                     (element (Z.to_nat (r0 * w + c0))))))
                 m1) m
             = Ok m' /\
    shape m' h w /\
    forall r c, 0 <= r < h -> 0 <= c < w ->
      entry dflt m' r c
      = op (entry dflt m r c)
          (if (r0 <? r) || ((r0 =? r) && (c0 <? c))
           then op (entry dflt m r0 c0) (entry dflt m r0 c0)
           else entry dflt m r0 c0).
Proof.
  intros Hsh Hr0 Hc0. unfold get_height, get_width.
  pose proof Hsh as (_ & -> & ->).
  apply (cell_loop_ok m h w
           (fun r c =>
              op (entry dflt m r c)
                (if (r0 <? r) || ((r0 =? r) && (c0 <? c))
                 then op (entry dflt m r0 c0) (entry dflt m r0 c0)
                 else entry dflt m r0 c0))
           (fun y x m2 =>
              mat_upd dflt m2 y x
                (fun v => op v (deref dflt m2
                                  (element (Z.to_nat (r0 * w + c0))))))
           Hsh).
  intros y x m2 Hy Hx Hsh2 Hent2.
  assert (Hin : in_range m2 y x) by (eapply shape_in_range; eauto).
  rewrite (mat_upd_ok _ _ _ _ _ Hin).
  eexists; split; [reflexivity|]. split; [now apply shape_write|].
  intros r c Hr Hc.
  rewrite entry_write
    by first [apply Hsh2 | eapply shape_in_range; eauto].
  destruct ((r =? y) && (c =? x)) eqn:E; [|reflexivity].
  apply andb_prop in E. destruct E as [E1 E2].
  apply Z.eqb_eq in E1, E2. subst r c. cbn [deref].
  assert (Hw2 : m_w m2 = w) by apply Hsh2.
  replace (cell dflt m2 (Z.to_nat (r0 * w + c0)))
    with (entry dflt m2 r0 c0) by (unfold entry; now rewrite Hw2).
  rewrite (Hent2 y x) by assumption. rewrite (Hent2 r0 c0) by assumption.
  replace (visited y x y x) with false by (unfold visited; zcases).
  replace ((r0 <? r0) || ((r0 =? r0) && (c0 <? c0))) with false by zcases.
  unfold visited.
  destruct (Z.ltb_spec r0 y); cbn [orb]; [reflexivity|].
  destruct (Z.eqb_spec r0 y); cbn [andb];
    [destruct (Z.ltb_spec c0 x); reflexivity | reflexivity].
Qed.

End CellLoop.

(** X6. [m * scalar] and [m + scalar] never throw and keep the sizes; they
    update the matrix in place and read the scalar, passed by reference,
    at every element.  With a scalar that is no element of the matrix,
    every element is multiplied by it, or has it added, once; hence
    [(m * a) * b] holds [(x * a) * b] where [m] holds [x].  With a scalar
    that is the element [(r0, c0)] of the matrix itself, holding [s], the
    elements up to and including [(r0, c0)], in the order of the rows, are
    combined with [s], and the elements after it with the new value of
    that element, [s * s] or [s + s]. *)
Theorem scalar_operators {T : Type} (dflt : T) (add mul : T -> T -> T)
  (m : matrix T) (h w : Z) :
  shape m h w ->
  (forall a b,
     exists m', operator_mul_scalar dflt mul m (outside a) = Ok m' /\
       shape m' h w /\
       (forall r c, 0 <= r < h -> 0 <= c < w ->
          entry dflt m' r c = mul (entry dflt m r c) a) /\
       exists m'', operator_mul_scalar dflt mul m' (outside b) = Ok m'' /\
         shape m'' h w /\
         forall r c, 0 <= r < h -> 0 <= c < w ->
           entry dflt m'' r c = mul (mul (entry dflt m r c) a) b) /\
  (forall a,
     exists m', operator_add_scalar dflt add m (outside a) = Ok m' /\
       shape m' h w /\
       forall r c, 0 <= r < h -> 0 <= c < w ->
         entry dflt m' r c = add (entry dflt m r c) a) /\
  (forall r0 c0, 0 <= r0 < h -> 0 <= c0 < w ->
     let s := entry dflt m r0 c0 in
     let scalar := element (Z.to_nat (r0 * w + c0)) in
     let later r c := (r0 <? r) || ((r0 =? r) && (c0 <? c)) in
     (exists m', operator_mul_scalar dflt mul m scalar = Ok m' /\
        shape m' h w /\
        forall r c, 0 <= r < h -> 0 <= c < w ->
          entry dflt m' r c
          = mul (entry dflt m r c) (if later r c then mul s s else s)) /\
     (exists m', operator_add_scalar dflt add m scalar = Ok m' /\
        shape m' h w /\
        forall r c, 0 <= r < h -> 0 <= c < w ->
          entry dflt m' r c
          = add (entry dflt m r c) (if later r c then add s s else s))).
Proof.
  intros Hsh. split; [|split].
  - intros a b.
    destruct (update_all_ok dflt m h w mul a Hsh) as (m' & Hrun & Hsh' & Hent).
    exists m'. split; [exact Hrun|]. split; [exact Hsh'|].
    split; [exact Hent|].
    destruct (update_all_ok dflt m' h w mul b Hsh')
      as (m'' & Hrun2 & Hsh'' & Hent2).
    exists m''. split; [exact Hrun2|]. split; [exact Hsh''|].
    intros r c Hr Hc. rewrite Hent2, Hent by assumption. reflexivity.
  - intros a.
    destruct (update_all_ok dflt m h w add a Hsh) as (m' & Hrun & Hsh' & Hent).
    exists m'. split; [exact Hrun|]. split; [exact Hsh'|]. exact Hent.
  - intros r0 c0 Hr0 Hc0 s scalar later. split.
    + exact (update_all_aliased dflt m h w mul r0 c0 Hsh Hr0 Hc0).
    + exact (update_all_aliased dflt m h w add r0 c0 Hsh Hr0 Hc0).
Qed.

Lemma scalar_operators_witness :
  (exists m', operator_mul_scalar 0 Z.mul (Matrix [1; 2; 3; 4] 2 2)
                (outside 3) = Ok m' /\ entry 0 m' 1 0 = 9) /\
  (exists m', operator_add_scalar 0 Z.add (Matrix [1; 2; 3; 4] 2 2)
                (outside 3) = Ok m' /\ entry 0 m' 1 0 = 6) /\
  (exists m', operator_mul_scalar 0 Z.mul (Matrix [2; 3] 2 1) (element 0)
              = Ok m' /\ entry 0 m' 0 0 = 4 /\ entry 0 m' 0 1 = 12).
Proof.
  split; [|split].
  - destruct (scalar_operators 0 Z.add Z.mul (Matrix [1; 2; 3; 4] 2 2) 2 2)
      as [Hmul _]; [repeat split; simpl; lia|].
    destruct (Hmul 3 1) as (m1 & Hm1 & _ & Hent1 & _).
    exists m1. split; [exact Hm1|]. rewrite (Hent1 1 0) by lia. reflexivity.
  - destruct (scalar_operators 0 Z.add Z.mul (Matrix [1; 2; 3; 4] 2 2) 2 2)
      as (_ & Hadd & _); [repeat split; simpl; lia|].
    destruct (Hadd 3) as (m2 & Hm2 & _ & Hent2).
    exists m2. split; [exact Hm2|]. rewrite (Hent2 1 0) by lia. reflexivity.
  - destruct (scalar_operators 0 Z.add Z.mul (Matrix [2; 3] 2 1) 1 2)
      as (_ & _ & Hself); [repeat split; simpl; lia|].
    destruct (Hself 0 0) as [(m3 & Hm3 & _ & Hent3) _]; [lia | lia |].
    exists m3. split; [exact Hm3|].
    rewrite (Hent3 0 0), (Hent3 0 1) by lia. split; reflexivity.
Defined.

Section Product.
Context {T : Type} (dflt : T).
Variables (add mul : T -> T -> T) (of_int : Z -> T).
Implicit Types m lhs rhs res : matrix T.

(** The terms [lhs(i, k) * rhs(k, j)] for [k] below [n], added in order. *)
Let partial_dot lhs rhs (i j n : Z) : T :=
  fold_left (fun acc k => add acc (mul (entry dflt lhs i k)
                                     (entry dflt rhs k j)))
    (seqZ 0 n) (of_int 0).

Lemma partial_dot_step lhs rhs i j n :
  0 <= n ->
  partial_dot lhs rhs i j (n + 1)
  = add (partial_dot lhs rhs i j n)
      (mul (entry dflt lhs i n) (entry dflt rhs n j)).
Proof.
  intros Hn. unfold partial_dot.
  rewrite seqZ_app by lia. rewrite fold_left_app.
  rewrite (seqZ_cons (0 + n) 1) by lia. reflexivity.
Qed.

(** The innermost loop of the product. *)
Lemma product_cell_ok lhs rhs res (h n w i j : Z) :
  shape lhs h n -> shape rhs n w -> shape res h w ->
  0 <= i < h -> 0 <= j < w ->
  exists res',
    (let* res0 := mat_set res i j (of_int 0) in
     for_range 0 n (fun k res1 =>
       let* a := mat_get dflt lhs i k in
       let* b := mat_get dflt rhs k j in
       mat_upd dflt res1 i j (fun v => add v (mul a b))) res0) = Ok res' /\
    shape res' h w /\
    forall r c, 0 <= r < h -> 0 <= c < w ->
      entry dflt res' r c =
      if (r =? i) && (c =? j) then partial_dot lhs rhs i j n
      else entry dflt res r c.
Proof.
  intros Hl Hr Hres Hi Hj.
  assert (Hn : 0 <= n) by (destruct Hr as ((? & ? & ?) & ? & ?); lia).
  assert (Hin : in_range res i j) by (eapply shape_in_range; eauto).
  rewrite (mat_set_ok _ _ _ _ Hin). cbn [bind].
  destruct (for_range_inv
    (fun k res1 => shape res1 h w /\
       forall r c, 0 <= r < h -> 0 <= c < w ->
         entry dflt res1 r c =
         if (r =? i) && (c =? j) then partial_dot lhs rhs i j k
         else entry dflt res r c)
    (fun k res1 =>
       let* a := mat_get dflt lhs i k in
       let* b := mat_get dflt rhs k j in
       mat_upd dflt res1 i j (fun v => add v (mul a b)))
    0 n (mat_write res i j (of_int 0)) Hn) as (res' & Hrun & Hsh & Hent).
  - split; [now apply shape_write|].
    intros r c Hr0 Hc0.
    rewrite entry_write
      by first [apply Hres | eapply shape_in_range; eauto].
    reflexivity.
  - intros k res1 Hk (Hsh1 & Hent1).
    rewrite (mat_get_ok dflt lhs i k) by (eapply shape_in_range; eauto).
    cbn [bind].
    rewrite (mat_get_ok dflt rhs k j) by (eapply shape_in_range; eauto).
    cbn [bind].
    assert (Hin1 : in_range res1 i j) by (eapply shape_in_range; eauto).
    rewrite (mat_upd_ok _ _ _ _ _ Hin1).
    eexists; split; [reflexivity|]. split; [now apply shape_write|].
    intros r c Hr0 Hc0.
    rewrite entry_write
      by first [apply Hsh1 | eapply shape_in_range; eauto].
    destruct ((r =? i) && (c =? j)) eqn:E.
    + rewrite (Hent1 i j) by assumption.
      rewrite !Z.eqb_refl. cbn [andb].
      symmetry. apply partial_dot_step. lia.
    + rewrite Hent1 by assumption. now rewrite E.
  - exists res'. split; [exact Hrun|]. split; assumption.
Qed.

Lemma operator_mul_ok lhs rhs (h n w : Z) :
  shape lhs h n -> shape rhs n w ->
  exists res, operator_mul dflt add mul of_int lhs rhs = Ok res /\
    shape res h w /\
    forall i j, 0 <= i < h -> 0 <= j < w ->
      entry dflt res i j = dot_product dflt add mul of_int lhs rhs i j.
Proof.
  intros Hl Hr.
  assert (H0 : 0 <= h /\ 0 <= w).
  { destruct Hl as ((? & ? & ?) & ? & ?), Hr as ((? & ? & ?) & ? & ?). lia. }
  unfold operator_mul, get_width, get_height, dot_product.
  pose proof Hl as (_ & -> & ->). pose proof Hr as (_ & -> & ->).
  rewrite Z.eqb_refl. cbn [negb].
  apply (cell_loop_ok dflt (matrix_new dflt h w) h w
           (fun i j => partial_dot lhs rhs i j n)
           (fun i j res =>
              let* res0 := mat_set res i j (of_int 0) in
              for_range 0 n (fun k res1 =>
                let* a := mat_get dflt lhs i k in
                let* b := mat_get dflt rhs k j in
                mat_upd dflt res1 i j (fun v => add v (mul a b))) res0)).
  - apply shape_new; lia.
  - intros i j res Hi Hj Hres _.
    destruct (product_cell_ok lhs rhs res h n w i j Hl Hr Hres Hi Hj)
      as (res' & Hrun & Hsh & Hent).
    exists res'. split; [exact Hrun|]. split; [exact Hsh|].
    intros r c Hr0 Hc0. rewrite Hent by assumption.
    destruct (Z.eqb_spec r i) as [->|]; [|reflexivity].
    destruct (Z.eqb_spec c j) as [->|]; reflexivity.
Qed.

End Product.

(** X7. The product throws [std::runtime_error] exactly when the width of the
    left operand differs from the height of the right one.  Otherwise it
    returns a matrix of the height of the left and the width of the right
    operand whose element [(i, j)] is the converted [0] with the terms
    [lhs(i, k) * rhs(k, j)] added in the order of [k]. *)
Theorem matrix_product_outcome {T : Type} (dflt : T) (add mul : T -> T -> T)
  (of_int : Z -> T) (lhs rhs : matrix T) :
  well_formed lhs -> well_formed rhs ->
  (get_width lhs <> get_height rhs ->
   operator_mul dflt add mul of_int lhs rhs
   = Throw (runtime_error "invalid matrix dimensions in multiplication")) /\
  (get_width lhs = get_height rhs ->
   exists res, operator_mul dflt add mul of_int lhs rhs = Ok res /\
     shape res (get_height lhs) (get_width rhs) /\
     forall i j, 0 <= i < get_height lhs -> 0 <= j < get_width rhs ->
       entry dflt res i j = dot_product dflt add mul of_int lhs rhs i j).
Proof.
  intros Hl Hr. split.
  - intros Hne. unfold operator_mul.
    destruct (Z.eqb_spec (get_width lhs) (get_height rhs));
      [contradiction | reflexivity].
  - intros Heq. unfold get_width, get_height in *.
    apply (operator_mul_ok dflt add mul of_int lhs rhs
             (m_h lhs) (m_w lhs) (m_w rhs)).
    + now split.
    + split; [assumption|]. split; [now symmetry | reflexivity].
Qed.

Lemma matrix_product_outcome_witness :
  (exists res,
     operator_mul 0 Z.add Z.mul id
       (Matrix [1; 2; 3; 4] 2 2) (Matrix [5; 6] 1 2) = Ok res /\
     entry 0 res 1 0 = 39) /\
  operator_mul 0 Z.add Z.mul id (Matrix [5; 6] 1 2) (Matrix [1; 2; 3; 4] 2 2)
  = Throw (runtime_error "invalid matrix dimensions in multiplication").
Proof.
  assert (Ha : well_formed (Matrix [1; 2; 3; 4] 2 2))
    by (repeat split; simpl; lia).
  assert (Hb : well_formed (Matrix [5; 6] 1 2))
    by (repeat split; simpl; lia).
  split.
  - destruct (matrix_product_outcome 0 Z.add Z.mul id _ _ Ha Hb) as [_ Hok].
    destruct (Hok eq_refl) as (res & Hrun & _ & Hent).
    exists res. split; [exact Hrun|].
    rewrite (Hent 1 0) by (simpl; lia). reflexivity.
  - destruct (matrix_product_outcome 0 Z.add Z.mul id _ _ Hb Ha) as [Hne _].
    apply Hne. simpl. lia.
Defined.

(** X8. With a commutative multiplication of the elements, the transpose of
    a product is the product of the transposes in the opposite order. *)
Theorem transpose_of_product {T : Type} (dflt : T) (add mul : T -> T -> T)
  (of_int : Z -> T) (lhs rhs : matrix T) (h n w : Z) :
  (forall x y : T, mul x y = mul y x) ->
  shape lhs h n -> shape rhs n w ->
  exists p lhs' rhs' q,
    operator_mul dflt add mul of_int lhs rhs = Ok p /\
    transpose dflt lhs = Ok lhs' /\ transpose dflt rhs = Ok rhs' /\
    operator_mul dflt add mul of_int rhs' lhs' = Ok q /\
    transpose dflt p = Ok q.
Proof.
  intros Hcomm Hl Hr.
  destruct (operator_mul_ok dflt add mul of_int lhs rhs h n w Hl Hr)
    as (p & Hp & Hshp & Hentp).
  destruct (transpose_ok dflt lhs h n Hl) as (lhs' & Hl' & Hshl' & Hentl').
  destruct (transpose_ok dflt rhs n w Hr) as (rhs' & Hr' & Hshr' & Hentr').
  destruct (operator_mul_ok dflt add mul of_int rhs' lhs' w n h Hshr' Hshl')
    as (q & Hq & Hshq & Hentq).
  destruct (transpose_ok dflt p h w Hshp) as (t & Ht & Hsht & Hentt).
  exists p, lhs', rhs', q. repeat (split; [assumption|]).
  rewrite Ht. f_equal.
  apply (matrix_ext dflt t q w h Hsht Hshq).
  intros i j Hi Hj.
  rewrite Hentt, Hentp, Hentq by assumption.
  unfold dot_product.
  replace (m_w rhs') with n by (symmetry; apply Hshr').
  replace (m_w lhs) with n by (symmetry; apply Hl).
  apply fold_left_seqZ_ext. intros k s0 Hk.
  rewrite Hentl', Hentr' by lia. now rewrite Hcomm.
Qed.

Lemma transpose_of_product_witness :
  exists p q,
    operator_mul 0 Z.add Z.mul id
      (Matrix [1; 2; 3; 4] 2 2) (Matrix [5; 6] 1 2) = Ok p /\
    operator_mul 0 Z.add Z.mul id
      (Matrix [5; 6] 2 1) (Matrix [1; 3; 2; 4] 2 2) = Ok q /\
    transpose 0 p = Ok q.
Proof.
  destruct (transpose_of_product 0 Z.add Z.mul id
              (Matrix [1; 2; 3; 4] 2 2) (Matrix [5; 6] 1 2) 2 2 1 Z.mul_comm)
    as (p & lhs' & rhs' & q & Hp & Hl' & Hr' & Hq & Ht).
  - repeat split; simpl; lia.
  - repeat split; simpl; lia.
  - exists p, q. split; [exact Hp|]. split; [|exact Ht].
    assert (El : Ok lhs' = Ok (Matrix [1; 3; 2; 4] 2 2))
      by (rewrite <- Hl'; reflexivity).
    assert (Er : Ok rhs' = Ok (Matrix [5; 6] 2 1))
      by (rewrite <- Hr'; reflexivity).
    injection El as <-. injection Er as <-. exact Hq.
Defined.


(** ** mna.cpp: how the linear solver and [mna_problem::solve] can end *)

Section SolverOutcome.
Context {SC : Scalars}.
Implicit Types mat : matrix cplx.

Lemma eliminate_column_total mat N k :
  shape mat N (N + 1) -> 0 <= k < N ->
  (exists A2, mna.eliminate_column N k mat = Ok A2 /\ shape A2 N (N + 1)) \/
  mna.eliminate_column N k mat = Throw (runtime_error mna.singular_what).
Proof.
  intros Hsh Hk. unfold mna.eliminate_column.
  destruct (find_pivot_range mat N k Hsh Hk) as (mx & r & Hfind & Hr).
  rewrite Hfind. cbn [bind fst snd].
  destruct (m_eqb_r mx mna.r_zero); [now right|]. left.
  destruct (swap_rows_ok mat N (N + 1) r k Hsh) as (A1 & HA1 & Hsh1 & _);
    [lia | lia |].
  rewrite HA1. cbn [bind].
  assert (Hkk : in_range A1 k k) by (eapply shape_in_range; eauto; lia).
  rewrite (mat_get_ok _ _ _ _ Hkk). cbn [bind].
  destruct (reduce_below_ok A1 N k (entry c_zero A1 k k) Hsh1 Hk)
    as (A2 & HA2 & Hsh2 & _).
  exists A2. split; assumption.
Qed.

Lemma eliminate_total mat N (K : nat) :
  shape mat N (N + 1) -> Z.of_nat K <= N ->
  (exists A, mna.eliminate N (Z.of_nat K) mat = Ok A /\ shape A N (N + 1)) \/
  mna.eliminate N (Z.of_nat K) mat = Throw (runtime_error mna.singular_what).
Proof.
  intros Hsh. induction K as [|K IH]; intros HK.
  - left. exists mat. split; [reflexivity | assumption].
  - replace (Z.of_nat (S K)) with (Z.of_nat K + 1) by lia.
    unfold mna.eliminate in *. rewrite for_range_snoc by lia.
    destruct IH as [(A & HA & HshA) | Hthrow]; [lia | |].
    + rewrite HA. cbn [bind].
      apply eliminate_column_total; [assumption | lia].
    + right. now rewrite Hthrow.
Qed.

Lemma gaussian_elimination_total mat N :
  shape mat N (N + 1) ->
  (exists x, mna.gaussian_elimination mat = Ok x /\ shape x N 1) \/
  mna.gaussian_elimination mat = Throw (runtime_error mna.singular_what).
Proof.
  intros Hsh.
  assert (HN : 0 <= N) by (destruct Hsh as ((? & ? & ?) & ? & ?); lia).
  destruct (eliminate_total mat N (Z.to_nat N) Hsh) as [(A & HA & HshA)|Hthrow];
    [lia | |]; rewrite Z2Nat.id in * by lia.
  - left. rewrite (gaussian_elimination_after mat N A Hsh HA).
    destruct (back_substitution_ok A N HshA) as (x & Hx & Hshx & _).
    exists x. split; assumption.
  - right. now apply (gaussian_elimination_throw mat N).
Qed.

Lemma compute_matrix_z_total p n :
  0 <= n -> nodes_below n p ->
  let V := Z.of_nat (length (mna.voltage_sources p)) in
  let m := Z.of_nat (length (mna.opamps p)) + V in
  exists z, mna.compute_matrix_z p n = Ok z /\ shape z (n + m) 1 /\
    (forall k vs, mna.voltage_sources p !! k = Some vs ->
       entry c_zero z (n + Z.of_nat k) 0 = c_of_real (mna.V vs)) /\
    (forall k, V <= k < m -> entry c_zero z (n + k) 0 = c_zero).
Proof.
  intros Hn (_ & _ & Hcs & _) V m. unfold mna.compute_matrix_z.
  fold V. fold m.
  destruct (for_each_inv (fun _ (I1 : matrix cplx) => shape I1 n 1)
    (fun _ cs I_ =>
       let* I_ := if fst (mna.cs_nodes cs) >=? 0
                  then mat_upd c_zero I_ (fst (mna.cs_nodes cs)) 0
                         (fun x => c_add_r x (mna.I cs))
                  else Ok I_ in
       if snd (mna.cs_nodes cs) >=? 0
       then mat_upd c_zero I_ (snd (mna.cs_nodes cs)) 0
              (fun x => c_add_r x (r_opp (mna.I cs)))
       else Ok I_)
    (mna.current_sources p) O 0 (matrix_new c_zero n 1))
    as (I1 & HI1 & HshI).
  - apply shape_new; lia.
  - intros k cs I0 Hk HshI0.
    assert (Hin : In cs (mna.current_sources p))
      by (apply list_elem_of_In; eapply list_elem_of_lookup_2; eauto).
    destruct (Hcs cs Hin) as [Ha Hb].
    assert (Hstep : forall (I2 : matrix cplx) a f, shape I2 n 1 -> a < n ->
              exists I3, (if a >=? 0 then mat_upd c_zero I2 a 0 f else Ok I2)
                         = Ok I3 /\ shape I3 n 1).
    { intros I2 a f HshI2 Ha'. destruct (Z.geb_spec a 0).
      - rewrite mat_upd_ok by (eapply shape_in_range; eauto; lia).
        eexists; split; [reflexivity | now apply shape_write].
      - eexists; split; [reflexivity | assumption]. }
    destruct (Hstep I0 (fst (mna.cs_nodes cs))
                (fun x => c_add_r x (mna.I cs)) HshI0 Ha) as (I2 & E2 & HshI2).
    rewrite E2. cbn [bind].
    apply Hstep; assumption.
  - rewrite HI1. cbn [bind].
    destruct (fill_E_ok p m) as (E1 & HE1 & HshE & Hsrc & Hrest);
      [unfold m, V; lia|].
    rewrite HE1. cbn [bind].
    destruct (join_matrices_vertical_ok c_zero I1 E1 n m 1 HshI HshE)
      as (z & Hz & Hshz & _ & Hlow).
    exists z. split; [assumption|]. split; [assumption|]. split.
    + intros k vs Hk. pose proof (lookup_lt_Some _ _ _ Hk) as Hlt.
      rewrite Hlow by (unfold m, V; lia). now apply Hsrc.
    + intros k Hk. rewrite Hlow by lia. now apply Hrest.
Qed.

Lemma mna_solve_total p :
  let n := mna.get_max_node p + 1 in
  let V := Z.of_nat (length (mna.voltage_sources p)) in
  let P := Z.of_nat (length (mna.opamps p)) in
  (exists x, mna.solve p = Ok (mna.MnaSolution x n V) /\
             shape x (n + (P + V)) 1) \/
  mna.solve p = Throw (runtime_error mna.singular_what).
Proof.
  intros n V P.
  assert (Hn : 0 <= n) by (pose proof (get_max_node_ge p); unfold n; lia).
  pose proof (get_max_node_below p) as Hbelow. fold n in Hbelow.
  destruct (compute_matrix_A_ok p n Hn Hbelow)
    as (G & B1 & C0 & B2 & C1 & A & _ & _ & _ & _ & _ & HA & HshA & _).
  destruct (compute_matrix_z_total p n Hn Hbelow) as (z & Hz & Hshz & _).
  fold V P in HshA, Hshz.
  destruct (join_matrices_horizontal_ok c_zero A z _ _ _ HshA Hshz)
    as (system & Hsys & Hshsys & _).
  unfold mna.solve. fold n. rewrite HA. cbn [bind]. rewrite Hz. cbn [bind].
  rewrite Hsys. cbn [bind].
  destruct (gaussian_elimination_total system (n + (P + V)) Hshsys)
    as [(x & Hx & Hshx) | Hthrow].
  - left. exists x. rewrite Hx. split; [reflexivity | assumption].
  - right. now rewrite Hthrow.
Qed.

End SolverOutcome.

(** X9. [gaussian_elimination] can end in three ways only.  It throws the
    "Invalid equation system dimensions" error exactly when the width is
    not the height plus one; otherwise it returns a column of as many
    elements as the system has rows, or throws the "Could not solve
    equation system" error.  No element is ever accessed out of range. *)
Theorem gaussian_elimination_failure_modes {SC : Scalars}
  (mat : matrix cplx) :
  well_formed mat ->
  (get_width mat <> get_height mat + 1 ->
   mna.gaussian_elimination mat
   = Throw (runtime_error "Invalid equation system dimensions")) /\
  (get_width mat = get_height mat + 1 ->
   (exists x, mna.gaussian_elimination mat = Ok x /\
              shape x (get_height mat) 1) \/
   mna.gaussian_elimination mat
   = Throw (runtime_error
              "Could not solve equation system (Gaussian elimination failed)")) /\
  (get_height mat = 0 -> get_width mat = 1 ->
   mna.gaussian_elimination mat = Ok (matrix_new c_zero 0 1)).
Proof.
  intros Hwf. split; [|split].
  - intros Hne. unfold mna.gaussian_elimination.
    destruct (Z.eqb_spec (get_width mat) (get_height mat + 1));
      [contradiction | reflexivity].
  - intros Heq. apply gaussian_elimination_total.
    split; [assumption|]. split; [reflexivity | exact Heq].
  - intros Hh Hw. unfold mna.gaussian_elimination. rewrite Hh, Hw.
    reflexivity.
Qed.

Lemma gaussian_elimination_failure_modes_witness :
  mna.gaussian_elimination
    (Matrix (map (fun z => Exact.of_real (Exact.of_int z)) [1; 2; 3; 4]) 2 2)
  = Throw (runtime_error "Invalid equation system dimensions") /\
  ((exists x, mna.gaussian_elimination pivoting_system = Ok x /\
              shape x 2 1) \/
   mna.gaussian_elimination pivoting_system
   = Throw (runtime_error
              "Could not solve equation system (Gaussian elimination failed)")).
Proof.
  split.
  - destruct (gaussian_elimination_failure_modes (SC := exact_scalars)
      (Matrix (map (fun z => Exact.of_real (Exact.of_int z)) [1; 2; 3; 4])
         2 2)) as (Hdim & _).
    + repeat split; simpl; lia.
    + apply Hdim. simpl. lia.
  - destruct (gaussian_elimination_failure_modes (SC := exact_scalars)
                pivoting_system) as (_ & Hrun & _).
    + repeat split; simpl; lia.
    + apply Hrun. reflexivity.
Defined.

(** X12. [mna_problem::solve] either returns a solution or throws the "Could
    not solve equation system" error of the linear solver; the assembly
    never accesses a matrix out of range and never joins matrices of
    different sizes.  The solution has one row for each node up to the
    largest node number, then one for each voltage source and one for each
    op-amp.  A problem without components has the empty solution. *)
Theorem mna_solve_outcome {SC : Scalars} (p : mna.mna_problem) :
  let n := mna.get_max_node p + 1 in
  let V := Z.of_nat (length (mna.voltage_sources p)) in
  let P := Z.of_nat (length (mna.opamps p)) in
  ((exists x, mna.solve p = Ok (mna.MnaSolution x n V) /\
              shape x (n + V + P) 1) \/
   mna.solve p
   = Throw (runtime_error
              "Could not solve equation system (Gaussian elimination failed)")) /\
  mna.solve (mna.MnaProblem [] [] [] [])
  = Ok (mna.MnaSolution (matrix_new c_zero 0 1) 0 0).
Proof.
  intros n V P. split; [|reflexivity].
  destruct (mna_solve_total p) as [(x & Hx & Hsh) | Hthrow]; [left | now right].
  exists x. split; [exact Hx|].
  now replace (n + V + P) with (n + (P + V)) by lia.
Qed.

(** [voltage] between two nodes below the node count. *)
Lemma voltage_below {SC : Scalars} (x : matrix cplx) (n V h pos neg : Z) :
  shape x h 1 -> n <= h -> pos < n -> neg < n ->
  mna.voltage (mna.MnaSolution x n V) pos neg
  = Ok (c_sub (if pos <? 0 then c_of_real (r_of_int 0)
               else entry c_zero x pos 0)
              (if neg <? 0 then c_of_real (r_of_int 0)
               else entry c_zero x neg 0)).
Proof.
  intros Hsh Hnh Hpos Hneg. unfold mna.voltage.
  cbn [mna.m_node_count mna.m_solution].
  destruct (Z.geb_spec pos n); [lia|].
  destruct (Z.geb_spec neg n); [lia|]. cbn [orb].
  assert (Hget : forall i, i < n ->
            (if i <? 0 then Ok (c_of_real mna.r_zero)
             else mat_get c_zero x i 0)
            = Ok (if i <? 0 then c_of_real (r_of_int 0)
                  else entry c_zero x i 0)).
  { intros i Hi. destruct (Z.ltb_spec i 0); [reflexivity|].
    apply mat_get_ok. apply (shape_in_range x _ _ _ _ Hsh); lia. }
  rewrite (Hget pos Hpos). cbn [bind]. rewrite (Hget neg Hneg). reflexivity.
Qed.

(** X13. On a solution that [mna_problem::solve] returned, with [n] nodes, [V]
    voltage sources and [P] op-amps: [voltage] succeeds exactly for two
    nodes below [n], a negative node standing for the reference at
    potential [0.0]; [voltage_source_current] exactly for [0 <= id < V];
    [opamp_current] exactly for [0 <= id < P].  Outside these bounds each
    throws its own [std::out_of_range]. *)
Theorem solution_accessor_bounds {SC : Scalars} (p : mna.mna_problem)
  (s : mna.mna_solution) :
  mna.solve p = Ok s ->
  let n := mna.get_max_node p + 1 in
  let V := Z.of_nat (length (mna.voltage_sources p)) in
  let P := Z.of_nat (length (mna.opamps p)) in
  let x := mna.m_solution s in
  (forall pos neg, pos < n -> neg < n ->
     mna.voltage s pos neg
     = Ok (c_sub (if pos <? 0 then c_of_real (r_of_int 0)
                  else entry c_zero x pos 0)
                 (if neg <? 0 then c_of_real (r_of_int 0)
                  else entry c_zero x neg 0))) /\
  (forall pos neg, n <= pos \/ n <= neg ->
     mna.voltage s pos neg
     = Throw (out_of_range "mna_solution::voltage() invalid node ID")) /\
  (forall id, 0 <= id < V ->
     mna.voltage_source_current s id = Ok (entry c_zero x (n + id) 0)) /\
  (forall id, id < 0 \/ V <= id ->
     mna.voltage_source_current s id
     = Throw (out_of_range
                "mna_solution::voltage_source_current() invalid source ID")) /\
  (forall id, 0 <= id < P ->
     mna.opamp_current s id = Ok (entry c_zero x (n + V + id) 0)) /\
  (forall id, id < 0 \/ P <= id ->
     mna.opamp_current s id
     = Throw (out_of_range "mna_solution::opamp_current() invalid source ID")).
Proof.
  intros Hsolve n V P x.
  destruct (mna_solve_total p) as [(x' & Hx & Hsh) | Hthrow];
    [|congruence].
  fold n V P in Hx, Hsh. rewrite Hx in Hsolve. injection Hsolve as <-.
  cbn [mna.m_solution] in x. subst x.
  assert (Hn : 0 <= n) by (pose proof (get_max_node_ge p); unfold n; lia).
  assert (HP : 0 <= P) by (unfold P; lia).
  assert (HV : 0 <= V) by (unfold V; lia).
  assert (Hh : m_h x' = n + (P + V)) by apply Hsh.
  split; [|split; [|split; [|split; [|split]]]].
  - intros pos neg Hpos Hneg.
    apply (voltage_below x' n V (n + (P + V))); auto; lia.
  - intros pos neg Hout. unfold mna.voltage. cbn [mna.m_node_count].
    destruct (Z.geb_spec pos n); [reflexivity|].
    destruct (Z.geb_spec neg n); [reflexivity | lia].
  - intros id Hid. unfold mna.voltage_source_current.
    cbn [mna.m_node_count mna.m_solution mna.m_voltage_source_count].
    destruct (Z.ltb_spec id 0); [lia|].
    destruct (Z.geb_spec id V); [lia|]. cbn [orb].
    apply mat_get_ok. apply (shape_in_range x' _ _ _ _ Hsh); lia.
  - intros id Hid. unfold mna.voltage_source_current.
    cbn [mna.m_voltage_source_count].
    destruct (Z.ltb_spec id 0); [reflexivity|].
    destruct (Z.geb_spec id V); [reflexivity | lia].
  - intros id Hid. unfold mna.opamp_current, get_height.
    cbn [mna.m_node_count mna.m_solution mna.m_voltage_source_count].
    rewrite Hh.
    destruct (Z.ltb_spec id 0); [lia|].
    destruct (Z.geb_spec id (n + (P + V) - n - V)); [lia|]. cbn [orb].
    apply mat_get_ok. apply (shape_in_range x' _ _ _ _ Hsh); lia.
  - intros id Hid. unfold mna.opamp_current, get_height.
    cbn [mna.m_node_count mna.m_solution mna.m_voltage_source_count].
    rewrite Hh.
    destruct (Z.ltb_spec id 0); [reflexivity|].
    destruct (Z.geb_spec id (n + (P + V) - n - V)); [reflexivity | lia].
Qed.

(** Whether a run ended normally. *)
Lemma ok_of_returned {A : Type} (r : result A) (dflt : A) :
  match r with Ok _ => true | Throw _ => false end = true ->
  r = Ok (match r with Ok a => a | Throw _ => dflt end).
Proof. destruct r; [reflexivity | discriminate]. Qed.

Lemma divider_problem_solved : mna.solve divider_problem = Ok divider_solution.
Proof. apply ok_of_returned. vm_compute. reflexivity. Qed.

Lemma solution_accessor_bounds_witness :
  mna.voltage divider_solution 2 (-1)
  = Throw (out_of_range "mna_solution::voltage() invalid node ID") /\
  mna.voltage_source_current divider_solution 0
  = Ok (entry c_zero (mna.m_solution divider_solution) 2 0) /\
  mna.voltage_source_current divider_solution 1
  = Throw (out_of_range
             "mna_solution::voltage_source_current() invalid source ID") /\
  mna.opamp_current divider_solution 0
  = Throw (out_of_range "mna_solution::opamp_current() invalid source ID").
Proof.
  destruct (solution_accessor_bounds divider_problem divider_solution
              divider_problem_solved)
    as (_ & Hv & Hi & Hi' & _ & Ho).
  split; [|split; [|split]].
  - apply Hv. left. vm_compute. discriminate.
  - apply (Hi 0). simpl. lia.
  - apply Hi'. right. simpl. lia.
  - apply Ho. right. simpl. lia.
Defined.
(** ** mna.cpp: the linear solver in exact arithmetic *)

(** The exact scalars are an instance of exact arithmetic. *)
Lemma exact_scalars_exact : exact_arithmetic (SC := exact_scalars).
Proof.
  assert (Hz : forall a : Qc * Qc,
            Exact.norm2 a = Q2Qc 0 <-> a = (Q2Qc 0, Q2Qc 0)).
  { intros [x y]. unfold Exact.norm2. cbn [fst snd]. split.
    - intros H. apply ExactLaws.squares_zero in H. destruct H. now subst.
    - intros [= -> ->]. apply Qc_is_canon. reflexivity. }
  split.
  - split; intros; repeat match goal with x : cplx |- _ => destruct x end;
      simpl; unfold mna.c_one, Exact.add, Exact.mul, Exact.sub, Exact.opp,
        Exact.of_real; simpl; f_equal;
      try (change (Exact.of_int 1) with (Q2Qc 1)); ring.
  - intros [a1 a2] [b1 b2] Hb. simpl.
    assert (Hn : Exact.norm2 (b1, b2) <> Q2Qc 0)
      by (intros E; apply Hb; now apply Hz).
    unfold Exact.mul, Exact.div, Exact.norm2 in *. simpl in *.
    f_equal; field; assumption.
  - intros [x y]. simpl. unfold mna.r_zero. simpl.
    rewrite orb_false_iff, !negb_false_iff, !ExactLaws.eqb_eq.
    split; [intros [-> ->] | intros [= -> ->]]; [|split]; reflexivity.
  - intros a. simpl. rewrite <- Hz, ExactLaws.eqb_eq.
    replace (Exact.of_int 0 * Exact.of_int 0)%Qc with (Q2Qc 0)
      by (apply Qc_is_canon; reflexivity).
    reflexivity.
  - reflexivity.
  - apply injective_projections; apply Qc_is_canon; reflexivity.
Qed.

Section SolverRuns.
Context {SC : Scalars}.
Implicit Types mat A : matrix cplx.

(** The pivot search returns a row at or below [k] together with the
    magnitude of its element in column [k]. *)
Lemma find_pivot_value mat N k :
  shape mat N (N + 1) -> 0 <= k < N ->
  exists r, mna.find_pivot N k mat = Ok (c_abs (entry c_zero mat r k), r) /\
            k <= r < N.
Proof.
  intros Hsh Hk. unfold mna.find_pivot.
  assert (Hkk : in_range mat k k) by (eapply shape_in_range; eauto; lia).
  rewrite (mat_get_ok _ _ _ _ Hkk). cbn [bind].
  destruct (for_range_inv
    (fun i (st : magn * Z) =>
       fst st = c_abs (entry c_zero mat (snd st) k) /\ k <= snd st < i)
    (fun i st =>
       let* e := mat_get c_zero mat i k in
       let x := c_abs e in
       if m_gtb x (fst st) then Ok (x, i) else Ok st)
    (k + 1) N (c_abs (entry c_zero mat k k), k)) as ([mx r] & Hrun & Hmx & Hr).
  - lia.
  - cbn [fst snd]. split; [reflexivity | lia].
  - intros i [mx r] Hi (Hmx & Hr). cbn [fst snd] in *.
    assert (Hik : in_range mat i k) by (eapply shape_in_range; eauto; lia).
    rewrite (mat_get_ok _ _ _ _ Hik). cbn [bind]. cbv zeta.
    destruct (m_gtb _ _); eexists; (split; [reflexivity|]); cbn [fst snd].
    + split; [reflexivity | lia].
    + split; [assumption | lia].
  - cbn [fst snd] in *. subst mx. exists r. split; [exact Hrun | exact Hr].
Qed.

(** What an iteration of the elimination that ends normally has done. *)
Lemma eliminate_column_run mat N k A2 :
  shape mat N (N + 1) -> 0 <= k < N ->
  mna.eliminate_column N k mat = Ok A2 ->
  exists r A1, k <= r < N /\
    m_eqb_r (c_abs (entry c_zero mat r k)) mna.r_zero = false /\
    shape A1 N (N + 1) /\
    (forall r' c, 0 <= r' < N -> 0 <= c < N + 1 ->
       entry c_zero A1 r' c = swapped r k mat r' c) /\
    shape A2 N (N + 1) /\
    (forall r' c, 0 <= r' < N -> 0 <= c < N + 1 ->
       entry c_zero A2 r' c = reduced k (entry c_zero A1 k k) A1 r' c).
Proof.
  intros Hsh Hk. unfold mna.eliminate_column.
  destruct (find_pivot_value mat N k Hsh Hk) as (r & Hfind & Hr).
  rewrite Hfind. cbn [bind fst snd].
  destruct (m_eqb_r (c_abs (entry c_zero mat r k)) mna.r_zero) eqn:Hz;
    [discriminate|].
  destruct (swap_rows_ok mat N (N + 1) r k Hsh) as (A1 & HA1 & Hsh1 & Hent1);
    [lia | lia |].
  rewrite HA1. cbn [bind].
  assert (Hkk : in_range A1 k k) by (eapply shape_in_range; eauto; lia).
  rewrite (mat_get_ok _ _ _ _ Hkk). cbn [bind].
  destruct (reduce_below_ok A1 N k (entry c_zero A1 k k) Hsh1 Hk)
    as (A2' & HA2 & Hsh2 & Hent2).
  rewrite HA2. intros [= <-].
  exists r, A1. repeat (split; [assumption|]). assumption.
Qed.

End SolverRuns.

Section ExactSolver.
Context {SC : Scalars}.
Hypothesis laws : exact_arithmetic.
Implicit Types mat A x y : matrix cplx.

Add Ring cplx_ring : (ea_ring laws).

Lemma div_mul (a b : cplx) : b <> c_zero -> c_mul (c_div a b) b = a.
Proof. apply (ea_div laws). Qed.

Lemma mul_cancel (a b : cplx) :
  c_mul a b = c_zero -> b <> c_zero -> a = c_zero.
Proof.
  intros H Hb.
  transitivity (c_mul (c_mul a b) (c_div mna.c_one b)).
  - transitivity (c_mul a (c_mul (c_div mna.c_one b) b)); [|ring].
    rewrite div_mul by assumption. ring.
  - rewrite H. ring.
Qed.

Lemma neb_true (a : cplx) : c_neb_r a mna.r_zero = true -> a <> c_zero.
Proof.
  intros H E. apply (ea_neb laws) in E. congruence.
Qed.

Lemma neb_false (a : cplx) : c_neb_r a mna.r_zero = false -> a = c_zero.
Proof. apply (ea_neb laws). Qed.

Lemma abs_nonzero (a : cplx) :
  m_eqb_r (c_abs a) mna.r_zero = false -> a <> c_zero.
Proof.
  intros H E. apply (ea_abs laws) in E. congruence.
Qed.

(** *** Sums *)

Lemma sum_acc (t : Z -> cplx) (l : list Z) (acc : cplx) :
  fold_left (fun s j => c_add s (t j)) l acc
  = c_add acc (fold_left (fun s j => c_add s (t j)) l c_zero).
Proof.
  revert acc. induction l as [|j l IH]; intros acc; cbn [fold_left].
  - ring.
  - rewrite IH, (IH (c_add c_zero (t j))). ring.
Qed.

Lemma sum_linear (q : cplx) (t u : Z -> cplx) (l : list Z) :
  fold_left (fun s j => c_add s (c_add (c_mul q (t j)) (u j))) l c_zero
  = c_add (c_mul q (fold_left (fun s j => c_add s (t j)) l c_zero))
      (fold_left (fun s j => c_add s (u j)) l c_zero).
Proof.
  induction l as [|j l IH]; cbn [fold_left].
  - ring.
  - rewrite sum_acc, IH, (sum_acc t l (c_add c_zero (t j))),
      (sum_acc u l (c_add c_zero (u j))).
    ring.
Qed.

Lemma sum_ext (t u : Z -> cplx) (l : list Z) (acc : cplx) :
  (forall j, j ∈ l -> t j = u j) ->
  fold_left (fun s j => c_add s (t j)) l acc
  = fold_left (fun s j => c_add s (u j)) l acc.
Proof.
  revert acc. induction l as [|j l IH]; intros acc H; cbn [fold_left].
  - reflexivity.
  - rewrite (H j) by left. apply IH. intros j' Hj'. apply H. now right.
Qed.

Lemma sum_zero (t : Z -> cplx) (l : list Z) :
  (forall j, j ∈ l -> t j = c_zero) ->
  fold_left (fun s j => c_add s (t j)) l c_zero = c_zero.
Proof.
  induction l as [|j l IH]; intros H; cbn [fold_left].
  - reflexivity.
  - rewrite sum_acc, (H j) by left. rewrite IH; [ring|].
    intros j' Hj'. apply H. now right.
Qed.

Lemma sub_sum (t : Z -> cplx) (l : list Z) (a : cplx) :
  fold_left (fun s j => c_sub s (t j)) l a
  = c_sub a (fold_left (fun s j => c_add s (t j)) l c_zero).
Proof.
  revert a. induction l as [|j l IH]; intros a; cbn [fold_left].
  - ring.
  - rewrite IH, (sum_acc t l (c_add c_zero (t j))). ring.
Qed.

(** *** Rows *)

Lemma lhs_at_ext N A A' x x' i i' :
  (forall j, 0 <= j < N -> entry c_zero A' i' j = entry c_zero A i j) ->
  (forall j, 0 <= j < N -> entry c_zero x' j 0 = entry c_zero x j 0) ->
  lhs_at N A' x' i' = lhs_at N A x i.
Proof.
  intros HA Hx. unfold lhs_at. apply sum_ext.
  intros j Hj. apply elem_of_seqZ in Hj. rewrite HA, Hx by lia. reflexivity.
Qed.

(** The left-hand side of a row that is [q] times row [r] plus row [k]. *)
Lemma lhs_at_combination N A A' x i r k q :
  (forall j, 0 <= j < N ->
     entry c_zero A' i j
     = c_add (c_mul (entry c_zero A r j) q) (entry c_zero A k j)) ->
  lhs_at N A' x i = c_add (c_mul q (lhs_at N A x r)) (lhs_at N A x k).
Proof.
  intros H. unfold lhs_at.
  rewrite <- (sum_linear q
    (fun j => c_mul (entry c_zero A r j) (entry c_zero x j 0))
    (fun j => c_mul (entry c_zero A k j) (entry c_zero x j 0))).
  apply sum_ext. intros j Hj. apply elem_of_seqZ in Hj.
  rewrite H by lia. ring.
Qed.

(** Exchanging two rows keeps the solutions. *)
Lemma swapped_solves N A A1 x r k :
  0 <= r < N -> 0 <= k < N ->
  (forall r' c, 0 <= r' < N -> 0 <= c < N + 1 ->
     entry c_zero A1 r' c = swapped r k A r' c) ->
  (solves N A1 x <-> solves N A x).
Proof.
  intros Hr Hk Hent.
  assert (Hrow : forall i i', 0 <= i < N -> 0 <= i' < N ->
            (forall c, 0 <= c < N + 1 ->
               entry c_zero A1 i' c = entry c_zero A i c) ->
            (lhs_at N A1 x i' = entry c_zero A1 i' N <->
             lhs_at N A x i = entry c_zero A i N)).
  { intros i i' Hi Hi' E.
    rewrite (lhs_at_ext N A A1 x x i i')
      by (intros; first [apply E; lia | reflexivity]).
    rewrite (E N) by lia. reflexivity. }
  assert (Hperm : forall i, 0 <= i < N -> exists i', 0 <= i' < N /\
            forall c, 0 <= c < N + 1 ->
              entry c_zero A1 i' c = entry c_zero A i c).
  { intros i Hi.
    destruct (Z.eq_dec i r) as [->|Hir]; [|destruct (Z.eq_dec i k) as [->|Hik]].
    - exists k. split; [assumption|]. intros c Hc.
      rewrite Hent by lia. unfold swapped. zcases.
    - exists r. split; [assumption|]. intros c Hc.
      rewrite Hent by lia. unfold swapped. zcases.
    - exists i. split; [assumption|]. intros c Hc.
      rewrite Hent by lia. unfold swapped. zcases. }
  assert (Hperm' : forall i', 0 <= i' < N -> exists i, 0 <= i < N /\
            forall c, 0 <= c < N + 1 ->
              entry c_zero A1 i' c = entry c_zero A i c).
  { intros i Hi.
    destruct (Z.eq_dec i r) as [->|Hir]; [|destruct (Z.eq_dec i k) as [->|Hik]].
    - exists k. split; [assumption|]. intros c Hc.
      rewrite Hent by lia. unfold swapped. zcases.
    - exists r. split; [assumption|]. intros c Hc.
      rewrite Hent by lia. unfold swapped. zcases.
    - exists i. split; [assumption|]. intros c Hc.
      rewrite Hent by lia. unfold swapped. zcases. }
  split; intros H i Hi.
  - destruct (Hperm i Hi) as (i' & Hi' & E).
    apply (Hrow i i' Hi Hi' E). now apply H.
  - destruct (Hperm' i Hi) as (i0 & Hi0 & E).
    apply (Hrow i0 i Hi0 Hi E). now apply H.
Qed.

(** Reducing the rows below a non-zero pivot keeps the solutions. *)
Lemma reduced_solves N A1 A2 x k :
  0 <= k < N ->
  entry c_zero A1 k k <> c_zero ->
  (forall r' c, 0 <= r' < N -> 0 <= c < N + 1 ->
     entry c_zero A2 r' c = reduced k (entry c_zero A1 k k) A1 r' c) ->
  (solves N A2 x <-> solves N A1 x).
Proof.
  intros Hk Hv Hent.
  set (v := entry c_zero A1 k k) in *.
  assert (Hkeep : forall i, 0 <= i < N ->
            (k <? i) && c_neb_r (entry c_zero A1 i k) mna.r_zero = false ->
            forall c, 0 <= c < N + 1 ->
              entry c_zero A2 i c = entry c_zero A1 i c).
  { intros i Hi E c Hc. rewrite Hent by assumption. unfold reduced.
    now rewrite E. }
  assert (Hrowk : forall c, 0 <= c < N + 1 ->
            entry c_zero A2 k c = entry c_zero A1 k c).
  { apply Hkeep; [assumption|]. now rewrite Z.ltb_irrefl. }
  assert (Hlhsk : lhs_at N A2 x k = lhs_at N A1 x k).
  { apply lhs_at_ext; intros; [apply Hrowk; lia | reflexivity]. }
  assert (Hq : forall i, c_neb_r (entry c_zero A1 i k) mna.r_zero = true ->
            c_div (c_opp v) (entry c_zero A1 i k) <> c_zero).
  { intros i Hne E. apply neb_true in Hne.
    pose proof (div_mul (c_opp v) _ Hne) as Hd. rewrite E in Hd.
    apply Hv. fold v.
    transitivity (c_opp (c_opp v)); [ring|]. rewrite <- Hd. ring. }
  assert (Hcomb : forall i, 0 <= i < N ->
            (k <? i) && c_neb_r (entry c_zero A1 i k) mna.r_zero = true ->
            lhs_at N A2 x i
            = c_add (c_mul (c_div (c_opp v) (entry c_zero A1 i k))
                       (lhs_at N A1 x i)) (lhs_at N A1 x k) /\
            entry c_zero A2 i N
            = c_add (c_mul (entry c_zero A1 i N)
                       (c_div (c_opp v) (entry c_zero A1 i k)))
                (entry c_zero A1 k N)).
  { intros i Hi E. split.
    - apply lhs_at_combination. intros j Hj.
      rewrite Hent by lia. unfold reduced. now rewrite E.
    - rewrite Hent by lia. unfold reduced. now rewrite E. }
  split; intros H i Hi.
  - destruct ((k <? i) && c_neb_r (entry c_zero A1 i k) mna.r_zero) eqn:E.
    + destruct (Hcomb i Hi E) as [E1 E2].
      apply andb_prop in E. destruct E as [_ Hne].
      pose proof (H i Hi) as Hi2. rewrite E1, E2 in Hi2.
      pose proof (H k Hk) as Hk2. rewrite Hlhsk, Hrowk in Hk2 by lia.
      rewrite Hk2 in Hi2.
      set (q := c_div (c_opp v) (entry c_zero A1 i k)) in *.
      assert (Hd : c_sub (lhs_at N A1 x i) (entry c_zero A1 i N) = c_zero).
      { apply (mul_cancel _ q); [|now apply Hq].
        transitivity (c_sub (c_add (c_mul q (lhs_at N A1 x i))
                               (entry c_zero A1 k N))
                        (c_add (c_mul (entry c_zero A1 i N) q)
                           (entry c_zero A1 k N))); [ring|].
        rewrite Hi2. ring. }
      transitivity (c_add (c_sub (lhs_at N A1 x i) (entry c_zero A1 i N))
                      (entry c_zero A1 i N)); [ring|].
      rewrite Hd. ring.
    + rewrite <- (Hkeep i Hi E N) by lia.
      rewrite <- (H i Hi).
      apply lhs_at_ext; intros; [symmetry; apply Hkeep; auto; lia | reflexivity].
  - destruct ((k <? i) && c_neb_r (entry c_zero A1 i k) mna.r_zero) eqn:E.
    + destruct (Hcomb i Hi E) as [E1 E2].
      rewrite E1, E2, (H i Hi), (H k Hk). ring.
    + rewrite (Hkeep i Hi E N) by lia.
      rewrite <- (H i Hi).
      apply lhs_at_ext; intros; [apply Hkeep; auto; lia | reflexivity].
Qed.

(** *** The elimination phase *)

(** The columns before [K] are reduced: a non-zero element on the diagonal
    and zeros below it. *)
Let reduced_to (N K : Z) A : Prop :=
  forall c, 0 <= c < K ->
    entry c_zero A c c <> c_zero /\
    forall i, c < i < N -> entry c_zero A i c = c_zero.

Lemma eliminate_column_exact mat N k A2 :
  shape mat N (N + 1) -> 0 <= k < N ->
  mna.eliminate_column N k mat = Ok A2 ->
  shape A2 N (N + 1) /\
  (forall x, solves N A2 x <-> solves N mat x) /\
  (reduced_to N k mat -> reduced_to N (k + 1) A2).
Proof.
  intros Hsh Hk Hrun.
  destruct (eliminate_column_run mat N k A2 Hsh Hk Hrun)
    as (r & A1 & Hr & Habs & Hsh1 & Hent1 & Hsh2 & Hent2).
  assert (Hv : entry c_zero A1 k k <> c_zero).
  { rewrite Hent1 by lia. unfold swapped.
    destruct (Z.eqb_spec k r) as [->|Hne].
    - now apply abs_nonzero.
    - rewrite Z.eqb_refl. now apply abs_nonzero. }
  split; [assumption|]. split.
  - intros x.
    rewrite (reduced_solves N A1 A2 x k Hk Hv Hent2).
    apply (swapped_solves N mat A1 x r k); [lia | lia | assumption].
  - intros Hred c Hc.
    assert (Hcol1 : c < k -> forall i, c < i < N -> entry c_zero A1 i c = c_zero).
    { intros Hck i Hi. rewrite Hent1 by lia. unfold swapped.
      destruct (Hred c ltac:(lia)) as [_ Hz].
      destruct (Z.eqb_spec i r); [apply Hz; lia|].
      destruct (Z.eqb_spec i k); apply Hz; lia. }
    split.
    + (* the diagonal *)
      rewrite Hent2 by lia. unfold reduced.
      destruct (Z.ltb_spec k c); [lia|]. cbn [andb].
      destruct (Z.eq_dec c k) as [->|Hne]; [exact Hv|].
      rewrite Hent1 by lia. unfold swapped.
      destruct (Z.eqb_spec c r); [lia|].
      destruct (Z.eqb_spec c k); [lia|].
      apply Hred. lia.
    + (* below the diagonal *)
      intros i Hi. rewrite Hent2 by lia. unfold reduced.
      destruct (Z.ltb_spec k i); cbn [andb].
      * destruct (c_neb_r (entry c_zero A1 i k) mna.r_zero) eqn:Hne.
        -- destruct (Z.eq_dec c k) as [->|Hck].
           ++ apply neb_true in Hne.
              transitivity
                (c_add (c_mul (c_div (c_opp (entry c_zero A1 k k))
                                 (entry c_zero A1 i k))
                          (entry c_zero A1 i k)) (entry c_zero A1 k k));
                [ring|].
              rewrite div_mul by assumption. ring.
           ++ rewrite (Hcol1 ltac:(lia) i) by lia.
              rewrite (Hcol1 ltac:(lia) k) by lia. ring.
        -- destruct (Z.eq_dec c k) as [->|Hck].
           ++ now apply neb_false.
           ++ apply Hcol1; lia.
      * apply Hcol1; lia.
Qed.

Lemma eliminate_exact mat N (K : nat) A :
  shape mat N (N + 1) -> Z.of_nat K <= N ->
  mna.eliminate N (Z.of_nat K) mat = Ok A ->
  shape A N (N + 1) /\
  (forall x, solves N A x <-> solves N mat x) /\
  reduced_to N (Z.of_nat K) A.
Proof.
  intros Hsh. revert A. induction K as [|K IH]; intros A HK.
  - intros [= <-]. split; [assumption|]. split; [reflexivity|].
    intros c Hc. lia.
  - replace (Z.of_nat (S K)) with (Z.of_nat K + 1) by lia.
    unfold mna.eliminate in *. rewrite for_range_snoc by lia.
    intros HA. apply bind_ok in HA. destruct HA as (A0 & HA0 & Hcol).
    destruct (IH A0 ltac:(lia) HA0) as (Hsh0 & Hsol0 & Hred0).
    destruct (eliminate_column_exact A0 N (Z.of_nat K) A Hsh0 ltac:(lia) Hcol)
      as (HshA & HsolA & HredA).
    split; [assumption|]. split; [|now apply HredA].
    intros x. rewrite HsolA. apply Hsol0.
Qed.

(** *** A reduced system *)

Lemma seqZ_singleton (a : Z) : seqZ a 1 = [a].
Proof.
  rewrite seqZ_cons by lia. now rewrite seqZ_nil by lia.
Qed.

(** In a reduced system the left-hand side of equation [i] is the diagonal
    term plus the terms after it. *)
Lemma lhs_at_reduced N A x i :
  reduced_to N N A -> 0 <= i < N ->
  lhs_at N A x i
  = c_add (c_mul (entry c_zero A i i) (entry c_zero x i 0))
      (sum_after N A x i).
Proof.
  intros Hred Hi. unfold lhs_at, sum_after.
  replace N with (i + (1 + (N - (i + 1)))) at 1 by lia.
  rewrite seqZ_app by lia. rewrite fold_left_app.
  rewrite seqZ_app by lia. rewrite fold_left_app.
  rewrite (sum_zero (fun j => c_mul (entry c_zero A i j) (entry c_zero x j 0))).
  - rewrite seqZ_singleton. cbn [fold_left].
    replace (0 + i + 1) with (i + 1) by lia. replace (0 + i) with i by lia.
    rewrite sum_acc. ring.
  - intros j Hj. apply elem_of_seqZ in Hj.
    destruct (Hred j ltac:(lia)) as [_ Hz]. rewrite Hz by lia. ring.
Qed.

Lemma back_sum_exact N A x i :
  back_sum N A x i = c_sub (entry c_zero A i N) (sum_after N A x i).
Proof.
  unfold back_sum, sum_after.
  rewrite (sub_sum (fun j => c_mul (entry c_zero A i j) (entry c_zero x j 0))).
  ring.
Qed.

(** Back substitution solves a reduced system. *)
Lemma back_substitution_solves N A x :
  reduced_to N N A ->
  (forall i, 0 <= i < N ->
     entry c_zero x i 0
     = c_div (back_sum N A x i) (entry c_zero A i i)) ->
  solves N A x.
Proof.
  intros Hred Hx i Hi.
  rewrite lhs_at_reduced by assumption.
  rewrite (Hx i Hi), back_sum_exact.
  destruct (Hred i Hi) as [Hd _].
  set (d := entry c_zero A i i) in *.
  set (b := c_sub (entry c_zero A i N) (sum_after N A x i)).
  transitivity (c_add (c_mul (c_div b d) d) (sum_after N A x i)); [ring|].
  rewrite div_mul by assumption. unfold b. ring.
Qed.

(** A reduced system has at most one solution. *)
Lemma reduced_unique N A x y :
  reduced_to N N A -> solves N A x -> solves N A y ->
  forall i, 0 <= i < N -> entry c_zero y i 0 = entry c_zero x i 0.
Proof.
  intros Hred Hx Hy.
  assert (Hind : forall n : nat, forall i, 0 <= i < N -> N - i <= Z.of_nat n ->
            entry c_zero y i 0 = entry c_zero x i 0).
  { induction n as [|n IH]; intros i Hi Hn; [lia|].
    pose proof (Hx i Hi) as Ex. pose proof (Hy i Hi) as Ey.
    rewrite lhs_at_reduced in Ex, Ey by assumption.
    assert (Es : sum_after N A y i = sum_after N A x i).
    { unfold sum_after. apply sum_ext. intros j Hj.
      apply elem_of_seqZ in Hj. rewrite (IH j) by lia. reflexivity. }
    rewrite Es, <- Ex in Ey.
    destruct (Hred i Hi) as [Hd _].
    set (d := entry c_zero A i i) in *.
    assert (E0 : c_sub (entry c_zero y i 0) (entry c_zero x i 0) = c_zero).
    { apply (mul_cancel _ d); [|assumption].
      transitivity (c_sub (c_add (c_mul d (entry c_zero y i 0))
                             (sum_after N A x i))
                      (c_add (c_mul d (entry c_zero x i 0))
                         (sum_after N A x i))); [ring|].
      rewrite Ey. ring. }
    transitivity (c_add (c_sub (entry c_zero y i 0) (entry c_zero x i 0))
                    (entry c_zero x i 0)); [ring|].
    rewrite E0. ring. }
  intros i Hi. apply (Hind (Z.to_nat (N - i))); lia.
Qed.

(** *** The solver *)

Lemma gaussian_elimination_exact mat N x :
  shape mat N (N + 1) ->
  mna.gaussian_elimination mat = Ok x ->
  shape x N 1 /\ solves N mat x /\
  forall y, solves N mat y ->
    forall i, 0 <= i < N -> entry c_zero y i 0 = entry c_zero x i 0.
Proof.
  intros Hsh Hrun.
  assert (HN : 0 <= N) by (destruct Hsh as ((? & ? & ?) & ? & ?); lia).
  destruct (eliminate_total mat N (Z.to_nat N) Hsh) as [(A & HA & HshA)|Hthrow];
    [lia | |]; rewrite Z2Nat.id in * by lia.
  - destruct (eliminate_exact mat N (Z.to_nat N) A Hsh) as (_ & Hsol & Hred);
      [lia | now rewrite Z2Nat.id by lia |].
    rewrite Z2Nat.id in Hred by lia.
    rewrite (gaussian_elimination_after mat N A Hsh HA) in Hrun.
    destruct (back_substitution_ok A N HshA) as (x' & Hx' & Hshx & Hrec).
    rewrite Hx' in Hrun. injection Hrun as <-.
    assert (HsolA : solves N A x')
      by now apply back_substitution_solves.
    split; [assumption|]. split; [now apply Hsol|].
    intros y Hy. apply (reduced_unique N A x' y Hred HsolA).
    now apply Hsol.
  - rewrite (gaussian_elimination_throw mat N _ Hsh Hthrow) in Hrun.
    discriminate.
Qed.

End ExactSolver.

(** X10. In exact arithmetic, the column that [gaussian_elimination] returns
    for an [N x (N+1)] system satisfies every equation of the system: the
    terms [mat[i,j] * x[j]] of row [i] add up to [mat[i,N]]. *)
Theorem gaussian_elimination_solves {SC : Scalars} (mat x : matrix cplx)
  (N : Z) :
  exact_arithmetic -> shape mat N (N + 1) ->
  mna.gaussian_elimination mat = Ok x ->
  shape x N 1 /\ solves N mat x.
Proof.
  intros laws Hsh Hrun.
  destruct (gaussian_elimination_exact laws mat N x Hsh Hrun) as (H1 & H2 & _).
  split; assumption.
Qed.

(** X11. In exact arithmetic, when [gaussian_elimination] returns a column the
    system has no other solution: every column of [N] elements that
    satisfies the equations is the one returned. *)
Theorem gaussian_elimination_unique {SC : Scalars} (mat x y : matrix cplx)
  (N : Z) :
  exact_arithmetic -> shape mat N (N + 1) ->
  mna.gaussian_elimination mat = Ok x ->
  shape y N 1 -> solves N mat y ->
  y = x.
Proof.
  intros laws Hsh Hrun Hshy Hy.
  destruct (gaussian_elimination_exact laws mat N x Hsh Hrun)
    as (Hshx & _ & Huniq).
  apply (matrix_ext c_zero y x N 1 Hshy Hshx).
  intros r c Hr Hc. replace c with 0 by lia. now apply Huniq.
Qed.
(** ** mna.cpp: the equations of the voltage sources and of the op-amps *)

Section BranchRows.
Context {SC : Scalars}.

(** The column of [B] that the loop over the voltage sources fills for
    the source [k]. *)
Lemma fill_B_sources_columns p n m (B0 : matrix cplx) :
  nodes_below n p -> shape B0 n m ->
  Z.of_nat (length (mna.voltage_sources p)) <= m ->
  exists B1, mna.fill_B_sources p B0 = Ok B1 /\ shape B1 n m /\
    forall k vs, mna.voltage_sources p !! k = Some vs ->
      forall r, 0 <= r < n ->
        entry c_zero B1 r (Z.of_nat k)
        = if (snd (mna.vs_nodes vs) >=? 0) && (r =? snd (mna.vs_nodes vs))
          then mna.c_minus_one
          else if (fst (mna.vs_nodes vs) >=? 0)
                  && (r =? fst (mna.vs_nodes vs))
               then mna.c_one
               else entry c_zero B0 r (Z.of_nat k).
Proof.
  intros (_ & Hvs & _) Hsh0 HV.
  set (col_of := fun (vs : mna.voltage_source) (old : cplx) (r : Z) =>
         if (snd (mna.vs_nodes vs) >=? 0) && (r =? snd (mna.vs_nodes vs))
         then mna.c_minus_one
         else if (fst (mna.vs_nodes vs) >=? 0)
                 && (r =? fst (mna.vs_nodes vs))
              then mna.c_one else old).
  destruct (for_each_inv
    (fun k B => shape B n m /\
       (forall q r, (k <= q)%nat -> Z.of_nat q < m -> 0 <= r < n ->
          entry c_zero B r (Z.of_nat q) = entry c_zero B0 r (Z.of_nat q)) /\
       (forall q vs, (q < k)%nat -> mna.voltage_sources p !! q = Some vs ->
          forall r, 0 <= r < n ->
          entry c_zero B r (Z.of_nat q)
          = col_of vs (entry c_zero B0 r (Z.of_nat q)) r))
    (fun i vs B =>
       let* B := if fst (mna.vs_nodes vs) >=? 0
                 then mat_set B (fst (mna.vs_nodes vs)) i mna.c_one
                 else Ok B in
       if snd (mna.vs_nodes vs) >=? 0
       then mat_set B (snd (mna.vs_nodes vs)) i mna.c_minus_one
       else Ok B)
    (mna.voltage_sources p) O 0 B0) as (B1 & Hrun & Hsh & _ & Hdone).
  - split; [assumption|]. split; [reflexivity|]. intros; lia.
  - intros k vs B Hk (Hsh & Hlater & Hdone). cbn [Nat.add] in *.
    assert (Hin : In vs (mna.voltage_sources p)).
    { apply list_elem_of_In. eapply list_elem_of_lookup_2. exact Hk. }
    destruct (Hvs vs Hin) as [Ha Hb].
    pose proof (lookup_lt_Some _ _ _ Hk) as Hlt.
    assert (Hset : forall B' : matrix cplx, shape B' n m ->
              forall r x, 0 <= r < n ->
              mat_set B' r (0 + Z.of_nat k) x
              = Ok (mat_write B' r (Z.of_nat k) x)).
    { intros B' Hs r x Hr. rewrite Z.add_0_l. apply mat_set_ok.
      eapply shape_in_range; eauto. lia. }
    assert (Hread : forall B' : matrix cplx, shape B' n m ->
              forall r x i j, 0 <= r < n -> 0 <= i < n -> 0 <= j < m ->
              entry c_zero (mat_write B' r (Z.of_nat k) x) i j
              = if (i =? r) && (j =? Z.of_nat k) then x
                else entry c_zero B' i j).
    { intros B' Hs r x i j Hr Hi Hj. apply entry_write.
      - apply Hs.
      - eapply shape_in_range; eauto. lia.
      - eapply shape_in_range; eauto. }
    assert (Hgoal : forall B' : matrix cplx, shape B' n m ->
      (forall i j, 0 <= i < n -> 0 <= j < m ->
         entry c_zero B' i j =
         if j =? Z.of_nat k
         then col_of vs (entry c_zero B i j) i
         else entry c_zero B i j) ->
      shape B' n m /\
      (forall q r, (S k <= q)%nat -> Z.of_nat q < m -> 0 <= r < n ->
         entry c_zero B' r (Z.of_nat q) = entry c_zero B0 r (Z.of_nat q)) /\
      (forall q vs0, (q < S k)%nat -> mna.voltage_sources p !! q = Some vs0 ->
         forall r, 0 <= r < n ->
         entry c_zero B' r (Z.of_nat q)
         = col_of vs0 (entry c_zero B0 r (Z.of_nat q)) r)).
    { intros B' Hs HB'. split; [assumption|]. split.
      - intros q r Hq Hqm Hr. rewrite HB' by lia.
        destruct (Z.eqb_spec (Z.of_nat q) (Z.of_nat k)); [lia|].
        apply Hlater; auto. lia.
      - intros q vs0 Hq Hk0 r Hr.
        pose proof (lookup_lt_Some _ _ _ Hk0) as Hlt0.
        rewrite HB' by lia.
        destruct (Z.eqb_spec (Z.of_nat q) (Z.of_nat k)) as [E|E].
        + assert (q = k) by lia. subst q. rewrite Hk in Hk0.
          injection Hk0 as <-. f_equal. apply Hlater; auto. lia.
        + apply Hdone; auto. lia. }
    destruct vs as [[a b] v]. cbn [mna.vs_nodes fst snd] in *.
    destruct (Z.geb_spec a 0); destruct (Z.geb_spec b 0);
      repeat first [progress cbn [bind]
                   | rewrite Hset by first [lia | solve [auto using shape_write]]];
      (eexists; split; [reflexivity|]);
      (apply Hgoal; [auto using shape_write|]);
      intros i j Hi Hj; unfold col_of;
      cbn [mna.vs_nodes fst snd];
      repeat (rewrite Hread by first [lia | solve [auto using shape_write]]);
      destruct (Z.geb_spec a 0); try lia;
      destruct (Z.geb_spec b 0); try lia; cbn [andb];
      repeat (match goal with
              | |- context [?x =? ?y] => destruct (Z.eqb_spec x y); try lia
              end; cbn [andb]); try reflexivity; try lia.
  - exists B1. split; [exact Hrun|]. split; [assumption|].
    intros k vs Hk r Hr. apply Hdone; auto.
    apply lookup_lt_Some in Hk. lia.
Qed.

(** The rows of the assembled system that belong to the voltage sources
    and to the op-amps, and the column that the solver returned for it. *)
Lemma solve_branch_rows p s :
  mna.solve p = Ok s ->
  let n := mna.get_max_node p + 1 in
  let V := Z.of_nat (length (mna.voltage_sources p)) in
  let m := Z.of_nat (length (mna.opamps p)) + V in
  exists system x,
    s = mna.MnaSolution x n V /\
    shape system (n + m) (n + m + 1) /\
    mna.gaussian_elimination system = Ok x /\
    (forall k vs, mna.voltage_sources p !! k = Some vs ->
       (forall j, 0 <= j < n ->
          entry c_zero system (n + Z.of_nat k) j
          = incidence (fst (mna.vs_nodes vs)) (snd (mna.vs_nodes vs)) j) /\
       (forall j, n <= j < n + m ->
          entry c_zero system (n + Z.of_nat k) j = c_zero) /\
       entry c_zero system (n + Z.of_nat k) (n + m) = c_of_real (mna.V vs)) /\
    (forall q opa, mna.opamps p !! q = Some opa ->
       (forall j, 0 <= j < n ->
          entry c_zero system (n + (V + Z.of_nat q)) j
          = incidence (mna.pos_input_node opa) (mna.neg_input_node opa) j) /\
       (forall j, n <= j < n + m ->
          entry c_zero system (n + (V + Z.of_nat q)) j = c_zero) /\
       entry c_zero system (n + (V + Z.of_nat q)) (n + m) = c_zero).
Proof.
  intros Hsolve n V m.
  assert (Hn : 0 <= n) by (pose proof (get_max_node_ge p); unfold n; lia).
  pose proof (get_max_node_below p) as Hbelow. fold n in Hbelow.
  destruct (compute_matrix_A_ok p n Hn Hbelow)
    as (G & B1 & C0 & B2 & C1 & A & _ & HB1 & HC0 & _ & HC1 & HA & HshA
        & _ & _ & HAC & HAD).
  fold V m in HB1, HA, HshA, HAC, HAD.
  destruct (compute_matrix_z_total p n Hn Hbelow) as (z & Hz & Hshz & Hzv & Hzo).
  fold V m in Hshz, Hzo.
  destruct (join_matrices_horizontal_ok c_zero A z _ _ _ HshA Hshz)
    as (system & Hsys & Hshsys & HsysA & Hsysz).
  unfold mna.solve in Hsolve. fold n in Hsolve.
  rewrite HA in Hsolve. cbn [bind] in Hsolve.
  rewrite Hz in Hsolve. cbn [bind] in Hsolve.
  rewrite Hsys in Hsolve. cbn [bind] in Hsolve.
  destruct (mna.gaussian_elimination system) as [x|e] eqn:Hx;
    cbn [bind] in Hsolve; [|discriminate].
  injection Hsolve as <-. fold V.
  exists system, x. split; [reflexivity|]. split; [assumption|].
  split; [exact Hx|].
  (* the blocks B1, C0 and C1 *)
  assert (HshB0 : shape (matrix_new c_zero n m) n m)
    by (apply shape_new; unfold m, V; lia).
  destruct (fill_B_sources_columns p n m _ Hbelow HshB0)
    as (B1' & HB1' & HshB1 & HB1col); [unfold m, V; lia|].
  rewrite HB1 in HB1'. injection HB1' as <-.
  destruct (fill_B_sources_ok p n m _ Hbelow HshB0)
    as (B1' & HB1' & _ & HB1rest); [unfold m, V; lia|].
  rewrite HB1 in HB1'. injection HB1' as <-.
  destruct (transpose_ok c_zero B1 n m HshB1) as (C0' & HC0' & HshC0 & HC0ent).
  rewrite HC0 in HC0'. injection HC0' as <-.
  destruct (fill_C_opamps_ok p n m C0 Hbelow HshC0 eq_refl)
    as (C1' & HC1' & HshC1 & HC1src & HC1op).
  rewrite HC1 in HC1'. injection HC1' as <-.
  fold V in HC1src, HC1op.
  split.
  - intros k vs Hk. pose proof (lookup_lt_Some _ _ _ Hk) as Hlt.
    assert (Hkm : 0 <= Z.of_nat k < m) by (unfold m, V; lia).
    split; [|split].
    + intros j Hj. rewrite HsysA by lia. rewrite HAC by lia.
      rewrite HC1src by (unfold V; lia). rewrite HC0ent by lia.
      rewrite (HB1col k vs Hk j Hj). rewrite entry_new. reflexivity.
    + intros j Hj. rewrite HsysA by lia.
      replace j with (n + (j - n)) by lia. apply HAD; lia.
    + replace (n + m) with (n + m + 0) by lia.
      rewrite Hsysz by lia. now apply Hzv.
  - intros q opa Hq. pose proof (lookup_lt_Some _ _ _ Hq) as Hlt.
    assert (Hqm : 0 <= V + Z.of_nat q < m) by (unfold m, V; lia).
    split; [|split].
    + intros j Hj. rewrite HsysA by lia. rewrite HAC by lia.
      rewrite (HC1op q opa Hq j Hj). rewrite HC0ent by lia.
      rewrite HB1rest by lia. rewrite entry_new. reflexivity.
    + intros j Hj. rewrite HsysA by lia.
      replace j with (n + (j - n)) by lia. apply HAD; lia.
    + replace (n + m) with (n + m + 0) by lia.
      rewrite Hsysz by lia. apply Hzo. lia.
Qed.

End BranchRows.

Section ExactBranches.
Context {SC : Scalars}.
Hypothesis laws : exact_arithmetic.
Implicit Types x system : matrix cplx.

Add Ring cplx_ring_branches : (ea_ring laws).

(** A sum whose terms vanish except at [a]. *)
Lemma sum_only (u : Z -> cplx) (a : Z) (K : nat) :
  fold_left (fun s j => c_add s (if j =? a then u j else c_zero))
    (seqZ 0 (Z.of_nat K)) c_zero
  = if (0 <=? a) && (a <? Z.of_nat K) then u a else c_zero.
Proof.
  induction K as [|K IH].
  - change (Z.of_nat 0) with 0. rewrite seqZ_nil by lia. cbn [fold_left].
    destruct (Z.leb_spec 0 a); destruct (Z.ltb_spec a 0);
      try lia; reflexivity.
  - replace (Z.of_nat (S K)) with (Z.of_nat K + 1) by lia.
    rewrite seqZ_app by lia. rewrite fold_left_app, IH.
    rewrite seqZ_singleton. cbn [fold_left].
    replace (0 + Z.of_nat K) with (Z.of_nat K) by lia.
    destruct (Z.leb_spec 0 a); cbn [andb].
    + destruct (Z.ltb_spec a (Z.of_nat K));
        destruct (Z.eqb_spec (Z.of_nat K) a);
        destruct (Z.ltb_spec a (Z.of_nat K + 1)); try lia;
        try subst a; ring.
    + destruct (Z.eqb_spec (Z.of_nat K) a); [lia | ring].
Qed.

(** The equation of a branch from [a] to [b]: its left-hand side is the
    potential of [a] minus the potential of [b]. *)
Lemma branch_equation N n system x i a b :
  0 <= n <= N -> a < n -> b < n -> a <> b ->
  (forall j, 0 <= j < n -> entry c_zero system i j = incidence a b j) ->
  (forall j, n <= j < N -> entry c_zero system i j = c_zero) ->
  lhs_at N system x i = c_sub (potential x a) (potential x b).
Proof.
  intros Hn Ha Hb Hab Hinc Hrest. unfold lhs_at.
  set (ta := fun j => if j =? a then entry c_zero x j 0 else c_zero).
  set (tb := fun j => if j =? b then c_opp (entry c_zero x j 0) else c_zero).
  rewrite (sum_ext _
             (fun j => c_add (c_mul mna.c_one (ta j)) (tb j))).
  - rewrite (sum_linear laws mna.c_one ta tb).
    unfold ta, tb.
    replace N with (Z.of_nat (Z.to_nat N)) by lia.
    rewrite !sum_only. rewrite Z2Nat.id by lia.
    unfold potential.
    destruct (Z.leb_spec 0 a); destruct (Z.ltb_spec a 0); try lia;
      destruct (Z.leb_spec 0 b); destruct (Z.ltb_spec b 0); try lia;
      cbn [andb];
      repeat match goal with
             | |- context [?u <? N] => destruct (Z.ltb_spec u N); try lia
             end; ring.
  - intros j Hj. apply elem_of_seqZ in Hj. unfold ta, tb.
    destruct (Z.lt_ge_cases j n).
    + rewrite Hinc by lia. unfold incidence.
      rewrite (ea_minus_one laws).
      destruct (Z.geb_spec b 0); destruct (Z.geb_spec a 0); cbn [andb];
        destruct (Z.eqb_spec j b); destruct (Z.eqb_spec j a);
        try lia; ring.
    + rewrite Hrest by lia.
      destruct (Z.eqb_spec j b); destruct (Z.eqb_spec j a); try lia; ring.
Qed.

(** What [voltage] returns between two nodes of a solved problem. *)
Lemma voltage_potential x (n V h a b : Z) :
  shape x h 1 -> n <= h -> a < n -> b < n ->
  mna.voltage (mna.MnaSolution x n V) a b
  = Ok (c_sub (potential x a) (potential x b)).
Proof.
  intros Hsh Hnh Ha Hb.
  rewrite (voltage_below x n V h a b Hsh Hnh Ha Hb).
  unfold potential. fold mna.r_zero. now rewrite (ea_zero laws).
Qed.

Lemma solved_branch_voltage p s :
  mna.solve p = Ok s ->
  (forall k vs, mna.voltage_sources p !! k = Some vs ->
     fst (mna.vs_nodes vs) <> snd (mna.vs_nodes vs) ->
     mna.voltage s (fst (mna.vs_nodes vs)) (snd (mna.vs_nodes vs))
     = Ok (c_of_real (mna.V vs))) /\
  (forall q opa, mna.opamps p !! q = Some opa ->
     mna.voltage s (mna.pos_input_node opa) (mna.neg_input_node opa)
     = Ok c_zero).
Proof.
  intros Hsolve.
  destruct (solve_branch_rows p s Hsolve)
    as (system & x & -> & Hshsys & Hrun & Hsrc & Hop).
  set (n := mna.get_max_node p + 1) in *.
  set (V := Z.of_nat (length (mna.voltage_sources p))) in *.
  set (m := Z.of_nat (length (mna.opamps p)) + V) in *.
  assert (Hn : 0 <= n) by (pose proof (get_max_node_ge p); unfold n; lia).
  assert (Hm : 0 <= m) by (unfold m, V; lia).
  destruct (gaussian_elimination_exact laws system (n + m) x Hshsys Hrun)
    as (Hshx & Hsol & _).
  destruct (get_max_node_below p) as (_ & Hvs & _ & Hops). fold n in Hvs, Hops.
  split.
  - intros k vs Hk Hne. pose proof (lookup_lt_Some _ _ _ Hk) as Hlt.
    assert (Hin : In vs (mna.voltage_sources p))
      by (apply list_elem_of_In; eapply list_elem_of_lookup_2; eauto).
    destruct (Hvs vs Hin) as [Ha Hb].
    destruct (Hsrc k vs Hk) as (Hinc & Hrest & Hrhs).
    rewrite (voltage_potential x n V (n + m)) by (auto; lia).
    rewrite <- (branch_equation (n + m) n system x (n + Z.of_nat k))
      by (auto; lia).
    rewrite Hsol by (unfold m, V; lia). now rewrite Hrhs.
  - intros q opa Hq. pose proof (lookup_lt_Some _ _ _ Hq) as Hlt.
    assert (Hin : In opa (mna.opamps p))
      by (apply list_elem_of_In; eapply list_elem_of_lookup_2; eauto).
    destruct (Hops opa Hin) as (Ha & Hb & _).
    destruct (Hop q opa Hq) as (Hinc & Hrest & Hrhs).
    rewrite (voltage_potential x n V (n + m)) by (auto; lia).
    destruct (Z.eq_dec (mna.pos_input_node opa) (mna.neg_input_node opa))
      as [E|Hne].
    + rewrite E. f_equal. ring.
    + rewrite <- (branch_equation (n + m) n system x (n + (V + Z.of_nat q)))
        by (auto; lia).
      rewrite Hsol by (unfold m, V; lia). now rewrite Hrhs.
Qed.

End ExactBranches.

(** X15. In exact arithmetic, the potentials of a solved problem obey every
    voltage source whose two nodes differ: the voltage from its first to
    its second node is the value of the source. *)
Theorem voltage_source_constraint {SC : Scalars} (p : mna.mna_problem)
  (s : mna.mna_solution) (k : nat) (vs : mna.voltage_source) :
  exact_arithmetic -> mna.solve p = Ok s ->
  mna.voltage_sources p !! k = Some vs ->
  fst (mna.vs_nodes vs) <> snd (mna.vs_nodes vs) ->
  mna.voltage s (fst (mna.vs_nodes vs)) (snd (mna.vs_nodes vs))
  = Ok (c_of_real (mna.V vs)).
Proof.
  intros laws Hsolve Hk Hne.
  destruct (solved_branch_voltage laws p s Hsolve) as [Hsrc _].
  now apply (Hsrc k).
Qed.

(** X16. In exact arithmetic, the two inputs of every op-amp of a solved
    problem are at the same potential. *)
Theorem opamp_virtual_short {SC : Scalars} (p : mna.mna_problem)
  (s : mna.mna_solution) (q : nat) (opa : mna.opamp) :
  exact_arithmetic -> mna.solve p = Ok s ->
  mna.opamps p !! q = Some opa ->
  mna.voltage s (mna.pos_input_node opa) (mna.neg_input_node opa) = Ok c_zero.
Proof.
  intros laws Hsolve Hq.
  destruct (solved_branch_voltage laws p s Hsolve) as [_ Hop].
  now apply (Hop q).
Qed.

Lemma pivoting_system_solved :
  mna.gaussian_elimination pivoting_system = Ok pivoting_solution.
Proof. apply ok_of_returned. vm_compute. reflexivity. Qed.

Lemma gaussian_elimination_solves_witness :
  shape pivoting_solution 2 1 /\ solves 2 pivoting_system pivoting_solution.
Proof.
  exact (gaussian_elimination_solves pivoting_system pivoting_solution 2
           exact_scalars_exact pivoting_system_shape pivoting_system_solved).
Defined.

Lemma one_and_three_solves : solves 2 pivoting_system one_and_three.
Proof.
  intros i Hi.
  assert (E : i = 0 \/ i = 1) by lia.
  destruct E as [-> | ->];
    apply injective_projections; apply Qc_is_canon; vm_compute; reflexivity.
Qed.

Lemma gaussian_elimination_unique_witness : one_and_three = pivoting_solution.
Proof.
  apply (gaussian_elimination_unique pivoting_system pivoting_solution
           one_and_three 2 exact_scalars_exact pivoting_system_shape
           pivoting_system_solved).
  - repeat split; simpl; lia.
  - exact one_and_three_solves.
Defined.

Lemma voltage_source_constraint_witness :
  mna.voltage divider_solution 0 (-1)
  = Ok (Exact.of_real (Exact.of_int 10)).
Proof.
  apply (voltage_source_constraint divider_problem divider_solution O _
           exact_scalars_exact divider_problem_solved eq_refl).
  simpl. lia.
Defined.

Lemma follower_problem_solved :
  mna.solve follower_problem = Ok follower_solution.
Proof. apply ok_of_returned. vm_compute. reflexivity. Qed.

Lemma opamp_virtual_short_witness :
  mna.voltage follower_solution 0 1 = Ok c_zero.
Proof.
  exact (opamp_virtual_short follower_problem follower_solution O _
           exact_scalars_exact follower_problem_solved eq_refl).
Defined.


(** ** mna.cpp: get_max_node *)

Lemma fold_max_attained {A : Type} (step : Z -> A -> Z) (vals : A -> list Z) :
  (forall mx v, step mx v = mx \/ In (step mx v) (vals v)) ->
  forall l init,
    fold_left step l init = init \/
    exists v, In v l /\ In (fold_left step l init) (vals v).
Proof.
  intros Hstep. induction l as [|x l IH]; intros init; cbn [fold_left].
  - now left.
  - destruct (IH (step init x)) as [E | (v & Hv & Hin)].
    + rewrite E. destruct (Hstep init x) as [E' | Hin].
      * left. exact E'.
      * right. exists x. split; [now left | assumption].
    + right. exists v. split; [now right | assumption].
Qed.

Lemma in_problem_nodes {SC : Scalars} (p : mna.mna_problem) (i : Z) :
  In i (problem_nodes p) <->
  (exists v, In v (mna.admittances p) /\
     (i = fst (mna.adm_nodes v) \/ i = snd (mna.adm_nodes v))) \/
  (exists v, In v (mna.voltage_sources p) /\
     (i = fst (mna.vs_nodes v) \/ i = snd (mna.vs_nodes v))) \/
  (exists v, In v (mna.current_sources p) /\
     (i = fst (mna.cs_nodes v) \/ i = snd (mna.cs_nodes v))) \/
  (exists v, In v (mna.opamps p) /\
     (i = mna.pos_input_node v \/ i = mna.neg_input_node v
      \/ i = mna.output_node v)).
Proof.
  unfold problem_nodes. rewrite !in_app_iff, !in_flat_map.
  cbn [In]. split.
  - intros [(v & Hv & H) | [(v & Hv & H) | [(v & Hv & H) | (v & Hv & H)]]].
    + left. exists v. intuition.
    + right. left. exists v. intuition.
    + right. right. left. exists v. intuition.
    + right. right. right. exists v. intuition.
  - intros [(v & Hv & H) | [(v & Hv & H) | [(v & Hv & H) | (v & Hv & H)]]].
    + left. exists v. intuition.
    + right. left. exists v. intuition.
    + right. right. left. exists v. intuition.
    + right. right. right. exists v. intuition.
Qed.

Lemma problem_nodes_le_max {SC : Scalars} (p : mna.mna_problem) (i : Z) :
  In i (problem_nodes p) -> i <= mna.get_max_node p.
Proof.
  intros Hin. apply in_problem_nodes in Hin.
  destruct (get_max_node_below p) as (Ha & Hv & Hc & Ho).
  destruct Hin as [(v & Hin & H) | [(v & Hin & H) | [(v & Hin & H) | (v & Hin & H)]]].
  - destruct (Ha v Hin). destruct H; subst; lia.
  - destruct (Hv v Hin). destruct H; subst; lia.
  - destruct (Hc v Hin). destruct H; subst; lia.
  - destruct (Ho v Hin) as (? & ? & ?). destruct H as [|[|]]; subst; lia.
Qed.

(** X14. [get_max_node] returns the largest node number that occurs in the
    problem, and [-1] when none occurs or all of them are below [-1]. *)
Theorem get_max_node_is_max {SC : Scalars} (p : mna.mna_problem) :
  (forall i, In i (problem_nodes p) -> i <= mna.get_max_node p) /\
  -1 <= mna.get_max_node p /\
  (mna.get_max_node p = -1 \/ In (mna.get_max_node p) (problem_nodes p)).
Proof.
  split; [apply problem_nodes_le_max|]. split; [apply get_max_node_ge|].
  unfold mna.get_max_node.
  set (f1 := fun mx v => Z.max (Z.max mx (fst (mna.adm_nodes v)))
                           (snd (mna.adm_nodes v))).
  set (f2 := fun mx v => Z.max (Z.max mx (fst (mna.vs_nodes v)))
                           (snd (mna.vs_nodes v))).
  set (f3 := fun mx v => Z.max (Z.max mx (fst (mna.cs_nodes v)))
                           (snd (mna.cs_nodes v))).
  set (f4 := fun mx v => Z.max (Z.max (Z.max mx (mna.pos_input_node v))
                                  (mna.neg_input_node v))
                           (mna.output_node v)).
  set (m1 := fold_left f1 (mna.admittances p) (-1)).
  set (m2 := fold_left f2 (mna.voltage_sources p) m1).
  set (m3 := fold_left f3 (mna.current_sources p) m2).
  set (m4 := fold_left f4 (mna.opamps p) m3).
  assert (H1 : m1 = -1 \/ In m1 (problem_nodes p)).
  { destruct (fold_max_attained f1
                (fun v => [fst (mna.adm_nodes v); snd (mna.adm_nodes v)])
                ltac:(intros; unfold f1; cbn [In]; lia)
                (mna.admittances p) (-1)) as [E | (v & Hv & Hin)].
    - now left.
    - right. apply in_problem_nodes. left. exists v. fold m1 in Hin.
      cbn [In] in Hin. intuition. }
  assert (H2 : m2 = -1 \/ In m2 (problem_nodes p)).
  { destruct (fold_max_attained f2
                (fun v => [fst (mna.vs_nodes v); snd (mna.vs_nodes v)])
                ltac:(intros; unfold f2; cbn [In]; lia)
                (mna.voltage_sources p) m1) as [E | (v & Hv & Hin)].
    - fold m2 in E. now rewrite E.
    - right. apply in_problem_nodes. right. left. exists v. fold m2 in Hin.
      cbn [In] in Hin. intuition. }
  assert (H3 : m3 = -1 \/ In m3 (problem_nodes p)).
  { destruct (fold_max_attained f3
                (fun v => [fst (mna.cs_nodes v); snd (mna.cs_nodes v)])
                ltac:(intros; unfold f3; cbn [In]; lia)
                (mna.current_sources p) m2) as [E | (v & Hv & Hin)].
    - fold m3 in E. now rewrite E.
    - right. apply in_problem_nodes. right. right. left. exists v.
      fold m3 in Hin. cbn [In] in Hin. intuition. }
  destruct (fold_max_attained f4
              (fun v => [mna.pos_input_node v; mna.neg_input_node v;
                         mna.output_node v])
              ltac:(intros; unfold f4; cbn [In]; lia)
              (mna.opamps p) m3) as [E | (v & Hv & Hin)].
  - fold m4 in E. now rewrite E.
  - right. apply in_problem_nodes. right. right. right. exists v.
    fold m4 in Hin. cbn [In] in Hin. intuition.
Qed.
(** ** circuit.cpp: the node map and the lowering *)

Section LoweringFacts.
Context {SC : Scalars}.
Implicit Types circ : circuit.

Lemma node_map_of_domain circ x :
  is_Some (fst (node_map_of circ) !! x) <-> x = 0 \/ x ∈ circuit_labels circ.
Proof.
  destruct (node_map_of_numbered circ) as (H0 & _ & _ & Hdom & _ & _).
  destruct (first_encounters_spec (circuit_labels circ) {[0]}) as [_ Hmem].
  rewrite Hdom. unfold dense_order. rewrite Hmem, elem_of_singleton.
  destruct (decide (x = 0)); tauto.
Qed.

Lemma node_map_of_ground circ : fst (node_map_of circ) !! 0 = Some (-1).
Proof. apply (node_map_of_numbered circ). Qed.

Lemma node_map_of_index circ x i :
  fst (node_map_of circ) !! x = Some i ->
  (x = 0 /\ i = -1) \/
  (exists k, dense_order circ !! k = Some x /\ i = Z.of_nat k).
Proof.
  destruct (node_map_of_numbered circ) as (H0 & _ & Hidx & Hdom & _ & _).
  intros Hx.
  destruct (proj1 (Hdom x) (ex_intro _ i Hx)) as [-> | Hin].
  - left. split; [reflexivity | congruence].
  - right. apply list_elem_of_lookup in Hin. destruct Hin as [k Hk].
    exists k. split; [assumption|]. rewrite (Hidx k x Hk) in Hx. congruence.
Qed.

(** Different labels have different indices. *)
Lemma node_map_of_inj circ x y i :
  fst (node_map_of circ) !! x = Some i ->
  fst (node_map_of circ) !! y = Some i -> x = y.
Proof.
  intros Hx Hy.
  destruct (node_map_of_index circ x i Hx) as [[-> ->] | (k & Hk & ->)];
    destruct (node_map_of_index circ y _ Hy) as [[-> E] | (k' & Hk' & E)];
    try reflexivity; try lia.
  assert (k' = k) by lia. subst k'. congruence.
Qed.

Lemma component_labels_in_circuit circ ref v x :
  (ref, v) ∈ circ -> x ∈ component_labels (pointee v) ->
  x ∈ circuit_labels circ.
Proof.
  intros Hin Hx. unfold circuit_labels.
  apply list_elem_of_In, in_concat.
  exists (component_labels (pointee v)). split.
  - apply in_map_iff. exists (ref, v). split; [reflexivity|].
    now apply list_elem_of_In.
  - now apply list_elem_of_In.
Qed.

(** *** One component *)

Lemma node_at_some (node_map : gmap Z Z) (n i : Z) :
  node_map !! n = Some i -> node_at node_map n = Ok i.
Proof. intros H. unfold node_at. now rewrite H. Qed.

Lemma node_at_none (node_map : gmap Z Z) (n : Z) :
  node_map !! n = None -> node_at node_map n = Throw (out_of_range "map::at").
Proof. intros H. unfold node_at. now rewrite H. Qed.

(** The lowering of one component throws nothing but the exception of
    [std::map::at]. *)
Lemma lower_component_throw node_map omega c p e :
  lower_component node_map omega c p = Throw e ->
  e = out_of_range "map::at".
Proof.
  unfold lower_component, map_node_pair, node_at.
  destruct c as [[a b] ?|[a b] ?|[a b] ?|[a b] ? ?|[a b] ? ?|a b o|[a b]|];
    cbn [admittance as_bipole fst snd bind];
    repeat match goal with
           | |- context [node_map !! ?n] => destruct (node_map !! n)
           end; cbn [bind]; congruence.
Qed.

Lemma nodes_add_admittance (p : mna.mna_problem) ab y i :
  In i (problem_nodes
          (mna.MnaProblem (mna.admittances p ++ [mna.Admittance ab y])
             (mna.voltage_sources p) (mna.current_sources p) (mna.opamps p)))
  <-> In i (problem_nodes p) \/ i = fst ab \/ i = snd ab.
Proof.
  unfold problem_nodes.
  cbn [mna.admittances mna.voltage_sources mna.current_sources mna.opamps].
  rewrite flat_map_app, !in_app_iff. cbn [flat_map In app mna.adm_nodes].
  intuition congruence.
Qed.

Lemma nodes_add_voltage_source (p : mna.mna_problem) ab v i :
  In i (problem_nodes
          (mna.MnaProblem (mna.admittances p)
             (mna.voltage_sources p ++ [mna.VoltageSource ab v])
             (mna.current_sources p) (mna.opamps p)))
  <-> In i (problem_nodes p) \/ i = fst ab \/ i = snd ab.
Proof.
  unfold problem_nodes.
  cbn [mna.admittances mna.voltage_sources mna.current_sources mna.opamps].
  rewrite flat_map_app, !in_app_iff. cbn [flat_map In app mna.vs_nodes].
  intuition congruence.
Qed.

Lemma nodes_add_current_source (p : mna.mna_problem) ab v i :
  In i (problem_nodes
          (mna.MnaProblem (mna.admittances p) (mna.voltage_sources p)
             (mna.current_sources p ++ [mna.CurrentSource ab v])
             (mna.opamps p)))
  <-> In i (problem_nodes p) \/ i = fst ab \/ i = snd ab.
Proof.
  unfold problem_nodes.
  cbn [mna.admittances mna.voltage_sources mna.current_sources mna.opamps].
  rewrite flat_map_app, !in_app_iff. cbn [flat_map In app mna.cs_nodes].
  intuition congruence.
Qed.

Lemma nodes_add_opamp (p : mna.mna_problem) a b o i :
  In i (problem_nodes
          (mna.MnaProblem (mna.admittances p) (mna.voltage_sources p)
             (mna.current_sources p) (mna.opamps p ++ [mna.Opamp a b o])))
  <-> In i (problem_nodes p) \/ i = a \/ i = b \/ i = o.
Proof.
  unfold problem_nodes.
  cbn [mna.admittances mna.voltage_sources mna.current_sources mna.opamps].
  rewrite flat_map_app, !in_app_iff.
  cbn [flat_map In app mna.pos_input_node mna.neg_input_node
       mna.output_node].
  intuition congruence.
Qed.

(** With every label of the component in the map the lowering does not
    throw. *)
Lemma lower_component_ok node_map omega c p :
  (forall x, x ∈ component_labels c -> is_Some (node_map !! x)) ->
  exists p', lower_component node_map omega c p = Ok p'.
Proof.
  intros Hmapped.
  destruct (lower_component node_map omega c p) as [p'|e] eqn:E;
    [now exists p'|].
  exfalso. revert E. unfold lower_component, map_node_pair, node_at.
  destruct c as [[a b] ?|[a b] ?|[a b] ?|[a b] ? ?|[a b] ? ?|a b o|[a b]|];
    cbn [admittance as_bipole fst snd bind component_labels] in *;
    try discriminate;
    try (destruct (Hmapped a) as [ia ->]; [rewrite !elem_of_cons; tauto|]);
    try (destruct (Hmapped b) as [ib ->]; [rewrite !elem_of_cons; tauto|]);
    try (destruct (Hmapped o) as [io ->]; [rewrite !elem_of_cons; tauto|]);
    cbn [bind]; discriminate.
Qed.

(** The nodes that the lowering of one component adds to the problem are
    the indices of its labels. *)
Lemma lower_component_nodes node_map omega c p p' :
  lower_component node_map omega c p = Ok p' ->
  (forall i, In i (problem_nodes p) -> In i (problem_nodes p')) /\
  (is_lowered c = true -> forall x, x ∈ component_labels c ->
     exists i, node_map !! x = Some i /\ In i (problem_nodes p')).
Proof.
  unfold lower_component, map_node_pair, node_at.
  destruct c as [[a b] ?|[a b] ?|[a b] ?|[a b] ? ?|[a b] ? ?|a b o|[a b]|];
    cbn [admittance as_bipole fst snd bind component_labels is_lowered];
    repeat match goal with
           | |- context [node_map !! ?n] =>
               let E := fresh "E" in destruct (node_map !! n) eqn:E
           end; cbn [bind]; try discriminate;
    intros [= <-];
    (split; [intros i Hi | intros Hlow x Hx]); try discriminate;
    try assumption;
    rewrite ?nodes_add_admittance, ?nodes_add_voltage_source,
      ?nodes_add_current_source, ?nodes_add_opamp; auto;
    rewrite ?elem_of_cons, elem_of_nil in Hx;
    repeat match goal with
           | H : _ \/ _ |- _ => destruct H
           | H : False |- _ => destruct H
           end; subst;
    eexists; (split; [eassumption|]);
    rewrite ?nodes_add_admittance, ?nodes_add_voltage_source,
      ?nodes_add_current_source, ?nodes_add_opamp;
    cbn [fst snd]; tauto.
Qed.

(** *** The loop over the circuit *)

Lemma lower_ok node_map omega circ :
  (forall ref v x, (ref, v) ∈ circ -> x ∈ component_labels (pointee v) ->
     is_Some (node_map !! x)) ->
  forall p, exists p', lower node_map omega circ p = (p', Ok tt).
Proof.
  induction circ as [|[ref v] circ IH]; intros Hmapped p.
  - now exists p.
  - cbn [lower].
    destruct (lower_component_ok node_map omega (pointee v) p) as [p1 Hp1].
    { intros x Hx. apply (Hmapped ref v x); [left | assumption]. }
    rewrite Hp1. apply IH.
    intros ref' v' x Hin Hx. apply (Hmapped ref' v' x); [now right | assumption].
Qed.

Lemma lower_nodes node_map omega circ :
  forall p p', lower node_map omega circ p = (p', Ok tt) ->
    (forall i, In i (problem_nodes p) -> In i (problem_nodes p')) /\
    (forall ref v x, (ref, v) ∈ circ -> is_lowered (pointee v) = true ->
       x ∈ component_labels (pointee v) ->
       exists i, node_map !! x = Some i /\ In i (problem_nodes p')).
Proof.
  induction circ as [|[ref v] circ IH]; intros p p'.
  - intros [= <-]. split; [auto|]. intros ref v x Hin.
    now apply elem_of_nil in Hin.
  - cbn [lower].
    destruct (lower_component node_map omega (pointee v) p) as [p1|e] eqn:Hp1;
      [|discriminate].
    intros Hrest.
    destruct (lower_component_nodes _ _ _ _ _ Hp1) as [Hkeep1 Hnew1].
    destruct (IH p1 p' Hrest) as [Hkeep Hnew].
    split; [auto|].
    intros ref' v' x Hin Hlow Hx. apply elem_of_cons in Hin.
    destruct Hin as [[= -> ->] | Hin].
    + destruct (Hnew1 Hlow x Hx) as (i & Hi & Hin1).
      exists i. split; [assumption | auto].
    + now apply (Hnew ref' v' x).
Qed.

(** The loop throws at the first component that has a label outside the
    map, and throws nothing but the exception of [std::map::at]. *)
Lemma lower_throw node_map omega circ :
  forall p p' e, lower node_map omega circ p = (p', Throw e) ->
    e = out_of_range "map::at".
Proof.
  induction circ as [|[ref v] circ IH]; intros p p' e.
  - discriminate.
  - cbn [lower].
    destruct (lower_component node_map omega (pointee v) p) as [p1|e1] eqn:Hp1.
    + apply IH.
    + intros [= _ <-]. now apply lower_component_throw in Hp1.
Qed.

Lemma lower_unmapped node_map omega circ ref v x :
  (ref, v) ∈ circ -> is_lowered (pointee v) = true ->
  x ∈ component_labels (pointee v) -> node_map !! x = None ->
  forall p, exists p',
    lower node_map omega circ p = (p', Throw (out_of_range "map::at")).
Proof.
  intros Hin Hlow Hx Hnone p.
  destruct (lower node_map omega circ p) as [p' [[]|e]] eqn:E.
  - destruct (lower_nodes _ _ _ _ _ E) as [_ Hnew].
    destruct (Hnew ref v x Hin Hlow Hx) as (i & Hi & _). congruence.
  - exists p'. now rewrite (lower_throw _ _ _ _ _ _ E).
Qed.

End LoweringFacts.

(** ** circuit.cpp: how [solve] can end *)

Section SolveRuns.
Context {SC : Scalars}.
Implicit Types circ : circuit.

(** A run of [solve] that ends normally. *)
Lemma solve_ok_inv circ omega s s' :
  solve circ omega s = (s', Ok tt) ->
  exists problem x,
    lower (m_node_map s) omega circ (mna.MnaProblem [] [] [] [])
    = (problem, Ok tt) /\
    mna.solve problem = Ok x /\
    s' = CircuitSolver (m_node_map s) problem (Some x) (Some omega).
Proof.
  unfold solve.
  destruct (lower (m_node_map s) omega circ (mna.MnaProblem [] [] [] []))
    as [problem [[]|e]] eqn:Hlow; [|discriminate].
  destruct (mna.solve problem) as [x|[w|w]] eqn:Hsolve; try discriminate.
  intros [= <-]. now exists problem, x.
Qed.

Lemma solve_ok_intro circ omega s problem x :
  lower (m_node_map s) omega circ (mna.MnaProblem [] [] [] [])
  = (problem, Ok tt) ->
  mna.solve problem = Ok x ->
  solve circ omega s
  = (CircuitSolver (m_node_map s) problem (Some x) (Some omega), Ok tt).
Proof. intros Hlow Hsolve. unfold solve. now rewrite Hlow, Hsolve. Qed.

Lemma labels_mapped circ ref v x :
  (ref, v) ∈ circ -> x ∈ component_labels (pointee v) ->
  is_Some (fst (node_map_of circ) !! x).
Proof.
  intros Hin Hx. apply node_map_of_domain. right.
  now apply (component_labels_in_circuit circ ref v).
Qed.

End SolveRuns.

(** X17. After [update_node_map], which the constructor and [update] run,
    [solve] either ends normally or throws the "Could not compute
    operating point" error that wraps the error of the linear solver:
    every node of the circuit is in the node map, so [std::map::at] never
    throws. *)
Theorem solve_with_current_node_map {SC : Scalars} (circ : circuit)
  (omega : real) (s0 : circuit_solver) :
  let s := update_node_map circ s0 in
  snd (solve circ omega s) = Ok tt \/
  snd (solve circ omega s)
  = Throw (runtime_error
             "Could not compute operating point - reason: Could not solve equation system (Gaussian elimination failed)").
Proof.
  intros s. unfold solve.
  change (m_node_map s) with (fst (node_map_of circ)).
  destruct (lower_ok (fst (node_map_of circ)) omega circ
              (labels_mapped circ) (mna.MnaProblem [] [] [] []))
    as [problem Hlow].
  rewrite Hlow.
  destruct (mna_solve_total problem) as [(x & Hx & _) | Hthrow].
  - rewrite Hx. now left.
  - rewrite Hthrow. now right.
Qed.

(** X18. When the circuit has a component with a node that is not in the node
    map of the solver, as after a change of the circuit without [update],
    [solve] throws [std::out_of_range]; the solver keeps its node map and
    its solution, and holds the new [omega]. *)
Theorem solve_with_stale_node_map {SC : Scalars} (circ : circuit)
  (omega : real) (s : circuit_solver) (ref : string) (v : component_ptr)
  (x : Z) :
  (ref, v) ∈ circ -> is_lowered (pointee v) = true ->
  x ∈ component_labels (pointee v) -> m_node_map s !! x = None ->
  (exists w, snd (solve circ omega s) = Throw (out_of_range w)) /\
  m_node_map (fst (solve circ omega s)) = m_node_map s /\
  m_solution (fst (solve circ omega s)) = m_solution s /\
  m_solution_omega (fst (solve circ omega s)) = Some omega.
Proof.
  intros Hin Hlow Hx Hnone. unfold solve.
  destruct (lower_unmapped (m_node_map s) omega circ ref v x Hin Hlow Hx Hnone
              (mna.MnaProblem [] [] [] [])) as [problem Hrun].
  rewrite Hrun. cbn [fst snd m_node_map m_solution m_solution_omega].
  split; [now exists "map::at"%string|]. repeat split.
Qed.

(** X19. [solve] is idempotent, and [update] on an unchanged circuit changes
    nothing: after a [solve] that ended normally on a solver with the node
    map of the circuit, solving again at the same [omega] or calling
    [update] leaves the solver as it is. *)
Theorem update_of_unchanged_circuit {SC : Scalars} (circ : circuit)
  (omega : real) (s0 s : circuit_solver) :
  m_node_map s0 = fst (node_map_of circ) ->
  solve circ omega s0 = (s, Ok tt) ->
  solve circ omega s = (s, Ok tt) /\ update circ s = (s, Ok tt).
Proof.
  intros Hmap Hsolve.
  destruct (solve_ok_inv circ omega s0 s Hsolve)
    as (problem & x & Hlow & Hx & ->).
  assert (Hagain : solve circ omega
             (CircuitSolver (m_node_map s0) problem (Some x) (Some omega))
           = (CircuitSolver (m_node_map s0) problem (Some x) (Some omega),
              Ok tt)).
  { now apply (solve_ok_intro circ omega
                 (CircuitSolver (m_node_map s0) problem (Some x) (Some omega))). }
  split; [exact Hagain|].
  unfold update, update_node_map.
  cbn [m_problem m_solution m_solution_omega]. rewrite <- Hmap.
  exact Hagain.
Qed.

(** ** circuit.cpp: measurements on a solved circuit *)

Section Measurements.
Context {SC : Scalars}.
Implicit Types circ : circuit.

Lemma label_of_component circ x :
  x ∈ circuit_labels circ ->
  exists ref v, (ref, v) ∈ circ /\ x ∈ component_labels (pointee v).
Proof.
  unfold circuit_labels. intros Hx.
  apply list_elem_of_In, in_concat in Hx. destruct Hx as (l & Hl & Hx).
  apply in_map_iff in Hl. destruct Hl as ([ref v] & <- & Hin).
  exists ref, v. split; now apply list_elem_of_In.
Qed.

(** The index of a label of a lowered circuit is a node of the problem. *)
Lemma label_index_below circ omega node_map problem x :
  (forall ref v, (ref, v) ∈ circ -> is_lowered (pointee v) = true) ->
  lower node_map omega circ (mna.MnaProblem [] [] [] []) = (problem, Ok tt) ->
  x ∈ circuit_labels circ ->
  exists i, node_map !! x = Some i /\ i < mna.get_max_node problem + 1.
Proof.
  intros Hlowered Hlow Hx.
  destruct (label_of_component circ x Hx) as (ref & v & Hin & Hxv).
  destruct (lower_nodes _ _ _ _ _ Hlow) as [_ Hnew].
  destruct (Hnew ref v x Hin (Hlowered ref v Hin) Hxv) as (i & Hi & Hnode).
  exists i. split; [assumption|].
  apply problem_nodes_le_max in Hnode. lia.
Qed.

(** The solver after a [solve] that ended normally, with the node map of
    the circuit. *)
Lemma solved_circuit circ omega s0 s :
  solve circ omega s0 = (s, Ok tt) ->
  exists problem x,
    let n := mna.get_max_node problem + 1 in
    let V := Z.of_nat (length (mna.voltage_sources problem)) in
    let P := Z.of_nat (length (mna.opamps problem)) in
    lower (m_node_map s0) omega circ (mna.MnaProblem [] [] [] [])
    = (problem, Ok tt) /\
    mna.solve problem = Ok (mna.MnaSolution x n V) /\
    shape x (n + (P + V)) 1 /\
    s = CircuitSolver (m_node_map s0) problem
          (Some (mna.MnaSolution x n V)) (Some omega).
Proof.
  intros Hsolve.
  destruct (solve_ok_inv circ omega s0 s Hsolve)
    as (problem & sx & Hlow & Hsx & ->).
  destruct (mna_solve_total problem) as [(x & Hx & Hsh) | Hthrow];
    [|congruence].
  exists problem, x. cbv zeta. rewrite Hx in Hsx. injection Hsx as <-.
  split; [assumption|]. split; [assumption|]. split; [assumption|].
  reflexivity.
Qed.

End Measurements.

(** X20. After a [solve] that ended normally on a solver with the node map of
    the circuit, the voltage between any two nodes of the circuit, the
    reference node 0 included, can be measured; for a node that no
    component of the circuit uses the measurement throws
    [std::out_of_range]. *)
Theorem circuit_nodes_measurable {SC : Scalars} (circ : circuit)
  (omega : real) (s0 s : circuit_solver) :
  m_node_map s0 = fst (node_map_of circ) ->
  (forall ref v, (ref, v) ∈ circ -> is_lowered (pointee v) = true) ->
  solve circ omega s0 = (s, Ok tt) ->
  exists x, m_solution s = Some x /\
    (forall pos neg,
       pos = 0 \/ pos ∈ circuit_labels circ ->
       neg = 0 \/ neg ∈ circuit_labels circ ->
       exists v, voltage_between (m_node_map s) x pos neg = Ok v) /\
    (forall pos neg,
       ~ (pos = 0 \/ pos ∈ circuit_labels circ)
       \/ ~ (neg = 0 \/ neg ∈ circuit_labels circ) ->
       exists w, voltage_between (m_node_map s) x pos neg
                 = Throw (out_of_range w)).
Proof.
  intros Hmap Hlowered Hsolve.
  destruct (solved_circuit circ omega s0 s Hsolve)
    as (problem & x & Hlow & Hx & Hsh & ->).
  set (n := mna.get_max_node problem + 1) in *.
  set (V := Z.of_nat (length (mna.voltage_sources problem))) in *.
  set (P := Z.of_nat (length (mna.opamps problem))) in *.
  assert (Hn : 0 <= n)
    by (pose proof (get_max_node_ge problem); unfold n; lia).
  exists (mna.MnaSolution x n V). cbn [m_solution m_node_map].
  split; [reflexivity|].
  assert (Hnode : forall a, a = 0 \/ a ∈ circuit_labels circ ->
            exists i, m_node_map s0 !! a = Some i /\ i < n).
  { intros a [-> | Ha].
    - exists (-1). rewrite Hmap. split; [apply node_map_of_ground | lia].
    - now apply (label_index_below circ omega (m_node_map s0) problem a). }
  split.
  - intros pos neg Hpos Hneg.
    destruct (Hnode pos Hpos) as (a & Ha & Han).
    destruct (Hnode neg Hneg) as (b & Hb & Hbn).
    unfold voltage_between.
    rewrite (node_at_some _ _ _ Ha), (node_at_some _ _ _ Hb). cbn [bind].
    rewrite (voltage_below x n V (n + (P + V)) a b Hsh) by (unfold P, V; lia).
    eexists; reflexivity.
  - intros pos neg Hout. unfold voltage_between.
    assert (Hnone : forall a, ~ (a = 0 \/ a ∈ circuit_labels circ) ->
              m_node_map s0 !! a = None).
    { intros a Ha. rewrite Hmap.
      destruct (fst (node_map_of circ) !! a) as [i|] eqn:E; [|reflexivity].
      exfalso. apply Ha. apply node_map_of_domain. now exists i. }
    exists "map::at"%string.
    destruct (m_node_map s0 !! pos) as [a|] eqn:Epos.
    + rewrite (node_at_some _ _ _ Epos). cbn [bind].
      destruct Hout as [Hpos | Hneg].
      * rewrite (Hnone pos Hpos) in Epos. discriminate.
      * now rewrite (node_at_none _ _ (Hnone neg Hneg)).
    + now rewrite (node_at_none _ _ Epos).
Qed.

Section LoweredBranches.
Context {SC : Scalars}.
Implicit Types circ : circuit.

(** The voltage source of a component in the lowered problem. *)
Lemma lowered_voltage_source circ omega node_map problem ref v nodes dcV acV :
  lower node_map omega circ (mna.MnaProblem [] [] [] []) = (problem, Ok tt) ->
  std_map.at_ ref circ = Ok v ->
  pointee v = voltage_source nodes dcV acV ->
  exists a b k,
    node_map !! fst nodes = Some a /\ node_map !! snd nodes = Some b /\
    mna.voltage_sources problem !! k
    = Some (mna.VoltageSource (a, b)
              (if r_eqb omega (r_of_int 0) then dcV else acV)).
Proof.
  intros Hlow Hat Hv.
  destruct (at_split ref circ v Hat) as (l1 & l2 & ->).
  destruct (lower_split _ _ _ _ _ _ _ Hlow)
    as (p1 & p2 & lv & lo & Hc & _ & _ & Hlv & _).
  rewrite Hv in Hc.
  destruct (lower_component_voltage_source _ _ _ _ _ _ _ Hc)
    as (a & b & Ha & Hb & Hp2).
  exists a, b, (length (mna.voltage_sources p1)).
  split; [assumption|]. split; [assumption|].
  rewrite Hlv, Hp2, <- app_assoc.
  now rewrite lookup_app_r, Nat.sub_diag by lia.
Qed.

(** The op-amp of a component in the lowered problem. *)
Lemma lowered_opamp circ omega node_map problem ref v pn nn on :
  lower node_map omega circ (mna.MnaProblem [] [] [] []) = (problem, Ok tt) ->
  std_map.at_ ref circ = Ok v ->
  pointee v = opamp pn nn on ->
  exists a b o q,
    node_map !! pn = Some a /\ node_map !! nn = Some b /\
    mna.opamps problem !! q = Some (mna.Opamp a b o).
Proof.
  intros Hlow Hat Hv.
  destruct (at_split ref circ v Hat) as (l1 & l2 & ->).
  destruct (lower_split _ _ _ _ _ _ _ Hlow)
    as (p1 & p2 & lv & lo & Hc & _ & _ & _ & Hlo).
  rewrite Hv in Hc.
  destruct (lower_component_opamp _ _ _ _ _ _ _ Hc)
    as (a & b & o & Ha & Hb & _ & Hp2).
  exists a, b, o, (length (mna.opamps p1)).
  split; [assumption|]. split; [assumption|].
  rewrite Hlo, Hp2, <- app_assoc.
  now rewrite lookup_app_r, Nat.sub_diag by lia.
Qed.

End LoweredBranches.

(** X21. In exact arithmetic, after a [solve] that ended normally on a solver
    with the node map of the circuit, the voltage measured on a voltage
    source whose two nodes differ is the value of the source: its DC
    value when [omega == 0], its AC value otherwise. *)
Theorem source_voltage_after_solve {SC : Scalars} (circ : circuit)
  (omega : real) (s0 s : circuit_solver) (ref : string) (v : component_ptr)
  (nodes : Z * Z) (dcV acV : real) :
  exact_arithmetic ->
  m_node_map s0 = fst (node_map_of circ) ->
  solve circ omega s0 = (s, Ok tt) ->
  std_map.at_ ref circ = Ok v ->
  pointee v = voltage_source nodes dcV acV ->
  fst nodes <> snd nodes ->
  exists x, m_solution s = Some x /\
    voltage_ref circ (m_node_map s) x ref
    = Ok (c_of_real (if r_eqb omega (r_of_int 0) then dcV else acV)).
Proof.
  intros laws Hmap Hsolve Hat Hv Hne.
  destruct (solved_circuit circ omega s0 s Hsolve)
    as (problem & x & Hlow & Hx & _ & ->).
  destruct (lowered_voltage_source _ _ _ _ _ _ _ _ _ Hlow Hat Hv)
    as (a & b & k & Ha & Hb & Hk).
  eexists. cbn [m_solution m_node_map]. split; [reflexivity|].
  unfold voltage_ref. rewrite Hat. cbn [bind].
  unfold voltage. rewrite Hv. cbn [as_bipole]. unfold voltage_between.
  rewrite (node_at_some _ _ _ Ha), (node_at_some _ _ _ Hb). cbn [bind].
  destruct (solved_branch_voltage laws problem _ Hx) as [Hsrc _].
  apply (Hsrc k _ Hk). cbn [mna.vs_nodes fst snd].
  intros ->. apply Hne. rewrite Hmap in Ha, Hb.
  now apply (node_map_of_inj circ _ _ b).
Qed.

(** X22. In exact arithmetic, after a [solve] that ended normally the voltage
    between the positive and the negative input of every op-amp of the
    circuit is zero. *)
Theorem opamp_inputs_after_solve {SC : Scalars} (circ : circuit)
  (omega : real) (s0 s : circuit_solver) (ref : string) (v : component_ptr)
  (pn nn on : Z) :
  exact_arithmetic ->
  solve circ omega s0 = (s, Ok tt) ->
  std_map.at_ ref circ = Ok v ->
  pointee v = opamp pn nn on ->
  exists x, m_solution s = Some x /\
    voltage_between (m_node_map s) x pn nn = Ok c_zero.
Proof.
  intros laws Hsolve Hat Hv.
  destruct (solved_circuit circ omega s0 s Hsolve)
    as (problem & x & Hlow & Hx & _ & ->).
  destruct (lowered_opamp _ _ _ _ _ _ _ _ _ Hlow Hat Hv)
    as (a & b & o & q & Ha & Hb & Hq).
  eexists. cbn [m_solution m_node_map]. split; [reflexivity|].
  unfold voltage_between.
  rewrite (node_at_some _ _ _ Ha), (node_at_some _ _ _ Hb). cbn [bind].
  destruct (solved_branch_voltage laws problem _ Hx) as [_ Hop].
  exact (Hop q _ Hq).
Qed.

(** *** The divider and the follower, solved *)

Lemma divider_circuit_solved :
  solve divider_circuit (Exact.of_int 0) (new_solver divider_circuit)
  = (divider_solver, Ok tt).
Proof.
  unfold divider_solver. apply pair_with_snd. vm_compute. reflexivity.
Qed.

Lemma follower_circuit_solved :
  solve follower_circuit (Exact.of_int 0) (new_solver follower_circuit)
  = (follower_solver, Ok tt).
Proof.
  unfold follower_solver. apply pair_with_snd. vm_compute. reflexivity.
Qed.

Lemma divider_circuit_lowered (ref : string) (v : component_ptr) :
  (ref, v) ∈ divider_circuit -> is_lowered (pointee v) = true.
Proof.
  intros H. cbv [divider_circuit std_map.build fold_left] in H.
  cbn in H.
  repeat (apply elem_of_cons in H; destruct H as [[= -> ->] | H];
          [reflexivity|]).
  now apply elem_of_nil in H.
Qed.

Lemma solve_with_stale_node_map_witness :
  (exists w,
     snd (solve grown_divider_circuit (Exact.of_int 0)
            (new_solver divider_circuit)) = Throw (out_of_range w)) /\
  m_solution (fst (solve grown_divider_circuit (Exact.of_int 0)
                     (new_solver divider_circuit))) = None.
Proof.
  destruct (solve_with_stale_node_map grown_divider_circuit (Exact.of_int 0)
              (new_solver divider_circuit) "R3" resistor_R3 3)
    as (Hthrow & _ & Hsol & _).
  - cbv [grown_divider_circuit divider_circuit std_map.build fold_left].
    cbn. repeat constructor.
  - reflexivity.
  - cbn. repeat constructor.
  - vm_compute. reflexivity.
  - split; [exact Hthrow | exact Hsol].
Defined.

Lemma update_of_unchanged_circuit_witness :
  solve divider_circuit (Exact.of_int 0) divider_solver
  = (divider_solver, Ok tt) /\
  update divider_circuit divider_solver = (divider_solver, Ok tt).
Proof.
  exact (update_of_unchanged_circuit divider_circuit (Exact.of_int 0)
           (new_solver divider_circuit) divider_solver eq_refl
           divider_circuit_solved).
Defined.

Lemma circuit_nodes_measurable_witness :
  exists x, m_solution divider_solver = Some x /\
    (exists v, voltage_between (m_node_map divider_solver) x 2 0 = Ok v) /\
    (exists w, voltage_between (m_node_map divider_solver) x 3 0
               = Throw (out_of_range w)).
Proof.
  destruct (circuit_nodes_measurable divider_circuit (Exact.of_int 0)
              (new_solver divider_circuit) divider_solver eq_refl
              divider_circuit_lowered divider_circuit_solved)
    as (x & Hx & Hok & Hthrow).
  exists x. split; [exact Hx|]. split.
  - apply Hok; [right | left; reflexivity].
    cbn. repeat constructor.
  - apply Hthrow. left. intros [H | H]; [discriminate|].
    cbn in H.
    repeat (apply elem_of_cons in H; destruct H as [H | H];
            [discriminate|]).
    now apply elem_of_nil in H.
Defined.

Lemma source_voltage_after_solve_witness :
  exists x, m_solution divider_solver = Some x /\
    voltage_ref divider_circuit (m_node_map divider_solver) x "V1"
    = Ok (Exact.of_real (Exact.of_int 10)).
Proof.
  apply (source_voltage_after_solve divider_circuit (Exact.of_int 0)
           (new_solver divider_circuit) divider_solver "V1" _ _ _ _
           exact_scalars_exact eq_refl divider_circuit_solved
           eq_refl eq_refl).
  simpl. lia.
Defined.

Lemma opamp_inputs_after_solve_witness :
  exists x, m_solution follower_solver = Some x /\
    voltage_between (m_node_map follower_solver) x 1 2 = Ok c_zero.
Proof.
  exact (opamp_inputs_after_solve follower_circuit (Exact.of_int 0)
           (new_solver follower_circuit) follower_solver "OPA1" _ _ _ _
           exact_scalars_exact follower_circuit_solved eq_refl eq_refl).
Defined.


(** ** mna.cpp: a node number that no component uses *)

Section UnusedNode.
Context {SC : Scalars}.
Hypothesis laws : exact_arithmetic.
Implicit Types mat A : matrix cplx.

Add Ring cplx_ring_unused : (ea_ring laws).

(** An admittance that does not touch node [j] leaves column [j] of [G]
    as it is. *)
Lemma G_contribution_other i j g elem :
  j <> fst (mna.adm_nodes elem) -> j <> snd (mna.adm_nodes elem) ->
  G_contribution i j g elem = g.
Proof.
  intros Ha Hb. unfold G_contribution.
  destruct (Z.eqb_spec j (fst (mna.adm_nodes elem))); [contradiction|].
  destruct (Z.eqb_spec j (snd (mna.adm_nodes elem))); [contradiction|].
  now rewrite !andb_false_r.
Qed.

Lemma G_entry_unused p i j :
  ~ In j (problem_nodes p) -> G_entry p i j = c_zero.
Proof.
  intros Hj. unfold G_entry.
  assert (H : forall elem, In elem (mna.admittances p) ->
            j <> fst (mna.adm_nodes elem) /\ j <> snd (mna.adm_nodes elem)).
  { intros elem Hin. split; intros E; apply Hj; apply in_problem_nodes;
      left; exists elem; auto. }
  revert H. generalize (mna.admittances p). intros l.
  induction l as [|elem l IH]; intros H; cbn [fold_left]; [reflexivity|].
  destruct (H elem (or_introl eq_refl)) as [Ha Hb].
  rewrite G_contribution_other by assumption.
  apply IH. intros e He. apply H. now right.
Qed.

(** The assembled system of [solve], with a zero column for a node that
    no component uses. *)
Lemma system_of_unused_node p node :
  let n := mna.get_max_node p + 1 in
  let V := Z.of_nat (length (mna.voltage_sources p)) in
  let m := Z.of_nat (length (mna.opamps p)) + V in
  0 <= node < n -> ~ In node (problem_nodes p) ->
  exists system,
    shape system (n + m) (n + m + 1) /\
    mna.solve p
    = (let* x := mna.gaussian_elimination system in
       Ok (mna.MnaSolution x n V)) /\
    forall r, 0 <= r < n + m -> entry c_zero system r node = c_zero.
Proof.
  intros n V m Hnode Hunused.
  assert (Hn : 0 <= n) by lia.
  pose proof (get_max_node_below p) as Hbelow. fold n in Hbelow.
  destruct (compute_matrix_A_ok p n Hn Hbelow)
    as (G & B1 & C0 & B2 & C1 & A & HG & HB1 & HC0 & _ & HC1 & HA & HshA
        & HAG & _ & HAC & _).
  fold V m in HB1, HA, HshA, HAC.
  destruct (compute_matrix_z_total p n Hn Hbelow) as (z & Hz & Hshz & _).
  fold V m in Hshz.
  destruct (join_matrices_horizontal_ok c_zero A z _ _ _ HshA Hshz)
    as (system & Hsys & Hshsys & HsysA & _).
  exists system. split; [assumption|]. split.
  { unfold mna.solve. fold n. rewrite HA. cbn [bind]. rewrite Hz. cbn [bind].
    rewrite Hsys. reflexivity. }
  destruct (fill_G_ok p n Hn Hbelow) as (G' & HG' & _ & HGent).
  rewrite HG in HG'. injection HG' as <-.
  assert (HshB0 : shape (matrix_new c_zero n m) n m)
    by (apply shape_new; unfold m, V; lia).
  destruct (fill_B_sources_columns p n m _ Hbelow HshB0)
    as (B1' & HB1' & HshB1 & HB1col); [unfold m, V; lia|].
  rewrite HB1 in HB1'. injection HB1' as <-.
  destruct (fill_B_sources_ok p n m _ Hbelow HshB0)
    as (B1' & HB1' & _ & HB1rest); [unfold m, V; lia|].
  rewrite HB1 in HB1'. injection HB1' as <-.
  destruct (transpose_ok c_zero B1 n m HshB1) as (C0' & HC0' & HshC0 & HC0ent).
  rewrite HC0 in HC0'. injection HC0' as <-.
  destruct (fill_C_opamps_ok p n m C0 Hbelow HshC0 eq_refl)
    as (C1' & HC1' & HshC1 & HC1src & HC1op).
  rewrite HC1 in HC1'. injection HC1' as <-.
  fold V in HC1src, HC1op.
  intros r Hr. rewrite HsysA by lia.
  destruct (Z.lt_ge_cases r n) as [Hrn | Hrn].
  - rewrite HAG by lia. rewrite HGent by lia. now apply G_entry_unused.
  - replace r with (n + (r - n)) by lia. rewrite HAC by lia.
    destruct (Z.lt_ge_cases (r - n) V) as [Hsrc | Hop].
    + rewrite HC1src by lia. rewrite HC0ent by lia.
      destruct (lookup_lt_is_Some_2 (mna.voltage_sources p)
                  (Z.to_nat (r - n))) as [vs Hvs]; [unfold V in Hsrc; lia|].
      replace (r - n) with (Z.of_nat (Z.to_nat (r - n))) by lia.
      rewrite (HB1col _ vs Hvs node) by lia.
      assert (Hin : In vs (mna.voltage_sources p))
        by (apply list_elem_of_In; eapply list_elem_of_lookup_2; eauto).
      destruct (Z.eqb_spec node (snd (mna.vs_nodes vs))) as [E|_].
      { exfalso. apply Hunused, in_problem_nodes. right. left.
        exists vs. auto. }
      destruct (Z.eqb_spec node (fst (mna.vs_nodes vs))) as [E|_].
      { exfalso. apply Hunused, in_problem_nodes. right. left.
        exists vs. auto. }
      rewrite !andb_false_r. apply entry_new.
    + destruct (lookup_lt_is_Some_2 (mna.opamps p)
                  (Z.to_nat (r - n - V))) as [opa Hopa]; [unfold m in Hr; lia|].
      replace (r - n) with (V + Z.of_nat (Z.to_nat (r - n - V))) by lia.
      rewrite (HC1op _ opa Hopa node) by lia.
      assert (Hin : In opa (mna.opamps p))
        by (apply list_elem_of_In; eapply list_elem_of_lookup_2; eauto).
      destruct (Z.eqb_spec node (mna.neg_input_node opa)) as [E|_].
      { exfalso. apply Hunused, in_problem_nodes. right. right. right.
        exists opa. auto. }
      destruct (Z.eqb_spec node (mna.pos_input_node opa)) as [E|_].
      { exfalso. apply Hunused, in_problem_nodes. right. right. right.
        exists opa. auto. }
      rewrite !andb_false_r. rewrite HC0ent by lia.
      rewrite HB1rest by lia. apply entry_new.
Qed.

(** The elimination keeps a zero column. *)
Lemma eliminate_column_zero_column mat N k c A2 :
  shape mat N (N + 1) -> 0 <= k < N -> 0 <= c < N + 1 ->
  mna.eliminate_column N k mat = Ok A2 ->
  (forall r, 0 <= r < N -> entry c_zero mat r c = c_zero) ->
  forall r, 0 <= r < N -> entry c_zero A2 r c = c_zero.
Proof.
  intros Hsh Hk Hc Hrun Hzero.
  destruct (eliminate_column_run mat N k A2 Hsh Hk Hrun)
    as (r0 & A1 & Hr0 & _ & _ & Hent1 & _ & Hent2).
  assert (Hzero1 : forall r, 0 <= r < N -> entry c_zero A1 r c = c_zero).
  { intros r Hr. rewrite Hent1 by lia. unfold swapped.
    destruct (r =? r0); [|destruct (r =? k)]; apply Hzero; lia. }
  intros r Hr. rewrite Hent2 by lia. unfold reduced.
  destruct ((k <? r) && c_neb_r (entry c_zero A1 r k) mna.r_zero).
  - rewrite !Hzero1 by lia. ring.
  - now apply Hzero1.
Qed.

Lemma eliminate_zero_column mat N c (K : nat) A :
  shape mat N (N + 1) -> Z.of_nat K <= N -> 0 <= c < N + 1 ->
  mna.eliminate N (Z.of_nat K) mat = Ok A ->
  (forall r, 0 <= r < N -> entry c_zero mat r c = c_zero) ->
  shape A N (N + 1) /\
  forall r, 0 <= r < N -> entry c_zero A r c = c_zero.
Proof.
  intros Hsh. revert A. induction K as [|K IH]; intros A HK Hc.
  - intros [= <-] Hzero. split; assumption.
  - replace (Z.of_nat (S K)) with (Z.of_nat K + 1) by lia.
    unfold mna.eliminate in *. rewrite for_range_snoc by lia.
    intros HA Hzero. apply bind_ok in HA. destruct HA as (A0 & HA0 & Hcol).
    destruct (IH A0 ltac:(lia) Hc HA0 Hzero) as [Hsh0 Hzero0].
    split.
    + apply (eliminate_column_shape A0 N (Z.of_nat K)); [assumption|lia|assumption].
    + apply (eliminate_column_zero_column A0 N (Z.of_nat K) c A); auto; lia.
Qed.

(** A system with a zero column among its first [N] is not solved. *)
Lemma zero_column_singular mat N c :
  shape mat N (N + 1) -> 0 <= c < N ->
  (forall r, 0 <= r < N -> entry c_zero mat r c = c_zero) ->
  mna.gaussian_elimination mat = Throw (runtime_error mna.singular_what).
Proof.
  intros Hsh Hc Hzero.
  destruct (gaussian_elimination_total mat N Hsh) as [(x & Hx & _) | Hthrow];
    [exfalso | assumption].
  destruct (eliminate_total mat N (Z.to_nat N) Hsh) as [(A & HA & _) | Hthr];
    [lia | | ]; rewrite Z2Nat.id in * by lia.
  - (* the whole elimination ended normally: look at step [c] *)
    unfold mna.eliminate in HA.
    rewrite (for_range_split _ 0 (c + 1) N) in HA by lia.
    apply bind_ok in HA. destruct HA as (Ac1 & HAc1 & _).
    rewrite for_range_snoc in HAc1 by lia.
    apply bind_ok in HAc1. destruct HAc1 as (Ac & HAc & Hcol).
    destruct (eliminate_zero_column mat N c (Z.to_nat c) Ac Hsh)
      as [HshAc HzeroAc]; try lia; try assumption.
    { rewrite Z2Nat.id by lia. exact HAc. }
    destruct (eliminate_column_run Ac N c Ac1 HshAc Hc Hcol)
      as (r & _ & Hr & Habs & _).
    rewrite HzeroAc in Habs by lia.
    rewrite (proj2 (ea_abs laws c_zero) eq_refl) in Habs. discriminate.
  - rewrite (gaussian_elimination_throw mat N _ Hsh Hthr) in Hx.
    discriminate.
Qed.

End UnusedNode.

(** X23. In exact arithmetic, a problem that skips a node number cannot be
    solved: when some node between 0 and the largest node number occurs
    in no component, [solve] throws the "Could not solve equation system"
    error. *)
Theorem unused_node_is_singular {SC : Scalars} (p : mna.mna_problem)
  (node : Z) :
  exact_arithmetic ->
  0 <= node <= mna.get_max_node p -> ~ In node (problem_nodes p) ->
  mna.solve p
  = Throw (runtime_error
             "Could not solve equation system (Gaussian elimination failed)").
Proof.
  intros laws Hnode Hunused.
  destruct (system_of_unused_node p node ltac:(lia) Hunused)
    as (system & Hsh & Hsolve & Hzero).
  rewrite Hsolve.
  rewrite (zero_column_singular laws system _ node Hsh); [reflexivity | |].
  - pose proof (Zle_0_nat (length (mna.opamps p))).
    pose proof (Zle_0_nat (length (mna.voltage_sources p))). lia.
  - exact Hzero.
Qed.

Lemma unused_node_is_singular_witness :
  mna.solve gap_problem
  = Throw (runtime_error
             "Could not solve equation system (Gaussian elimination failed)").
Proof.
  apply (unused_node_is_singular gap_problem 0 exact_scalars_exact).
  - change (mna.get_max_node gap_problem) with 1. lia.
  - change (problem_nodes gap_problem) with [1; -1; 1; -1].
    cbn [In]. lia.
Defined.


(** ** circuit.cpp: voltage, current and power of the components *)

Section ComponentQueries.
Context {SC : Scalars}.
Implicit Types circ l : circuit.

(** The counting loop of [current] stops at an object of the circuit
    before it has counted every component of the wanted class. *)
Lemma count_until_found wanted l ref v :
  (ref, v) ∈ l -> wanted (pointee v) = true ->
  forall cnt,
    cnt <= count_until wanted (address v) l cnt
    < cnt + Z.of_nat (count_wanted wanted l).
Proof.
  unfold count_wanted.
  induction l as [|[ref' v'] l IH]; intros Hin Hw cnt.
  - now apply elem_of_nil in Hin.
  - cbn [count_until List.filter snd].
    apply elem_of_cons in Hin. destruct Hin as [[= <- <-] | Hin].
    + rewrite Hw, Z.eqb_refl. cbn [length]. lia.
    + destruct (wanted (pointee v')) eqn:Hw'.
      * cbn [length]. destruct (address v' =? address v); [lia|].
        specialize (IH Hin Hw (cnt + 1)). lia.
      * apply (IH Hin Hw cnt).
Qed.

(** For an object that is not in the circuit it counts all of them. *)
Lemma count_until_missing wanted l addr :
  (forall ref v, (ref, v) ∈ l -> address v <> addr) ->
  forall cnt,
    count_until wanted addr l cnt = cnt + Z.of_nat (count_wanted wanted l).
Proof.
  unfold count_wanted.
  induction l as [|[ref' v'] l IH]; intros Hmiss cnt.
  - cbn. lia.
  - cbn [count_until List.filter snd].
    assert (Hl : forall ref v, (ref, v) ∈ l -> address v <> addr)
      by (intros ref v Hin; apply (Hmiss ref v); now right).
    destruct (wanted (pointee v')).
    + destruct (Z.eqb_spec (address v') addr) as [E|_].
      { exfalso. now apply (Hmiss ref' v'); [left|]. }
      rewrite (IH Hl). cbn [length]. lia.
    + apply (IH Hl).
Qed.

(** The problem holds one voltage source and one op-amp for each such
    component of the circuit. *)
Lemma lowered_counts circ omega node_map problem :
  lower node_map omega circ (mna.MnaProblem [] [] [] []) = (problem, Ok tt) ->
  length (mna.voltage_sources problem) = count_wanted is_voltage_source circ /\
  length (mna.opamps problem) = count_wanted is_opamp circ.
Proof.
  intros Hlow.
  destruct (lower_extended _ _ _ _ _ Hlow)
    as [(lv & Hlv & Hnv) (lo & Hlo & Hno)].
  cbn [mna.voltage_sources mna.opamps app] in Hlv, Hlo.
  now rewrite Hlv, Hlo.
Qed.

Lemma voltage_source_current_within (x : matrix cplx) (n V h id : Z) :
  shape x h 1 -> 0 <= n -> n + V <= h -> 0 <= id < V ->
  mna.voltage_source_current (mna.MnaSolution x n V) id
  = Ok (entry c_zero x (n + id) 0).
Proof.
  intros Hsh Hn Hh Hid. unfold mna.voltage_source_current.
  cbn [mna.m_node_count mna.m_solution mna.m_voltage_source_count].
  destruct (Z.ltb_spec id 0); [lia|].
  destruct (Z.geb_spec id V); [lia|]. cbn [orb].
  apply mat_get_ok. apply (shape_in_range x _ _ _ _ Hsh); lia.
Qed.

Lemma opamp_current_within (x : matrix cplx) (n V P id : Z) :
  shape x (n + (P + V)) 1 -> 0 <= n -> 0 <= V -> 0 <= id < P ->
  mna.opamp_current (mna.MnaSolution x n V) id
  = Ok (entry c_zero x (n + V + id) 0).
Proof.
  intros Hsh Hn HV Hid. unfold mna.opamp_current, get_height.
  cbn [mna.m_node_count mna.m_solution mna.m_voltage_source_count].
  replace (m_h x) with (n + (P + V)) by (symmetry; apply Hsh).
  destruct (Z.ltb_spec id 0); [lia|].
  destruct (Z.geb_spec id (n + (P + V) - n - V)); [lia|]. cbn [orb].
  apply mat_get_ok. apply (shape_in_range x _ _ _ _ Hsh); lia.
Qed.

End ComponentQueries.

(** X24. After a [solve] that ended normally on a solver holding the node map
    of a circuit of resistors, inductors, capacitors, sources and op-amps,
    [voltage], [current] and [power] succeed for every component of the
    circuit, and [power] returns the product of the two whichever of the
    two calls runs first.  For a voltage source object that is not in the
    circuit, [current] throws the [std::out_of_range] of
    [voltage_source_current]. *)
Theorem circuit_components_measurable {SC : Scalars} (circ : circuit)
  (omega : real) (s0 s : circuit_solver) :
  m_node_map s0 = fst (node_map_of circ) ->
  (forall ref v, (ref, v) ∈ circ -> is_lowered (pointee v) = true) ->
  solve circ omega s0 = (s, Ok tt) ->
  exists x, m_solution s = Some x /\ m_solution_omega s = Some omega /\
    (forall ref v, (ref, v) ∈ circ ->
       exists u i,
         voltage (m_node_map s) x v = Ok u /\
         current circ (m_node_map s) x omega v = Ok i /\
         forall current_first,
           power circ (m_node_map s) x omega current_first v
           = Ok (c_mul u i)) /\
    (forall v, is_voltage_source (pointee v) = true ->
       (forall ref v', (ref, v') ∈ circ -> address v' <> address v) ->
       current circ (m_node_map s) x omega v
       = Throw (out_of_range
                  "mna_solution::voltage_source_current() invalid source ID")).
Proof.
  intros Hmap Hlowered Hsolve.
  destruct (solved_circuit circ omega s0 s Hsolve)
    as (problem & x & Hlow & Hx & Hsh & ->).
  set (n := mna.get_max_node problem + 1) in *.
  set (V := Z.of_nat (length (mna.voltage_sources problem))) in *.
  set (P := Z.of_nat (length (mna.opamps problem))) in *.
  assert (Hn : 0 <= n)
    by (pose proof (get_max_node_ge problem); unfold n; lia).
  destruct (lowered_counts circ omega _ problem Hlow) as [HV HP].
  exists (mna.MnaSolution x n V).
  cbn [m_solution m_node_map m_solution_omega].
  split; [reflexivity|]. split; [reflexivity|].
  (* the voltage between two nodes of the circuit *)
  assert (Hnode : forall a, a = 0 \/ a ∈ circuit_labels circ ->
            exists i, m_node_map s0 !! a = Some i /\ i < n).
  { intros a [-> | Ha].
    - exists (-1). rewrite Hmap. split; [apply node_map_of_ground | lia].
    - now apply (label_index_below circ omega (m_node_map s0) problem a). }
  assert (Hbetween : forall a b,
            a = 0 \/ a ∈ circuit_labels circ ->
            b = 0 \/ b ∈ circuit_labels circ ->
            exists u, voltage_between (m_node_map s0)
                        (mna.MnaSolution x n V) a b = Ok u).
  { intros a b Ha Hb.
    destruct (Hnode a Ha) as (ia & Hia & Han).
    destruct (Hnode b Hb) as (ib & Hib & Hbn).
    unfold voltage_between.
    rewrite (node_at_some _ _ _ Hia), (node_at_some _ _ _ Hib). cbn [bind].
    rewrite (voltage_below x n V (n + (P + V)) ia ib Hsh)
      by (unfold P, V; lia).
    eexists; reflexivity. }
  assert (Hvoltage : forall ref v, (ref, v) ∈ circ ->
            exists u, voltage (m_node_map s0) (mna.MnaSolution x n V) v
                      = Ok u).
  { intros ref v Hin.
    assert (Hlabel : forall a, a ∈ component_labels (pointee v) ->
              a = 0 \/ a ∈ circuit_labels circ).
    { intros a Ha. right.
      now apply (component_labels_in_circuit circ ref v). }
    pose proof (Hlowered ref v Hin) as Hlw. unfold voltage.
    destruct (pointee v) as [[a b] ?|[a b] ?|[a b] ?|[a b] ? ?|[a b] ? ?
                            |a b o|[a b]|];
      cbn [as_bipole fst snd component_labels] in *; try discriminate;
      apply Hbetween; try (now left);
      apply Hlabel; rewrite !elem_of_cons; tauto. }
  assert (Hcurrent : forall ref v, (ref, v) ∈ circ ->
            exists i, current circ (m_node_map s0) (mna.MnaSolution x n V)
                        omega v = Ok i).
  { intros ref v Hin.
    destruct (Hvoltage ref v Hin) as (u & Hu).
    pose proof (Hlowered ref v Hin) as Hlw. unfold current.
    destruct (pointee v) as [[a b] ?|[a b] ?|[a b] ?|[a b] ? ?|[a b] ? ?
                            |a b o|[a b]|] eqn:Hpv;
      cbn [admittance] in *; try discriminate.
    - rewrite Hu. eexists; reflexivity.
    - rewrite Hu. eexists; reflexivity.
    - rewrite Hu. eexists; reflexivity.
    - pose proof (count_until_found is_voltage_source circ ref v Hin
                    ltac:(now rewrite Hpv) 0) as Hcnt.
      rewrite (voltage_source_current_within x n V (n + (P + V)))
        by (auto; unfold P, V in *; lia).
      eexists; reflexivity.
    - eexists; reflexivity.
    - pose proof (count_until_found is_opamp circ ref v Hin
                    ltac:(now rewrite Hpv) 0) as Hcnt.
      rewrite (opamp_current_within x n V P)
        by (auto; unfold P, V in *; lia).
      eexists; reflexivity. }
  split.
  - intros ref v Hin.
    destruct (Hvoltage ref v Hin) as (u & Hu).
    destruct (Hcurrent ref v Hin) as (i & Hi).
    exists u, i. split; [exact Hu|]. split; [exact Hi|].
    intros []; unfold power; rewrite Hu, Hi; reflexivity.
  - intros v Hvs Hmiss. unfold current.
    destruct (pointee v) as [[a b] ?|[a b] ?|[a b] ?|[a b] ? ?|[a b] ? ?
                            |a b o|[a b]|];
      cbn [is_voltage_source] in Hvs; try discriminate.
    cbn [admittance].
    rewrite (count_until_missing is_voltage_source circ (address v) Hmiss 0).
    unfold mna.voltage_source_current.
    cbn [mna.m_voltage_source_count].
    destruct (Z.ltb_spec (0 + Z.of_nat (count_wanted is_voltage_source circ)) 0);
      [reflexivity|].
    destruct (Z.geb_spec (0 + Z.of_nat (count_wanted is_voltage_source circ)) V);
      [reflexivity|].
    unfold V in *. lia.
Qed.

Lemma circuit_components_measurable_witness :
  exists x, m_solution divider_solver = Some x /\
    (exists i, current_ref divider_circuit (m_node_map divider_solver) x
                 (Exact.of_int 0) "V1" = Ok i) /\
    current divider_circuit (m_node_map divider_solver) x (Exact.of_int 0)
      stray_source
    = Throw (out_of_range
               "mna_solution::voltage_source_current() invalid source ID").
Proof.
  destruct (circuit_components_measurable divider_circuit (Exact.of_int 0)
              (new_solver divider_circuit) divider_solver eq_refl
              divider_circuit_lowered divider_circuit_solved)
    as (x & Hx & _ & Hcomp & Hstray).
  exists x. split; [exact Hx|]. split.
  - destruct (Hcomp "V1"%string
                (ComponentPtr (SC := exact_scalars) 1
                   (voltage_source (SC := exact_scalars) (1, 0)
                      (Exact.of_int 10) (Exact.of_int 0))))
      as (u & i & _ & Hi & _).
    + cbv [divider_circuit std_map.build fold_left]. cbn. repeat constructor.
    + exists i. exact Hi.
  - apply Hstray; [reflexivity|].
    intros ref v' H. cbv [divider_circuit std_map.build fold_left] in H.
    cbn in H.
    repeat (apply elem_of_cons in H; destruct H as [[= -> ->] | H];
            [discriminate|]).
    now apply elem_of_nil in H.
Defined.


(** ** extended.cpp: tokenize_string *)

Section Tokens.
Variable predicate : ascii -> bool.

Lemma runs_prefix (pre l cur : list ascii) :
  (forall c, c ∈ pre -> predicate c = false) ->
  runs predicate (pre ++ l) cur = runs predicate l (cur ++ pre).
Proof.
  revert cur. induction pre as [|c pre IH]; intros cur Hpre; cbn [app runs].
  - now rewrite app_nil_r.
  - rewrite (Hpre c) by left.
    rewrite IH by (intros c' Hc'; apply Hpre; now right).
    now rewrite <- app_assoc.
Qed.

(** Where [find_if] stops: after the longest prefix without a character
    that satisfies the predicate. *)
Lemma find_if_from_spec (l : list ascii) (first : nat) :
  exists k, extended.find_if_from predicate l first = (first + k)%nat /\
    (k <= length l)%nat /\
    (forall c, c ∈ take k l -> predicate c = false) /\
    (drop k l = [] \/
     exists c l', drop k l = c :: l' /\ predicate c = true).
Proof.
  revert first. induction l as [|c l IH]; intros first; cbn [extended.find_if_from].
  - exists O. rewrite Nat.add_0_r. split; [reflexivity|]. split; [reflexivity|].
    split; [intros c Hc; now apply elem_of_nil in Hc | now left].
  - destruct (predicate c) eqn:Hc.
    + exists O. rewrite Nat.add_0_r. split; [reflexivity|].
      split; [cbn; lia|].
      split; [intros c' Hc'; now apply elem_of_nil in Hc'|].
      right. now exists c, l.
    + destruct (IH (S first)) as (k & Hk & Hle & Hpre & Hrest).
      exists (S k). split; [rewrite Hk; lia|]. split; [cbn; lia|].
      split; [|exact Hrest].
      intros c' Hc'. cbn [take] in Hc'. apply elem_of_cons in Hc'.
      destruct Hc' as [-> | Hc']; [assumption | now apply Hpre].
Qed.

(** The loop, started at a position [bit] inside the string or at its
    end, appends the runs of the rest of the string. *)
Lemma tokenize_loop_spec (s : list ascii) :
  forall (fuel bit eit : nat) (tokens : list (list ascii)),
    (bit <= length s)%nat -> (eit < length s \/ bit = length s)%nat ->
    (length s - bit < fuel)%nat ->
    extended.tokenize_loop fuel s predicate bit eit tokens
    = Some (tokens ++ runs predicate (drop bit s) []).
Proof.
  induction fuel as [|fuel IH]; intros bit eit tokens Hbit Heit Hfuel; [lia|].
  cbn [extended.tokenize_loop].
  destruct (Nat.eqb_spec bit (length s)) as [->|Hne]; cbn [negb andb].
  - rewrite drop_all. cbn [runs]. now rewrite app_nil_r.
  - destruct (Nat.eqb_spec eit (length s)); [lia|]. cbn [negb andb].
    unfold extended.find_if.
    destruct (find_if_from_spec (drop bit s) bit)
      as (k & -> & Hk & Hpre & Hrest).
    rewrite length_drop in Hk.
    assert (Hsplit : drop bit s = take k (drop bit s) ++ drop k (drop bit s))
      by (symmetry; apply take_drop).
    assert (Htok : extended.substring s bit (bit + k) = take k (drop bit s)).
    { unfold extended.substring. f_equal. lia. }
    rewrite Htok.
    assert (Hrun : runs predicate (drop bit s) []
                   = runs predicate (drop k (drop bit s))
                       (take k (drop bit s))).
    { rewrite Hsplit at 1. now rewrite runs_prefix. }
    rewrite Hrun.
    assert (Hlen : length (take k (drop bit s)) = k)
      by (rewrite length_take, length_drop; lia).
    destruct Hrest as [Hend | (c & l' & Hrest & Hc)].
    + (* no separator is left: the loop ends at the next test *)
      rewrite Hend. cbn [runs].
      assert (Hk' : k = (length s - bit)%nat).
      { pose proof (f_equal length Hend) as Hl.
        rewrite !length_drop in Hl. cbn in Hl. lia. }
      destruct fuel as [|fuel]; [lia|]. cbn [extended.tokenize_loop].
      destruct (Nat.eqb_spec (S (bit + k)) (length s)); [lia|].
      destruct (Nat.eqb_spec (bit + k) (length s)); [|lia].
      cbn [negb andb].
      destruct (Nat.eqb_spec bit (bit + k)); [lia|]. cbn [negb].
      destruct (take k (drop bit s)) eqn:E; [cbn in Hlen; lia|].
      reflexivity.
    + (* a separator at [bit + k] *)
      assert (Hlt : (bit + k < length s)%nat).
      { pose proof (f_equal length Hrest) as Hl.
        rewrite !length_drop in Hl. cbn in Hl. lia. }
      rewrite Hrest. cbn [runs]. rewrite Hc.
      rewrite IH by lia.
      assert (Hl' : drop (S (bit + k)) s = l').
      { replace (S (bit + k)) with (bit + k + 1)%nat by lia.
        rewrite <- drop_drop, <- drop_drop, Hrest. reflexivity. }
      rewrite Hl'.
      destruct (Nat.eqb_spec bit (bit + k)) as [E|E]; cbn [negb].
      * assert (k = O) by lia. subst k. cbn [take app]. reflexivity.
      * destruct (take k (drop bit s)) eqn:E'; [cbn in Hlen; lia|].
        now rewrite <- app_assoc.
Qed.

Lemma runs_tokens (l cur : list ascii) :
  (forall c, c ∈ cur -> predicate c = false) ->
  forall t, t ∈ runs predicate l cur ->
    t <> [] /\ forall c, c ∈ t -> predicate c = false.
Proof.
  revert cur. induction l as [|c l IH]; intros cur Hcur t Ht; cbn [runs] in Ht.
  - destruct cur as [|c0 cur]; [now apply elem_of_nil in Ht|].
    apply list_elem_of_singleton in Ht. subst t. split; [discriminate | assumption].
  - destruct (predicate c) eqn:Hc.
    + apply elem_of_app in Ht. destruct Ht as [Ht | Ht].
      * destruct cur as [|c0 cur]; [now apply elem_of_nil in Ht|].
        apply list_elem_of_singleton in Ht. subst t.
        split; [discriminate | assumption].
      * apply (IH [] ltac:(intros c' Hc'; now apply elem_of_nil in Hc') t Ht).
    + apply (IH (cur ++ [c])); [|assumption].
      intros c' Hc'. apply elem_of_app in Hc'. destruct Hc' as [Hc' | Hc'].
      * now apply Hcur.
      * apply list_elem_of_singleton in Hc'. now subst c'.
Qed.

Lemma runs_concat (l cur : list ascii) :
  concat (runs predicate l cur)
  = cur ++ List.filter (fun c => negb (predicate c)) l.
Proof.
  revert cur. induction l as [|c l IH]; intros cur; cbn [runs List.filter].
  - destruct cur; cbn; now rewrite ?app_nil_r.
  - destruct (predicate c); cbn [negb].
    + rewrite concat_app, IH. destruct cur; cbn; now rewrite ?app_nil_r.
    + rewrite IH. now rewrite <- app_assoc.
Qed.

End Tokens.

(** X25. The loop of [tokenize_string] ends after at most [length s + 1]
    iterations.  It returns the maximal runs of characters that do not
    satisfy the predicate, in their order: no token is empty, no token
    holds a separator, and the tokens put together are the string without
    its separators. *)
Theorem tokenize_string_tokens (s : list ascii) (predicate : ascii -> bool)
  (fuel : nat) :
  (length s < fuel)%nat ->
  extended.tokenize_string fuel s predicate = Some (runs predicate s []) /\
  (forall t, t ∈ runs predicate s [] ->
     t <> [] /\ forall c, c ∈ t -> predicate c = false) /\
  concat (runs predicate s [])
  = List.filter (fun c => negb (predicate c)) s.
Proof.
  intros Hfuel. split; [|split].
  - unfold extended.tokenize_string.
    rewrite (tokenize_loop_spec predicate s fuel 0 0 []); [reflexivity|lia| |lia].
    destruct s; [now right | left; cbn; lia].
  - apply runs_tokens. intros c Hc. now apply elem_of_nil in Hc.
  - now rewrite runs_concat.
Qed.

(** A line of a netlist with a double blank. *)
Lemma tokenize_string_tokens_witness :
  extended.tokenize_string 12
    (list_ascii_of_string "R1 1  2") extended.isspace
  = Some (map list_ascii_of_string ["R1"; "1"; "2"]%string).
Proof.
  destruct (tokenize_string_tokens (list_ascii_of_string "R1 1  2")
              extended.isspace 12) as (Hrun & _).
  - cbn. lia.
  - exact Hrun.
Defined.

(** ** extended.cpp: the names of the probing methods *)

(** X26. The suffix printed for a probing method is the name that
    [read_spice_file] accepts for it, except for the phase: its name is
    ["ph"] and its suffix is ["p"], which is not a name of the table.  So
    the name of a probe reads as the probe was written for every method
    but the phase. *)
Theorem probing_method_names (name : string)
  (method : extended.complex_probing_method) (ref : string) :
  extended.complex_probing_names name = Some method ->
  extended.probing_method_suffix method
  = (if String.eqb name "ph" then "p" else name)%string /\
  ((name <> "ph")%string ->
   extended.current_probe_name method ref
   = ("I" ++ name ++ "(" ++ ref ++ ")")%string) /\
  extended.complex_probing_names "p" = None.
Proof.
  unfold extended.complex_probing_names. intros H.
  assert (Hsuffix : extended.probing_method_suffix method
                    = (if String.eqb name "ph" then "p" else name)%string).
  { repeat match type of H with
           | context [String.eqb name ?n] =>
               destruct (String.eqb_spec name n) as [->|?]
           end; try discriminate; injection H as <-; reflexivity. }
  split; [exact Hsuffix|]. split; [|reflexivity].
  intros Hne. unfold extended.current_probe_name. rewrite Hsuffix.
  destruct (String.eqb_spec name "ph"); [contradiction | reflexivity].
Qed.

Lemma probing_method_names_witness :
  extended.probing_method_suffix extended.PHASE = "p"%string /\
  extended.current_probe_name extended.MAGNITUDE "R1" = "Imag(R1)"%string.
Proof.
  split.
  - exact (proj1 (probing_method_names "ph" extended.PHASE "R1" eq_refl)).
  - destruct (probing_method_names "mag" extended.MAGNITUDE "R1" eq_refl)
      as (_ & Hname & _).
    apply Hname. discriminate.
Defined.


(** ** circuit.cpp: update *)

(** X27. [update] rebuilds the node map from the circuit as it is now.
    Without a solution it does nothing more; with one it solves again at
    the stored [omega].  It ends normally or throws the "Could not compute
    operating point" error of a singular system, and never the
    [std::out_of_range] of a node that is missing in the map. *)
Theorem update_outcome {SC : Scalars} (circ : circuit) (s : circuit_solver) :
  m_node_map (fst (update circ s)) = fst (node_map_of circ) /\
  (m_solution s = None ->
   update circ s = (update_node_map circ s, Ok tt)) /\
  (forall x omega, m_solution s = Some x -> m_solution_omega s = Some omega ->
   update circ s = solve circ omega (update_node_map circ s)) /\
  (snd (update circ s) = Ok tt \/
   snd (update circ s)
   = Throw (runtime_error
              "Could not compute operating point - reason: Could not solve equation system (Gaussian elimination failed)")).
Proof.
  assert (Hsolve : forall omega,
            let r := solve circ omega (update_node_map circ s) in
            m_node_map (fst r) = fst (node_map_of circ) /\
            (snd r = Ok tt \/
             snd r = Throw (runtime_error
               "Could not compute operating point - reason: Could not solve equation system (Gaussian elimination failed)"))).
  { intros omega. unfold solve.
    change (m_node_map (update_node_map circ s))
      with (fst (node_map_of circ)).
    destruct (lower_ok (fst (node_map_of circ)) omega circ
                (labels_mapped circ) (mna.MnaProblem [] [] [] []))
      as [problem Hlow].
    rewrite Hlow.
    destruct (mna_solve_total problem) as [(x & Hx & _) | Hthrow].
    - rewrite Hx. split; [reflexivity | now left].
    - rewrite Hthrow. split; [reflexivity | now right]. }
  unfold update.
  change (m_solution (update_node_map circ s)) with (m_solution s).
  change (m_solution_omega (update_node_map circ s))
    with (m_solution_omega s).
  destruct (m_solution s) as [x|]; [destruct (m_solution_omega s) as [omega|]|].
  - destruct (Hsolve omega) as [Hmap Hend].
    split; [exact Hmap|]. split; [discriminate|].
    split; [|exact Hend]. now intros x' omega' _ [= <-].
  - split; [reflexivity|]. split; [discriminate|].
    split; [discriminate | now left].
  - split; [reflexivity|]. split; [reflexivity|].
    split; [discriminate | now left].
Qed.


(** ** mna.cpp: the node rows of the assembled system *)

Section NodeRows.
Context {SC : Scalars}.

(** The column of [B] that the loop over the op-amps fills for the
    op-amp [q]. *)
Lemma fill_B_opamps_columns p n m (B1 : matrix cplx) :
  nodes_below n p -> shape B1 n m ->
  m = Z.of_nat (length (mna.opamps p))
      + Z.of_nat (length (mna.voltage_sources p)) ->
  exists B2, mna.fill_B_opamps p B1 = Ok B2 /\
    forall q opa, mna.opamps p !! q = Some opa ->
      forall r, 0 <= r < n ->
        entry c_zero B2 r
          (Z.of_nat (length (mna.voltage_sources p)) + Z.of_nat q)
        = if (mna.output_node opa >=? 0) && (r =? mna.output_node opa)
          then mna.c_one
          else entry c_zero B1 r
                 (Z.of_nat (length (mna.voltage_sources p)) + Z.of_nat q).
Proof.
  intros (_ & _ & _ & Hop) Hsh1 Hm.
  set (V := Z.of_nat (length (mna.voltage_sources p))) in *.
  set (col_of := fun (opa : mna.opamp) (old : cplx) (r : Z) =>
         if (mna.output_node opa >=? 0) && (r =? mna.output_node opa)
         then mna.c_one else old).
  destruct (for_each_inv
    (fun k B => shape B n m /\
       (forall q r, (k <= q)%nat -> V + Z.of_nat q < m -> 0 <= r < n ->
          entry c_zero B r (V + Z.of_nat q)
          = entry c_zero B1 r (V + Z.of_nat q)) /\
       (forall q opa, (q < k)%nat -> mna.opamps p !! q = Some opa ->
          forall r, 0 <= r < n ->
          entry c_zero B r (V + Z.of_nat q)
          = col_of opa (entry c_zero B1 r (V + Z.of_nat q)) r))
    (fun i opa B =>
       if mna.output_node opa >=? 0
       then mat_set B (mna.output_node opa) i mna.c_one
       else Ok B)
    (mna.opamps p) O V B1) as (B2 & Hrun & Hsh & _ & Hdone).
  - split; [assumption|]. split; [reflexivity|]. intros; lia.
  - intros k opa B Hk (Hsh & Hlater & Hdone). cbn [Nat.add] in *.
    assert (Hin : In opa (mna.opamps p)).
    { apply list_elem_of_In. eapply list_elem_of_lookup_2. exact Hk. }
    destruct (Hop opa Hin) as (_ & _ & Ho).
    pose proof (lookup_lt_Some _ _ _ Hk) as Hlt.
    destruct (Z.geb_spec (mna.output_node opa) 0) as [Ho0|Ho0].
    + assert (Hr : in_range B (mna.output_node opa) (V + Z.of_nat k))
        by (eapply shape_in_range; eauto; lia).
      rewrite (mat_set_ok _ _ _ _ Hr).
      eexists; split; [reflexivity|]. split; [now apply shape_write|].
      assert (Hread : forall i j, 0 <= i < n -> 0 <= j < m ->
                entry c_zero (mat_write B (mna.output_node opa)
                                (V + Z.of_nat k) mna.c_one) i j
                = if (i =? mna.output_node opa) && (j =? V + Z.of_nat k)
                  then mna.c_one else entry c_zero B i j).
      { intros i j Hi Hj. apply entry_write.
        - apply Hsh.
        - assumption.
        - eapply shape_in_range; eauto. }
      split.
      * intros q r Hq Hqm Hr'. rewrite Hread by lia.
        destruct (Z.eqb_spec (V + Z.of_nat q) (V + Z.of_nat k)); [lia|].
        rewrite andb_false_r. apply Hlater; auto. lia.
      * intros q opa' Hq Hk' r Hr'.
        pose proof (lookup_lt_Some _ _ _ Hk') as Hlt'.
        rewrite Hread by lia.
        destruct (Z.eqb_spec (V + Z.of_nat q) (V + Z.of_nat k)) as [E|E].
        -- assert (q = k) by lia. subst q. rewrite Hk in Hk'.
           injection Hk' as <-. unfold col_of.
           destruct (Z.geb_spec (mna.output_node opa) 0); [|lia].
           cbn [andb]. rewrite andb_true_r.
           destruct (Z.eqb_spec r (mna.output_node opa)); [reflexivity|].
           apply Hlater; auto; lia.
        -- rewrite andb_false_r. apply Hdone; auto. lia.
    + eexists; split; [reflexivity|]. split; [assumption|]. split.
      * intros q r Hq Hqm Hr'. apply Hlater; auto. lia.
      * intros q opa' Hq Hk' r Hr'.
        destruct (Nat.eq_dec q k) as [->|Hne].
        -- rewrite Hk in Hk'. injection Hk' as <-. unfold col_of.
           destruct (Z.geb_spec (mna.output_node opa) 0); [lia|].
           cbn [andb]. apply Hlater; auto; lia.
        -- apply Hdone; auto. lia.
  - exists B2. split; [exact Hrun|].
    intros q opa Hq r Hr. apply Hdone; auto.
    apply lookup_lt_Some in Hq. lia.
Qed.

(** The upper part of [z]: the currents that the current sources inject. *)
Lemma compute_matrix_z_top p n :
  0 <= n -> nodes_below n p ->
  (forall (x : cplx) (y : real), c_add_r x (r_opp y) = c_sub_r x y) ->
  exists z, mna.compute_matrix_z p n = Ok z /\
    forall k, 0 <= k < n -> entry c_zero z k 0 = i_entry p k.
Proof.
  intros Hn Hbelow Hsub.
  set (m := Z.of_nat (length (mna.opamps p))
            + Z.of_nat (length (mna.voltage_sources p))).
  destruct (fill_I_ok p n Hn Hbelow Hsub) as (I1 & HI1 & HshI & HI).
  destruct (fill_E_ok p m) as (E1 & HE1 & HshE & _); [unfold m; lia|].
  destruct (join_matrices_vertical_ok c_zero I1 E1 n m 1 HshI HshE)
    as (z & Hz & _ & Hup & _).
  exists z. split.
  - unfold mna.compute_matrix_z. fold m. rewrite HI1. cbn [bind].
    rewrite HE1. cbn [bind]. exact Hz.
  - intros k Hk. rewrite Hup by lia. now apply HI.
Qed.

(** The rows of the assembled system that belong to the nodes, and the
    column that the solver returned for it. *)
Lemma solve_node_rows p s :
  (forall (x : cplx) (y : real), c_add_r x (r_opp y) = c_sub_r x y) ->
  mna.solve p = Ok s ->
  let n := mna.get_max_node p + 1 in
  let V := Z.of_nat (length (mna.voltage_sources p)) in
  let m := Z.of_nat (length (mna.opamps p)) + V in
  exists system x,
    s = mna.MnaSolution x n V /\
    shape system (n + m) (n + m + 1) /\
    mna.gaussian_elimination system = Ok x /\
    forall i, 0 <= i < n ->
      (forall j, 0 <= j < n -> entry c_zero system i j = G_entry p i j) /\
      (forall k vs, mna.voltage_sources p !! k = Some vs ->
         entry c_zero system i (n + Z.of_nat k)
         = incidence (fst (mna.vs_nodes vs)) (snd (mna.vs_nodes vs)) i) /\
      (forall q opa, mna.opamps p !! q = Some opa ->
         entry c_zero system i (n + (V + Z.of_nat q))
         = if (mna.output_node opa >=? 0) && (i =? mna.output_node opa)
           then mna.c_one else c_zero) /\
      entry c_zero system i (n + m) = i_entry p i.
Proof.
  intros Hsub Hsolve n V m.
  assert (Hn : 0 <= n) by (pose proof (get_max_node_ge p); unfold n; lia).
  pose proof (get_max_node_below p) as Hbelow. fold n in Hbelow.
  destruct (compute_matrix_A_ok p n Hn Hbelow)
    as (G & B1 & C0 & B2 & C1 & A & HG & HB1 & _ & HB2 & _ & HA & HshA
        & HAG & HAB & _ & _).
  fold V m in HB1, HA, HshA, HAB.
  destruct (compute_matrix_z_total p n Hn Hbelow) as (z & Hz & Hshz & _).
  fold V m in Hshz.
  destruct (compute_matrix_z_top p n Hn Hbelow Hsub) as (z' & Hz' & Hztop).
  rewrite Hz in Hz'. injection Hz' as <-.
  destruct (join_matrices_horizontal_ok c_zero A z _ _ _ HshA Hshz)
    as (system & Hsys & Hshsys & HsysA & Hsysz).
  unfold mna.solve in Hsolve. fold n in Hsolve.
  rewrite HA in Hsolve. cbn [bind] in Hsolve.
  rewrite Hz in Hsolve. cbn [bind] in Hsolve.
  rewrite Hsys in Hsolve. cbn [bind] in Hsolve.
  destruct (mna.gaussian_elimination system) as [x|e] eqn:Hx;
    cbn [bind] in Hsolve; [|discriminate].
  injection Hsolve as <-. fold V.
  exists system, x. split; [reflexivity|]. split; [assumption|].
  split; [exact Hx|].
  destruct (fill_G_ok p n Hn Hbelow) as (G' & HG' & _ & HGent).
  rewrite HG in HG'. injection HG' as <-.
  assert (HshB0 : shape (matrix_new c_zero n m) n m)
    by (apply shape_new; unfold m, V; lia).
  destruct (fill_B_sources_columns p n m _ Hbelow HshB0)
    as (B1' & HB1' & HshB1 & HB1col); [unfold m, V; lia|].
  rewrite HB1 in HB1'. injection HB1' as <-.
  destruct (fill_B_sources_ok p n m _ Hbelow HshB0)
    as (B1' & HB1' & _ & HB1rest); [unfold m, V; lia|].
  rewrite HB1 in HB1'. injection HB1' as <-.
  destruct (fill_B_opamps_ok p n m B1 Hbelow HshB1 eq_refl)
    as (B2' & HB2' & _ & HB2src & _).
  rewrite HB2 in HB2'. injection HB2' as <-.
  destruct (fill_B_opamps_columns p n m B1 Hbelow HshB1 eq_refl)
    as (B2' & HB2' & HB2col).
  rewrite HB2 in HB2'. injection HB2' as <-.
  fold V in HB2src, HB2col.
  intros i Hi. split; [|split; [|split]].
  - intros j Hj. rewrite HsysA by lia. rewrite HAG by lia. now apply HGent.
  - intros k vs Hk. pose proof (lookup_lt_Some _ _ _ Hk) as Hlt.
    rewrite HsysA by (unfold m, V; lia).
    rewrite HAB by (unfold m, V; lia).
    rewrite HB2src by (unfold V; lia).
    rewrite (HB1col k vs Hk i Hi). rewrite entry_new. reflexivity.
  - intros q opa Hq. pose proof (lookup_lt_Some _ _ _ Hq) as Hlt.
    rewrite HsysA by (unfold m, V; lia).
    rewrite HAB by (unfold m, V; lia).
    rewrite (HB2col q opa Hq i Hi).
    rewrite HB1rest by (unfold m, V; lia). rewrite entry_new. reflexivity.
  - replace (n + m) with (n + m + 0) by lia.
    rewrite Hsysz by lia. now apply Hztop.
Qed.

End NodeRows.


(** ** mna.cpp: the currents at a node of a solved problem *)

Section ExactNodes.
Context {SC : Scalars}.
Hypothesis laws : exact_arithmetic.
Implicit Types x system : matrix cplx.

Add Ring cplx_ring_nodes : (ea_ring laws).

Lemma sum_list_acc (l : list cplx) (acc : cplx) :
  fold_left c_add l acc = c_add acc (sum_list l).
Proof.
  unfold sum_list. revert acc.
  induction l as [|a l IH]; intros acc; cbn [fold_left].
  - ring.
  - rewrite IH, (IH (c_add c_zero a)). ring.
Qed.

Lemma sum_list_cons (a : cplx) (l : list cplx) :
  sum_list (a :: l) = c_add a (sum_list l).
Proof.
  unfold sum_list at 1. cbn [fold_left]. rewrite sum_list_acc. ring.
Qed.

(** A sum over the rows [b], [b + 1], ... that belong to the elements of
    a list is the sum over the list. *)
Lemma sum_indexed {A : Type} (l : list A) :
  forall (f : nat -> A -> cplx) (t : Z -> cplx) (b : Z),
  (forall k a, l !! k = Some a -> t (b + Z.of_nat k) = f k a) ->
  fold_left (fun s j => c_add s (t j)) (seqZ b (Z.of_nat (length l))) c_zero
  = sum_list (imap f l).
Proof.
  induction l as [|a l IH]; intros f t b H.
  - reflexivity.
  - cbn [length imap]. rewrite seqZ_cons by lia.
    replace (Z.pred (Z.of_nat (S (length l)))) with (Z.of_nat (length l))
      by lia.
    cbn [fold_left]. rewrite (sum_acc laws), sum_list_cons.
    rewrite (IH (fun k => f (S k)) t (Z.succ b)).
    + rewrite <- (H O a eq_refl). replace (b + Z.of_nat 0) with b by lia.
      change (f ∘ S) with (fun k => f (S k)). ring.
    + intros k a' Hk. rewrite <- (H (S k) a' Hk). f_equal. lia.
Qed.

(** What one admittance adds to the equation of node [i]. *)
Lemma admittance_row_step (g : Z -> cplx) x i n (elem : mna.admittance) :
  0 <= n ->
  fst (mna.adm_nodes elem) < n -> snd (mna.adm_nodes elem) < n ->
  fold_left (fun s j => c_add s (c_mul (G_contribution i j (g j) elem)
                                   (entry c_zero x j 0)))
    (seqZ 0 n) c_zero
  = c_add (fold_left (fun s j => c_add s (c_mul (g j) (entry c_zero x j 0)))
             (seqZ 0 n) c_zero)
      (admittance_flow x i elem).
Proof.
  intros Hn Ha Hb. destruct elem as [[a b] Y].
  unfold admittance_flow. cbn [mna.adm_nodes mna.Y fst snd] in *.
  set (tg := fun j => c_mul (g j) (entry c_zero x j 0)).
  set (ta := fun j =>
         if j =? a
         then c_mul (c_sub (if (a >=? 0) && (i =? a) then Y else c_zero)
                       (if ((a >=? 0) && (b >=? 0)) && (i =? b)
                        then Y else c_zero))
                (entry c_zero x j 0)
         else c_zero).
  set (tb := fun j =>
         if j =? b
         then c_mul (c_sub (if (b >=? 0) && (i =? b) then Y else c_zero)
                       (if ((a >=? 0) && (b >=? 0)) && (i =? a)
                        then Y else c_zero))
                (entry c_zero x j 0)
         else c_zero).
  rewrite (sum_ext _
             (fun j => c_add (c_mul mna.c_one (tg j))
                         (c_add (c_mul mna.c_one (ta j)) (tb j)))).
  - rewrite (sum_linear laws mna.c_one tg
               (fun j => c_add (c_mul mna.c_one (ta j)) (tb j))).
    rewrite (sum_linear laws mna.c_one ta tb).
    change (fold_left (fun s j => c_add s (c_mul (g j) (entry c_zero x j 0)))
              (seqZ 0 n) c_zero)
      with (fold_left (fun s j => c_add s (tg j)) (seqZ 0 n) c_zero).
    generalize (fold_left (fun s j => c_add s (tg j)) (seqZ 0 n) c_zero).
    intros S. unfold ta, tb.
    replace n with (Z.of_nat (Z.to_nat n)) by lia.
    rewrite !sum_only by exact laws. rewrite Z2Nat.id by lia.
    unfold potential.
    destruct (Z.geb_spec a 0); destruct (Z.leb_spec 0 a);
      destruct (Z.ltb_spec a 0); try lia;
      destruct (Z.geb_spec b 0); destruct (Z.leb_spec 0 b);
      destruct (Z.ltb_spec b 0); try lia;
      destruct (Z.ltb_spec a n); try lia;
      destruct (Z.ltb_spec b n); try lia;
      destruct (Z.eqb_spec i a); destruct (Z.eqb_spec i b);
      cbn [andb]; ring.
  - intros j _. unfold tg, ta, tb, G_contribution.
    cbn [mna.adm_nodes mna.Y fst snd].
    destruct (Z.geb_spec a 0); destruct (Z.geb_spec b 0);
      destruct (Z.eqb_spec i a); destruct (Z.eqb_spec i b);
      destruct (Z.eqb_spec j a); destruct (Z.eqb_spec j b);
      cbn [andb]; try lia; ring.
Qed.

(** The terms of the equation of node [i] that come from [G] are the
    currents through the admittances. *)
Lemma admittance_rows_flow (l : list mna.admittance) x i n :
  0 <= n ->
  (forall elem, In elem l ->
     fst (mna.adm_nodes elem) < n /\ snd (mna.adm_nodes elem) < n) ->
  forall g : Z -> cplx,
  fold_left (fun s j => c_add s
               (c_mul (fold_left (G_contribution i j) l (g j))
                  (entry c_zero x j 0)))
    (seqZ 0 n) c_zero
  = c_add (fold_left (fun s j => c_add s (c_mul (g j) (entry c_zero x j 0)))
             (seqZ 0 n) c_zero)
      (sum_list (map (admittance_flow x i) l)).
Proof.
  intros Hn. induction l as [|elem l IH]; intros Hl g.
  - cbn [fold_left map]. unfold sum_list. cbn [fold_left]. ring.
  - cbn [fold_left map].
    pose proof (IH (fun e He => Hl e (or_intror He))
                  (fun j => G_contribution i j (g j) elem)) as IH'.
    cbv beta in IH'. rewrite IH'.
    destruct (Hl elem (or_introl eq_refl)) as [Ha Hb].
    rewrite admittance_row_step by assumption.
    rewrite sum_list_cons. ring.
Qed.

(** The terms of the equation of node [i] that come from [G]. *)
Lemma G_row_flow (p : mna.mna_problem) x i n :
  0 <= n ->
  (forall elem, In elem (mna.admittances p) ->
     fst (mna.adm_nodes elem) < n /\ snd (mna.adm_nodes elem) < n) ->
  fold_left (fun s j => c_add s (c_mul (G_entry p i j) (entry c_zero x j 0)))
    (seqZ 0 n) c_zero
  = sum_list (map (admittance_flow x i) (mna.admittances p)).
Proof.
  intros Hn Hadm. unfold G_entry.
  rewrite (admittance_rows_flow (mna.admittances p) x i n Hn Hadm
             (fun _ => c_zero)).
  rewrite (sum_zero laws (fun j => c_mul c_zero (entry c_zero x j 0)))
    by (intros; ring).
  ring.
Qed.

Lemma unit_column_term (c : bool) (v : cplx) :
  c_mul (if c then mna.c_one else c_zero) v = if c then v else c_zero.
Proof. destruct c; ring. Qed.

(** The left-hand side of an equation, in three runs of columns. *)
Lemma lhs_at_split system x i n V P :
  0 <= n -> 0 <= V -> 0 <= P ->
  let t := fun j => c_mul (entry c_zero system i j) (entry c_zero x j 0) in
  lhs_at (n + (P + V)) system x i
  = c_add
      (c_add (fold_left (fun s j => c_add s (t j)) (seqZ 0 n) c_zero)
         (fold_left (fun s j => c_add s (t j)) (seqZ n V) c_zero))
      (fold_left (fun s j => c_add s (t j)) (seqZ (n + V) P) c_zero).
Proof.
  intros Hn HV HP t. unfold lhs_at.
  change (fun acc j => c_add acc (c_mul (entry c_zero system i j)
                                    (entry c_zero x j 0)))
    with (fun acc j => c_add acc (t j)).
  replace (n + (P + V)) with (n + V + P) by lia.
  rewrite seqZ_app by lia. rewrite seqZ_app by lia.
  rewrite !fold_left_app.
  replace (0 + n) with n by lia. replace (0 + (n + V)) with (n + V) by lia.
  rewrite (sum_acc laws t (seqZ (n + V) P)).
  rewrite (sum_acc laws t (seqZ n V)).
  reflexivity.
Qed.

End ExactNodes.

(** X28. In exact arithmetic, the column that [solve] returns obeys Kirchhoff's
    current law at every node [i] of the problem: the currents that leave
    the node through the admittances, plus the currents of the voltage
    sources (counted [+1] at their first node, [-1] at their second) and
    the output currents of the op-amps whose output is the node, add up
    to the current that the current sources inject at the node. *)
Theorem kirchhoff_current_law {SC : Scalars} (p : mna.mna_problem)
  (s : mna.mna_solution) (i : Z) :
  exact_arithmetic ->
  (forall (z : cplx) (y : real), c_add_r z (r_opp y) = c_sub_r z y) ->
  mna.solve p = Ok s ->
  0 <= i <= mna.get_max_node p ->
  let x := mna.m_solution s in
  let n := mna.m_node_count s in
  let V := mna.m_voltage_source_count s in
  c_add
    (c_add (sum_list (map (admittance_flow x i) (mna.admittances p)))
       (sum_list (imap (source_flow n x i) (mna.voltage_sources p))))
    (sum_list (imap (opamp_flow (n + V) x i) (mna.opamps p)))
  = i_entry p i.
Proof.
  intros laws Hsub Hsolve Hi.
  destruct (solve_node_rows p s Hsub Hsolve)
    as (system & x & -> & Hshsys & Hrun & Hrows).
  cbn [mna.m_solution mna.m_node_count mna.m_voltage_source_count].
  set (n := mna.get_max_node p + 1) in *.
  set (V := Z.of_nat (length (mna.voltage_sources p))) in *.
  set (P := Z.of_nat (length (mna.opamps p))) in *.
  assert (Hn : 0 <= n) by lia.
  destruct (gaussian_elimination_exact laws system (n + (P + V)) x Hshsys Hrun)
    as (_ & Hsol & _).
  destruct (Hrows i) as (HG & Hsrc & Hop & Hrhs); [lia|].
  destruct (get_max_node_below p) as (Hadm & _). fold n in Hadm.
  rewrite <- Hrhs, <- (Hsol i) by (unfold P, V; lia).
  rewrite (lhs_at_split laws system x i n V P) by (unfold P, V; lia).
  f_equal; [f_equal|].
  - rewrite <- (G_row_flow laws p x i n Hn Hadm).
    apply sum_ext. intros j Hj. apply elem_of_seqZ in Hj.
    now rewrite HG by lia.
  - symmetry. apply (sum_indexed laws).
    intros k vs Hk. unfold source_flow. now rewrite (Hsrc k vs Hk).
  - symmetry. apply (sum_indexed laws).
    intros q opa Hq. unfold opamp_flow.
    replace (n + V + Z.of_nat q) with (n + (V + Z.of_nat q)) by lia.
    rewrite (Hop q opa Hq). apply (unit_column_term laws).
Qed.

Lemma kirchhoff_current_law_witness :
  let x := mna.m_solution divider_solution in
  c_add
    (c_add (sum_list (map (admittance_flow x 1) (mna.admittances divider_problem)))
       (sum_list (imap (source_flow 2 x 1) (mna.voltage_sources divider_problem))))
    (sum_list (imap (opamp_flow (2 + 1) x 1) (mna.opamps divider_problem)))
  = i_entry divider_problem 1.
Proof.
  apply (kirchhoff_current_law divider_problem divider_solution 1
           exact_scalars_exact exact_add_opp divider_problem_solved).
  change (mna.get_max_node divider_problem) with 1. lia.
Defined.
